(** * Vocab Highlighter: the vocabulary store, the write queue, the context
    window and the page scanner, embedded from the extension's sources.

    JavaScript strings are sequences of UTF-16 code units; a string is a
    [list N] here and its [length] is the JavaScript [length].  The Unicode
    case tables belong to the runtime, not to the extension: they are
    section variables, and every theorem holds for whatever they are. *)

From Stdlib Require Import String Ascii NArith.
From stdpp Require Import list strings relations gmap.

Local Open Scope list_scope.
Local Open Scope nat_scope.

Abbreviation jsstring := (list N).

(** An ASCII literal as a JavaScript string. *)
Definition js (s : string) : jsstring :=
  map N_of_ascii (list_ascii_of_string s).

(** [toLowerCase] on strings of ASCII code units, where it only maps [A-Z]
    to [a-z]: the instance used to run the definitions on concrete inputs. *)
Definition asciiToLowerCase (s : jsstring) : jsstring :=
  map (fun c => if ((65 <=? c) && (c <=? 90))%N then (c + 32)%N else c) s.

(** ** The vocabulary store (service worker) *)

Module Store.

(** One persisted vocabulary record. *)
Record VocabEntry := mkEntry {
  word : jsstring;
  translation : jsstring;
  context : jsstring;
  sourceUrl : jsstring;
  addedAt : jsstring
}.

(** The argument object of [saveVocabEntry]: [context] and [sourceUrl] may be
    [undefined] in the message payload. *)
Record SaveRequest := mkRequest {
  reqWord : jsstring;
  reqTranslation : jsstring;
  reqContext : option jsstring;
  reqSourceUrl : option jsstring
}.

#[global] Instance VocabEntry_eq_dec : EqDecision VocabEntry.
Proof. solve_decision. Defined.

(** [x || ""] for [x] a string or [undefined]: both falsy values give [""]. *)
Definition orEmpty (x : option jsstring) : jsstring := default [] x.

Section WithCaseTable.

(** [String.prototype.toLowerCase], provided by the runtime. *)
Variable toLowerCase : jsstring -> jsstring.

(** The comparison key of an entry: [e.word.toLowerCase()]. *)
Definition key (e : VocabEntry) : jsstring := toLowerCase (word e).

(** The object literal [vocabEntry] built by [saveVocabEntry]. *)
Definition freshEntry (now : jsstring) (entry : SaveRequest) : VocabEntry :=
  {| word := reqWord entry;
     translation := reqTranslation entry;
     context := orEmpty (reqContext entry);
     sourceUrl := orEmpty (reqSourceUrl entry);
     addedAt := now |}.

(** [vocabEntry.addedAt = vocabList[existingIndex].addedAt]. *)
Definition withAddedAt (t : jsstring) (e : VocabEntry) : VocabEntry :=
  {| word := word e; translation := translation e; context := context e;
     sourceUrl := sourceUrl e; addedAt := t |}.

(** [entry.translation = translation]. *)
Definition withTranslation (t : jsstring) (e : VocabEntry) : VocabEntry :=
  {| word := word e; translation := t; context := context e;
     sourceUrl := sourceUrl e; addedAt := addedAt e |}.

(** The body of [saveVocabEntry] between the storage read and the storage
    write: the list handed to [storage.set] and the [updated] flag.  [now] is
    what [new Date().toISOString()] returns when the body runs. *)
Definition saveVocabEntry (now : jsstring) (entry : SaveRequest)
    (vocabList : list VocabEntry) : list VocabEntry * bool :=
  let lowerWord := toLowerCase (reqWord entry) in
  let vocabEntry := freshEntry now entry in
  match list_find (fun e => toLowerCase (word e) = lowerWord) vocabList with
  | Some (existingIndex, existing) =>
      (<[existingIndex := withAddedAt (addedAt existing) vocabEntry]> vocabList,
       true)
  | None => (vocabList ++ [vocabEntry], false)
  end.

(** The body of [deleteVocabEntry]: the filtered list, with [success: true]. *)
Definition deleteVocabEntry (w : jsstring) (vocabList : list VocabEntry)
    : list VocabEntry * bool :=
  let lowerWord := toLowerCase w in
  (filter (fun e => toLowerCase (word e) <> lowerWord) vocabList, true).

(** The body of [updateVocabEntry]: [find] returns the first matching object
    of the freshly read array and the assignment mutates it in place. *)
Definition updateVocabEntry (w t : jsstring) (vocabList : list VocabEntry)
    : list VocabEntry * bool :=
  let lowerWord := toLowerCase w in
  match list_find (fun e => toLowerCase (word e) = lowerWord) vocabList with
  | Some (i, entry) => (<[i := withTranslation t entry]> vocabList, true)
  | None => (vocabList, false)
  end.

(** The three mutating store operations as data. *)
Inductive mutation :=
| Upsert (entry : SaveRequest)
| Remove (w : jsstring)
| UpdateTranslation (w t : jsstring).

(** The read-modify-write body of a mutation. *)
Definition applyMutation (now : jsstring) (m : mutation)
    (vocabList : list VocabEntry) : list VocabEntry * bool :=
  match m with
  | Upsert entry => saveVocabEntry now entry vocabList
  | Remove w => deleteVocabEntry w vocabList
  | UpdateTranslation w t => updateVocabEntry w t vocabList
  end.

(** At most one entry per case-insensitive word. *)
Definition unique (vocabList : list VocabEntry) : Prop :=
  NoDup (key <$> vocabList).

(** A run of [upsert] calls, each with the instant at which it executes. *)
Definition upsertAll (calls : list (jsstring * SaveRequest))
    (vocabList : list VocabEntry) : list VocabEntry :=
  foldl (fun l c => (saveVocabEntry c.1 c.2 l).1) vocabList calls.

(** *** Helper lemmas *)

Lemma key_withAddedAt t e : key (withAddedAt t e) = key e.
Proof. reflexivity. Qed.

Lemma key_withTranslation t e : key (withTranslation t e) = key e.
Proof. reflexivity. Qed.

Lemma map_key_insert_same (l : list VocabEntry) i e e' :
  l !! i = Some e -> key e' = key e ->
  (key <$> <[i := e']> l) = (key <$> l).
Proof.
  intros Hi Hk. rewrite list_fmap_insert, Hk.
  apply list_insert_id. by rewrite list_lookup_fmap, Hi.
Qed.

Lemma save_keys_found now entry l i e :
  list_find (fun e => toLowerCase (word e) = toLowerCase (reqWord entry)) l
    = Some (i, e) ->
  (key <$> (saveVocabEntry now entry l).1) = (key <$> l).
Proof.
  intros Hf. unfold saveVocabEntry. rewrite Hf. simpl.
  apply list_find_Some in Hf as (Hi & Hk & _).
  apply (map_key_insert_same _ _ e); [done|].
  unfold key. simpl. by rewrite Hk.
Qed.

Lemma save_keys_fresh now entry l :
  list_find (fun e => toLowerCase (word e) = toLowerCase (reqWord entry)) l
    = None ->
  (key <$> (saveVocabEntry now entry l).1)
    = (key <$> l) ++ [toLowerCase (reqWord entry)].
Proof.
  intros Hf. unfold saveVocabEntry. rewrite Hf. simpl.
  by rewrite fmap_app.
Qed.

Lemma find_None_key w (l : list VocabEntry) :
  list_find (fun e => toLowerCase (word e) = w) l = None ->
  w ∉ (key <$> l).
Proof.
  intros Hf%list_find_None Hin.
  apply list_elem_of_fmap in Hin as (e & -> & He).
  rewrite Forall_forall in Hf. by apply (Hf e).
Qed.

Lemma find_Some_key w (l : list VocabEntry) i e :
  list_find (fun e => toLowerCase (word e) = w) l = Some (i, e) ->
  w ∈ (key <$> l).
Proof.
  intros (Hi & Hk & _)%list_find_Some.
  apply list_elem_of_fmap. exists e. split; [done|].
  by eapply list_elem_of_lookup_2.
Qed.

Lemma save_unique now entry l :
  unique l -> unique (saveVocabEntry now entry l).1.
Proof.
  unfold unique. intros Hu.
  destruct (list_find (fun e => toLowerCase (word e) = toLowerCase (reqWord entry)) l)
    as [[i e]|] eqn:Hf.
  - by rewrite (save_keys_found _ _ _ _ _ Hf).
  - rewrite (save_keys_fresh _ _ _ Hf).
    apply NoDup_app. split_and!; [done| |apply NoDup_singleton].
    intros k Hk ->%list_elem_of_singleton.
    by apply find_None_key in Hf.
Qed.

Lemma delete_unique w l :
  unique l -> unique (deleteVocabEntry w l).1.
Proof.
  unfold unique, deleteVocabEntry. simpl.
  induction l as [|e l IH]; [done|].
  intros Hu. simpl in Hu. apply NoDup_cons in Hu as [Hn Hu].
  rewrite filter_cons. case_decide.
  - simpl. apply NoDup_cons. split; [|by apply IH].
    intros Hin. apply Hn.
    apply list_elem_of_fmap in Hin as (e' & Hk & He').
    apply list_elem_of_filter in He' as [_ He'].
    apply list_elem_of_fmap. eauto.
  - by apply IH.
Qed.

Lemma update_unique w t l :
  unique l -> unique (updateVocabEntry w t l).1.
Proof.
  unfold unique, updateVocabEntry. intros Hu.
  destruct (list_find _ l) as [[i e]|] eqn:Hf; simpl; [|done].
  apply list_find_Some in Hf as (Hi & _ & _).
  by rewrite (map_key_insert_same _ _ e).
Qed.

Lemma applyMutation_unique now m l :
  unique l -> unique (applyMutation now m l).1.
Proof.
  destruct m; simpl;
    [apply save_unique | apply delete_unique | apply update_unique].
Qed.

Lemma save_key_set now entry l k :
  k ∈ (key <$> (saveVocabEntry now entry l).1) <->
  k ∈ (key <$> l) \/ k = toLowerCase (reqWord entry).
Proof.
  destruct (list_find (fun e => toLowerCase (word e) = toLowerCase (reqWord entry)) l)
    as [[i e]|] eqn:Hf.
  - rewrite (save_keys_found _ _ _ _ _ Hf).
    apply find_Some_key in Hf. split; [auto|]. by intros [?| ->].
  - rewrite (save_keys_fresh _ _ _ Hf), elem_of_app, list_elem_of_singleton.
    done.
Qed.

Lemma upsertAll_snoc calls c l :
  upsertAll (calls ++ [c]) l = (saveVocabEntry c.1 c.2 (upsertAll calls l)).1.
Proof. unfold upsertAll. by rewrite foldl_app. Qed.

Lemma upsertAll_unique calls l : unique l -> unique (upsertAll calls l).
Proof.
  intros Hu. induction calls as [|c calls IH] using rev_ind; [done|].
  rewrite upsertAll_snoc. by apply save_unique.
Qed.

Lemma upsertAll_key_set calls l k :
  k ∈ (key <$> upsertAll calls l) <->
  k ∈ (key <$> l) \/ k ∈ ((fun c => toLowerCase (reqWord c.2)) <$> calls).
Proof.
  induction calls as [|c calls IH] using rev_ind.
  - simpl. rewrite elem_of_nil. tauto.
  - rewrite upsertAll_snoc, save_key_set, IH, fmap_app, elem_of_app.
    simpl. rewrite list_elem_of_singleton. tauto.
Qed.

Lemma unique_count_one (l : list VocabEntry) k :
  unique l -> k ∈ (key <$> l) ->
  length (filter (fun e => key e = k) l) = 1.
Proof.
  unfold unique. induction l as [|e l IH]; simpl.
  - intros _ H. by apply elem_of_nil in H.
  - intros [Hn Hu]%NoDup_cons Hin. rewrite filter_cons. case_decide as Hk.
    + simpl. f_equal.
      destruct (filter (fun e => key e = k) l) as [|e' l'] eqn:E; [done|].
      exfalso. assert (e' ∈ filter (fun e => key e = k) l) as He'.
      { rewrite E. left. }
      apply list_elem_of_filter in He' as [Hk' He'].
      apply Hn. rewrite Hk, <- Hk'. apply list_elem_of_fmap. eauto.
    + apply IH; [done|]. apply elem_of_cons in Hin as [->|]; done.
Qed.

(** *** The claims about the store operations *)

(** C2: [upsert] on a word that some entry matches case-insensitively
    replaces that entry (the first match) by one carrying the call's
    translation, context and source URL and the old [addedAt], and returns
    [updated = true]; on a word no entry matches it appends a new entry
    stamped with the current time and returns [updated = false]. *)
Theorem saveVocabEntry_spec now entry vocabList :
  let matches e := toLowerCase (word e) = toLowerCase (reqWord entry) in
  ((exists e, e ∈ vocabList /\ matches e) ->
   exists i old,
     vocabList !! i = Some old /\ matches old /\
     (forall j y, vocabList !! j = Some y -> j < i -> ~ matches y) /\
     saveVocabEntry now entry vocabList =
       (<[i := {| word := reqWord entry;
                  translation := reqTranslation entry;
                  context := orEmpty (reqContext entry);
                  sourceUrl := orEmpty (reqSourceUrl entry);
                  addedAt := addedAt old |}]> vocabList, true))
  /\
  ((forall e, e ∈ vocabList -> ~ matches e) ->
   saveVocabEntry now entry vocabList =
     (vocabList ++ [ {| word := reqWord entry;
                        translation := reqTranslation entry;
                        context := orEmpty (reqContext entry);
                        sourceUrl := orEmpty (reqSourceUrl entry);
                        addedAt := now |} ], false)).
Proof.
  intros matches. split.
  - intros (e & He & Hm).
    destruct (list_find_elem_of matches vocabList e He Hm) as [[i old] Hf].
    exists i, old. unfold saveVocabEntry. fold matches. rewrite Hf.
    apply list_find_Some in Hf as (Hi & Hold & Hleast). done.
  - intros Hnone. unfold saveVocabEntry. fold matches.
    assert (list_find matches vocabList = None) as ->; [|done].
    apply list_find_None, Forall_forall. exact Hnone.
Qed.

(** C3: every store operation keeps at most one entry per case-insensitive
    word, and after any run of [upsert] calls the list holds exactly one entry
    for each distinct case-insensitive word, whatever casing the calls used. *)
Theorem store_unique_invariant vocabList :
  unique vocabList ->
  (forall now m, unique (applyMutation now m vocabList).1) /\
  (forall calls,
     let r := upsertAll calls vocabList in
     unique r /\
     (forall k, k ∈ (key <$> r) <->
        k ∈ (key <$> vocabList) \/
        k ∈ ((fun c => toLowerCase (reqWord c.2)) <$> calls)) /\
     (forall c, c ∈ calls ->
        length (filter (fun e => key e = toLowerCase (reqWord c.2)) r) = 1)).
Proof.
  intros Hu. split.
  - intros now m. by apply applyMutation_unique.
  - intros calls r. split_and!.
    + by apply upsertAll_unique.
    + intros k. apply upsertAll_key_set.
    + intros c Hc. apply unique_count_one; [by apply upsertAll_unique|].
      apply upsertAll_key_set. right.
      apply list_elem_of_fmap. by exists c.
Qed.

(** C4, as the code has it: the context of a stored entry is left alone by
    [remove] (for the entries that survive) and by [updateTranslation]; an
    [upsert] leaves it alone in every entry but the first one matching the
    word case-insensitively, where it stores the context of the new call (the
    empty string when the call has none). *)
Theorem context_frame now m vocabList :
  match m with
  | Upsert entry =>
      forall i e, vocabList !! i = Some e ->
        exists e', (applyMutation now m vocabList).1 !! i = Some e' /\
          let first :=
            list_find (fun x => toLowerCase (word x) = toLowerCase (reqWord entry))
              vocabList = Some (i, e) in
          (first -> context e' = orEmpty (reqContext entry)) /\
          (~ first -> e' = e)
  | Remove w =>
      forall e', e' ∈ (applyMutation now m vocabList).1 ->
        e' ∈ vocabList /\ toLowerCase (word e') <> toLowerCase w
  | UpdateTranslation w t =>
      context <$> (applyMutation now m vocabList).1 = context <$> vocabList
  end.
Proof.
  destruct m as [entry|w|w t]; simpl.
  - intros i e Hi. unfold saveVocabEntry.
    destruct (list_find _ vocabList) as [[j old]|] eqn:Hf; simpl.
    + destruct (decide (j = i)) as [->|Hne].
      * pose proof Hf as (Hj & _)%list_find_Some.
        assert (old = e) as -> by congruence.
        eexists. split.
        { apply list_lookup_insert_eq. by eapply lookup_lt_Some. }
        split; [done|]. intros Hn. by destruct Hn.
      * exists e. split; [by rewrite list_lookup_insert_ne|].
        split; [|done]. intros [=]. done.
    + exists e. split; [by apply lookup_app_l_Some|].
      split; [|done]. intros [=].
  - intros e' He'. apply list_elem_of_filter in He' as [? ?]. done.
  - unfold updateVocabEntry.
    destruct (list_find _ vocabList) as [[j old]|] eqn:Hf; simpl; [|done].
    apply list_find_Some in Hf as (Hj & _).
    rewrite list_fmap_insert. simpl.
    apply list_insert_id. by rewrite list_lookup_fmap, Hj.
Qed.

(** C10: an [upsert] whose word matches a stored entry case-insensitively but
    is spelled with another casing stores the new spelling in the entry's
    [word] field, while [addedAt] stays what it was. *)
Theorem upsert_replaces_word_casing now entry vocabList i old :
  vocabList !! i = Some old ->
  toLowerCase (word old) = toLowerCase (reqWord entry) ->
  (forall j y, vocabList !! j = Some y -> j < i ->
     toLowerCase (word y) <> toLowerCase (reqWord entry)) ->
  word old <> reqWord entry ->
  exists e',
    (saveVocabEntry now entry vocabList).1 !! i = Some e' /\
    (saveVocabEntry now entry vocabList).2 = true /\
    word e' = reqWord entry /\ word e' <> word old /\
    addedAt e' = addedAt old.
Proof.
  intros Hi Hk Hleast Hcase.
  assert (list_find (fun e => toLowerCase (word e) = toLowerCase (reqWord entry))
            vocabList = Some (i, old)) as Hf.
  { apply list_find_Some. done. }
  unfold saveVocabEntry. rewrite Hf. simpl.
  eexists. split.
  { apply list_lookup_insert_eq. by eapply lookup_lt_Some. }
  simpl. split_and!; [done|done| |done]. congruence.
Qed.

End WithCaseTable.

(** *** The store on concrete inputs *)

Definition catRequest : SaveRequest :=
  mkRequest (js "cat") (js "mao") (Some (js "A cat sat.")) (Some (js "u1")).

Definition CatRequest : SaveRequest :=
  mkRequest (js "Cat") (js "mao (animal)") (Some (js "Cat food.")) None.

Definition oneCat : list VocabEntry :=
  (saveVocabEntry asciiToLowerCase (js "2026-02-11") catRequest []).1.

Example oneCat_value :
  oneCat = [mkEntry (js "cat") (js "mao") (js "A cat sat.") (js "u1")
              (js "2026-02-11")].
Proof. reflexivity. Qed.

Lemma saveVocabEntry_spec_witness :
  (exists e, e ∈ oneCat /\
     asciiToLowerCase (word e) = asciiToLowerCase (reqWord CatRequest)) /\
  saveVocabEntry asciiToLowerCase (js "2026-03-01") CatRequest oneCat =
    ([mkEntry (js "Cat") (js "mao (animal)") (js "Cat food.") []
        (js "2026-02-11")], true).
Proof.
  assert (exists e, e ∈ oneCat /\
     asciiToLowerCase (word e) = asciiToLowerCase (reqWord CatRequest)) as Hex.
  { eexists. split; [apply list_elem_of_here|reflexivity]. }
  split; [exact Hex|].
  destruct (proj1 (saveVocabEntry_spec asciiToLowerCase (js "2026-03-01")
                     CatRequest oneCat) Hex) as (i & old & Hi & _ & _ & Heq).
  reflexivity.
Defined.

Lemma store_unique_invariant_witness :
  unique asciiToLowerCase oneCat /\
  unique asciiToLowerCase
    (applyMutation asciiToLowerCase (js "2026-03-01") (Upsert CatRequest) oneCat).1.
Proof.
  assert (unique asciiToLowerCase oneCat) as Hu.
  { apply NoDup_singleton. }
  split; [exact Hu|].
  apply (store_unique_invariant asciiToLowerCase oneCat Hu).
Defined.

(** The claim C4 as stated fails: a second [upsert] of the same word (in any
    casing) overwrites the context recorded at the first addition. *)
Lemma context_overwritten_by_upsert :
  exists e e',
    oneCat !! 0 = Some e /\
    (saveVocabEntry asciiToLowerCase (js "2026-03-01") CatRequest oneCat).1 !! 0
      = Some e' /\
    asciiToLowerCase (word e') = asciiToLowerCase (word e) /\
    addedAt e' = addedAt e /\
    context e = js "A cat sat." /\
    context e' = js "Cat food." /\
    context e' <> context e.
Proof.
  do 2 eexists. split_and!; [reflexivity..|]. discriminate.
Qed.

Lemma upsert_replaces_word_casing_witness :
  exists e',
    (saveVocabEntry asciiToLowerCase (js "2026-03-01") CatRequest oneCat).1 !! 0
      = Some e' /\
    (saveVocabEntry asciiToLowerCase (js "2026-03-01") CatRequest oneCat).2 = true /\
    word e' = js "Cat" /\ word e' <> js "cat" /\
    addedAt e' = js "2026-02-11".
Proof.
  apply (upsert_replaces_word_casing asciiToLowerCase (js "2026-03-01")
           CatRequest oneCat 0 (mkEntry (js "cat") (js "mao") (js "A cat sat.")
                                  (js "u1") (js "2026-02-11"))).
  - reflexivity.
  - reflexivity.
  - intros j y _ Hj. inversion Hj.
  - discriminate.
Defined.

End Store.


(** ** The write queue: [serializedWrite] and the promise chain

    The service worker is single threaded: every callback runs to completion,
    and an [async] body is suspended only at its two [await]s, the storage
    read and the storage write.  A task is one call of [serializedWrite]; its
    phase records how far its [async] function got. *)

Module WriteQueue.
Import Store.

Inductive phase :=
| Queued           (* chained by [writeQueue.then(fn, fn)], [fn] not called yet *)
| GetPending       (* [fn] called, [chrome.storage.local.get] in flight *)
| GetDone (vocabList : list VocabEntry)
                   (* the read answered, the continuation has not run yet *)
| SetPending (now : jsstring) (vocabList : list VocabEntry) (ret : bool)
                   (* body done, [chrome.storage.local.set] in flight *)
| SetDone (now : jsstring) (ret : bool)
                   (* the write landed, the continuation has not run yet *)
| Fulfilled (now : jsstring) (ret : bool)
| Rejected.

Definition settled (p : phase) : bool :=
  match p with Fulfilled _ _ | Rejected => true | _ => false end.

Definition queued (p : phase) : bool :=
  match p with Queued => true | _ => false end.

Record state := mkState {
  storage : option (list VocabEntry);   (* the value under the key [vocabList] *)
  tasks : list (mutation * phase)       (* the chain, in submission order *)
}.

(** [serializedWrite(fn)] for the body [fn] of the mutation [m]:
    [writeQueue = writeQueue.then(fn, fn)] puts it at the end of the chain. *)
Definition serializedWrite (m : mutation) (st : state) : state :=
  mkState (storage st) (tasks st ++ [(m, Queued)]).

(** [const { vocabList = [] } = await chrome.storage.local.get("vocabList")]. *)
Definition getVocabList (stored : option (list VocabEntry)) : list VocabEntry :=
  default [] stored.

(** The promise task [i] was chained onto has settled; the first task is
    chained onto [Promise.resolve()]. *)
Definition predecessorSettled (ts : list (mutation * phase)) (i : nat) : Prop :=
  match i with
  | 0 => True
  | S j => exists m p, ts !! j = Some (m, p) /\ settled p = true
  end.

Inductive label :=
| Submit (m : mutation)
| Start (i : nat)
| GetOk (i : nat)
| GetFail (i : nat)
| Body (i : nat) (now : jsstring)
| BodyFail (i : nat)
| SetOk (i : nat)
| SetFail (i : nat)
| Return (i : nat).

(** The steps that happen without a new submission and without a failure
    (of the storage read, of the body, of the storage write). *)
Definition quiet (l : label) : bool :=
  match l with
  | Submit _ | GetFail _ | BodyFail _ | SetFail _ => false
  | _ => true
  end.

Definition internal (l : label) : bool :=
  match l with Submit _ => false | _ => true end.

Section WithCaseTable.

Variable toLowerCase : jsstring -> jsstring.

(** One step of the event loop.  With [chained = true] a task starts only
    when its predecessor has settled, fulfilled or rejected alike: that is
    [writeQueue.then(fn, fn)].  [chained = false] is the same code with the
    bodies called directly, to compare against. *)
Inductive step (chained : bool) : label -> state -> state -> Prop :=
| step_submit st m :
    step chained (Submit m) st (serializedWrite m st)
| step_start st i m :
    tasks st !! i = Some (m, Queued) ->
    (chained = true -> predecessorSettled (tasks st) i) ->
    step chained (Start i) st
      (mkState (storage st) (<[i := (m, GetPending)]> (tasks st)))
| step_get_ok st i m :
    tasks st !! i = Some (m, GetPending) ->
    step chained (GetOk i) st
      (mkState (storage st)
         (<[i := (m, GetDone (getVocabList (storage st)))]> (tasks st)))
| step_get_fail st i m :
    tasks st !! i = Some (m, GetPending) ->
    step chained (GetFail i) st
      (mkState (storage st) (<[i := (m, Rejected)]> (tasks st)))
| step_body st i m vocabList now :
    tasks st !! i = Some (m, GetDone vocabList) ->
    step chained (Body i now) st
      (mkState (storage st)
         (<[i := (m, SetPending now
                       (applyMutation toLowerCase now m vocabList).1
                       (applyMutation toLowerCase now m vocabList).2)]>
            (tasks st)))
| step_body_fail st i m vocabList :
    tasks st !! i = Some (m, GetDone vocabList) ->
    step chained (BodyFail i) st
      (mkState (storage st) (<[i := (m, Rejected)]> (tasks st)))
| step_set_ok st i m now vocabList ret :
    tasks st !! i = Some (m, SetPending now vocabList ret) ->
    step chained (SetOk i) st
      (mkState (Some vocabList) (<[i := (m, SetDone now ret)]> (tasks st)))
| step_set_fail st i m now vocabList ret :
    tasks st !! i = Some (m, SetPending now vocabList ret) ->
    step chained (SetFail i) st
      (mkState (storage st) (<[i := (m, Rejected)]> (tasks st)))
| step_return st i m now ret :
    tasks st !! i = Some (m, SetDone now ret) ->
    step chained (Return i) st
      (mkState (storage st) (<[i := (m, Fulfilled now ret)]> (tasks st))).

(** The states the service worker can be in, from a stored value [s0] and an
    empty chain. *)
Definition reachable (s0 : option (list VocabEntry)) (st : state) : Prop :=
  rtc (fun a b => exists l, step true l a b) (mkState s0 []) st.

(** The mutations whose write has landed, in submission order, each with the
    instant its body ran. *)
Definition committed (ts : list (mutation * phase)) : list (jsstring * mutation) :=
  omap (fun t => match t.2 with
                 | SetDone now _ | Fulfilled now _ => Some (now, t.1)
                 | _ => None
                 end) ts.

(** The mutations applied one after the other, nothing interleaved. *)
Definition sequential (s0 : option (list VocabEntry))
    (calls : list (jsstring * mutation)) : option (list VocabEntry) :=
  foldl (fun s c => Some (applyMutation toLowerCase c.1 c.2 (getVocabList s)).1)
    s0 calls.

(** The work left in the chain: the number of internal steps until every
    task has settled, if no I/O fails. *)
Definition remaining (p : phase) : nat :=
  match p with
  | Queued => 5 | GetPending => 4 | GetDone _ => 3
  | SetPending _ _ _ => 2 | SetDone _ _ => 1
  | Fulfilled _ _ | Rejected => 0
  end.

Definition pending (ts : list (mutation * phase)) : nat :=
  sum_list (remaining <$> ts.*2).

(** The shape of the chain and of the stored value: settled tasks, then at
    most one task under way, then queued tasks; [cur] is the stored value
    before the first task of [ts], [final] the value stored now. *)
Fixpoint consistent (cur : option (list VocabEntry))
    (ts : list (mutation * phase)) (final : option (list VocabEntry)) : Prop :=
  match ts with
  | [] => final = cur
  | (m, p) :: rest =>
      match p with
      | Fulfilled now r =>
          r = (applyMutation toLowerCase now m (getVocabList cur)).2 /\
          consistent
            (Some (applyMutation toLowerCase now m (getVocabList cur)).1)
            rest final
      | Rejected => consistent cur rest final
      | SetDone now r =>
          r = (applyMutation toLowerCase now m (getVocabList cur)).2 /\
          final = Some (applyMutation toLowerCase now m (getVocabList cur)).1 /\
          Forall (fun t => queued t.2 = true) rest
      | SetPending now l r =>
          l = (applyMutation toLowerCase now m (getVocabList cur)).1 /\
          r = (applyMutation toLowerCase now m (getVocabList cur)).2 /\
          final = cur /\ Forall (fun t => queued t.2 = true) rest
      | GetDone l =>
          l = getVocabList cur /\ final = cur /\
          Forall (fun t => queued t.2 = true) rest
      | GetPending | Queued =>
          final = cur /\ Forall (fun t => queued t.2 = true) rest
      end
  end.

(** *** The invariant of the chain *)

Lemma consistent_queued cur ts :
  Forall (fun t => queued t.2 = true) ts -> consistent cur ts cur.
Proof.
  destruct ts as [|[m p] rest]; [done|].
  intros [Hp Hrest]%Forall_cons. simpl in *. by destruct p.
Qed.

Lemma consistent_submit cur ts final m :
  consistent cur ts final -> consistent cur (ts ++ [(m, Queued)]) final.
Proof.
  revert cur. induction ts as [|[m0 p0] rest IH]; intros cur H; simpl in *.
  - by split; [|constructor].
  - assert (Forall (fun t : mutation * phase => queued t.2 = true) rest ->
            Forall (fun t : mutation * phase => queued t.2 = true)
              (rest ++ [(m, Queued)])) as Hq.
    { intros ?. apply Forall_app. split; [done|]. by repeat constructor. }
    destruct p0; simpl in *; intuition.
Qed.

Lemma queued_lookup (ts : list (mutation * phase)) i m p :
  Forall (fun t => queued t.2 = true) ts -> ts !! i = Some (m, p) ->
  p = Queued.
Proof.
  intros Hall Hi. rewrite Forall_lookup in Hall.
  specialize (Hall _ _ Hi). simpl in Hall. by destruct p.
Qed.

(** A transition of the task under way. *)
Lemma consistent_advance cur ts final final' i m p p' :
  consistent cur ts final ->
  ts !! i = Some (m, p) ->
  queued p = false -> settled p = false ->
  (forall c rest, consistent c ((m, p) :: rest) final ->
                  consistent c ((m, p') :: rest) final') ->
  consistent cur (<[i := (m, p')]> ts) final'.
Proof.
  intros H Hi Hq Hs Hhead. revert cur i H Hi.
  induction ts as [|[m0 p0] rest IH]; intros cur i H Hi; [done|].
  destruct i as [|j]; simpl in Hi.
  - injection Hi as -> ->. by apply Hhead.
  - simpl in H. cbn [list_insert insert].
    assert (Forall (fun t : mutation * phase => queued t.2 = true) rest -> False)
      as Hno.
    { intros Hall. pose proof (queued_lookup _ _ _ _ Hall Hi) as ->. done. }
    destruct p0; simpl.
    + by destruct H as (_ & ?%Hno).
    + by destruct H as (_ & ?%Hno).
    + by destruct H as (_ & _ & ?%Hno).
    + by destruct H as (_ & _ & _ & ?%Hno).
    + by destruct H as (_ & _ & ?%Hno).
    + destruct H as [? H]. split; [done|]. by apply IH.
    + by apply IH.
Qed.

(** The start of a queued task whose predecessor has settled. *)
Lemma consistent_start cur ts final i m :
  consistent cur ts final ->
  ts !! i = Some (m, Queued) ->
  predecessorSettled ts i ->
  consistent cur (<[i := (m, GetPending)]> ts) final.
Proof.
  revert cur i. induction ts as [|[m0 p0] rest IH]; intros cur i H Hi Hpre;
    [done|].
  destruct i as [|j]; simpl in Hi.
  - injection Hi as -> ->. done.
  - simpl in H. cbn [list_insert insert].
    assert (settled p0 = true) as Hs0.
    { destruct (settled p0) eqn:Hs0; [done|]. exfalso.
      assert (Forall (fun t : mutation * phase => queued t.2 = true) rest)
        as Hall by (destruct p0; simpl in *; intuition congruence).
      destruct j as [|k]; simpl in Hpre.
      - destruct Hpre as (? & ? & [= <- <-] & ?). congruence.
      - destruct Hpre as (m' & p' & Hk & Hs').
        pose proof (queued_lookup _ _ _ _ Hall Hk) as ->. done. }
    assert (predecessorSettled rest j) as Hpre'.
    { destruct j as [|k]; [done|]. exact Hpre. }
    destruct p0; try done; simpl.
    + destruct H as [? H]. split; [done|]. by apply IH.
    + by apply IH.
Qed.

Lemma step_consistent s0 l st st' :
  step true l st st' ->
  consistent s0 (tasks st) (storage st) ->
  consistent s0 (tasks st') (storage st').
Proof.
  intros Hstep H. destruct Hstep; simpl.
  - by apply consistent_submit.
  - apply consistent_start; auto.
  - eapply consistent_advance; [done..|]. simpl.
    intros c rest (-> & ?). done.
  - eapply consistent_advance; [done..|]. simpl.
    intros c rest (-> & ?). by apply consistent_queued.
  - eapply consistent_advance; [done..|]. simpl.
    intros c rest (-> & -> & ?). done.
  - eapply consistent_advance; [done..|]. simpl.
    intros c rest (-> & -> & ?). by apply consistent_queued.
  - eapply consistent_advance; [done..|]. simpl.
    intros c rest (-> & -> & ? & ?). done.
  - eapply consistent_advance; [done..|]. simpl.
    intros c rest (-> & -> & -> & ?). by apply consistent_queued.
  - eapply consistent_advance; [done..|]. simpl.
    intros c rest (-> & -> & ?). split; [done|]. by apply consistent_queued.
Qed.

Lemma reachable_consistent s0 st :
  reachable s0 st -> consistent s0 (tasks st) (storage st).
Proof.
  unfold reachable. revert st.
  apply (rtc_ind_r (fun st => consistent s0 (tasks st) (storage st)));
    [done|].
  intros a b _ [l Hstep] IH. by eapply step_consistent.
Qed.

Lemma committed_cons m p rest :
  committed ((m, p) :: rest) =
  match p with
  | SetDone now _ | Fulfilled now _ => (now, m) :: committed rest
  | _ => committed rest
  end.
Proof. by destruct p. Qed.

Lemma committed_queued ts :
  Forall (fun t : mutation * phase => queued t.2 = true) ts -> committed ts = [].
Proof.
  induction 1 as [|[m p] rest Hp _ IH]; [done|].
  rewrite committed_cons. by destruct p.
Qed.

Lemma consistent_sequential cur ts final :
  consistent cur ts final -> final = sequential cur (committed ts).
Proof.
  revert cur. induction ts as [|[m p] rest IH]; intros cur H; [done|].
  rewrite committed_cons. simpl in H.
  destruct p.
  - destruct H as (-> & Hq). by rewrite (committed_queued _ Hq).
  - destruct H as (-> & Hq). by rewrite (committed_queued _ Hq).
  - destruct H as (_ & -> & Hq). by rewrite (committed_queued _ Hq).
  - destruct H as (_ & _ & -> & Hq). by rewrite (committed_queued _ Hq).
  - destruct H as (_ & -> & Hq). by rewrite (committed_queued _ Hq).
  - destruct H as (_ & H). by apply IH in H.
  - by apply IH in H.
Qed.



(** *** The claim about concurrent submissions *)


(** *** Failures and progress *)

(** A step that is neither a submission nor an I/O failure. *)
Definition quietStep (a b : state) : Prop :=
  exists l, quiet l = true /\ step true l a b.

(** [ts'] is [ts] further along: same mutations, settled tasks untouched, no
    new rejection. *)
Definition advances (ts ts' : list (mutation * phase)) : Prop :=
  forall i m p, ts !! i = Some (m, p) ->
    exists p', ts' !! i = Some (m, p') /\
      (settled p = true -> p' = p) /\
      (p' = Rejected -> p = Rejected).

Lemma advances_refl ts : advances ts ts.
Proof. intros i m p Hi. exists p. done. Qed.

Lemma advances_trans ts1 ts2 ts3 :
  advances ts1 ts2 -> advances ts2 ts3 -> advances ts1 ts3.
Proof.
  intros H12 H23 i m p Hi.
  destruct (H12 _ _ _ Hi) as (p2 & Hi2 & Hs2 & Hr2).
  destruct (H23 _ _ _ Hi2) as (p3 & Hi3 & Hs3 & Hr3).
  exists p3. split_and!; [done| |by auto].
  intros Hs. specialize (Hs2 Hs). subst p2. by apply Hs3.
Qed.

Lemma advances_insert ts i m p p' :
  ts !! i = Some (m, p) -> settled p = false -> p' <> Rejected ->
  advances ts (<[i := (m, p')]> ts).
Proof.
  intros Hi Hs Hr j mj pj Hj. destruct (decide (i = j)) as [->|Hne].
  - assert (mj = m /\ pj = p) as [-> ->] by (split; congruence).
    exists p'. split_and!.
    + apply list_lookup_insert_eq. by eapply lookup_lt_Some.
    + congruence.
    + done.
  - exists pj. by rewrite list_lookup_insert_ne.
Qed.

Lemma pending_cons m p ts : pending ((m, p) :: ts) = remaining p + pending ts.
Proof. reflexivity. Qed.

Lemma pending_insert ts i m p p' :
  ts !! i = Some (m, p) ->
  pending (<[i := (m, p')]> ts) + remaining p = pending ts + remaining p'.
Proof.
  revert i. induction ts as [|[m0 p0] rest IH]; intros i Hi; [done|].
  destruct i as [|j]; cbn [list_insert insert]; rewrite !pending_cons.
  - injection Hi as -> ->. lia.
  - rewrite <- !Nat.add_assoc. f_equal. exact (IH _ Hi).
Qed.

Lemma step_pending l st st' :
  step true l st st' -> internal l = true ->
  pending (tasks st') < pending (tasks st).
Proof.
  intros Hstep Hint. destruct Hstep; simpl in *; try done;
    match goal with
    | H : tasks _ !! ?i = Some (_, ?p) |- context [<[?i := (?m, ?p')]> _] =>
        pose proof (pending_insert _ _ _ _ p' H) as Hp; simpl in Hp; lia
    end.
Qed.

Lemma quietStep_advances a b :
  quietStep a b -> advances (tasks a) (tasks b).
Proof.
  intros (l & Hq & Hstep). destruct Hstep; simpl in *; try done;
    by eapply advances_insert.
Qed.

(** The first task that has not settled, when there is one. *)
Lemma first_unsettled ts :
  0 < pending ts ->
  exists i m p, ts !! i = Some (m, p) /\ settled p = false /\
                predecessorSettled ts i.
Proof.
  induction ts as [|[m0 p0] rest IH]; [unfold pending; simpl; lia|].
  rewrite pending_cons.
  intros Hpos. destruct (settled p0) eqn:Hs0.
  - destruct IH as (i & m & p & Hi & Hs & Hpre).
    { destruct p0; simpl in *; try done; lia. }
    exists (S i), m, p. split_and!; [done..|].
    destruct i as [|j]; simpl in *; eauto.
  - exists 0, m0, p0. done.
Qed.

(** Whatever has been rejected so far, a chain with work left can move
    without any failure. *)
Lemma progress st :
  0 < pending (tasks st) -> exists st', quietStep st st'.
Proof.
  intros (i & m & p & Hi & Hs & Hpre)%first_unsettled.
  destruct p; try done.
  - eexists. exists (Start i). split; [done|]. by eapply step_start.
  - eexists. exists (GetOk i). split; [done|]. by eapply step_get_ok.
  - eexists. exists (Body i []). split; [done|]. by eapply step_body.
  - eexists. exists (SetOk i). split; [done|]. by eapply step_set_ok.
  - eexists. exists (Return i). split; [done|]. by eapply step_return.
Qed.

Lemma quiet_internal l : quiet l = true -> internal l = true.
Proof. by destruct l. Qed.

Lemma drain n st :
  pending (tasks st) <= n ->
  exists st', rtc quietStep st st' /\ pending (tasks st') = 0 /\
              advances (tasks st) (tasks st').
Proof.
  revert st. induction n as [|n IH]; intros st Hn.
  - exists st. split_and!; [done|lia|apply advances_refl].
  - destruct (decide (pending (tasks st) = 0)) as [H0|Hpos].
    { exists st. split_and!; [done|done|apply advances_refl]. }
    destruct (progress st) as (st1 & Hq); [lia|].
    pose proof Hq as (l & Hl & Hstep).
    pose proof (step_pending _ _ _ Hstep (quiet_internal _ Hl)) as Hlt.
    destruct (IH st1) as (st' & Hrun & Hz & Hadv); [lia|].
    exists st'. split_and!; [by eapply rtc_l|done|].
    eapply advances_trans; [by apply quietStep_advances|done].
Qed.

Lemma pending_zero_settled ts i m p :
  pending ts = 0 -> ts !! i = Some (m, p) -> settled p = true.
Proof.
  revert i. induction ts as [|[m0 p0] rest IH]; intros i Hz Hi; [done|].
  rewrite pending_cons in Hz. destruct i as [|j]; simpl in Hi.
  - injection Hi as -> ->. destruct p; simpl in *; try done; lia.
  - apply (IH j); [lia|done].
Qed.

(** The operations [ms] submitted one after the other, each by a call of
    [serializedWrite]. *)
Definition submitAll (ms : list mutation) (st : state) : state :=
  foldl (fun s m => serializedWrite m s) st ms.

Lemma tasks_submitAll ms st :
  tasks (submitAll ms st) = tasks st ++ map (fun m => (m, Queued)) ms.
Proof.
  revert st. induction ms as [|m ms IH]; intros st; cbn [submitAll foldl map].
  - by rewrite app_nil_r.
  - fold (submitAll ms (serializedWrite m st)). rewrite IH. cbn [serializedWrite tasks].
    by rewrite <- app_assoc.
Qed.

Lemma submitAll_steps ms st :
  rtc (fun a b => exists l, step true l a b) st (submitAll ms st).
Proof.
  revert st. induction ms as [|m ms IH]; intros st; [done|].
  eapply rtc_l; [exists (Submit m); apply step_submit|]. apply IH.
Qed.

Lemma quietStep_steps a b :
  rtc quietStep a b -> rtc (fun a b => exists l, step true l a b) a b.
Proof.
  induction 1 as [|a b c (l & _ & Hstep) _ IH]; [done|].
  eapply rtc_l; [by exists l|done].
Qed.

(** C9: a rejected operation does not hold up the chain.  In a state the
    service worker can reach in which some operation has been rejected,
    whatever operations are then enqueued by [serializedWrite], the chain can
    run on without any further failure to a state in which every operation
    that had not settled, the ones enqueued before the rejection and the ones
    enqueued after it, is fulfilled, each carrying its own mutation, the
    rejected one is still rejected, and the stored list is the sequential
    result of the operations whose write landed; every step of the chain
    strictly decreases the work left, so no run goes on for ever; and the
    operation chained onto the rejected one is allowed to start. *)
Theorem rejection_does_not_block s0 st j mj ms :
  reachable s0 st ->
  tasks st !! j = Some (mj, Rejected) ->
  (exists st',
     rtc quietStep (submitAll ms st) st' /\
     tasks st' !! j = Some (mj, Rejected) /\
     (forall i m p, tasks st !! i = Some (m, p) ->
        exists p', tasks st' !! i = Some (m, p') /\
          if settled p then p' = p else exists now r, p' = Fulfilled now r) /\
     (forall k m, ms !! k = Some m ->
        exists now r,
          tasks st' !! (length (tasks st) + k) = Some (m, Fulfilled now r)) /\
     storage st' = sequential s0 (committed (tasks st'))) /\
  (forall l st', step true l st st' -> internal l = true ->
     pending (tasks st') < pending (tasks st)) /\
  (forall m', tasks st !! S j = Some (m', Queued) ->
     exists st', step true (Start (S j)) st st').
Proof.
  intros Hreach Hj. split_and!.
  - destruct (drain (pending (tasks (submitAll ms st))) (submitAll ms st))
      as (st' & Hrun & Hz & Hadv); [done|].
    assert (forall i m p, tasks (submitAll ms st) !! i = Some (m, p) ->
              exists p', tasks st' !! i = Some (m, p') /\
                if settled p then p' = p else exists now r, p' = Fulfilled now r)
      as Hall.
    { intros i m p Hi.
      destruct (Hadv _ _ _ Hi) as (p' & Hi' & Hs & Hr).
      exists p'. split; [done|].
      destruct (settled p) eqn:Hsp; [by apply Hs|].
      pose proof (pending_zero_settled _ _ _ _ Hz Hi') as Hs'.
      destruct p'; try done; [by eauto|].
      specialize (Hr eq_refl). by subst p. }
    exists st'. split_and!.
    + done.
    + destruct (Hall j mj Rejected) as (p' & Hj' & ->); [|done].
      rewrite tasks_submitAll. by apply lookup_app_l_Some.
    + intros i m p Hi. apply Hall. rewrite tasks_submitAll.
      by apply lookup_app_l_Some.
    + intros k m Hk.
      destruct (Hall (length (tasks st) + k) m Queued) as (p' & Hk' & now & r & ->).
      * rewrite tasks_submitAll, lookup_app_r by lia.
        replace (length (tasks st) + k - length (tasks st)) with k by lia.
        by rewrite list_lookup_fmap, Hk.
      * by exists now, r.
    + apply (consistent_sequential s0). apply reachable_consistent.
      unfold reachable. etrans; [exact Hreach|].
      etrans; [apply submitAll_steps|]. by apply quietStep_steps.
  - intros l st'. apply step_pending.
  - intros m' HSj. eexists. eapply step_start; [done|].
    intros _. simpl. by exists mj, Rejected.
Qed.

(** *** Running the queue

    The step relation as a function of the label, to run schedules. *)

Definition predecessorSettledb (ts : list (mutation * phase)) (i : nat) : bool :=
  match i with
  | 0 => true
  | S j => match ts !! j with Some (_, p) => settled p | None => false end
  end.

Definition setPhase (i : nat) (m : mutation) (p : phase) (st : state) : state :=
  mkState (storage st) (<[i := (m, p)]> (tasks st)).

Definition exec (chained : bool) (l : label) (st : state) : option state :=
  match l with
  | Submit m => Some (serializedWrite m st)
  | Start i =>
      match tasks st !! i with
      | Some (m, Queued) =>
          if negb chained || predecessorSettledb (tasks st) i
          then Some (setPhase i m GetPending st) else None
      | _ => None
      end
  | GetOk i =>
      match tasks st !! i with
      | Some (m, GetPending) =>
          Some (setPhase i m (GetDone (getVocabList (storage st))) st)
      | _ => None
      end
  | GetFail i =>
      match tasks st !! i with
      | Some (m, GetPending) => Some (setPhase i m Rejected st)
      | _ => None
      end
  | Body i now =>
      match tasks st !! i with
      | Some (m, GetDone l) =>
          Some (setPhase i m
                  (SetPending now (applyMutation toLowerCase now m l).1
                     (applyMutation toLowerCase now m l).2) st)
      | _ => None
      end
  | BodyFail i =>
      match tasks st !! i with
      | Some (m, GetDone l) => Some (setPhase i m Rejected st)
      | _ => None
      end
  | SetOk i =>
      match tasks st !! i with
      | Some (m, SetPending now l r) =>
          Some (mkState (Some l) (<[i := (m, SetDone now r)]> (tasks st)))
      | _ => None
      end
  | SetFail i =>
      match tasks st !! i with
      | Some (m, SetPending now l r) => Some (setPhase i m Rejected st)
      | _ => None
      end
  | Return i =>
      match tasks st !! i with
      | Some (m, SetDone now r) => Some (setPhase i m (Fulfilled now r) st)
      | _ => None
      end
  end.

Fixpoint execAll (chained : bool) (ls : list label) (st : state) : option state :=
  match ls with
  | [] => Some st
  | l :: ls' =>
      match exec chained l st with
      | Some st' => execAll chained ls' st'
      | None => None
      end
  end.

Lemma predecessorSettledb_sound ts i :
  predecessorSettledb ts i = true -> predecessorSettled ts i.
Proof.
  destruct i as [|j]; simpl; [done|].
  destruct (ts !! j) as [[m p]|]; [|done]. eauto.
Qed.

Lemma exec_sound chained l st st' :
  exec chained l st = Some st' -> step chained l st st'.
Proof.
  destruct l as [m|i|i|i|i now|i|i|i|i]; simpl.
  - intros [= <-]. constructor.
  - destruct (tasks st !! i) as [[m []]|] eqn:Hi; try done.
    destruct (negb chained || predecessorSettledb (tasks st) i) eqn:Hc;
      [|done].
    intros [= <-]. apply step_start; [done|].
    intros ->. simpl in Hc. by apply predecessorSettledb_sound.
  - destruct (tasks st !! i) as [[m []]|] eqn:Hi; try done.
    intros [= <-]. by apply step_get_ok.
  - destruct (tasks st !! i) as [[m []]|] eqn:Hi; try done.
    intros [= <-]. by apply step_get_fail.
  - destruct (tasks st !! i) as [[m []]|] eqn:Hi; try done.
    intros [= <-]. by apply step_body.
  - destruct (tasks st !! i) as [[m []]|] eqn:Hi; try done.
    intros [= <-]. by eapply step_body_fail.
  - destruct (tasks st !! i) as [[m []]|] eqn:Hi; try done.
    intros [= <-]. by eapply step_set_ok.
  - destruct (tasks st !! i) as [[m []]|] eqn:Hi; try done.
    intros [= <-]. by eapply step_set_fail.
  - destruct (tasks st !! i) as [[m []]|] eqn:Hi; try done.
    intros [= <-]. by apply step_return.
Qed.

Lemma execAll_sound chained ls st st' :
  execAll chained ls st = Some st' ->
  rtc (fun a b => exists l, step chained l a b) st st'.
Proof.
  revert st. induction ls as [|l ls IH]; intros st; simpl.
  - by intros [= <-].
  - destruct (exec chained l st) as [st1|] eqn:He; [|done].
    intros Hrest. eapply rtc_l; [|by apply IH].
    exists l. by apply exec_sound.
Qed.

Lemma execAll_reachable s0 ls st :
  execAll true ls (mkState s0 []) = Some st -> reachable s0 st.
Proof. apply execAll_sound. Qed.

End WithCaseTable.

(** *** Schedules *)

Definition addCat : mutation := Upsert catRequest.
Definition addCatAgain : mutation := Upsert CatRequest.
Definition dropDog : mutation := Remove (js "dog").
Definition addDog : mutation :=
  Upsert (mkRequest (js "dog") (js "gou") None None).

(** Three mutations submitted while the first is still reading. *)
Definition overlapping : list label :=
  [ Submit addCat; Start 0; Submit addDog; GetOk 0; Submit addCatAgain;
    Body 0 (js "t1"); SetOk 0; Return 0;
    Start 1; GetOk 1; Body 1 (js "t2"); SetOk 1; Return 1;
    Start 2; GetOk 2; Body 2 (js "t3"); SetOk 2; Return 2 ].

Definition afterOverlapping : state :=
  mkState
    (Some [ mkEntry (js "Cat") (js "mao (animal)") (js "Cat food.") [] (js "t1");
            mkEntry (js "dog") (js "gou") [] [] (js "t2") ])
    [ (addCat, Fulfilled (js "t1") false);
      (addDog, Fulfilled (js "t2") false);
      (addCatAgain, Fulfilled (js "t3") true) ].

Example overlapping_runs :
  execAll asciiToLowerCase true overlapping (mkState None []) =
  Some afterOverlapping.
Proof. reflexivity. Qed.


(** A task cannot start while its predecessor is under way. *)
Example second_waits_for_first :
  execAll asciiToLowerCase true [Submit addCat; Submit addDog; Start 0; Start 1]
    (mkState None []) = None.
Proof. reflexivity. Qed.

(** Without the chain the same two bodies, both reading before either writes,
    lose the first update. *)
Example unchained_loses_update :
  exists st,
    execAll asciiToLowerCase false
      [ Submit addCat; Submit addDog; Start 0; Start 1; GetOk 0; GetOk 1;
        Body 0 (js "t1"); Body 1 (js "t2"); SetOk 0; SetOk 1;
        Return 0; Return 1 ] (mkState None []) = Some st /\
    storage st = Some [ mkEntry (js "dog") (js "gou") [] [] (js "t2") ] /\
    storage st <>
      sequential asciiToLowerCase None [ (js "t1", addCat); (js "t2", addDog) ].
Proof. eexists. split_and!; [reflexivity|reflexivity|discriminate]. Qed.

(** A failed read rejects the first task; the second one still runs and its
    write lands. *)
Example rejected_then_fulfilled :
  execAll asciiToLowerCase true
    [ Submit addCat; Submit addDog; Start 0; GetFail 0;
      Start 1; GetOk 1; Body 1 (js "t2"); SetOk 1; Return 1 ]
    (mkState None []) =
  Some (mkState (Some [ mkEntry (js "dog") (js "gou") [] [] (js "t2") ])
          [ (addCat, Rejected); (addDog, Fulfilled (js "t2") false) ]).
Proof. reflexivity. Qed.

(** The state after the read of the first operation failed. *)
Definition firstRejected : state := mkState None [(addCat, Rejected)].

Lemma rejection_does_not_block_witness :
  exists st',
    rtc (quietStep asciiToLowerCase) (submitAll [addDog] firstRejected) st' /\
    tasks st' !! 0 = Some (addCat, Rejected) /\
    (forall i m p, tasks firstRejected !! i = Some (m, p) ->
       exists p', tasks st' !! i = Some (m, p') /\
         if settled p then p' = p else exists now r, p' = Fulfilled now r) /\
    (forall k m, [addDog] !! k = Some m ->
       exists now r,
         tasks st' !! (length (tasks firstRejected) + k)
           = Some (m, Fulfilled now r)) /\
    storage st' = sequential asciiToLowerCase None (committed (tasks st')).
Proof.
  assert (reachable asciiToLowerCase None firstRejected) as Hr.
  { apply (execAll_reachable asciiToLowerCase None
             [Submit addCat; Start 0; GetFail 0]). reflexivity. }
  apply (proj1 (rejection_does_not_block asciiToLowerCase None firstRejected 0
                  addCat [addDog] Hr eq_refl)).
Defined.

End WriteQueue.


(** ** The context window of a selection (content script) *)

Module Selection.

Local Open Scope Z_scope.

Definition MAX_PARAGRAPH_LENGTH : Z := 500.

Definition BLOCK_ELEMENTS : list jsstring :=
  map js [ "P"; "DIV"; "LI"; "BLOCKQUOTE"; "H1"; "H2"; "H3"; "H4"; "H5"; "H6";
           "ARTICLE"; "SECTION"; "TD"; "TH"; "DD"; "DT"; "PRE"; "FIGCAPTION" ]%string.

(** White space and line terminators, the code units [trim] strips. *)
Definition isWhiteSpace (c : N) : bool :=
  (((9 <=? c) && (c <=? 13)) || (c =? 32) || (c =? 160) || (c =? 5760) ||
   ((8192 <=? c) && (c <=? 8202)) || (c =? 8232) || (c =? 8233) ||
   (c =? 8239) || (c =? 8287) || (c =? 12288) || (c =? 65279))%N.

Fixpoint trimStart (s : jsstring) : jsstring :=
  match s with
  | c :: s' => if isWhiteSpace c then trimStart s' else s
  | [] => []
  end.

Definition trimEnd (s : jsstring) : jsstring := reverse (trimStart (reverse s)).

(** [String.prototype.trim]. *)
Definition trim (s : jsstring) : jsstring := trimEnd (trimStart s).

(** [String.prototype.slice(start, end)]: negative arguments count from the
    end, both are clamped to the string. *)
Definition slice (start end_ : Z) (s : jsstring) : jsstring :=
  let len := Z.of_nat (length s) in
  let from := if start <? 0 then Z.max (len + start) 0 else Z.min start len in
  let to := if end_ <? 0 then Z.max (len + end_) 0 else Z.min end_ len in
  take (Z.to_nat (Z.max (to - from) 0)) (drop (Z.to_nat from) s).

Fixpoint isPrefix (p s : jsstring) : bool :=
  match p, s with
  | [], _ => true
  | a :: p', b :: s' => (a =? b)%N && isPrefix p' s'
  | _ :: _, [] => false
  end.

Fixpoint indexOfFrom (needle hay : jsstring) (pos : Z) : Z :=
  if isPrefix needle hay then pos
  else match hay with
       | [] => -1
       | _ :: hay' => indexOfFrom needle hay' (pos + 1)
       end.

(** [hay.indexOf(needle)]: the first position, or [-1]. *)
Definition indexOf (needle hay : jsstring) : Z := indexOfFrom needle hay 0.

(** An element on the way up from the selection's anchor node. *)
Record ancestor := mkAncestor { tagName : jsstring; textContent : jsstring }.

(** The two [if]s that push the window back inside the text. *)
Definition clampWindow (len wordIndex : Z) : Z * Z :=
  let half := MAX_PARAGRAPH_LENGTH / 2 in
  let start := wordIndex - half in
  let end_ := wordIndex + half in
  let '(start, end_) :=
    if start <? 0 then (0, Z.min len (end_ - start)) else (start, end_) in
  if end_ >? len then (Z.max 0 (start - (end_ - len)), len)
  else (start, end_).

Section WithCaseTable.

Variable toLowerCase : jsstring -> jsstring.

(** The text the window is cut from: the [textContent] of the nearest
    block-level element on the way up, or of [document.body].  [chain] is
    [el], [el.parentElement], ... for the [el] the function starts from;
    [bodyText] is [document.body.textContent]. *)
Definition enclosingText (chain : list ancestor) (bodyText : jsstring) : jsstring :=
  match list_find (fun el => tagName el ∈ BLOCK_ELEMENTS) chain with
  | Some (_, el) => textContent el
  | None => bodyText
  end.

Definition getEnclosingParagraphText (chain : list ancestor)
    (bodyText : jsstring) (word : jsstring) : jsstring :=
  let text := enclosingText chain bodyText in
  let len := Z.of_nat (length text) in
  if len <=? MAX_PARAGRAPH_LENGTH then trim text
  else
    let wordIndex := indexOf (toLowerCase word) (toLowerCase text) in
    if wordIndex =? -1 then trim (slice 0 MAX_PARAGRAPH_LENGTH text)
    else
      let '(start, end_) := clampWindow len wordIndex in
      trim (slice start end_ text).

(** *** Helper lemmas *)

Lemma trimStart_split s :
  exists ws, s = ws ++ trimStart s /\ forallb isWhiteSpace ws = true.
Proof.
  induction s as [|c s (ws & IH & Hws)]; simpl.
  - by exists [].
  - destruct (isWhiteSpace c) eqn:Hc.
    + exists (c :: ws). simpl. rewrite Hc, Hws. split; [by f_equal|done].
    + by exists [].
Qed.

Lemma trimEnd_split s :
  exists ws, s = trimEnd s ++ ws /\ forallb isWhiteSpace ws = true.
Proof.
  unfold trimEnd. destruct (trimStart_split (reverse s)) as (ws & Hs & Hws).
  exists (reverse ws). split.
  - rewrite <- reverse_app, <- Hs. by rewrite reverse_involutive.
  - rewrite forallb_forall in *. intros c Hc%list_elem_of_In.
    apply Hws, list_elem_of_In. by apply elem_of_reverse.
Qed.

Lemma trim_infix s : exists pre post, s = pre ++ trim s ++ post.
Proof.
  unfold trim. destruct (trimStart_split s) as (pre & Hpre & _).
  destruct (trimEnd_split (trimStart s)) as (post & Hpost & _).
  exists pre, post. by rewrite <- Hpost.
Qed.

Lemma length_trim s : (length (trim s) <= length s)%nat.
Proof.
  destruct (trim_infix s) as (pre & post & Hs).
  rewrite Hs at 2. rewrite !length_app. lia.
Qed.

Lemma clampWindow_spec len wordIndex :
  MAX_PARAGRAPH_LENGTH < len -> 0 <= wordIndex ->
  let start := Z.max 0 (Z.min (wordIndex - 250) (len - 500)) in
  clampWindow len wordIndex = (start, start + 500).
Proof.
  unfold clampWindow, MAX_PARAGRAPH_LENGTH. intros Hlen Hidx.
  change (500 / 2) with 250.
  destruct (wordIndex - 250 <? 0) eqn:Hneg.
  - apply Z.ltb_lt in Hneg.
    destruct (Z.min len (wordIndex + 250 - (wordIndex - 250)) >? len) eqn:Hgt.
    + apply Z.gtb_lt in Hgt. lia.
    + simpl. f_equal; lia.
  - apply Z.ltb_ge in Hneg.
    destruct (wordIndex + 250 >? len) eqn:Hgt.
    + apply Z.gtb_lt in Hgt. simpl. f_equal; lia.
    + assert (wordIndex + 250 <= len) by (rewrite Z.gtb_ltb in Hgt; lia).
      simpl. f_equal; lia.
Qed.

Lemma slice_window (start : nat) (text : jsstring) :
  (start + 500 <= length text)%nat ->
  slice (Z.of_nat start) (Z.of_nat start + 500) text = take 500 (drop start text).
Proof.
  intros Hlen. unfold slice.
  destruct (Z.of_nat start <? 0) eqn:H1; [apply Z.ltb_lt in H1; lia|].
  destruct (Z.of_nat start + 500 <? 0) eqn:H2; [apply Z.ltb_lt in H2; lia|].
  rewrite (Z.min_l (Z.of_nat start)) by lia.
  rewrite (Z.min_l (Z.of_nat start + 500)) by lia.
  rewrite Nat2Z.id. f_equal. lia.
Qed.

Lemma indexOfFrom_range needle hay pos :
  indexOfFrom needle hay pos = -1 \/ pos <= indexOfFrom needle hay pos.
Proof.
  revert pos. induction hay as [|c hay IH]; intros pos; simpl.
  - destruct (isPrefix needle []); [right; lia|by left].
  - destruct (isPrefix needle (c :: hay)); [right; lia|].
    destruct (IH (pos + 1)); [by left|right; lia].
Qed.

(** *** The claim about the context window *)


End WithCaseTable.

(** *** The window on concrete paragraphs *)

(** An 800-unit paragraph: a blank at offset 300 and the word at offset 600. *)
Definition paragraph800 : jsstring :=
  repeat 97%N 300 ++ [32%N] ++ repeat 97%N 299 ++ js "zebra" ++ repeat 97%N 195.

Definition anchorChain : list ancestor :=
  [ mkAncestor (js "EM") (js "zebra"); mkAncestor (js "P") paragraph800;
    mkAncestor (js "BODY") (js "menu" ++ paragraph800) ].



End Selection.


(** ** The vocabulary pattern: [new RegExp("\\b(" + words + ")\\b", "gi")]

    The fragment of the pattern language the scanner's pattern is written in:
    pattern characters, identity escapes of syntax characters, [\b], groups
    and alternation, matched by backtracking with continuations as in the
    language definition. *)

Module Pattern.

Inductive regex :=
| Empty                       (* the empty alternative *)
| Char (c : N)                (* a pattern character or an identity escape *)
| WordBoundary                (* [\b] *)
| Seq (r1 r2 : regex)
| Alt (r1 r2 : regex)         (* [r1|r2] *)
| Group (r : regex).          (* [(r)] *)

(** The characters of the class [[.*+?^${}()|[\]\\]] of the scanner. *)
Definition escapedClass : jsstring := js ".*+?^${}()|[]" ++ [92%N].

(** The syntax characters of the pattern grammar: [^$\.*+?()[]{}|]. *)
Definition syntaxCharacters : jsstring := js "^$" ++ [92%N] ++ js ".*+?()[]{}|".

Definition isSyntaxCharacter (c : N) : bool :=
  bool_decide (c ∈ syntaxCharacters).

(** [word.replace(/[.*+?^${}()|[\]\\]/g, "\\$&")]: a backslash before every
    character of the class. *)
Definition escapeRegExp (w : jsstring) : jsstring :=
  flat_map (fun c => if bool_decide (c ∈ escapedClass) then [92%N; c] else [c]) w.

(** [Array.prototype.join]. *)
Fixpoint join (sep : jsstring) (l : list jsstring) : jsstring :=
  match l with
  | [] => []
  | [x] => x
  | x :: rest => x ++ sep ++ join sep rest
  end.

(** The source text handed to [new RegExp]. *)
Definition patternSource (words : list jsstring) : jsstring :=
  [92%N] ++ js "b(" ++ join (js "|") (map escapeRegExp words)
         ++ js ")" ++ [92%N] ++ js "b".

(** *** Reading a pattern *)

(** A disjunction being read: the alternatives finished so far and the one
    being extended. *)
Record frame := mkFrame { finished : option regex; cur : regex }.

Record pstate := mkP {
  outer : list frame;     (* the disjunctions around the current group *)
  top : frame;
  escaped : bool          (* the previous character was an unescaped [\] *)
}.

Definition push (t : regex) (f : frame) : frame :=
  mkFrame (finished f) (Seq (cur f) t).

Definition closeWith (d : option regex) (r : regex) : regex :=
  match d with None => r | Some a => Alt a r end.

Definition close (f : frame) : regex := closeWith (finished f) (cur f).

(** One character of the source.  [None]: a syntax error, or a construct
    outside the fragment (quantifiers, classes, [.], [^], [$], other
    escapes). *)
Definition parseStep (st : pstate) (c : N) : option pstate :=
  if escaped st then
    if (c =? 98)%N then Some (mkP (outer st) (push WordBoundary (top st)) false)
    else if isSyntaxCharacter c || (c =? 47)%N
         then Some (mkP (outer st) (push (Char c) (top st)) false)
         else None
  else if (c =? 92)%N then Some (mkP (outer st) (top st) true)
  else if (c =? 40)%N then Some (mkP (top st :: outer st) (mkFrame None Empty) false)
  else if (c =? 41)%N then
    match outer st with
    | f :: rest => Some (mkP rest (push (Group (close (top st))) f) false)
    | [] => None
    end
  else if (c =? 124)%N then
    Some (mkP (outer st) (mkFrame (Some (close (top st))) Empty) false)
  else if isSyntaxCharacter c then None
  else Some (mkP (outer st) (push (Char c) (top st)) false).

Fixpoint parseFrom (st : pstate) (src : jsstring) : option pstate :=
  match src with
  | [] => Some st
  | c :: src' =>
      match parseStep st c with
      | Some st' => parseFrom st' src'
      | None => None
      end
  end.

(** [new RegExp(src)]: [None] when the constructor throws. *)
Definition parse (src : jsstring) : option regex :=
  match parseFrom (mkP [] (mkFrame None Empty) false) src with
  | Some st =>
      if escaped st then None
      else match outer st with [] => Some (close (top st)) | _ => None end
  | None => None
  end.

(** The pattern of a vocabulary. *)
Definition compile (words : list jsstring) : option regex :=
  parse (patternSource words).

(** The pattern the scanner means: the words as literal characters, in
    order, as the alternatives of one group between two [\b]. *)
Definition literal (w : jsstring) : regex :=
  foldl (fun r c => Seq r (Char c)) Empty w.

Definition alternation (words : list jsstring) : regex :=
  match words with
  | [] => Empty
  | w :: ws => foldl (fun a w' => Alt a (literal w')) (literal w) ws
  end.

Definition literalPattern (words : list jsstring) : regex :=
  Seq (Seq (Seq Empty WordBoundary) (Group (alternation words))) WordBoundary.

(** *** Escaping makes every word a literal *)

Lemma escapedClass_syntax c :
  bool_decide (c ∈ escapedClass) = isSyntaxCharacter c.
Proof.
  apply bool_decide_ext. unfold escapedClass, syntaxCharacters, js. simpl.
  rewrite !elem_of_cons, !elem_of_nil. tauto.
Qed.

Lemma parseStep_plain stk f c :
  isSyntaxCharacter c = false ->
  parseStep (mkP stk f false) c = Some (mkP stk (push (Char c) f) false).
Proof.
  intros Hc. unfold parseStep. simpl.
  destruct (N.eqb_spec c 92) as [->|_]; [done|].
  destruct (N.eqb_spec c 40) as [->|_]; [done|].
  destruct (N.eqb_spec c 41) as [->|_]; [done|].
  destruct (N.eqb_spec c 124) as [->|_]; [done|].
  by rewrite Hc.
Qed.

Lemma parseStep_escape stk f c :
  isSyntaxCharacter c = true ->
  parseFrom (mkP stk f false) [92%N; c] = Some (mkP stk (push (Char c) f) false).
Proof.
  intros Hc. simpl. unfold parseStep. simpl.
  destruct (N.eqb_spec c 98) as [->|_]; [done|].
  by rewrite Hc.
Qed.

Lemma parseFrom_app st a b :
  parseFrom st (a ++ b) =
  match parseFrom st a with Some st' => parseFrom st' b | None => None end.
Proof.
  revert st. induction a as [|c a IH]; intros st; simpl; [done|].
  destruct (parseStep st c); [apply IH|done].
Qed.

Lemma parseFrom_word stk f w rest :
  parseFrom (mkP stk f false) (escapeRegExp w ++ rest) =
  parseFrom (mkP stk (mkFrame (finished f)
                        (foldl (fun r c => Seq r (Char c)) (cur f) w)) false)
    rest.
Proof.
  revert f. induction w as [|c w IH]; intros f; simpl.
  - by destruct f.
  - rewrite escapedClass_syntax. destruct (isSyntaxCharacter c) eqn:Hc.
    + rewrite <- app_assoc, parseFrom_app, (parseStep_escape _ _ _ Hc).
      by rewrite IH.
    + simpl. rewrite (parseStep_plain _ _ _ Hc). by rewrite IH.
Qed.

Lemma parseFrom_bar stk f rest :
  parseFrom (mkP stk f false) (js "|" ++ rest) =
  parseFrom (mkP stk (mkFrame (Some (close f)) Empty) false) rest.
Proof. reflexivity. Qed.

Lemma parseFrom_words stk d w ws rest :
  exists f,
    parseFrom (mkP stk (mkFrame d Empty) false)
      (join (js "|") (map escapeRegExp (w :: ws)) ++ rest) =
    parseFrom (mkP stk f false) rest /\
    close f =
      foldl (fun a w' => Alt a (literal w')) (closeWith d (literal w)) ws.
Proof.
  revert d w. induction ws as [|w2 ws IH]; intros d w.
  - exists (mkFrame d (literal w)). split; [|done].
    simpl. by rewrite parseFrom_word.
  - destruct (IH (Some (closeWith d (literal w))) w2) as (f & Hf & Hclose).
    exists f. split; [|done].
    change (join (js "|") (map escapeRegExp (w :: w2 :: ws))) with
      (escapeRegExp w ++ js "|" ++ join (js "|") (map escapeRegExp (w2 :: ws))).
    rewrite <- !app_assoc, parseFrom_word.
    rewrite (app_assoc (js "|")), <- (app_assoc (js "|")), parseFrom_bar.
    exact Hf.
Qed.

(** Whatever the words contain, the constructor accepts the source and the
    pattern is the literal alternation of the words. *)
Lemma compile_literal words : compile words = Some (literalPattern words).
Proof.
  unfold compile, parse, patternSource.
  change (parseFrom (mkP [] (mkFrame None Empty) false)
            ([92%N] ++ js "b(" ++ join (js "|") (map escapeRegExp words)
               ++ js ")" ++ [92%N] ++ js "b"))
    with (parseFrom
            (mkP [mkFrame None (Seq Empty WordBoundary)] (mkFrame None Empty) false)
            (join (js "|") (map escapeRegExp words) ++ js ")" ++ [92%N] ++ js "b")).
  destruct words as [|w ws]; [reflexivity|].
  destruct (parseFrom_words [mkFrame None (Seq Empty WordBoundary)] None w ws
              (js ")" ++ [92%N] ++ js "b")) as (f & -> & Hclose).
  simpl. unfold literalPattern, push. simpl. by rewrite Hclose.
Qed.

(** *** Matching *)

(** The word characters of [\b] and [\w]: [[A-Za-z0-9_]]. *)
Definition isWordChar (c : N) : bool :=
  (((97 <=? c) && (c <=? 122)) || ((65 <=? c) && (c <=? 90)) ||
   ((48 <=? c) && (c <=? 57)) || (c =? 95))%N.

Definition isWordCharAt (input : jsstring) (i : nat) : bool :=
  match input !! i with Some c => isWordChar c | None => false end.

(** [\b] at end index [e]: exactly one of the characters at [e - 1] and [e]
    is a word character; outside the input there is none. *)
Definition isWordBoundary (input : jsstring) (e : nat) : bool :=
  let a := match e with 0 => false | S p => isWordCharAt input p end in
  let b := isWordCharAt input e in
  xorb a b.

Definition asciiToUpperCase (c : N) : N :=
  if ((97 <=? c) && (c <=? 122))%N then (c - 32)%N else c.

(** *** Case is ignored, occurrences are found *)



Section WithCaseTable.

(** [String.prototype.toUpperCase] on a one-unit string whose unit is not
    ASCII, provided by the runtime. *)
Variable upperNonAscii : N -> jsstring.

Definition toUpperCaseUnit (ch : N) : jsstring :=
  if (ch <? 128)%N then [asciiToUpperCase ch] else upperNonAscii ch.

(** Canonicalize of a pattern with flag [i] and without flag [u]. *)
Definition canonicalize (ch : N) : N :=
  match toUpperCaseUnit ch with
  | [cu] => if ((128 <=? ch) && (cu <? 128))%N then ch else cu
  | _ => ch
  end.

(** The matcher of [r] at index [i] of [input] with continuation [k]: the end
    index of the first way, in backtracking order, to match [r] and then
    satisfy [k]. *)
Fixpoint matcher (r : regex) (input : jsstring) (i : nat)
    (k : nat -> option nat) : option nat :=
  match r with
  | Empty => k i
  | Char c =>
      match input !! i with
      | Some d => if (canonicalize d =? canonicalize c)%N then k (S i) else None
      | None => None
      end
  | WordBoundary => if isWordBoundary input i then k i else None
  | Seq r1 r2 => matcher r1 input i (fun j => matcher r2 input j k)
  | Alt r1 r2 =>
      match matcher r1 input i k with
      | Some e => Some e
      | None => matcher r2 input i k
      end
  | Group r1 => matcher r1 input i k
  end.

(** The attempts of [exec] at [i], [i + 1], ..., [i + n]. *)
Fixpoint search (r : regex) (input : jsstring) (n i : nat) : option (nat * nat) :=
  match matcher r input i Some with
  | Some e => Some (i, e)
  | None => match n with 0 => None | S n' => search r input n' (S i) end
  end.

(** [pattern.exec(input)] with flag [g] and [pattern.lastIndex = lastIndex]:
    the index and the end of the match, the end being the new [lastIndex]. *)
Definition exec (r : regex) (input : jsstring) (lastIndex : nat)
    : option (nat * nat) :=
  if decide (length input < lastIndex) then None
  else search r input (length input - lastIndex) lastIndex.

(** The matches of [while ((match = pattern.exec(text)) !== null)] from
    [lastIndex], for at most [fuel] calls of [exec]. *)
Fixpoint execLoop (fuel : nat) (r : regex) (text : jsstring) (lastIndex : nat)
    : option (list (nat * nat)) :=
  match fuel with
  | 0 => None
  | S fuel' =>
      match exec r text lastIndex with
      | None => Some []
      | Some (i, e) =>
          match execLoop fuel' r text e with
          | Some ms => Some ((i, e) :: ms)
          | None => None
          end
      end
  end.

(** The loop over one text: a match of at least one unit moves [lastIndex]
    forward, so a loop that ends at all ends within [length text + 1] calls;
    [None] is the loop that never ends (an empty match leaves [lastIndex]
    where it was). *)
Definition matchesOf (r : regex) (text : jsstring) : option (list (nat * nat)) :=
  execLoop (S (length text)) r text 0.

(** *** What the pattern matches *)

(** The units of [input] from [i] on are those of [w], up to case. *)
Fixpoint matchesLiteral (w input : jsstring) (i : nat) : bool :=
  match w with
  | [] => true
  | c :: w' =>
      match input !! i with
      | Some d => (canonicalize d =? canonicalize c)%N && matchesLiteral w' input (S i)
      | None => false
      end
  end.

(** The first word, in vocabulary order, that matches at [i] and after which
    [k] succeeds. *)
Fixpoint firstWord (words : list jsstring) (input : jsstring) (i : nat)
    (k : nat -> option nat) : option nat :=
  match words with
  | [] => None
  | w :: ws =>
      match (if matchesLiteral w input i then k (i + length w) else None) with
      | Some e => Some e
      | None => firstWord ws input i k
      end
  end.

Lemma matcher_ext r input i k k' :
  (forall j, k j = k' j) -> matcher r input i k = matcher r input i k'.
Proof.
  revert i k k'. induction r as [|c| |r1 IH1 r2 IH2|r1 IH1 r2 IH2|r1 IH1];
    intros i k k' Hk; simpl.
  - apply Hk.
  - destruct (input !! i); [|done]. by rewrite Hk.
  - by rewrite Hk.
  - apply IH1. intros j. by apply IH2.
  - rewrite (IH1 i k k' Hk). by rewrite (IH2 i k k' Hk).
  - by apply IH1.
Qed.

Lemma matcher_literal_from r0 w input i k :
  matcher (foldl (fun r c => Seq r (Char c)) r0 w) input i k =
  matcher r0 input i
    (fun j => if matchesLiteral w input j then k (j + length w) else None).
Proof.
  revert r0 k. induction w as [|c w IH]; intros r0 k; simpl.
  - apply matcher_ext. intros j. by rewrite Nat.add_0_r.
  - rewrite IH. simpl. apply matcher_ext. intros j.
    destruct (input !! j) as [d|]; [|done].
    destruct (canonicalize d =? canonicalize c)%N; [|done]. simpl.
    by rewrite Nat.add_succ_r.
Qed.

Lemma matcher_literal w input i k :
  matcher (literal w) input i k =
  if matchesLiteral w input i then k (i + length w) else None.
Proof. unfold literal. by rewrite matcher_literal_from. Qed.

Lemma matcher_alternation_from a0 ws input i k :
  matcher (foldl (fun a w' => Alt a (literal w')) a0 ws) input i k =
  match matcher a0 input i k with
  | Some e => Some e
  | None => firstWord ws input i k
  end.
Proof.
  revert a0. induction ws as [|w ws IH]; intros a0; simpl.
  - by destruct (matcher a0 input i k).
  - rewrite IH. simpl. rewrite matcher_literal.
    by destruct (matcher a0 input i k).
Qed.

Lemma matcher_alternation words input i k :
  words <> [] ->
  matcher (alternation words) input i k = firstWord words input i k.
Proof.
  destruct words as [|w ws]; [done|]. intros _. unfold alternation.
  rewrite matcher_alternation_from, matcher_literal. done.
Qed.

Lemma matcher_literalPattern words input i :
  words <> [] ->
  matcher (literalPattern words) input i Some =
  if isWordBoundary input i
  then firstWord words input i
         (fun j => if isWordBoundary input j then Some j else None)
  else None.
Proof.
  intros Hne. unfold literalPattern. simpl.
  destruct (isWordBoundary input i); [|done].
  by apply matcher_alternation.
Qed.

Lemma matchesLiteral_bound w input i :
  i <= length input ->
  matchesLiteral w input i = true -> i + length w <= length input.
Proof.
  revert i. induction w as [|c w IH]; intros i Hi0; simpl; [lia|].
  destruct (input !! i) as [d|] eqn:Hi; [|done].
  apply lookup_lt_Some in Hi.
  intros [_ Hw]%andb_true_iff. apply IH in Hw; lia.
Qed.

Lemma matchesLiteral_spec w input i :
  matchesLiteral w input i = true ->
  Forall2 (fun d c => canonicalize d = canonicalize c)
    (take (length w) (drop i input)) w.
Proof.
  revert i. induction w as [|c w IH]; intros i; simpl.
  - intros _. rewrite take_0. constructor.
  - destruct (input !! i) as [d|] eqn:Hi; [|done].
    intros [Hc Hw]%andb_true_iff.
    rewrite (drop_S _ _ _ Hi). simpl. constructor.
    + by apply N.eqb_eq.
    + by apply IH.
Qed.

Lemma firstWord_Some words input i k e :
  firstWord words input i k = Some e ->
  exists w, w ∈ words /\ matchesLiteral w input i = true /\
            k (i + length w) = Some e.
Proof.
  induction words as [|w ws IH]; simpl; [done|].
  destruct (matchesLiteral w input i) eqn:Hw.
  - destruct (k (i + length w)) as [e'|] eqn:Hk.
    + intros [= <-]. exists w. split_and!; [left|done|done].
    + intros (w' & Hin & ?)%IH. exists w'. split; [by right|done].
  - intros (w' & Hin & ?)%IH. exists w'. split; [by right|done].
Qed.

(** What a successful attempt at index [s] with end [e] means. *)
Definition wholeWordAt (words : list jsstring) (text : jsstring)
    (m : nat * nat) : Prop :=
  isWordBoundary text m.1 = true /\ isWordBoundary text m.2 = true /\
  m.2 <= length text /\
  exists w, w ∈ words /\ m.2 = m.1 + length w /\
    Forall2 (fun d c => canonicalize d = canonicalize c)
      (take (length w) (drop m.1 text)) w.

Lemma matcher_wholeWord words text s e :
  words <> [] -> s <= length text ->
  matcher (literalPattern words) text s Some = Some e ->
  wholeWordAt words text (s, e).
Proof.
  intros Hne Hs. rewrite (matcher_literalPattern _ _ _ Hne).
  destruct (isWordBoundary text s) eqn:Hb; [|done].
  intros (w & Hin & Hw & Hk)%firstWord_Some.
  destruct (isWordBoundary text (s + length w)) eqn:Hb'; [|done].
  injection Hk as <-. unfold wholeWordAt. simpl.
  split_and!; [done|done|by apply matchesLiteral_bound|].
  exists w. split_and!; [done|done|by apply matchesLiteral_spec].
Qed.

Lemma search_Some r input n i s e :
  search r input n i = Some (s, e) ->
  matcher r input s Some = Some e /\ i <= s <= i + n.
Proof.
  revert i. induction n as [|n IH]; intros i; simpl.
  - destruct (matcher r input i Some) eqn:Hm; [|done].
    intros [= <- <-]. split; [done|lia].
  - destruct (matcher r input i Some) eqn:Hm.
    + intros [= <- <-]. split; [done|lia].
    + intros [? ?]%IH. split; [done|lia].
Qed.

Lemma exec_Some r input lastIndex s e :
  exec r input lastIndex = Some (s, e) ->
  matcher r input s Some = Some e /\ lastIndex <= s <= length input.
Proof.
  unfold exec. case_decide; [done|].
  intros [? ?]%search_Some. split; [done|lia].
Qed.

Lemma execLoop_Forall (P : nat * nat -> Prop) fuel r text lastIndex ms :
  (forall s e, s <= length text -> matcher r text s Some = Some e -> P (s, e)) ->
  execLoop fuel r text lastIndex = Some ms -> Forall P ms.
Proof.
  intros HP. revert lastIndex ms.
  induction fuel as [|fuel IH]; intros lastIndex ms; simpl; [done|].
  destruct (exec r text lastIndex) as [[s e]|] eqn:He.
  - destruct (execLoop fuel r text e) as [ms'|] eqn:Hl; [|done].
    intros [= <-]. constructor; [|by eapply IH].
    apply exec_Some in He as [Hm [_ Hs]]. by apply HP.
  - intros [= <-]. constructor.
Qed.

(** A loop whose matches are never empty ends. *)
Lemma execLoop_terminates r text fuel lastIndex :
  (forall s e, s <= length text -> matcher r text s Some = Some e ->
     s < e <= length text) ->
  length text < fuel + lastIndex -> lastIndex <= length text ->
  exists ms, execLoop fuel r text lastIndex = Some ms.
Proof.
  intros Hpos. revert lastIndex.
  induction fuel as [|fuel IH]; intros lastIndex Hfuel Hlast; simpl; [lia|].
  destruct (exec r text lastIndex) as [[s e]|] eqn:He; [|by eexists].
  apply exec_Some in He as [Hm Hs]. apply Hpos in Hm; [|lia].
  destruct (IH e) as [ms ->]; [lia|lia|]. by eexists.
Qed.

Lemma literalPattern_nonempty_match words text s e :
  words <> [] -> Forall (fun w => w <> []) words -> s <= length text ->
  matcher (literalPattern words) text s Some = Some e -> s < e <= length text.
Proof.
  intros Hne Hall Hs Hm.
  destruct (matcher_wholeWord _ _ _ _ Hne Hs Hm) as (_ & _ & Hlen & w & Hin & He & _).
  simpl in *. rewrite Forall_forall in Hall. specialize (Hall _ Hin).
  destruct w; [done|]. simpl in He. lia.
Qed.

Lemma matchesOf_terminates words text :
  words <> [] -> Forall (fun w => w <> []) words ->
  exists ms, matchesOf (literalPattern words) text = Some ms.
Proof.
  intros Hne Hall. apply execLoop_terminates; [|lia|lia].
  intros s e. by apply literalPattern_nonempty_match.
Qed.

(** A match ends at or after its start, inside the input. *)
Lemma matcher_range r input i k e :
  i <= length input ->
  matcher r input i k = Some e ->
  exists j, i <= j <= length input /\ k j = Some e.
Proof.
  revert i k. induction r as [|c| |r1 IH1 r2 IH2|r1 IH1 r2 IH2|r1 IH1];
    intros i k Hi; simpl.
  - intros Hk. exists i. split; [lia|done].
  - destruct (input !! i) as [d|] eqn:Hd; [|done].
    destruct (canonicalize d =? canonicalize c)%N; [|done].
    intros Hk. exists (S i). apply lookup_lt_Some in Hd. split; [lia|done].
  - destruct (isWordBoundary input i); [|done].
    intros Hk. exists i. split; [lia|done].
  - intros (j & Hj & (j' & Hj' & Hk)%IH2)%IH1; [|lia..].
    exists j'. split; [lia|done].
  - destruct (matcher r1 input i k) as [e'|] eqn:H1.
    + intros [= <-]. by apply IH1 in H1.
    + by apply IH2.
  - by apply IH1.
Qed.

(** The matches of a loop, one after the other inside the text. *)
Fixpoint ordered (lastIndex : nat) (ms : list (nat * nat)) (len : nat) : Prop :=
  match ms with
  | [] => lastIndex <= len
  | (i, e) :: ms' => lastIndex <= i /\ i <= e /\ ordered e ms' len
  end.

Lemma execLoop_ordered fuel r text lastIndex ms :
  lastIndex <= length text ->
  execLoop fuel r text lastIndex = Some ms -> ordered lastIndex ms (length text).
Proof.
  revert lastIndex ms. induction fuel as [|fuel IH]; intros lastIndex ms Hl;
    simpl; [done|].
  destruct (exec r text lastIndex) as [[s e]|] eqn:He.
  - destruct (execLoop fuel r text e) as [ms'|] eqn:Hloop; [|done].
    intros [= <-]. apply exec_Some in He as [Hm Hs].
    apply matcher_range in Hm as (j & Hj & [= <-]); [|lia].
    simpl. split_and!; [lia..|]. apply IH; [lia|done].
  - by intros [= <-].
Qed.

(** *** The claim about whole-word matching *)

Lemma matchesLiteral_complete w input i :
  Forall2 (fun d c => canonicalize d = canonicalize c)
    (take (length w) (drop i input)) w ->
  matchesLiteral w input i = true.
Proof.
  revert i. induction w as [|c w IH]; intros i; simpl; [done|].
  destruct (input !! i) as [d|] eqn:Hi.
  - rewrite (drop_S _ _ _ Hi). simpl.
    intros [Hc Hw]%Forall2_cons. apply andb_true_iff. split.
    + by apply N.eqb_eq.
    + by apply IH.
  - rewrite drop_ge by (by apply lookup_ge_None). intros H. inversion H.
Qed.

Lemma firstWord_complete words input i k w e :
  w ∈ words -> matchesLiteral w input i = true ->
  k (i + length w) = Some e ->
  exists e', firstWord words input i k = Some e'.
Proof.
  intros Hin Hw Hk. induction words as [|w0 ws IH]; [by apply elem_of_nil in Hin|].
  simpl. destruct (if matchesLiteral w0 input i
                   then k (i + length w0) else None) as [e0|] eqn:H0;
    [by eexists|].
  apply elem_of_cons in Hin as [->|Hin]; [|by apply IH].
  rewrite Hw, Hk in H0. done.
Qed.

(** At the start of a whole-word occurrence an attempt of the pattern
    succeeds. *)
Lemma wholeWord_matcher words text m :
  words <> [] -> wholeWordAt words text m ->
  exists e, matcher (literalPattern words) text m.1 Some = Some e.
Proof.
  intros Hne (Hb1 & Hb2 & Hlen & w & Hin & He & Hw).
  rewrite (matcher_literalPattern words text _ Hne), Hb1.
  apply (firstWord_complete words text m.1 _ w m.2); [done| |].
  - by apply matchesLiteral_complete.
  - by rewrite <- He, Hb2.
Qed.

Lemma search_complete r input n i s e :
  matcher r input s Some = Some e -> i <= s <= i + n ->
  exists a b, search r input n i = Some (a, b) /\ a <= s.
Proof.
  intros Hm. revert i. induction n as [|n IH]; intros i Hs; simpl.
  - replace i with s by lia. rewrite Hm. exists s, e. split; [done|lia].
  - destruct (matcher r input i Some) as [e'|] eqn:Hi.
    + exists i, e'. split; [done|lia].
    + destruct (decide (i = s)) as [->|Hne]; [congruence|].
      apply IH. lia.
Qed.

Lemma execLoop_complete fuel r text lastIndex ms s e :
  execLoop fuel r text lastIndex = Some ms ->
  matcher r text s Some = Some e -> lastIndex <= s <= length text ->
  exists m, m ∈ ms /\ m.1 <= s < m.2.
Proof.
  intros Hloop Hm. revert lastIndex ms Hloop.
  induction fuel as [|fuel IH]; intros lastIndex ms; simpl; [done|].
  intros Hloop Hs. unfold exec in Hloop.
  destruct (decide (length text < lastIndex)) as [|_]; [lia|].
  destruct (search_complete r text (length text - lastIndex) lastIndex s e Hm)
    as (a & b & Hsearch & Ha); [lia|].
  rewrite Hsearch in Hloop.
  destruct (execLoop fuel r text b) as [ms'|] eqn:Hrest; [|done].
  injection Hloop as <-.
  destruct (decide (s < b)) as [Hlt|Hge].
  - exists (a, b). split; [left|simpl; lia].
  - destruct (IH b ms' Hrest) as (m & Hin & Hcov); [lia|].
    exists m. split; [by right|done].
Qed.

Lemma canonicalize_nonAscii d :
  (128 <= d)%N -> (128 <= canonicalize d)%N.
Proof.
  intros Hd. unfold canonicalize, toUpperCaseUnit.
  destruct (N.ltb_spec d 128); [lia|].
  destruct (upperNonAscii d) as [|cu [|? ?]]; [done| |done].
  destruct (N.leb_spec 128 d); [|lia]. simpl.
  destruct (N.ltb_spec cu 128); lia.
Qed.

Lemma canonicalize_ascii c :
  (c < 128)%N -> canonicalize c = asciiToUpperCase c.
Proof.
  intros Hc. unfold canonicalize, toUpperCaseUnit.
  destruct (N.ltb_spec c 128); [|lia].
  destruct (N.leb_spec 128 c); [lia|]. done.
Qed.



End WithCaseTable.

(** *** The pattern on concrete inputs *)

(** Upper-casing of the units beyond ASCII, for pages that hold none. *)
Definition noUpper (c : N) : jsstring := [c].

Example special_characters_are_literal :
  matchesOf noUpper (literalPattern [js "c++"; js "a|b"; js "cat"])
    (js "category the Cat sat on c++x and a|b")
  = Some [(13, 16); (24, 27); (33, 36)].
Proof. reflexivity. Qed.


End Pattern.


(** ** The page: text nodes and elements *)

Module Dom.

(** What the scanner reads of an element.  [tagName] is the qualified name,
    in upper case for an HTML element of an HTML document; a type selector is
    matched against [localName], in whatever namespace the element is.
    [isActiveBadge] is the identity the content script keeps of one element:
    it is set on the element its variable [activeBadge] refers to, and on no
    other. *)
Record element := mkElement {
  tagName : jsstring;
  localName : jsstring;
  id : jsstring;
  classList : list jsstring;
  isContentEditable : bool;
  vhTranslation : option jsstring;    (* [dataset.vhTranslation] *)
  vhWord : option jsstring;           (* [dataset.vhWord] *)
  isActiveBadge : bool                (* [activeBadge === el] *)
}.

#[warnings="-register-all"]
Inductive node :=
| Text (data : jsstring)
| Element (el : element) (childNodes : list node).

#[global] Instance element_eq_dec : EqDecision element.
Proof. solve_decision. Defined.

Fixpoint textContent (n : node) : jsstring :=
  match n with
  | Text s => s
  | Element _ kids => flat_map textContent kids
  end.

Definition children (n : node) : list node :=
  match n with Text _ => [] | Element _ kids => kids end.

Definition isText (n : node) : bool :=
  match n with Text _ => true | Element _ _ => false end.

Definition hasClass (c : jsstring) (el : element) : bool :=
  bool_decide (c ∈ classList el).

(** The selector [mark.vh-highlight], in a document that is not in quirks
    mode: the local name is [mark], in any namespace, and the class list has
    [vh-highlight]. *)
Definition isMarkerElement (el : element) : bool :=
  bool_decide (localName el = js "mark") && hasClass (js "vh-highlight") el.

Definition isMarker (n : node) : bool :=
  match n with Element el _ => isMarkerElement el | Text _ => false end.

(** [document.querySelectorAll("mark.vh-highlight").length] below [n]. *)
Fixpoint countMarkers (n : node) : nat :=
  match n with
  | Text _ => 0
  | Element _ kids =>
      list_sum (map (fun k => (if isMarker k then 1 else 0) + countMarkers k) kids)
  end.

(** *** [Node.normalize] *)

(** A text of data [s] followed by the already normalized [rest]: it takes
    the data of a text that follows, and disappears when it is empty. *)
Definition mergeHead (s : jsstring) (rest : list node) : list node :=
  match rest with
  | Text s' :: rest' => Text (s ++ s') :: rest'
  | _ => match s with [] => rest | _ => Text s :: rest end
  end.

(** One list of siblings: runs of adjacent texts become one text, empty texts
    go away. *)
Fixpoint mergeText (ns : list node) : list node :=
  match ns with
  | [] => []
  | Text s :: rest => mergeHead s (mergeText rest)
  | n :: rest => n :: mergeText rest
  end.

Fixpoint normalizeNode (n : node) : node :=
  match n with
  | Text s => Text s
  | Element el kids => Element el (mergeText (map normalizeNode kids))
  end.

(** [parent.normalize()], on the children of [parent]: the whole subtree. *)
Definition normalize (kids : list node) : list node :=
  mergeText (map normalizeNode kids).

Definition nonEmpty (s : jsstring) : bool :=
  match s with [] => false | _ :: _ => true end.

Definition headNotText (ns : list node) : bool :=
  match ns with Text _ :: _ => false | _ => true end.

(** No empty text and no two adjacent texts among siblings. *)
Fixpoint separated (ns : list node) : bool :=
  match ns with
  | Text s :: rest => nonEmpty s && headNotText rest && separated rest
  | _ :: rest => separated rest
  | [] => true
  end.

(** A subtree in normalized form. *)
Fixpoint normalized (n : node) : bool :=
  match n with
  | Text _ => true
  | Element _ kids => separated kids && forallb normalized kids
  end.

(** *** [removeHighlights]

    One pass of the loop body: [parent.replaceChild(text, mark)] and
    [parent.normalize()] for the first marker, in document order, below the
    given node.  [replaceFirstIn] walks one list of siblings; its flag says
    whether the marker was one of them, so that their parent is the one to
    normalize. *)
Fixpoint replaceFirstIn (below : node -> option node) (kids : list node)
    : option (bool * list node) :=
  match kids with
  | [] => None
  | k :: rest =>
      if isMarker k then Some (true, Text (textContent k) :: rest)
      else match below k with
           | Some k' => Some (false, k' :: rest)
           | None =>
               match replaceFirstIn below rest with
               | Some (direct, rest') => Some (direct, k :: rest')
               | None => None
               end
           end
  end.

Fixpoint replaceFirstMarker (n : node) : option node :=
  match n with
  | Text _ => None
  | Element el kids =>
      match replaceFirstIn replaceFirstMarker kids with
      | Some (true, kids') => Some (Element el (normalize kids'))
      | Some (false, kids') => Some (Element el kids')
      | None => None
      end
  end.

(** [count] passes.  The node list of [querySelectorAll] is static and in
    document order: a marker nested in an earlier marker is detached together
    with it, and its own pass then rewrites the detached subtree only.  The
    passes that change the document are therefore those that hit, each in
    turn, the first marker still in the document. *)
Fixpoint replaceMarkers (count : nat) (doc : node) : node :=
  match count with
  | 0 => doc
  | S count' =>
      match replaceFirstMarker doc with
      | Some doc' => replaceMarkers count' doc'
      | None => doc
      end
  end.

(** [removeHighlights()] on the document below [body]. *)
Definition removeHighlights (body : node) : node :=
  replaceMarkers (countMarkers body) body.

(** All markers replaced by their text and everything normalized: what
    [removeHighlights] amounts to on a normalized document. *)
Fixpoint restoreNode (n : node) : node :=
  match n with
  | Text s => Text s
  | Element el kids =>
      if isMarkerElement el then Text (flat_map textContent kids)
      else Element el (mergeText (map restoreNode kids))
  end.

Definition restore (kids : list node) : list node :=
  mergeText (map restoreNode kids).

(** The same below a root that stays what it is. *)
Definition restoreBelow (n : node) : node :=
  match n with
  | Text s => Text s
  | Element el kids => Element el (restore kids)
  end.

(** No marker below [n]. *)
Fixpoint markerFree (n : node) : bool :=
  match n with
  | Text _ => true
  | Element _ kids => forallb (fun k => negb (isMarker k) && markerFree k) kids
  end.

(** Every marker below [n] holds at most one text and nothing else. *)
Fixpoint markersFlat (n : node) : bool :=
  match n with
  | Text _ => true
  | Element _ kids =>
      forallb (fun k => (if isMarker k then forallb isText (children k) else true)
                        && markersFlat k) kids
  end.

(** *** Induction over a document *)

Lemma node_ind' (P : node -> Prop) :
  (forall s, P (Text s)) ->
  (forall el kids, Forall P kids -> P (Element el kids)) ->
  forall n, P n.
Proof.
  intros HT HE. fix IH 1. intros [s|el kids]; [apply HT|].
  apply HE. induction kids as [|k kids IHk]; constructor; [apply IH|exact IHk].
Qed.

(** *** Text content is kept *)

Lemma textContent_mergeHead s rest :
  flat_map textContent (mergeHead s rest) = s ++ flat_map textContent rest.
Proof.
  destruct rest as [|[s'|el kids] rest]; simpl.
  - destruct s; simpl; [done|by rewrite app_nil_r].
  - by rewrite app_assoc.
  - by destruct s.
Qed.

Lemma textContent_mergeText ns :
  flat_map textContent (mergeText ns) = flat_map textContent ns.
Proof.
  induction ns as [|[s|el kids] ns IH]; simpl; [done| |by rewrite IH].
  by rewrite textContent_mergeHead, IH.
Qed.

Lemma flat_map_ext_Forall {A B} (f g : A -> list B) l :
  Forall (fun x => f x = g x) l -> flat_map f l = flat_map g l.
Proof. induction 1 as [|x l Hx _ IH]; simpl; [done|]. by rewrite Hx, IH. Qed.

Lemma textContent_normalizeNode n : textContent (normalizeNode n) = textContent n.
Proof.
  induction n as [s|el kids IH] using node_ind'; [done|]. simpl.
  rewrite textContent_mergeText, flat_map_concat_map, map_map,
    <- flat_map_concat_map.
  by apply flat_map_ext_Forall.
Qed.

Lemma textContent_normalize kids :
  flat_map textContent (normalize kids) = flat_map textContent kids.
Proof.
  unfold normalize.
  rewrite textContent_mergeText, flat_map_concat_map, map_map,
    <- flat_map_concat_map.
  apply flat_map_ext_Forall, Forall_forall. intros n _.
  apply textContent_normalizeNode.
Qed.

Lemma textContent_replaceFirstIn below kids direct kids' :
  Forall (fun k => forall k', below k = Some k' -> textContent k' = textContent k)
    kids ->
  replaceFirstIn below kids = Some (direct, kids') ->
  flat_map textContent kids' = flat_map textContent kids.
Proof.
  intros Hall. revert direct kids'.
  induction Hall as [|k rest Hk _ IH]; intros direct kids'; simpl; [done|].
  destruct (isMarker k).
  - by intros [= <- <-].
  - destruct (below k) as [k'|] eqn:Hb.
    + intros [= <- <-]. simpl. by rewrite (Hk _ eq_refl).
    + destruct (replaceFirstIn below rest) as [[d rest']|] eqn:Hr; [|done].
      intros [= <- <-]. simpl. by rewrite (IH _ _ eq_refl).
Qed.

Lemma textContent_replaceFirstMarker n n' :
  replaceFirstMarker n = Some n' -> textContent n' = textContent n.
Proof.
  revert n'. induction n as [s|el kids IH] using node_ind'; intros n'; [done|].
  simpl.
  destruct (replaceFirstIn replaceFirstMarker kids) as [[[] kids']|] eqn:Hr;
    [| |done]; intros [= <-]; simpl.
  - rewrite textContent_normalize. by eapply textContent_replaceFirstIn.
  - by eapply textContent_replaceFirstIn.
Qed.

Lemma textContent_replaceMarkers count doc :
  textContent (replaceMarkers count doc) = textContent doc.
Proof.
  revert doc. induction count as [|count IH]; intros doc; simpl; [done|].
  destruct (replaceFirstMarker doc) as [doc'|] eqn:Hd; [|done].
  rewrite IH. by apply textContent_replaceFirstMarker.
Qed.

Lemma textContent_removeHighlights body :
  textContent (removeHighlights body) = textContent body.
Proof. apply textContent_replaceMarkers. Qed.

(** *** Every pass removes a marker *)

Definition weight (k : node) : nat :=
  (if isMarker k then 1 else 0) + countMarkers k.

Lemma countMarkers_Element el kids :
  countMarkers (Element el kids) = list_sum (map weight kids).
Proof. reflexivity. Qed.

Lemma weight_mergeHead s rest :
  list_sum (map weight (mergeHead s rest)) = list_sum (map weight rest).
Proof. by destruct rest as [|[s'|el kids] rest], s. Qed.

Lemma weight_mergeText ns :
  list_sum (map weight (mergeText ns)) = list_sum (map weight ns).
Proof.
  induction ns as [|[s|el kids] ns IH]; simpl; [done| |by rewrite IH].
  by rewrite weight_mergeHead.
Qed.

Lemma isMarker_normalizeNode n : isMarker (normalizeNode n) = isMarker n.
Proof. by destruct n. Qed.

Lemma list_sum_map_ext {A} (f g : A -> nat) l :
  Forall (fun x => f x = g x) l -> list_sum (map f l) = list_sum (map g l).
Proof. induction 1 as [|x l Hx _ IH]; simpl; [done|]. by rewrite Hx, IH. Qed.

Lemma countMarkers_normalizeNode n :
  countMarkers (normalizeNode n) = countMarkers n.
Proof.
  induction n as [s|el kids IH] using node_ind'; [done|].
  simpl normalizeNode. rewrite !countMarkers_Element, weight_mergeText, map_map.
  apply list_sum_map_ext. eapply Forall_impl; [exact IH|].
  intros k Hk. unfold weight. by rewrite isMarker_normalizeNode, Hk.
Qed.

Lemma weight_normalize kids :
  list_sum (map weight (normalize kids)) = list_sum (map weight kids).
Proof.
  unfold normalize. rewrite weight_mergeText, map_map.
  apply list_sum_map_ext, Forall_forall. intros k _.
  unfold weight. by rewrite isMarker_normalizeNode, countMarkers_normalizeNode.
Qed.

Lemma weight_replaceFirstIn below kids direct kids' :
  Forall (fun k => forall k', below k = Some k' ->
            isMarker k' = isMarker k /\ countMarkers k' < countMarkers k) kids ->
  replaceFirstIn below kids = Some (direct, kids') ->
  list_sum (map weight kids') < list_sum (map weight kids).
Proof.
  intros Hall. revert direct kids'.
  induction Hall as [|k rest Hk _ IH]; intros direct kids'; simpl; [done|].
  destruct (isMarker k) eqn:Hm.
  - intros [= <- <-]. simpl. unfold weight at 2. rewrite Hm. simpl. lia.
  - destruct (below k) as [k'|] eqn:Hb.
    + intros [= <- <-]. simpl. destruct (Hk _ eq_refl) as [Hm' Hlt].
      unfold weight at 1 3. rewrite Hm', Hm. lia.
    + destruct (replaceFirstIn below rest) as [[d rest']|] eqn:Hr; [|done].
      intros [= <- <-]. simpl. specialize (IH _ _ eq_refl). lia.
Qed.

Lemma replaceFirstMarker_isMarker n n' :
  replaceFirstMarker n = Some n' -> isMarker n' = isMarker n.
Proof.
  destruct n as [s|el kids]; [done|]. simpl.
  by destruct (replaceFirstIn replaceFirstMarker kids) as [[[] kids']|];
    intros [= <-].
Qed.

Lemma countMarkers_replaceFirstMarker n n' :
  replaceFirstMarker n = Some n' -> countMarkers n' < countMarkers n.
Proof.
  revert n'. induction n as [s|el kids IH] using node_ind'; intros n'; [done|].
  assert (Forall (fun k => forall k', replaceFirstMarker k = Some k' ->
            isMarker k' = isMarker k /\ countMarkers k' < countMarkers k) kids)
    as Hall.
  { eapply Forall_impl; [exact IH|]. intros k Hk k' Hk'.
    split; [by apply replaceFirstMarker_isMarker|by apply Hk]. }
  simpl replaceFirstMarker.
  destruct (replaceFirstIn replaceFirstMarker kids) as [[[] kids']|] eqn:Hr;
    [| |done]; intros [= <-]; rewrite !countMarkers_Element.
  - rewrite weight_normalize. by eapply weight_replaceFirstIn.
  - by eapply weight_replaceFirstIn.
Qed.

Lemma replaceFirstIn_None below kids :
  Forall (fun k => below k = None -> markerFree k = true) kids ->
  replaceFirstIn below kids = None ->
  forallb (fun k => negb (isMarker k) && markerFree k) kids = true.
Proof.
  induction 1 as [|k rest Hk _ IH]; simpl; [done|].
  destruct (isMarker k); [done|].
  destruct (below k) as [k'|]; [done|].
  destruct (replaceFirstIn below rest) as [[d rest']|]; [done|].
  intros _. rewrite Hk, IH; done.
Qed.

Lemma replaceFirstMarker_None n :
  replaceFirstMarker n = None -> markerFree n = true.
Proof.
  induction n as [s|el kids IH] using node_ind'; [done|]. simpl.
  destruct (replaceFirstIn replaceFirstMarker kids) as [[[] kids']|] eqn:Hr;
    [done|done|].
  intros _. by apply (replaceFirstIn_None replaceFirstMarker).
Qed.

Lemma list_sum_zero (l : list nat) : list_sum l = 0 -> Forall (fun x => x = 0) l.
Proof.
  induction l as [|x l IH]; simpl; [constructor|].
  intros H. constructor; [lia|apply IH; lia].
Qed.

Lemma countMarkers_zero n : countMarkers n = 0 -> markerFree n = true.
Proof.
  induction n as [s|el kids IH] using node_ind'; [done|].
  rewrite countMarkers_Element. intros Hz%list_sum_zero. simpl.
  apply forallb_forall. intros k Hk.
  rewrite Forall_forall in IH. rewrite Forall_forall in Hz.
  assert (weight k = 0) as Hw.
  { apply Hz. apply list_elem_of_In, in_map. done. }
  unfold weight in Hw.
  destruct (isMarker k); [simpl in Hw; lia|].
  simpl. apply IH; [by apply list_elem_of_In|lia].
Qed.

Lemma markerFree_replaceMarkers count doc :
  countMarkers doc <= count -> markerFree (replaceMarkers count doc) = true.
Proof.
  revert doc. induction count as [|count IH]; intros doc Hc; simpl.
  - apply countMarkers_zero. lia.
  - destruct (replaceFirstMarker doc) as [doc'|] eqn:Hd.
    + apply IH. apply countMarkers_replaceFirstMarker in Hd. lia.
    + by apply replaceFirstMarker_None.
Qed.

Lemma markerFree_removeHighlights body :
  markerFree (removeHighlights body) = true.
Proof. by apply markerFree_replaceMarkers. Qed.

(** *** Normalized form *)

Lemma separated_mergeHead s rest :
  separated rest = true -> separated (mergeHead s rest) = true.
Proof.
  destruct rest as [|[s'|el kids] rest]; simpl.
  - intros _. by destruct s.
  - intros [[Hs' Hhead]%andb_true_iff Hsep]%andb_true_iff.
    rewrite Hhead, Hsep, !andb_true_r.
    destruct s'; [done|]. by destruct s.
  - intros Hsep. by destruct s.
Qed.

Lemma separated_mergeText ns : separated (mergeText ns) = true.
Proof.
  induction ns as [|[s|el kids] ns IH]; simpl; [done| |done].
  by apply separated_mergeHead.
Qed.

Lemma separated_fixed ns : separated ns = true -> mergeText ns = ns.
Proof.
  induction ns as [|[s|el kids] ns IH]; simpl; [done| |].
  - intros [[Hs Hhead]%andb_true_iff Hsep]%andb_true_iff.
    rewrite (IH Hsep).
    destruct ns as [|[s'|el kids] ns]; try done; by destruct s.
  - intros Hsep. by rewrite (IH Hsep).
Qed.

Lemma forallb_mergeHead (P : node -> bool) s rest :
  (forall s', P (Text s') = true) ->
  forallb P rest = true -> forallb P (mergeHead s rest) = true.
Proof.
  intros HT. destruct rest as [|[s'|el kids] rest]; simpl.
  - intros _. destruct s; [done|]. simpl. by rewrite HT.
  - intros [_ ->]%andb_true_iff. by rewrite HT.
  - intros Hrest. destruct s; [done|]. simpl. by rewrite HT.
Qed.

Lemma forallb_mergeText (P : node -> bool) ns :
  (forall s', P (Text s') = true) ->
  forallb P ns = true -> forallb P (mergeText ns) = true.
Proof.
  intros HT. induction ns as [|[s|el kids] ns IH]; simpl; [done| |].
  - intros [_ Hns]%andb_true_iff. by apply forallb_mergeHead; [|apply IH].
  - intros [-> Hns]%andb_true_iff. by apply IH.
Qed.

Lemma normalized_normalizeNode n : normalized (normalizeNode n) = true.
Proof.
  induction n as [s|el kids IH] using node_ind'; [done|]. simpl.
  rewrite separated_mergeText. simpl.
  apply forallb_mergeText; [done|].
  apply forallb_forall. intros k (k0 & <- & Hk0)%in_map_iff.
  rewrite Forall_forall in IH. by apply IH, list_elem_of_In.
Qed.

Lemma normalized_normalize el kids :
  normalized (Element el (normalize kids)) = true.
Proof. apply (normalized_normalizeNode (Element el kids)). Qed.

Lemma map_id_Forall {A} (f : A -> A) l :
  Forall (fun x => f x = x) l -> map f l = l.
Proof. induction 1 as [|x l Hx _ IH]; simpl; [done|]. by rewrite Hx, IH. Qed.

Lemma normalized_fixed n : normalized n = true -> normalizeNode n = n.
Proof.
  induction n as [s|el kids IH] using node_ind'; [done|]. simpl.
  intros [Hsep Hall]%andb_true_iff. f_equal.
  rewrite (map_id_Forall normalizeNode).
  - by apply separated_fixed.
  - rewrite forallb_forall in Hall. rewrite Forall_forall in IH.
    apply Forall_forall. intros k Hk.
    apply IH; [done|]. by apply Hall, list_elem_of_In.
Qed.

(** *** One pass, taken apart *)

Lemma replaceFirstIn_inv below kids direct kids' :
  replaceFirstIn below kids = Some (direct, kids') ->
  exists pre k post,
    kids = pre ++ k :: post /\
    ((direct = true /\ isMarker k = true /\
      kids' = pre ++ Text (textContent k) :: post) \/
     (direct = false /\ isMarker k = false /\
      exists k', below k = Some k' /\ kids' = pre ++ k' :: post)).
Proof.
  revert direct kids'. induction kids as [|k rest IH]; intros direct kids';
    simpl; [done|].
  destruct (isMarker k) eqn:Hm.
  - intros [= <- <-]. exists [], k, rest. split; [done|]. by left.
  - destruct (below k) as [k'|] eqn:Hb.
    + intros [= <- <-]. exists [], k, rest. split; [done|]. right.
      split_and!; [done..|]. by exists k'.
    + destruct (replaceFirstIn below rest) as [[d rest']|] eqn:Hr; [|done].
      intros [= <- <-].
      destruct (IH _ _ eq_refl) as (pre & k0 & post & -> & Hcase).
      exists (k :: pre), k0, post. split; [done|].
      destruct Hcase as [(-> & ? & ->)|(-> & ? & k' & ? & ->)].
      * by left.
      * right. split_and!; [done..|]. by exists k'.
Qed.

Lemma replaceFirstMarker_isText n n' :
  replaceFirstMarker n = Some n' -> isText n' = false /\ isText n = false.
Proof.
  destruct n as [s|el kids]; [done|]. simpl.
  by destruct (replaceFirstIn replaceFirstMarker kids) as [[[] kids']|];
    intros [= <-].
Qed.

Lemma separated_app_element pre k post :
  isText k = false ->
  separated (pre ++ k :: post) = separated (pre ++ [k]) && separated post.
Proof.
  intros Hk. induction pre as [|[s|el kids] pre IH]; simpl.
  - destruct k; [done|]. simpl. done.
  - rewrite IH. destruct pre as [|[s'|el' kids'] pre]; simpl;
      destruct k; try done; by rewrite ?andb_assoc.
  - by rewrite IH.
Qed.

Lemma separated_replace_element pre k k' post :
  isText k = false -> isText k' = false ->
  separated (pre ++ k' :: post) = separated (pre ++ k :: post).
Proof.
  intros Hk Hk'.
  rewrite (separated_app_element pre k' post), (separated_app_element pre k post)
    by done.
  f_equal.
  clear post. induction pre as [|[s|el kids] pre IH]; simpl.
  - by destruct k, k'.
  - rewrite IH. destruct pre as [|[s'|el' kids'] pre]; simpl;
      destruct k, k'; done.
  - by rewrite IH.
Qed.

Lemma normalized_replaceFirstMarker n n' :
  replaceFirstMarker n = Some n' -> normalized n = true -> normalized n' = true.
Proof.
  revert n'. induction n as [s|el kids IH] using node_ind'; intros n'; [done|].
  simpl replaceFirstMarker.
  destruct (replaceFirstIn replaceFirstMarker kids) as [[[] kids']|] eqn:Hr;
    [| |done]; intros [= <-].
  - intros _. apply normalized_normalize.
  - apply replaceFirstIn_inv in Hr
      as (pre & k & post & -> & [(? & _)|(_ & Hm & k' & Hk' & ->)]); [done|].
    simpl. intros [Hsep Hall]%andb_true_iff.
    destruct (replaceFirstMarker_isText _ _ Hk') as [Ht' Ht].
    rewrite (separated_replace_element _ k) by done. rewrite Hsep. simpl.
    rewrite forallb_app in *. simpl in *.
    apply andb_true_iff in Hall as [Hpre [Hk Hpost]%andb_true_iff].
    rewrite Hpre, Hpost, andb_true_r. simpl.
    rewrite Forall_forall in IH. apply (IH k); [|done..].
    apply elem_of_app. right. left.
Qed.

(** *** [removeHighlights] on a normalized document *)

Lemma mergeHead_nil rest : mergeHead [] rest = rest.
Proof. by destruct rest as [|[s'|el kids] rest]. Qed.

Lemma mergeHead_mergeHead s s' rest :
  mergeHead s (mergeHead s' rest) = mergeHead (s ++ s') rest.
Proof.
  destruct rest as [|[t|el kids] rest]; simpl.
  - destruct s' as [|c s']; simpl.
    + by rewrite app_nil_r.
    + by destruct s.
  - by rewrite app_assoc.
  - destruct s' as [|c s']; simpl.
    + by rewrite app_nil_r.
    + by destruct s.
Qed.

Lemma mergeText_cons n rest :
  mergeText (n :: rest) =
  match n with
  | Text t => mergeHead t (mergeText rest)
  | Element _ _ => n :: mergeText rest
  end.
Proof. by destruct n. Qed.

Section Absorb.

Variable g : node -> node.
Hypothesis g_text : forall s, g (Text s) = Text s.

Lemma mergeText_map_mergeHead s rest :
  mergeText (map g (mergeHead s rest)) = mergeHead s (mergeText (map g rest)).
Proof.
  destruct rest as [|[s'|el kids] rest].
  - simpl. destruct s; [done|]. simpl. by rewrite g_text.
  - simpl. rewrite !g_text. simpl. by rewrite mergeHead_mergeHead.
  - cbn [mergeHead]. destruct s as [|c s].
    + by rewrite mergeHead_nil.
    + cbn [map]. by rewrite g_text.
Qed.

Lemma mergeText_map_mergeText ns :
  mergeText (map g (mergeText ns)) = mergeText (map g ns).
Proof.
  induction ns as [|[s|el kids] ns IH]; [done| |].
  - change (mergeText (Text s :: ns)) with (mergeHead s (mergeText ns)).
    rewrite mergeText_map_mergeHead, IH.
    change (map g (Text s :: ns)) with (g (Text s) :: map g ns).
    by rewrite g_text.
  - change (mergeText (Element el kids :: ns))
      with (Element el kids :: mergeText ns).
    change (map g (Element el kids :: ?l)) with (g (Element el kids) :: map g l).
    by rewrite !mergeText_cons, IH.
Qed.

End Absorb.

Lemma restoreNode_normalizeNode n : restoreNode (normalizeNode n) = restoreNode n.
Proof.
  induction n as [s|el kids IH] using node_ind'; [done|].
  cbn [normalizeNode restoreNode]. destruct (isMarkerElement el).
  - f_equal. apply (textContent_normalize kids).
  - f_equal. rewrite mergeText_map_mergeText by done.
    rewrite map_map. f_equal.
    apply map_ext_Forall. exact IH.
Qed.

Lemma restore_normalize kids : restore (normalize kids) = restore kids.
Proof.
  unfold restore, normalize. rewrite mergeText_map_mergeText by done.
  rewrite map_map. f_equal. apply map_ext. apply restoreNode_normalizeNode.
Qed.

Lemma restoreNode_marker k :
  isMarker k = true -> restoreNode k = Text (textContent k).
Proof. destruct k as [s|el kids]; [done|]. simpl. by intros ->. Qed.

Lemma restoreNode_replaceFirstMarker n n' :
  replaceFirstMarker n = Some n' -> restoreNode n' = restoreNode n.
Proof.
  revert n'. induction n as [s|el kids IH] using node_ind'; intros n'; [done|].
  intros Hstep. pose proof (textContent_replaceFirstMarker _ _ Hstep) as Htext.
  revert Hstep Htext. simpl replaceFirstMarker.
  destruct (replaceFirstIn replaceFirstMarker kids) as [[direct kids']|] eqn:Hr;
    [|done].
  assert (map restoreNode kids' = map restoreNode kids) as Hmap.
  { apply replaceFirstIn_inv in Hr
      as (pre & k & post & -> & [(_ & Hm & ->)|(_ & Hm & k' & Hk' & ->)]).
    - rewrite !map_app. simpl. by rewrite (restoreNode_marker _ Hm).
    - rewrite !map_app. simpl. f_equal. f_equal.
      rewrite Forall_forall in IH. apply (IH k); [|done].
      apply elem_of_app. right. left. }
  destruct direct; intros [= <-]; simpl; intros Htext;
    destruct (isMarkerElement el); try (by f_equal).
  - f_equal. fold (restore (normalize kids')). rewrite restore_normalize.
    unfold restore. by rewrite Hmap.
  - f_equal. by rewrite Hmap.
Qed.

Lemma restoreBelow_replaceFirstMarker n n' :
  replaceFirstMarker n = Some n' -> restoreBelow n' = restoreBelow n.
Proof.
  destruct n as [s|el kids]; [done|]. simpl replaceFirstMarker.
  destruct (replaceFirstIn replaceFirstMarker kids) as [[direct kids']|] eqn:Hr;
    [|done].
  assert (map restoreNode kids' = map restoreNode kids) as Hmap.
  { apply replaceFirstIn_inv in Hr
      as (pre & k & post & -> & [(_ & Hm & ->)|(_ & Hm & k' & Hk' & ->)]).
    - rewrite !map_app. simpl. by rewrite (restoreNode_marker _ Hm).
    - rewrite !map_app. simpl. f_equal. f_equal.
      by apply restoreNode_replaceFirstMarker. }
  destruct direct; intros [= <-]; simpl; f_equal.
  - rewrite restore_normalize. unfold restore. by rewrite Hmap.
  - unfold restore. by rewrite Hmap.
Qed.

Lemma restoreNode_fixed n :
  isMarker n = false -> markerFree n = true -> normalized n = true ->
  restoreNode n = n.
Proof.
  induction n as [s|el kids IH] using node_ind'; [done|].
  simpl. intros -> Hfree [Hsep Hnorm]%andb_true_iff. f_equal.
  rewrite (map_id_Forall restoreNode); [by apply separated_fixed|].
  rewrite forallb_forall in Hfree, Hnorm. rewrite Forall_forall in IH.
  apply Forall_forall. intros k Hk.
  specialize (Hfree k (proj1 (list_elem_of_In _ _) Hk)).
  apply andb_true_iff in Hfree as [Hm Hf].
  apply IH; [done|by apply negb_true_iff|done|].
  by apply Hnorm, list_elem_of_In.
Qed.

Lemma restoreBelow_fixed n :
  markerFree n = true -> normalized n = true -> restoreBelow n = n.
Proof.
  destruct n as [s|el kids]; [done|].
  simpl. intros Hfree [Hsep Hnorm]%andb_true_iff. f_equal. unfold restore.
  rewrite (map_id_Forall restoreNode); [by apply separated_fixed|].
  rewrite forallb_forall in Hfree, Hnorm.
  apply Forall_forall. intros k Hk.
  specialize (Hfree k (proj1 (list_elem_of_In _ _) Hk)).
  apply andb_true_iff in Hfree as [Hm Hf].
  apply restoreNode_fixed; [by apply negb_true_iff|done|].
  by apply Hnorm, list_elem_of_In.
Qed.

Lemma replaceMarkers_invariant count doc :
  normalized doc = true ->
  normalized (replaceMarkers count doc) = true /\
  restoreBelow (replaceMarkers count doc) = restoreBelow doc.
Proof.
  revert doc. induction count as [|count IH]; intros doc Hn; simpl; [done|].
  destruct (replaceFirstMarker doc) as [doc'|] eqn:Hd; [|done].
  destruct (IH doc') as [Hn' Hr'].
  { by eapply normalized_replaceFirstMarker. }
  split; [done|]. rewrite Hr'. by apply restoreBelow_replaceFirstMarker.
Qed.

(** On a normalized document [removeHighlights] puts back, in place of every
    marker, the text it holds, and merges that text with its neighbours. *)
Lemma removeHighlights_restore body :
  normalized body = true -> removeHighlights body = restoreBelow body.
Proof.
  intros Hn. unfold removeHighlights.
  destruct (replaceMarkers_invariant (countMarkers body) body Hn) as [Hn' <-].
  symmetry. apply restoreBelow_fixed; [|done].
  by apply markerFree_replaceMarkers.
Qed.

Lemma markerFree_no_pass n :
  markerFree n = true -> replaceFirstMarker n = None.
Proof.
  induction n as [s|el kids IH] using node_ind'; [done|].
  simpl. intros Hfree.
  assert (replaceFirstIn replaceFirstMarker kids = None) as ->; [|done].
  induction IH as [|k rest Hk _ IHrest]; [done|].
  simpl in Hfree. apply andb_true_iff in Hfree as [[Hm Hf]%andb_true_iff Hrest].
  simpl. apply negb_true_iff in Hm. rewrite Hm, (Hk Hf), (IHrest Hrest). done.
Qed.

Lemma removeHighlights_fixed body :
  markerFree body = true -> removeHighlights body = body.
Proof.
  unfold removeHighlights. intros Hfree%markerFree_no_pass.
  destruct (countMarkers body); simpl; [done|]. by rewrite Hfree.
Qed.

End Dom.


(** ** The page scanner (content script) *)

Module Scanner.
Import Store Pattern Dom.

Definition SKIP_ELEMENTS : list jsstring :=
  map js [ "SCRIPT"; "STYLE"; "TEXTAREA"; "INPUT"; "SELECT"; "NOSCRIPT";
           "SVG"; "CANVAS"; "VIDEO"; "AUDIO"; "IFRAME"; "OBJECT"; "EMBED" ]%string.

(** [WORD_REGEX.test(word)] for [/^[a-zA-Z'-]+$/], the check a selection
    passes before it can become a vocabulary word. *)
Definition isWordRegexChar (c : N) : bool :=
  (((97 <=? c) && (c <=? 122)) || ((65 <=? c) && (c <=? 90)) ||
   (c =? 39) || (c =? 45))%N.

Definition WORD_REGEX_test (w : jsstring) : bool :=
  nonEmpty w && forallb isWordRegexChar w.

(** [el.closest("#vocab-highlighter-root")] finds something, given whether
    it does for the parent of [el]. *)
Definition closestRoot (above : bool) (el : element) : bool :=
  above || bool_decide (id el = js "vocab-highlighter-root").

(** The filter of the tree walker, for a text whose parent element is
    [parent]; [inRoot] is [parent.closest("#vocab-highlighter-root")]. *)
Definition acceptNode (parent : element) (inRoot : bool) : bool :=
  negb (bool_decide (tagName parent ∈ SKIP_ELEMENTS)) &&
  negb inRoot &&
  negb (hasClass (js "vh-highlight") parent) &&
  negb (isContentEditable parent).

(** The texts of [textNodes], in document order, below a node whose parent
    is [parent]. *)
Fixpoint textNodes (parent : element) (inRoot : bool) (n : node) : list jsstring :=
  match n with
  | Text s => if acceptNode parent inRoot then [s] else []
  | Element el kids => flat_map (textNodes el (closestRoot inRoot el)) kids
  end.

(** [text.slice(i, e)] for [0 <= i <= e <= text.length]. *)
Definition substring (i e : nat) (text : jsstring) : jsstring :=
  take (e - i) (drop i text).

(** The decimal digits of a number, as [`${count}`] prints them. *)
Fixpoint digits (u : Decimal.uint) : jsstring :=
  match u with
  | Decimal.Nil => []
  | Decimal.D0 u' => 48%N :: digits u'
  | Decimal.D1 u' => 49%N :: digits u'
  | Decimal.D2 u' => 50%N :: digits u'
  | Decimal.D3 u' => 51%N :: digits u'
  | Decimal.D4 u' => 52%N :: digits u'
  | Decimal.D5 u' => 53%N :: digits u'
  | Decimal.D6 u' => 54%N :: digits u'
  | Decimal.D7 u' => 55%N :: digits u'
  | Decimal.D8 u' => 56%N :: digits u'
  | Decimal.D9 u' => 57%N :: digits u'
  end.

(** The badge text: U+672C U+9875 U+53D1 U+73B0, a blank, the count, a
    blank, U+4E2A U+751F U+8BCD. *)
Definition badgeText (count : nat) : jsstring :=
  [26412; 39029; 21457; 29616; 32]%N ++ digits (Nat.to_uint count)
    ++ [32; 20010; 29983; 35789]%N.

(** The badge [div] appended to [document.body]; [fading] once its first
    timer has added the class [vh-fade-out].  From [activeBadge = badge] on it
    is the element the variable refers to. *)
Definition badgeElement (fading : bool) (bodyElement : element) : element :=
  {| tagName := js "DIV"; localName := js "div"; id := [];
     classList := js "vh-badge" :: (if fading then [js "vh-fade-out"] else []);
     isContentEditable := isContentEditable bodyElement;
     vhTranslation := None; vhWord := None; isActiveBadge := true |}.

Definition badgeWith (fading : bool) (bodyElement : element) (count : nat)
    : node :=
  Element (badgeElement fading bodyElement) [Text (badgeText count)].

Definition badge (bodyElement : element) (count : nat) : node :=
  badgeWith false bodyElement count.

(** The document below [document.body].  The variable [activeBadge] of the
    script refers to the element of the document on which [isActiveBadge] is
    set, and to no element of the document (it is [null], or the element it
    refers to has been taken out of the document) when there is none. *)
Record page := mkPage {
  bodyElement : element;
  bodyNodes : list node           (* [document.body.childNodes] *)
}.

Definition documentBody (p : page) : node :=
  Element (bodyElement p) (bodyNodes p).

(** [activeBadge.remove()], seen from a node: the element the variable
    refers to leaves the child list of its parent, wherever it is. *)
Fixpoint withoutActiveBadge (n : node) : list node :=
  match n with
  | Text s => [Text s]
  | Element el kids =>
      if isActiveBadge el then []
      else [Element el (flat_map withoutActiveBadge kids)]
  end.

(** The page without the scanner's badge. *)
Definition pageContent (p : page) : list node :=
  flat_map withoutActiveBadge (bodyNodes p).

(** The elements below a node that [activeBadge] refers to, in document
    order: at most one in a state of the script. *)
Fixpoint activeBadgeIn (n : node) : list element :=
  match n with
  | Text _ => []
  | Element el kids =>
      (if isActiveBadge el then [el] else []) ++ flat_map activeBadgeIn kids
  end.

(** The element of the document [activeBadge] refers to, if any. *)
Definition activeBadge (p : page) : option element :=
  head (flat_map activeBadgeIn (bodyNodes p)).

(** [activeBadge] refers to nothing at or below [n]. *)
Fixpoint activeFree (n : node) : bool :=
  match n with
  | Text _ => true
  | Element el kids => negb (isActiveBadge el) && forallb activeFree kids
  end.

(** [showBadge(count)], without the timers that later fade the badge out:
    the badge [activeBadge] refers to is removed, a new badge is appended to
    the body and [activeBadge] refers to it. *)
Definition showBadge (count : nat) (p : page) : page :=
  mkPage (bodyElement p) (pageContent p ++ [badge (bodyElement p) count]).

(** [removeHighlights()] as a step of the page. *)
Definition removeAll (p : page) : page :=
  mkPage (bodyElement p) (children (removeHighlights (documentBody p))).

Inductive outcome :=
| Returns (p : page) (matchCount : nat)
| Throws (p : page)        (* [new RegExp] rejected the source *)
| Endless.                 (* a [while] loop that never ends *)

Section WithCaseTables.

Variable toLowerCase : jsstring -> jsstring.
Variable upperNonAscii : N -> jsstring.

(** [vocabMap]: the entries under their lower-cased words, later entries
    replacing earlier ones. *)
Definition vocabMap (vocabList : list VocabEntry) : gmap jsstring VocabEntry :=
  foldl (fun m e => <[toLowerCase (word e) := e]> m) ∅ vocabList.

(** The [mark] element made for the matched text [matched]; it is created
    under a parent that is not editable. *)
Definition mark (vm : gmap jsstring VocabEntry) (matched : jsstring) : node :=
  let entry := vm !! toLowerCase matched in
  Element
    {| tagName := js "MARK"; localName := js "mark"; id := [];
       classList := [js "vh-highlight"]; isContentEditable := false;
       vhTranslation := translation <$> entry; vhWord := word <$> entry;
       isActiveBadge := false |}
    (match matched with [] => [] | _ => [Text matched] end).

(** The children appended to [frag] for the matches [ms], from [lastIndex]
    on. *)
Fixpoint fragment (vm : gmap jsstring VocabEntry) (text : jsstring)
    (lastIndex : nat) (ms : list (nat * nat)) : list node :=
  match ms with
  | [] =>
      if decide (lastIndex < length text)
      then [Text (substring lastIndex (length text) text)] else []
  | (i, e) :: ms' =>
      (if decide (lastIndex < i) then [Text (substring lastIndex i text)] else [])
      ++ mark vm (substring i e text) :: fragment vm text e ms'
  end.

(** The matches of one text: none when [!text || !pattern.test(text)] skips
    it; [None] when its loop never ends. *)
Definition matchesIn (r : regex) (text : jsstring) : option (list (nat * nat)) :=
  match text with
  | [] => Some []
  | _ => matchesOf upperNonAscii r text
  end.

(** What takes the place of an accepted text node. *)
Definition replacement (r : regex) (vm : gmap jsstring VocabEntry)
    (text : jsstring) : list node :=
  match matchesIn r text with
  | Some (m :: ms) => fragment vm text 0 (m :: ms)
  | _ => [Text text]
  end.

(** The document after the loop over [textNodes]: every accepted text with a
    match replaced, in place, by its fragment. *)
Fixpoint highlightNode (r : regex) (vm : gmap jsstring VocabEntry)
    (parent : element) (inRoot : bool) (n : node) : list node :=
  match n with
  | Text s => if acceptNode parent inRoot then replacement r vm s else [Text s]
  | Element el kids =>
      [Element el (flat_map (highlightNode r vm el (closestRoot inRoot el)) kids)]
  end.

(** [matchCount] after the loop over [textNodes]; [None] when one of the
    inner loops never ends. *)
Fixpoint matchCountOf (r : regex) (texts : list jsstring) : option nat :=
  match texts with
  | [] => Some 0
  | t :: texts' =>
      match matchesIn r t, matchCountOf r texts' with
      | Some ms, Some n => Some (length ms + n)
      | _, _ => None
      end
  end.

(** The page after the loop over [textNodes].  The walker starts at
    [document.body]; the [html] element above it does not carry the id of the
    scanner's own root. *)
Definition highlightPage (r : regex) (vm : gmap jsstring VocabEntry)
    (p : page) : page :=
  let el := bodyElement p in
  mkPage el
    (flat_map (highlightNode r vm el (closestRoot false el)) (bodyNodes p)).

(** The texts the walker collects below [document.body]. *)
Definition pageTextNodes (p : page) : list jsstring :=
  let el := bodyElement p in
  flat_map (textNodes el (closestRoot false el)) (bodyNodes p).

(** [scanPageForVocab()], with the list the service worker answers. *)
Definition scanPageForVocab (vocabList : list VocabEntry) (p : page) : outcome :=
  let p1 := removeAll p in
  match vocabList with
  | [] => Returns p1 0
  | _ :: _ =>
      match compile (map word vocabList) with
      | None => Throws p1
      | Some r =>
          match matchCountOf r (pageTextNodes p1) with
          | None => Endless
          | Some matchCount =>
              let p2 := highlightPage r (vocabMap vocabList) p1 in
              Returns (if decide (0 < matchCount) then showBadge matchCount p2 else p2)
                matchCount
          end
      end
  end.

(** *** Text content is kept by a scan *)

Lemma textContent_mark vm matched : textContent (mark vm matched) = matched.
Proof. destruct matched; simpl; [done|]. by rewrite app_nil_r. Qed.

Lemma take_drop_middle (text : jsstring) a b :
  a <= b -> take (b - a) (drop a text) ++ drop b text = drop a text.
Proof.
  intros Hab. replace b with (a + (b - a)) at 2 by lia.
  rewrite <- drop_drop. apply take_drop.
Qed.

Lemma textContent_fragment vm text lastIndex ms :
  ordered lastIndex ms (length text) ->
  flat_map textContent (fragment vm text lastIndex ms) = drop lastIndex text.
Proof.
  revert lastIndex. induction ms as [|[i e] ms IH]; intros lastIndex;
    cbn [fragment ordered].
  - intros Hl. case_decide as Hlt; cbn [flat_map textContent].
    + unfold substring. rewrite app_nil_r, take_ge; [done|].
      rewrite length_drop. lia.
    + rewrite drop_ge; [done|lia].
  - intros (Hli & Hie & Hord).
    rewrite flat_map_app. cbn [flat_map].
    rewrite textContent_mark, (IH _ Hord).
    unfold substring. rewrite (take_drop_middle text i e Hie).
    case_decide as Hlt; cbn [flat_map textContent].
    + rewrite app_nil_r. apply take_drop_middle. lia.
    + by replace i with lastIndex by lia.
Qed.

Lemma matchesIn_ordered r text ms :
  matchesIn r text = Some ms -> ordered 0 ms (length text).
Proof.
  destruct text as [|c text]; simpl.
  - intros [= <-]. simpl. lia.
  - apply execLoop_ordered. lia.
Qed.

Lemma textContent_replacement r vm text :
  flat_map textContent (replacement r vm text) = text.
Proof.
  unfold replacement.
  destruct (matchesIn r text) as [[|m ms]|] eqn:Hm;
    [cbn [flat_map textContent]; by rewrite app_nil_r| |
     cbn [flat_map textContent]; by rewrite app_nil_r].
  apply matchesIn_ordered in Hm.
  by rewrite (textContent_fragment vm text 0 (m :: ms) Hm).
Qed.

Lemma textContent_highlightNode r vm parent inRoot n :
  flat_map textContent (highlightNode r vm parent inRoot n) = textContent n.
Proof.
  revert parent inRoot. induction n as [s|el kids IH] using node_ind';
    intros parent inRoot; simpl.
  - destruct (acceptNode parent inRoot); [|simpl; by rewrite app_nil_r].
    apply textContent_replacement.
  - rewrite app_nil_r.
    induction IH as [|k rest Hk _ IHrest]; simpl; [done|].
    by rewrite flat_map_app, Hk, IHrest.
Qed.

Lemma textContent_highlight r vm parent inRoot kids :
  flat_map textContent (flat_map (highlightNode r vm parent inRoot) kids) =
  flat_map textContent kids.
Proof.
  induction kids as [|k rest IH]; simpl; [done|].
  by rewrite flat_map_app, textContent_highlightNode, IH.
Qed.

(** *** The element [activeBadge] refers to *)

Lemma withoutActiveBadge_free kids :
  forallb activeFree kids = true -> flat_map withoutActiveBadge kids = kids.
Proof.
  assert (forall n, activeFree n = true -> withoutActiveBadge n = [n]) as Hn.
  { induction n as [s|el ks IH] using node_ind'; [done|].
    cbn [activeFree withoutActiveBadge].
    intros [Hel%negb_true_iff Hks]%andb_true_iff. rewrite Hel. do 2 f_equal.
    induction IH as [|k rest Hk _ IHrest]; [done|].
    cbn [forallb] in Hks. apply andb_true_iff in Hks as [Hkf Hrest].
    cbn [flat_map]. by rewrite (Hk Hkf), (IHrest Hrest). }
  induction kids as [|k rest IH]; [done|]. cbn [forallb flat_map].
  intros [Hk Hrest]%andb_true_iff. by rewrite (Hn k Hk), (IH Hrest).
Qed.

Lemma activeFree_withoutActiveBadge kids :
  forallb activeFree (flat_map withoutActiveBadge kids) = true.
Proof.
  assert (forall n, forallb activeFree (withoutActiveBadge n) = true) as Hn.
  { induction n as [s|el ks IH] using node_ind'; [done|].
    cbn [withoutActiveBadge]. destruct (isActiveBadge el) eqn:Hel; [done|].
    cbn [forallb activeFree]. rewrite Hel, andb_true_r. cbn [negb andb].
    induction IH as [|k rest Hk _ IHrest]; [done|].
    cbn [flat_map]. by rewrite forallb_app, Hk, IHrest. }
  induction kids as [|k rest IH]; [done|].
  cbn [flat_map]. by rewrite forallb_app, Hn, IH.
Qed.

Lemma activeBadgeIn_free kids :
  forallb activeFree kids = true -> flat_map activeBadgeIn kids = [].
Proof.
  assert (forall n, activeFree n = true -> activeBadgeIn n = []) as Hn.
  { induction n as [s|el ks IH] using node_ind'; [done|].
    cbn [activeFree activeBadgeIn].
    intros [Hel%negb_true_iff Hks]%andb_true_iff. rewrite Hel. cbn [app].
    induction IH as [|k rest Hk _ IHrest]; [done|].
    cbn [forallb] in Hks. apply andb_true_iff in Hks as [Hkf Hrest].
    cbn [flat_map]. by rewrite (Hk Hkf), (IHrest Hrest). }
  induction kids as [|k rest IH]; [done|]. cbn [forallb flat_map].
  intros [Hk Hrest]%andb_true_iff. by rewrite (Hn k Hk), (IH Hrest).
Qed.

Lemma pageContent_free p :
  forallb activeFree (bodyNodes p) = true -> pageContent p = bodyNodes p.
Proof. apply withoutActiveBadge_free. Qed.

Lemma withoutActiveBadge_badgeWith fading be count :
  withoutActiveBadge (badgeWith fading be count) = [].
Proof. reflexivity. Qed.

(** The content of a body whose badge is the child between [xs] and [ys]. *)
Lemma withoutActiveBadge_around xs fading be count ys :
  forallb activeFree xs = true -> forallb activeFree ys = true ->
  flat_map withoutActiveBadge (xs ++ badgeWith fading be count :: ys) = xs ++ ys.
Proof.
  intros Hxs Hys. rewrite flat_map_app. cbn [flat_map].
  by rewrite withoutActiveBadge_badgeWith, !withoutActiveBadge_free.
Qed.

Lemma markerFree_withoutActiveBadge kids :
  forallb (fun k => negb (isMarker k) && markerFree k) kids = true ->
  forallb (fun k => negb (isMarker k) && markerFree k)
    (flat_map withoutActiveBadge kids) = true.
Proof.
  assert (forall n, negb (isMarker n) && markerFree n = true ->
            forallb (fun k => negb (isMarker k) && markerFree k)
              (withoutActiveBadge n) = true) as Hn.
  { induction n as [s|el ks IH] using node_ind'; [done|].
    cbn [withoutActiveBadge]. destruct (isActiveBadge el); [done|].
    cbn [forallb isMarker markerFree]. rewrite andb_true_r.
    intros [-> Hks]%andb_true_iff. cbn [andb].
    induction IH as [|k rest Hk _ IHrest]; [done|].
    cbn [forallb] in Hks. apply andb_true_iff in Hks as [Hkf Hrest].
    cbn [flat_map]. by rewrite forallb_app, (Hk Hkf), (IHrest Hrest). }
  induction kids as [|k rest IH]; [done|]. cbn [forallb flat_map].
  intros [Hk Hrest]%andb_true_iff. by rewrite forallb_app, (Hn k Hk), (IH Hrest).
Qed.

(** The pass of a scan makes texts and marks, which [activeBadge] does not
    refer to; so it makes no difference whether the badge is removed before
    the pass or after it. *)
Lemma activeFree_fragment vm text lastIndex ms :
  forallb activeFree (fragment vm text lastIndex ms) = true.
Proof.
  revert lastIndex. induction ms as [|[i e] ms IH]; intros lastIndex;
    cbn [fragment].
  - by case_decide.
  - rewrite forallb_app. cbn [forallb]. rewrite IH.
    replace (activeFree (mark vm (substring i e text))) with true
      by (by destruct (substring i e text)).
    by case_decide.
Qed.

Lemma activeFree_replacement r vm text :
  forallb activeFree (replacement r vm text) = true.
Proof.
  unfold replacement. destruct (matchesIn r text) as [[|m ms]|]; [done| |done].
  apply activeFree_fragment.
Qed.

Lemma withoutActiveBadge_highlightNode r vm parent inRoot n :
  flat_map withoutActiveBadge (highlightNode r vm parent inRoot n) =
  flat_map (highlightNode r vm parent inRoot) (withoutActiveBadge n).
Proof.
  revert parent inRoot. induction n as [s|el kids IH] using node_ind';
    intros parent inRoot.
  - cbn [withoutActiveBadge flat_map]. rewrite app_nil_r.
    apply withoutActiveBadge_free. cbn [highlightNode].
    destruct (acceptNode parent inRoot); [apply activeFree_replacement|done].
  - cbn [highlightNode withoutActiveBadge flat_map].
    destruct (isActiveBadge el); [done|].
    cbn [flat_map highlightNode]. rewrite !app_nil_r. do 2 f_equal.
    generalize (closestRoot inRoot el). intros inRoot'.
    induction IH as [|k rest Hk _ IHrest]; [done|].
    cbn [flat_map]. by rewrite !flat_map_app, Hk, IHrest.
Qed.

Lemma withoutActiveBadge_highlight r vm parent inRoot kids :
  flat_map withoutActiveBadge (flat_map (highlightNode r vm parent inRoot) kids) =
  flat_map (highlightNode r vm parent inRoot) (flat_map withoutActiveBadge kids).
Proof.
  induction kids as [|k rest IH]; [done|].
  cbn [flat_map]. by rewrite !flat_map_app, withoutActiveBadge_highlightNode, IH.
Qed.

(** *** [removeHighlights] around the badge *)

Lemma activeFree_normalizeNode n :
  activeFree n = true -> activeFree (normalizeNode n) = true.
Proof.
  induction n as [s|el kids IH] using node_ind'; [done|].
  cbn [activeFree normalizeNode]. intros [-> Hks]%andb_true_iff. cbn [andb].
  apply forallb_mergeText; [done|].
  induction IH as [|k rest Hk _ IHrest]; [done|].
  cbn [forallb] in Hks. apply andb_true_iff in Hks as [Hkf Hrest].
  cbn [map forallb]. by rewrite (Hk Hkf), (IHrest Hrest).
Qed.

Lemma activeFree_normalize kids :
  forallb activeFree kids = true -> forallb activeFree (normalize kids) = true.
Proof.
  intros Hks. apply forallb_mergeText; [done|].
  induction kids as [|k rest IH]; [done|].
  cbn [forallb] in Hks. apply andb_true_iff in Hks as [Hk Hrest].
  cbn [map forallb]. by rewrite activeFree_normalizeNode, IH.
Qed.

(** A pass of [removeHighlights] below a node keeps the element and, when
    [activeBadge] refers to none of its children, refers to none after it. *)
Lemma activeFree_replaceFirstMarker n n' :
  replaceFirstMarker n = Some n' ->
  exists el kids kids',
    n = Element el kids /\ n' = Element el kids' /\
    (forallb activeFree kids = true -> forallb activeFree kids' = true).
Proof.
  revert n'. induction n as [s|el kids IH] using node_ind'; intros n'; [done|].
  simpl replaceFirstMarker.
  destruct (replaceFirstIn replaceFirstMarker kids) as [[direct kids']|] eqn:Hr;
    [|done].
  apply replaceFirstIn_inv in Hr
    as (pre & k & post & -> & [(-> & _ & ->)|(-> & _ & k' & Hk' & ->)]);
    intros [= <-]; eexists _, _, _; (split; [done|]); (split; [done|]).
  - intros Hks. apply activeFree_normalize.
    rewrite forallb_app in *. cbn [forallb] in *.
    apply andb_true_iff in Hks as [-> [_ ->]%andb_true_iff]. done.
  - rewrite !forallb_app. cbn [forallb].
    intros [-> [Hk ->]%andb_true_iff]%andb_true_iff.
    rewrite andb_true_r. cbn [andb].
    rewrite Forall_forall in IH.
    destruct (IH k ltac:(apply elem_of_app; right; left) k' Hk')
      as (elk & ks & ks' & -> & -> & Hfree).
    cbn [activeFree] in *. apply andb_true_iff in Hk as [-> Hks].
    by rewrite (Hfree Hks).
Qed.

(** What a pass keeps of a run of siblings: the text, and that
    [activeBadge] refers to nothing in it. *)
Definition kept (xs xs' : list node) : Prop :=
  flat_map textContent xs' = flat_map textContent xs /\
  (forallb activeFree xs = true -> forallb activeFree xs' = true).

Lemma kept_refl xs : kept xs xs.
Proof. done. Qed.

Lemma kept_trans xs ys zs : kept xs ys -> kept ys zs -> kept xs zs.
Proof. intros [H1 H2] [H3 H4]. split; [congruence|auto]. Qed.

Lemma kept_normalize xs : kept xs (normalize xs).
Proof. split; [apply textContent_normalize|apply activeFree_normalize]. Qed.

Lemma kept_replaced pre k k' post :
  textContent k' = textContent k ->
  (activeFree k = true -> activeFree k' = true) ->
  kept (pre ++ k :: post) (pre ++ k' :: post).
Proof.
  intros Ht Hf. split.
  - rewrite !flat_map_app. cbn [flat_map]. by rewrite Ht.
  - rewrite !forallb_app. cbn [forallb].
    intros [-> [Hk ->]%andb_true_iff]%andb_true_iff. by rewrite (Hf Hk).
Qed.

Lemma kept_below pre k k' post :
  replaceFirstMarker k = Some k' -> kept (pre ++ k :: post) (pre ++ k' :: post).
Proof.
  intros Hk. apply kept_replaced.
  - by apply textContent_replaceFirstMarker.
  - destruct (activeFree_replaceFirstMarker _ _ Hk)
      as (el & ks & ks' & -> & -> & Hfree).
    cbn [activeFree]. intros [-> Hks]%andb_true_iff. by rewrite (Hfree Hks).
Qed.

Lemma kept_text pre k post :
  kept (pre ++ k :: post) (pre ++ Text (textContent k) :: post).
Proof. by apply kept_replaced. Qed.

Lemma mergeText_app_element ns el kids rest :
  mergeText (ns ++ Element el kids :: rest) =
  mergeText ns ++ Element el kids :: mergeText rest.
Proof.
  induction ns as [|[s|el' kids'] ns IH]; simpl; [done| |by rewrite IH].
  rewrite IH. by destruct (mergeText ns) as [|[s'|el' kids'] ns'], s.
Qed.

Lemma normalize_app_element ns el kids rest :
  normalize (ns ++ Element el kids :: rest) =
  normalize ns ++ Element el (normalize kids) :: normalize rest.
Proof.
  unfold normalize at 1. rewrite map_app. cbn [map normalizeNode].
  apply mergeText_app_element.
Qed.

Lemma app_cons_inv {A} (pre post xs ys : list A) (k b : A) :
  pre ++ k :: post = xs ++ b :: ys ->
  (exists mid, xs = pre ++ k :: mid /\ post = mid ++ b :: ys) \/
  (pre = xs /\ k = b /\ post = ys) \/
  (exists mid, pre = xs ++ b :: mid /\ ys = mid ++ k :: post).
Proof.
  revert xs. induction pre as [|x pre IH]; intros [|y xs]; simpl.
  - intros [= -> ->]. right. by left.
  - intros [= -> ->]. left. by exists xs.
  - intros [= -> <-]. right. right. by exists pre.
  - intros [= -> H]. destruct (IH _ H) as [(mid & -> & ->)|[(-> & -> & ->)|(mid & -> & ->)]].
    + left. by exists mid.
    + right. by left.
    + right. right. by exists mid.
Qed.

Lemma replaceFirstMarker_Element el kids n' :
  replaceFirstMarker (Element el kids) = Some n' ->
  exists kids', n' = Element el kids'.
Proof.
  simpl. destruct (replaceFirstIn replaceFirstMarker kids) as [[[] kids']|];
    intros [= <-]; eauto.
Qed.

(** A pass over a body that has, between [xs] and [ys], an element that is
    no marker, holds none and is in normalized form: the element stays where
    it is and as it is. *)
Lemma replaceFirstMarker_around be xs el kids ys n' :
  isMarkerElement el = false ->
  replaceFirstMarker (Element el kids) = None ->
  normalize kids = kids ->
  replaceFirstMarker (Element be (xs ++ Element el kids :: ys)) = Some n' ->
  exists xs' ys',
    n' = Element be (xs' ++ Element el kids :: ys') /\ kept xs xs' /\ kept ys ys'.
Proof.
  intros Hel Hnone Hnorm. simpl replaceFirstMarker at 1.
  destruct (replaceFirstIn replaceFirstMarker (xs ++ Element el kids :: ys))
    as [[direct ks']|] eqn:Hr; [|done].
  apply replaceFirstIn_inv in Hr as (pre & k & post & Hsplit & Hcase).
  symmetry in Hsplit.
  apply app_cons_inv in Hsplit
    as [(mid & -> & ->)|[(-> & -> & ->)|(mid & -> & ->)]].
  - destruct Hcase as [(-> & _ & ->)|(-> & _ & k' & Hk' & ->)]; intros [= <-].
    + rewrite (app_comm_cons mid), app_assoc.
      rewrite normalize_app_element, Hnorm.
      eexists _, _. split; [done|]. split; [|apply kept_normalize].
      eapply kept_trans; [apply kept_text|apply kept_normalize].
    + rewrite (app_comm_cons mid), app_assoc.
      eexists _, _. split; [done|]. split; [by apply kept_below|apply kept_refl].
  - destruct Hcase as [(_ & Hm & _)|(_ & _ & k' & Hk' & _)].
    + simpl in Hm. congruence.
    + congruence.
  - destruct Hcase as [(-> & _ & ->)|(-> & _ & k' & Hk' & ->)]; intros [= <-].
    + rewrite <- app_assoc, <- app_comm_cons.
      rewrite normalize_app_element, Hnorm.
      eexists _, _. split; [done|]. split; [apply kept_normalize|].
      eapply kept_trans; [apply kept_text|apply kept_normalize].
    + rewrite <- app_assoc, <- app_comm_cons.
      eexists _, _. split; [done|]. split; [apply kept_refl|by apply kept_below].
Qed.

Lemma replaceMarkers_around count be xs el kids ys :
  isMarkerElement el = false ->
  replaceFirstMarker (Element el kids) = None ->
  normalize kids = kids ->
  exists xs' ys',
    replaceMarkers count (Element be (xs ++ Element el kids :: ys)) =
      Element be (xs' ++ Element el kids :: ys') /\
    kept xs xs' /\ kept ys ys'.
Proof.
  intros Hel Hnone Hnorm. revert xs ys.
  induction count as [|count IH]; intros xs ys; cbn [replaceMarkers].
  { exists xs, ys. split_and!; [done|apply kept_refl..]. }
  destruct (replaceFirstMarker (Element be (xs ++ Element el kids :: ys)))
    as [n'|] eqn:Hn.
  2: { exists xs, ys. split_and!; [done|apply kept_refl..]. }
  apply replaceFirstMarker_around in Hn as (xs1 & ys1 & -> & Hx1 & Hy1);
    [|done..].
  destruct (IH xs1 ys1) as (xs' & ys' & -> & Hx' & Hy').
  exists xs', ys'. split_and!; [done|by eapply kept_trans..].
Qed.

Lemma replaceMarkers_kept count be kids :
  exists kids',
    replaceMarkers count (Element be kids) = Element be kids' /\ kept kids kids'.
Proof.
  revert kids. induction count as [|count IH]; intros kids; cbn [replaceMarkers].
  { exists kids. split; [done|apply kept_refl]. }
  destruct (replaceFirstMarker (Element be kids)) as [n'|] eqn:Hn.
  2: { exists kids. split; [done|apply kept_refl]. }
  pose proof (textContent_replaceFirstMarker _ _ Hn) as Ht.
  destruct (activeFree_replaceFirstMarker _ _ Hn)
    as (el & ks & ks' & [= <- <-] & -> & Hfree).
  destruct (IH ks') as (kids' & -> & Hk').
  exists kids'. split; [done|]. by eapply kept_trans; [split|].
Qed.

Lemma replaceMarkers_Element count el kids :
  exists kids', replaceMarkers count (Element el kids) = Element el kids'.
Proof.
  destruct (replaceMarkers_kept count el kids) as (kids' & -> & _). by eauto.
Qed.

Lemma removeHighlights_Element el kids :
  exists kids', removeHighlights (Element el kids) = Element el kids'.
Proof. apply replaceMarkers_Element. Qed.

Lemma documentBody_removeAll p :
  documentBody (removeAll p) = removeHighlights (documentBody p).
Proof.
  unfold documentBody at 1, removeAll. cbn [bodyElement bodyNodes].
  destruct (removeHighlights_Element (bodyElement p) (bodyNodes p)) as [kids' Hk].
  unfold documentBody. by rewrite Hk.
Qed.

(** *** The badge as a child of the body *)

Lemma badgeWith_inert fading be count :
  isMarker (badgeWith fading be count) = false /\
  replaceFirstMarker (badgeWith fading be count) = None /\
  normalize [Text (badgeText count)] = [Text (badgeText count)] /\
  restore [Text (badgeText count)] = [Text (badgeText count)].
Proof. by destruct fading. Qed.

(** The body of [p] is [xs], then [tail], then [ys]: [tail] is the badge,
    fading or not, or nothing, and [activeBadge] refers to nothing in [xs]
    and [ys]. *)
Definition badgeParts (p : page) (xs tail ys : list node) : Prop :=
  bodyNodes p = xs ++ tail ++ ys /\
  forallb activeFree xs = true /\ forallb activeFree ys = true /\
  (tail = [] \/
   exists fading count, tail = [badgeWith fading (bodyElement p) count]).

(** The state the script keeps: [activeBadge] refers to no element of the
    document, or to a child of the body that is a badge as [showBadge] made
    it, fading or not. *)
Definition badgeState (p : page) : Prop :=
  exists xs tail ys, badgeParts p xs tail ys.

Lemma pageContent_badgeParts p xs tail ys :
  badgeParts p xs tail ys -> pageContent p = xs ++ ys.
Proof.
  intros (Hbody & Hxs & Hys & Htail). unfold pageContent. rewrite Hbody.
  destruct Htail as [->|(fading & count & ->)].
  - apply withoutActiveBadge_free. by rewrite forallb_app, Hxs, Hys.
  - by apply withoutActiveBadge_around.
Qed.

Lemma badgeParts_removeAll p xs tail ys :
  badgeParts p xs tail ys ->
  exists xs' ys',
    badgeParts (removeAll p) xs' tail ys' /\
    flat_map textContent (xs' ++ ys') = flat_map textContent (xs ++ ys).
Proof.
  intros (Hbody & Hxs & Hys & Htail).
  unfold removeAll, removeHighlights, documentBody, badgeParts.
  cbn [bodyElement bodyNodes]. rewrite Hbody.
  destruct Htail as [->|(fading & count & ->)].
  - cbn [app].
    destruct (replaceMarkers_kept
                (countMarkers (Element (bodyElement p) (xs ++ ys)))
                (bodyElement p) (xs ++ ys)) as (kids' & -> & Ht & Hf).
    exists kids', []. cbn [children]. rewrite !app_nil_r.
    split_and!; [done| |done|by left|done].
    apply Hf. by rewrite forallb_app, Hxs, Hys.
  - cbn [app]. unfold badgeWith at 1 2.
    destruct (badgeWith_inert fading (bodyElement p) count)
      as (Hm & Hnone & Hnorm & _).
    edestruct (replaceMarkers_around
                 (countMarkers (Element (bodyElement p)
                    (xs ++ badgeWith fading (bodyElement p) count :: ys)))
                 (bodyElement p) xs) as (xs' & ys' & Hr & [Htx Hfx] & [Hty Hfy]);
      [exact Hm|exact Hnone|exact Hnorm|].
    unfold badgeWith in Hr. rewrite Hr. cbn [children].
    exists xs', ys'. split_and!; [done|by apply Hfx|by apply Hfy| |].
    + right. by exists fading, count.
    + by rewrite !flat_map_app, Htx, Hty.
Qed.

Lemma badgeState_removeAll p : badgeState p -> badgeState (removeAll p).
Proof.
  intros (xs & tail & ys & Hparts).
  destruct (badgeParts_removeAll _ _ _ _ Hparts) as (xs' & ys' & Hparts' & _).
  by exists xs', tail, ys'.
Qed.

Lemma pageContent_removeAll p :
  badgeState p ->
  flat_map textContent (pageContent (removeAll p)) =
  flat_map textContent (pageContent p).
Proof.
  intros (xs & tail & ys & Hparts).
  destruct (badgeParts_removeAll _ _ _ _ Hparts) as (xs' & ys' & Hparts' & Ht).
  by rewrite (pageContent_badgeParts _ _ _ _ Hparts),
    (pageContent_badgeParts _ _ _ _ Hparts').
Qed.

(** *** A scan keeps a normalized page normalized *)

Lemma ordered_le lastIndex ms len : ordered lastIndex ms len -> lastIndex <= len.
Proof.
  revert lastIndex. induction ms as [|[i e] ms IH]; intros lastIndex; simpl;
    [done|].
  intros (? & ? & ?%IH). lia.
Qed.

Lemma nonEmpty_substring (text : jsstring) a b :
  a < b -> b <= length text -> nonEmpty (substring a b text) = true.
Proof.
  intros Hab Hb. unfold substring.
  destruct (take (b - a) (drop a text)) as [|c rest] eqn:Ht; [|done].
  apply (f_equal length) in Ht. rewrite length_take, length_drop in Ht.
  simpl in Ht. lia.
Qed.

Lemma separated_app_nontext xs ys :
  separated xs = true -> separated ys = true -> headNotText ys = true ->
  separated (xs ++ ys) = true.
Proof.
  intros Hxs Hys Hhead. induction xs as [|[s|el kids] xs IH]; simpl in *;
    [done| |by apply IH].
  apply andb_true_iff in Hxs as [[Hs Hh]%andb_true_iff Hsep].
  rewrite Hs, (IH Hsep), andb_true_r. simpl.
  destruct xs as [|[s'|el kids] xs]; done.
Qed.

Lemma separated_fragment vm text lastIndex ms :
  ordered lastIndex ms (length text) ->
  separated (fragment vm text lastIndex ms) = true.
Proof.
  revert lastIndex. induction ms as [|[i e] ms IH]; intros lastIndex;
    cbn [fragment ordered].
  - intros Hl. case_decide; [|done]. simpl.
    by rewrite nonEmpty_substring.
  - intros (Hli & Hie & Hord). pose proof (ordered_le _ _ _ Hord) as Hle.
    case_decide; simpl; [|by apply IH].
    rewrite nonEmpty_substring by lia. by apply IH.
Qed.

Lemma normalized_mark vm matched : normalized (mark vm matched) = true.
Proof. by destruct matched. Qed.

Lemma normalized_fragment vm text lastIndex ms :
  forallb normalized (fragment vm text lastIndex ms) = true.
Proof.
  revert lastIndex. induction ms as [|[i e] ms IH]; intros lastIndex;
    cbn [fragment].
  - by case_decide.
  - rewrite forallb_app. cbn [forallb].
    rewrite normalized_mark, IH. by case_decide.
Qed.

Lemma separated_replacement r vm text :
  nonEmpty text = true -> separated (replacement r vm text) = true.
Proof.
  intros Hne. unfold replacement.
  destruct (matchesIn r text) as [[|m ms]|] eqn:Hm;
    [simpl; by rewrite Hne| |simpl; by rewrite Hne].
  apply separated_fragment. by apply (matchesIn_ordered r).
Qed.

Lemma normalized_replacement r vm text :
  forallb normalized (replacement r vm text) = true.
Proof.
  unfold replacement.
  destruct (matchesIn r text) as [[|m ms]|]; [done| |done].
  apply normalized_fragment.
Qed.

Lemma headNotText_highlight r vm parent inRoot kids :
  headNotText kids = true ->
  headNotText (flat_map (highlightNode r vm parent inRoot) kids) = true.
Proof. by destruct kids as [|[s|el ks] rest]. Qed.

Lemma separated_highlight r vm parent inRoot kids :
  separated kids = true ->
  separated (flat_map (highlightNode r vm parent inRoot) kids) = true.
Proof.
  induction kids as [|[s|el ks] rest IH]; [done| |].
  - cbn [separated flat_map highlightNode].
    intros [[Hs Hh]%andb_true_iff Hsep]%andb_true_iff.
    apply separated_app_nontext; [|by apply IH|by apply headNotText_highlight].
    destruct (acceptNode parent inRoot); [by apply separated_replacement|].
    simpl. by rewrite Hs.
  - cbn [separated flat_map highlightNode]. intros Hsep. simpl. by apply IH.
Qed.

Lemma normalized_highlightNode r vm parent inRoot n :
  normalized n = true ->
  forallb normalized (highlightNode r vm parent inRoot n) = true.
Proof.
  revert parent inRoot. induction n as [s|el kids IH] using node_ind';
    intros parent inRoot.
  - intros _. cbn [highlightNode].
    destruct (acceptNode parent inRoot); [apply normalized_replacement|done].
  - cbn [highlightNode normalized forallb].
    intros [Hsep Hall]%andb_true_iff.
    rewrite separated_highlight by done. rewrite andb_true_r. simpl.
    induction IH as [|k rest Hk _ IHrest]; [done|].
    cbn [flat_map]. rewrite forallb_app.
    simpl in Hall. apply andb_true_iff in Hall as [Hkn Hrest].
    simpl in Hsep.
    rewrite (Hk _ _ Hkn), IHrest; [done| |done].
    destruct k; [|done]. simpl in Hsep.
    by apply andb_true_iff in Hsep as [_ ?].
Qed.

Lemma normalized_highlight r vm el inRoot kids :
  normalized (Element el kids) = true ->
  normalized (Element el (flat_map (highlightNode r vm el inRoot) kids)) = true.
Proof.
  intros Hn.
  pose proof (normalized_highlightNode r vm el false (Element el kids) Hn) as H.
  cbn [highlightNode forallb] in H. rewrite andb_true_r in H.
  simpl in Hn. apply andb_true_iff in Hn as [Hsep Hall].
  simpl. rewrite separated_highlight by done. simpl.
  clear H Hsep. induction kids as [|k rest IH]; [done|].
  simpl in Hall. apply andb_true_iff in Hall as [Hk Hrest].
  cbn [flat_map]. rewrite forallb_app, normalized_highlightNode by done.
  by apply IH.
Qed.

(** *** Removing what a scan added gives the page back *)

Lemma restoreNode_mark vm matched : restoreNode (mark vm matched) = Text matched.
Proof. destruct matched; simpl; [done|]. by rewrite app_nil_r. Qed.

Lemma mergeText_restore_fragment vm text lastIndex ms rest :
  ordered lastIndex ms (length text) ->
  mergeText (map restoreNode (fragment vm text lastIndex ms) ++ rest) =
  mergeHead (drop lastIndex text) (mergeText rest).
Proof.
  revert lastIndex. induction ms as [|[i e] ms IH]; intros lastIndex;
    cbn [fragment ordered].
  - intros Hl. case_decide as Hlt.
    + simpl. unfold substring. rewrite take_ge; [done|].
      rewrite length_drop. lia.
    + simpl. rewrite drop_ge by lia. by rewrite mergeHead_nil.
  - intros (Hli & Hie & Hord).
    rewrite map_app. cbn [map]. rewrite restoreNode_mark, <- app_assoc.
    cbn [app].
    assert (mergeText (Text (substring i e text)
                         :: map restoreNode (fragment vm text e ms) ++ rest) =
            mergeHead (drop i text) (mergeText rest)) as Htail.
    { cbn [mergeText]. rewrite (IH _ Hord), mergeHead_mergeHead.
      unfold substring. by rewrite take_drop_middle. }
    case_decide as Hlt.
    + cbn [map app restoreNode].
      change (mergeText (Text ?a :: ?l)) with (mergeHead a (mergeText l)).
      rewrite Htail, mergeHead_mergeHead. unfold substring.
      rewrite take_drop_middle by lia. done.
    + cbn [map app]. rewrite Htail. by replace i with lastIndex by lia.
Qed.

Lemma mergeText_restore_replacement r vm text rest :
  mergeText (map restoreNode (replacement r vm text) ++ rest) =
  mergeHead text (mergeText rest).
Proof.
  unfold replacement.
  destruct (matchesIn r text) as [[|m ms]|] eqn:Hm; [done| |done].
  apply matchesIn_ordered in Hm.
  by rewrite (mergeText_restore_fragment vm text 0 (m :: ms) rest Hm).
Qed.

(** The nodes a scan leaves alone or splits: no marker, none inside, and in
    normalized form. *)
Definition plain (n : node) : bool :=
  negb (isMarker n) && markerFree n && normalized n.

Lemma plain_Element el kids :
  plain (Element el kids) = true ->
  isMarkerElement el = false /\ separated kids = true /\
  forallb plain kids = true.
Proof.
  unfold plain. simpl.
  intros [[Hm Hfree]%andb_true_iff [Hsep Hnorm]%andb_true_iff]%andb_true_iff.
  split_and!; [by apply negb_true_iff|done|].
  rewrite forallb_forall in *. intros k Hk.
  specialize (Hfree k Hk). specialize (Hnorm k Hk).
  apply andb_true_iff in Hfree as [-> ->]. by rewrite Hnorm.
Qed.

Lemma restore_highlight_with r vm parent inRoot kids :
  Forall (fun k => forall parent inRoot rest, plain k = true ->
            mergeText (map restoreNode (highlightNode r vm parent inRoot k) ++ rest)
            = mergeText (k :: rest)) kids ->
  forallb plain kids = true ->
  restore (flat_map (highlightNode r vm parent inRoot) kids) = mergeText kids.
Proof.
  unfold restore. induction 1 as [|k rest Hk _ IH]; [done|].
  cbn [forallb flat_map]. intros [Hpk Hprest]%andb_true_iff.
  rewrite map_app, (Hk _ _ _ Hpk), !mergeText_cons, (IH Hprest). done.
Qed.

Lemma restore_highlightNode r vm n parent inRoot rest :
  plain n = true ->
  mergeText (map restoreNode (highlightNode r vm parent inRoot n) ++ rest) =
  mergeText (n :: rest).
Proof.
  revert parent inRoot rest. induction n as [s|el kids IH] using node_ind';
    intros parent inRoot rest Hplain.
  - cbn [highlightNode]. destruct (acceptNode parent inRoot); [|done].
    apply mergeText_restore_replacement.
  - apply plain_Element in Hplain as (Hel & Hsep & Hkids).
    cbn [highlightNode map restoreNode]. rewrite Hel.
    fold (restore (flat_map (highlightNode r vm el (closestRoot inRoot el)) kids)).
    rewrite (restore_highlight_with r vm el _ kids IH Hkids).
    by rewrite (separated_fixed _ Hsep).
Qed.

Lemma restore_highlight r vm parent inRoot kids :
  separated kids = true -> forallb plain kids = true ->
  restore (flat_map (highlightNode r vm parent inRoot) kids) = kids.
Proof.
  intros Hsep Hplain. rewrite restore_highlight_with; [by apply separated_fixed| |done].
  apply Forall_forall. intros k _ parent' inRoot' rest.
  apply restore_highlightNode.
Qed.

(** *** Counting matches *)

Lemma matchCountOf_app r xs ys :
  matchCountOf r (xs ++ ys) =
  match matchCountOf r xs, matchCountOf r ys with
  | Some a, Some b => Some (a + b)
  | _, _ => None
  end.
Proof.
  induction xs as [|t xs IH]; simpl.
  - by destruct (matchCountOf r ys).
  - rewrite IH. destruct (matchesIn r t) as [ms|]; [|done].
    destruct (matchCountOf r xs) as [a|]; [|done].
    destruct (matchCountOf r ys) as [b|]; [|done].
    f_equal. lia.
Qed.

Lemma matchesIn_total words text :
  words <> [] -> Forall (fun w => w <> []) words ->
  exists ms, matchesIn (literalPattern words) text = Some ms.
Proof.
  intros Hne Hall. unfold matchesIn. destruct text as [|c text]; [by eexists|].
  by apply matchesOf_terminates.
Qed.

Lemma matchCountOf_total words texts :
  words <> [] -> Forall (fun w => w <> []) words ->
  exists c, matchCountOf (literalPattern words) texts = Some c.
Proof.
  intros Hne Hall. induction texts as [|t texts [c IH]]; simpl; [by eexists|].
  destruct (matchesIn_total words t Hne Hall) as [ms ->]. rewrite IH.
  by eexists.
Qed.

(** A scan returns when no vocabulary word is empty. *)
Lemma scanPageForVocab_returns vocabList p :
  Forall (fun e => word e <> []) vocabList ->
  exists p' n, scanPageForVocab vocabList p = Returns p' n.
Proof.
  intros Hall. unfold scanPageForVocab.
  destruct vocabList as [|e vocabList]; [by eexists _, _|].
  rewrite compile_literal.
  destruct (matchCountOf_total (map word (e :: vocabList))
              (pageTextNodes (removeAll p))) as [c ->]; [done| |by eexists _, _].
  apply Forall_forall. intros w (e' & <- & He')%list_elem_of_In%in_map_iff.
  rewrite Forall_forall in Hall. by apply Hall, list_elem_of_In.
Qed.

(** *** No vocabulary word matches in the badge *)

(** The units of a badge text: beyond ASCII, a blank, or a digit. *)
Definition isBadgeUnit (d : N) : bool :=
  ((128 <=? d) || (d =? 32) || ((48 <=? d) && (d <=? 57)))%N.

Ltac split_N_tests :=
  repeat match goal with
  | H : context [(?a <=? ?b)%N] |- _ => destruct (N.leb_spec a b)
  | H : context [(?a <? ?b)%N] |- _ => destruct (N.ltb_spec a b)
  | H : context [(?a =? ?b)%N] |- _ => destruct (N.eqb_spec a b)
  | |- context [(?a <=? ?b)%N] => destruct (N.leb_spec a b)
  | |- context [(?a <? ?b)%N] => destruct (N.ltb_spec a b)
  | |- context [(?a =? ?b)%N] => destruct (N.eqb_spec a b)
  end.

Lemma badge_unit_differs d c :
  isBadgeUnit d = true -> isWordRegexChar c = true ->
  (canonicalize upperNonAscii d =? canonicalize upperNonAscii c)%N = false.
Proof.
  intros Hd Hc. apply N.eqb_neq.
  assert (c < 128 /\ (asciiToUpperCase c = 39 \/ asciiToUpperCase c = 45 \/
                      65 <= asciiToUpperCase c <= 90))%N as [Hc128 Hup].
  { unfold isWordRegexChar, asciiToUpperCase in *.
    split_N_tests; simpl in *; try done; lia. }
  rewrite (canonicalize_ascii upperNonAscii c Hc128).
  destruct (N.leb_spec 128 d) as [Hbig|Hsmall].
  - pose proof (canonicalize_nonAscii upperNonAscii d Hbig). lia.
  - rewrite (canonicalize_ascii upperNonAscii d Hsmall).
    unfold isBadgeUnit, asciiToUpperCase in *.
    split_N_tests; simpl in *; try done; lia.
Qed.

Lemma digits_are_digits u :
  Forall (fun d => isBadgeUnit d = true) (digits u).
Proof. induction u; simpl; constructor; done. Qed.

Lemma badgeText_units count :
  Forall (fun d => isBadgeUnit d = true) (badgeText count).
Proof.
  unfold badgeText. rewrite !Forall_app. split_and!.
  - by repeat constructor.
  - apply digits_are_digits.
  - by repeat constructor.
Qed.

Lemma WORD_REGEX_first w :
  WORD_REGEX_test w = true ->
  exists c w', w = c :: w' /\ isWordRegexChar c = true.
Proof.
  unfold WORD_REGEX_test. destruct w as [|c w']; [done|]. simpl.
  intros [Hc _]%andb_true_iff. by exists c, w'.
Qed.

Lemma matchesLiteral_badge w text i :
  WORD_REGEX_test w = true ->
  Forall (fun d => isBadgeUnit d = true) text ->
  matchesLiteral upperNonAscii w text i = false.
Proof.
  intros (c & w' & -> & Hc)%WORD_REGEX_first Htext. simpl.
  destruct (text !! i) as [d|] eqn:Hd; [|done].
  rewrite (badge_unit_differs d c); [done| |done].
  rewrite Forall_forall in Htext. apply Htext.
  by eapply list_elem_of_lookup_2.
Qed.

Lemma firstWord_badge words text i k :
  Forall (fun w => WORD_REGEX_test w = true) words ->
  Forall (fun d => isBadgeUnit d = true) text ->
  firstWord upperNonAscii words text i k = None.
Proof.
  intros Hwords Htext. induction Hwords as [|w ws Hw _ IH]; [done|].
  simpl. by rewrite (matchesLiteral_badge w text i Hw Htext).
Qed.

Lemma search_None r input n i :
  (forall j, matcher upperNonAscii r input j Some = None) ->
  search upperNonAscii r input n i = None.
Proof.
  intros Hnone. revert i. induction n as [|n IH]; intros i; simpl;
    by rewrite Hnone.
Qed.

Lemma matchesIn_badge words text :
  words <> [] ->
  Forall (fun w => WORD_REGEX_test w = true) words ->
  Forall (fun d => isBadgeUnit d = true) text ->
  matchesIn (literalPattern words) text = Some [].
Proof.
  intros Hne Hwords Htext. unfold matchesIn. destruct text as [|d text]; [done|].
  unfold matchesOf. cbn [execLoop]. unfold exec.
  case_decide; [done|].
  rewrite search_None; [done|].
  intros j. rewrite (matcher_literalPattern upperNonAscii words _ j Hne).
  destruct (isWordBoundary (d :: text) j); [|done].
  by apply firstWord_badge.
Qed.

Lemma highlightNode_badge words vm parent inRoot fading be count :
  words <> [] ->
  Forall (fun w => WORD_REGEX_test w = true) words ->
  highlightNode (literalPattern words) vm parent inRoot
    (badgeWith fading be count) = [badgeWith fading be count].
Proof.
  intros Hne Hwords. unfold badgeWith. cbn [highlightNode flat_map].
  destruct (acceptNode _ _); [|done].
  unfold replacement.
  by rewrite (matchesIn_badge words _ Hne Hwords (badgeText_units count)).
Qed.

Lemma matchCountOf_badge words parent inRoot fading be count :
  words <> [] ->
  Forall (fun w => WORD_REGEX_test w = true) words ->
  matchCountOf (literalPattern words)
    (textNodes parent inRoot (badgeWith fading be count)) = Some 0.
Proof.
  intros Hne Hwords. unfold badgeWith. cbn [textNodes flat_map].
  destruct (acceptNode _ _); [|done]. cbn [app matchCountOf].
  by rewrite (matchesIn_badge words _ Hne Hwords (badgeText_units count)).
Qed.

(** *** A scan without a match *)

Lemma matchCountOf_zero_app r xs ys :
  matchCountOf r (xs ++ ys) = Some 0 ->
  matchCountOf r xs = Some 0 /\ matchCountOf r ys = Some 0.
Proof.
  rewrite matchCountOf_app.
  destruct (matchCountOf r xs) as [a|]; [|done].
  destruct (matchCountOf r ys) as [b|]; [|done].
  intros [= Hab]. split; f_equal; lia.
Qed.

(** A scan that counts no match leaves every node as it is. *)
Lemma highlightNode_zero r vm parent inRoot n :
  matchCountOf r (textNodes parent inRoot n) = Some 0 ->
  highlightNode r vm parent inRoot n = [n].
Proof.
  revert parent inRoot. induction n as [s|el kids IH] using node_ind';
    intros parent inRoot; cbn [textNodes highlightNode].
  - destruct (acceptNode parent inRoot); [|done].
    cbn [matchCountOf]. unfold replacement.
    destruct (matchesIn r s) as [[|m ms]|]; done.
  - intros Hz. do 2 f_equal.
    induction IH as [|k rest Hk _ IHrest]; [done|].
    cbn [flat_map] in *. apply matchCountOf_zero_app in Hz as [Hzk Hzrest].
    by rewrite (Hk _ _ Hzk), (IHrest Hzrest).
Qed.

Lemma highlight_zero r vm parent inRoot kids :
  matchCountOf r (flat_map (textNodes parent inRoot) kids) = Some 0 ->
  flat_map (highlightNode r vm parent inRoot) kids = kids.
Proof.
  induction kids as [|k rest IH]; [done|]. cbn [flat_map].
  intros [Hk Hrest]%matchCountOf_zero_app.
  by rewrite (highlightNode_zero _ _ _ _ _ Hk), (IH Hrest).
Qed.

(** *** Markers are never nested *)

Definition flatHere (k : node) : bool :=
  (if isMarker k then forallb isText (children k) else true) && markersFlat k.

Lemma markersFlat_Element el kids :
  markersFlat (Element el kids) = forallb flatHere kids.
Proof. reflexivity. Qed.

Lemma flatHere_mark vm matched : flatHere (mark vm matched) = true.
Proof. by destruct matched. Qed.

Lemma flatHere_fragment vm text lastIndex ms :
  forallb flatHere (fragment vm text lastIndex ms) = true.
Proof.
  revert lastIndex. induction ms as [|[i e] ms IH]; intros lastIndex;
    cbn [fragment].
  - by case_decide.
  - rewrite forallb_app. cbn [forallb]. rewrite flatHere_mark, IH.
    by case_decide.
Qed.

Lemma flatHere_highlightNode r vm parent inRoot n :
  plain n = true ->
  forallb flatHere (highlightNode r vm parent inRoot n) = true.
Proof.
  revert parent inRoot. induction n as [s|el kids IH] using node_ind';
    intros parent inRoot Hplain; cbn [highlightNode].
  - destruct (acceptNode parent inRoot); [|done]. unfold replacement.
    destruct (matchesIn r s) as [[|m ms]|]; [done| |done].
    apply flatHere_fragment.
  - apply plain_Element in Hplain as (Hel & _ & Hkids).
    cbn [forallb]. rewrite andb_true_r. unfold flatHere.
    cbn [isMarker]. rewrite Hel. cbn [andb]. rewrite markersFlat_Element.
    induction IH as [|k rest Hk _ IHrest]; [done|].
    cbn [forallb flat_map] in *. apply andb_true_iff in Hkids as [Hpk Hprest].
    by rewrite forallb_app, (Hk _ _ Hpk), (IHrest Hprest).
Qed.

Lemma flatHere_highlight r vm parent inRoot kids :
  forallb plain kids = true ->
  forallb flatHere (flat_map (highlightNode r vm parent inRoot) kids) = true.
Proof.
  induction kids as [|k rest IH]; [done|]. cbn [forallb flat_map].
  intros [Hk Hrest]%andb_true_iff.
  by rewrite forallb_app, flatHere_highlightNode, IH.
Qed.

Lemma markerFree_flat n : markerFree n = true -> markersFlat n = true.
Proof.
  induction n as [s|el kids IH] using node_ind'; [done|].
  rewrite markersFlat_Element. simpl. rewrite !forallb_forall.
  intros Hfree k Hk. specialize (Hfree k Hk).
  apply andb_true_iff in Hfree as [Hm Hf]. unfold flatHere.
  apply negb_true_iff in Hm. rewrite Hm. simpl.
  rewrite Forall_forall in IH. apply IH; [by apply list_elem_of_In|done].
Qed.

Lemma flatHere_badge fading be count :
  flatHere (badgeWith fading be count) = true.
Proof. reflexivity. Qed.

(** *** The steps of a scan on the page *)

Lemma withoutActiveBadge_snoc kids be count :
  flat_map withoutActiveBadge (kids ++ [badge be count]) =
  flat_map withoutActiveBadge kids.
Proof.
  rewrite flat_map_app.
  change (flat_map withoutActiveBadge [badge be count]) with (@nil node).
  apply app_nil_r.
Qed.

Lemma pageContent_showBadge count p :
  pageContent (showBadge count p) = pageContent p.
Proof.
  unfold showBadge, pageContent at 1. cbn [bodyNodes].
  rewrite withoutActiveBadge_snoc.
  apply withoutActiveBadge_free, activeFree_withoutActiveBadge.
Qed.

Lemma badgeParts_showBadge count p :
  badgeParts (showBadge count p) (pageContent p) [badge (bodyElement p) count] [].
Proof.
  split_and!; [done|apply activeFree_withoutActiveBadge|done|].
  right. by exists false, count.
Qed.

Lemma pageContent_highlightPage r vm p :
  pageContent (highlightPage r vm p) =
  flat_map (highlightNode r vm (bodyElement p) (closestRoot false (bodyElement p)))
    (pageContent p).
Proof. apply withoutActiveBadge_highlight. Qed.

(** What a scan that returns has done. *)
Lemma scanPageForVocab_Returns vocabList p p' n :
  scanPageForVocab vocabList p = Returns p' n ->
  (vocabList = [] /\ p' = removeAll p /\ n = 0) \/
  (exists r,
     vocabList <> [] /\
     compile (map word vocabList) = Some r /\
     matchCountOf r (pageTextNodes (removeAll p)) = Some n /\
     p' = (if decide (0 < n)
           then showBadge n (highlightPage r (vocabMap vocabList) (removeAll p))
           else highlightPage r (vocabMap vocabList) (removeAll p))).
Proof.
  unfold scanPageForVocab. destruct vocabList as [|e vocabList].
  - intros [= <- <-]. by left.
  - destruct (compile (map word (e :: vocabList))) as [r|]; [|done].
    destruct (matchCountOf r (pageTextNodes (removeAll p))) as [c|] eqn:Hc;
      [|done].
    intros [= <- <-]. right. exists r. done.
Qed.

Lemma highlightPage_zero r vm p :
  matchCountOf r (pageTextNodes p) = Some 0 -> highlightPage r vm p = p.
Proof.
  intros Hz. unfold highlightPage. rewrite highlight_zero by exact Hz.
  by destruct p.
Qed.

(** A scan that returns has removed the markers and, when it counted no
    match, done nothing else; when it counted one, it has highlighted the
    page and shown the badge. *)
Lemma scanPageForVocab_cases vocabList p p' n :
  scanPageForVocab vocabList p = Returns p' n ->
  (n = 0 /\ p' = removeAll p) \/
  (0 < n /\ exists r,
     vocabList <> [] /\ compile (map word vocabList) = Some r /\
     p' = showBadge n (highlightPage r (vocabMap vocabList) (removeAll p))).
Proof.
  intros [(_ & -> & ->)|(r & Hne & Hr & Hc & ->)]%scanPageForVocab_Returns;
    [by left|].
  case_decide as Hn.
  - right. split; [done|]. by exists r.
  - left. assert (n = 0) as -> by lia. split; [done|].
    by apply highlightPage_zero.
Qed.

Lemma scan_keeps_text vocabList p p' n :
  scanPageForVocab vocabList p = Returns p' n -> badgeState p ->
  badgeState p' /\
  flat_map textContent (pageContent p') = flat_map textContent (pageContent p).
Proof.
  intros [(_ & ->)|(_ & r & _ & _ & ->)]%scanPageForVocab_cases Hstate.
  - split; [by apply badgeState_removeAll|by apply pageContent_removeAll].
  - split; [eexists _, _, _; apply badgeParts_showBadge|].
    rewrite pageContent_showBadge, pageContent_highlightPage.
    rewrite textContent_highlight. by apply pageContent_removeAll.
Qed.

(** The text of the whole body after a scan: the text of the page without
    the old badge and then the text of the new one, when a match was counted. *)
Lemma scan_body_text vocabList p p' n :
  scanPageForVocab vocabList p = Returns p' n -> badgeState p ->
  textContent (documentBody p') =
  if decide (0 < n)
  then flat_map textContent (pageContent p) ++ badgeText n
  else textContent (documentBody p).
Proof.
  intros [(-> & ->)|(Hn & r & _ & _ & ->)]%scanPageForVocab_cases Hstate.
  - rewrite decide_False by lia. rewrite documentBody_removeAll.
    apply textContent_removeHighlights.
  - rewrite decide_True by done.
    unfold documentBody, showBadge. cbn [bodyNodes bodyElement textContent].
    rewrite flat_map_app. cbn [flat_map badge badgeWith textContent].
    rewrite !app_nil_r, pageContent_highlightPage, textContent_highlight.
    by rewrite pageContent_removeAll.
Qed.

(** *** Removing after a scan, node for node *)

Lemma separated_app_l xs ys : separated (xs ++ ys) = true -> separated xs = true.
Proof.
  induction xs as [|[s|el kids] xs IH]; [done| |by apply IH].
  simpl. intros [[Hs Hh]%andb_true_iff Hsep]%andb_true_iff.
  rewrite Hs, (IH Hsep), andb_true_r. simpl.
  by destruct xs as [|[s'|el kids] xs].
Qed.

Lemma separated_app_r xs ys : separated (xs ++ ys) = true -> separated ys = true.
Proof.
  induction xs as [|[s|el kids] xs IH]; [done| |by apply IH].
  simpl. intros [_ Hsep]%andb_true_iff. by apply IH.
Qed.

Lemma restore_app_element xs el kids ys :
  isMarkerElement el = false ->
  restore (xs ++ Element el kids :: ys) =
  restore xs ++ Element el (restore kids) :: restore ys.
Proof.
  intros Hel. unfold restore at 1. rewrite map_app. cbn [map restoreNode].
  rewrite Hel. apply mergeText_app_element.
Qed.

Lemma restore_around xs fading be count ys :
  restore (xs ++ badgeWith fading be count :: ys) =
  restore xs ++ badgeWith fading be count :: restore ys.
Proof.
  unfold badgeWith at 1. rewrite restore_app_element by (by destruct fading).
  by destruct (badgeWith_inert fading be count) as (_ & _ & _ & ->).
Qed.

Lemma plain_body el kids :
  markerFree (Element el kids) = true -> normalized (Element el kids) = true ->
  separated kids = true /\ forallb plain kids = true.
Proof.
  simpl. intros Hfree [Hsep Hnorm]%andb_true_iff. split; [done|].
  rewrite forallb_forall in *. intros k Hk. unfold plain.
  by rewrite (Hfree k Hk), (Hnorm k Hk).
Qed.

Lemma removeAll_fixed p :
  markerFree (documentBody p) = true -> removeAll p = p.
Proof.
  intros Hfree. unfold removeAll. rewrite (removeHighlights_fixed _ Hfree).
  by destruct p.
Qed.

Lemma removeAll_restore p :
  normalized (documentBody p) = true ->
  bodyNodes (removeAll p) = restore (bodyNodes p).
Proof.
  intros Hn. unfold removeAll. by rewrite (removeHighlights_restore _ Hn).
Qed.

Lemma forallb_app_l {A} (f : A -> bool) xs ys :
  forallb f (xs ++ ys) = true -> forallb f xs = true.
Proof. rewrite forallb_app. by intros [? _]%andb_true_iff. Qed.

Lemma forallb_normalized_plain kids :
  forallb plain kids = true -> forallb normalized kids = true.
Proof.
  rewrite !forallb_forall. intros H k Hk. specialize (H k Hk).
  unfold plain in H. by apply andb_true_iff in H as [_ ?].
Qed.

Lemma forallb_normalized_highlight r vm parent inRoot kids :
  forallb normalized kids = true ->
  forallb normalized (flat_map (highlightNode r vm parent inRoot) kids) = true.
Proof.
  induction kids as [|k rest IH]; [done|]. cbn [forallb flat_map].
  intros [Hk Hrest]%andb_true_iff.
  by rewrite forallb_app, normalized_highlightNode, IH.
Qed.

Lemma normalized_badgeWith fading be count :
  normalized (badgeWith fading be count) = true.
Proof.
  unfold badgeWith, badgeText. cbn [normalized separated forallb].
  by rewrite andb_true_r.
Qed.

(** The content [xs] of a plain page, scanned and followed by the badge:
    [removeHighlights] gives [xs] back and keeps the badge. *)
Lemma removeAll_after_highlight r vm be inRoot xs count :
  separated xs = true -> forallb plain xs = true ->
  removeAll
    (mkPage be (flat_map (highlightNode r vm be inRoot) xs ++ [badge be count]))
  = mkPage be (xs ++ [badge be count]).
Proof.
  intros Hsep Hplain. unfold removeAll. rewrite removeHighlights_restore.
  - unfold documentBody. cbn [bodyElement bodyNodes restoreBelow children].
    unfold badge. rewrite restore_around.
    by rewrite (restore_highlight r vm be inRoot xs Hsep Hplain).
  - unfold documentBody. cbn [bodyElement bodyNodes normalized].
    rewrite separated_app_nontext
      by first [by apply separated_highlight|done].
    rewrite forallb_app, forallb_normalized_highlight
      by (by apply forallb_normalized_plain).
    cbn [forallb]. unfold badge. by rewrite normalized_badgeWith.
Qed.

(** The page without its badge is plain when it is in normalized form and
    the document holds no marker. *)
Lemma plain_pageContent p :
  normalized (Element (bodyElement p) (pageContent p)) = true ->
  markerFree (documentBody p) = true ->
  separated (pageContent p) = true /\ forallb plain (pageContent p) = true.
Proof.
  intros Hnorm Hfree. apply (plain_body (bodyElement p)); [|done].
  by apply markerFree_withoutActiveBadge.
Qed.

Lemma scan_then_removeAll_nodes vocabList p p' n :
  scanPageForVocab vocabList p = Returns p' n ->
  normalized (Element (bodyElement p) (pageContent p)) = true ->
  markerFree (documentBody p) = true ->
  pageContent (removeAll p') = pageContent p.
Proof.
  intros Hscan Hnorm Hfree.
  destruct (plain_pageContent p Hnorm Hfree) as [Hsep Hplain].
  apply scanPageForVocab_cases in Hscan as [(_ & ->)|(_ & r & _ & _ & ->)];
    rewrite (removeAll_fixed p Hfree); [by rewrite (removeAll_fixed p Hfree)|].
  unfold showBadge. rewrite pageContent_highlightPage. cbn [bodyElement].
  rewrite removeAll_after_highlight by done.
  unfold pageContent at 1. cbn [bodyNodes]. rewrite withoutActiveBadge_snoc.
  apply withoutActiveBadge_free, activeFree_withoutActiveBadge.
Qed.

(** *** The claim about removing after a scan *)

(** C7, as the code has it: on a page whose badge, if [activeBadge] refers
    to one, is a child of the body as [showBadge] made it, a scan returns
    when no vocabulary word is empty; and whenever a scan returns,
    [removeAll] leaves no marker in the document, and the text content of the
    page without the scanner's badge is what it was before the scan.  The
    text content of the whole body is that text followed by the text of the
    new badge when the scan counted a match, and what it was before the scan
    when it counted none.  When the page without the badge was in normalized
    form and the document held no marker, the nodes of the page are back as
    they were: every marker replaced by its text and the pieces of each text
    merged into one text node again. *)
Theorem scan_then_removeAll vocabList p :
  badgeState p ->
  (Forall (fun e => word e <> []) vocabList ->
   exists p' n, scanPageForVocab vocabList p = Returns p' n) /\
  (forall p' n, scanPageForVocab vocabList p = Returns p' n ->
     flat_map textContent (pageContent (removeAll p')) =
       flat_map textContent (pageContent p) /\
     textContent (documentBody (removeAll p')) =
       (if decide (0 < n)
        then flat_map textContent (pageContent p) ++ badgeText n
        else textContent (documentBody p)) /\
     markerFree (documentBody (removeAll p')) = true /\
     (normalized (Element (bodyElement p) (pageContent p)) = true ->
      markerFree (documentBody p) = true ->
      pageContent (removeAll p') = pageContent p)).
Proof.
  intros Hstate. split; [apply scanPageForVocab_returns|].
  intros p' n Hscan.
  destruct (scan_keeps_text _ _ _ _ Hscan Hstate) as [Hstate' Htext].
  split_and!.
  - by rewrite pageContent_removeAll.
  - rewrite documentBody_removeAll, textContent_removeHighlights.
    by apply (scan_body_text vocabList).
  - rewrite documentBody_removeAll. apply markerFree_removeHighlights.
  - intros Hnorm Hfree. by eapply scan_then_removeAll_nodes.
Qed.

(** *** Scanning twice *)

(** The vocabulary holds words that passed the selection check. *)
Definition selectable (vocabList : list VocabEntry) : Prop :=
  Forall (fun e => WORD_REGEX_test (word e) = true) vocabList.

(** An element that is no marker: [removeHighlights] leaves it an element. *)
Definition isOtherElement (n : node) : bool :=
  match n with
  | Text _ => false
  | Element el _ => negb (isMarkerElement el)
  end.

(** The children [xs] before and [ys] after the badge are kept apart when
    the badge goes: there are none on one side, or the one next to the badge
    on one side is an element that is no marker. *)
Definition apart (xs ys : list node) : bool :=
  match last xs, head ys with
  | Some a, Some b => isOtherElement a || isOtherElement b
  | _, _ => true
  end.

(** The state the script keeps, with the badge, if [activeBadge] refers to
    one, not between two texts or markers. *)
Definition badgeApart (p : page) : Prop :=
  exists xs tail ys, badgeParts p xs tail ys /\ apart xs ys = true.

Lemma apart_inv xs ys :
  apart xs ys = true ->
  xs = [] \/ ys = [] \/
  (exists xs0 el kids, xs = xs0 ++ [Element el kids] /\ isMarkerElement el = false) \/
  (exists el kids ys0, ys = Element el kids :: ys0 /\ isMarkerElement el = false).
Proof.
  unfold apart. destruct (last xs) as [a|] eqn:Ha; [|left; by apply last_None].
  destruct ys as [|b ys0]; [right; by left|]. cbn [head].
  apply last_Some in Ha as [xs0 ->]. intros [Hs|Hs]%orb_true_iff.
  - destruct a as [s|el kids]; [done|]. right. right. left.
    exists xs0, el, kids. split; [done|]. by apply negb_true_iff.
  - destruct b as [s|el kids]; [done|]. right. right. right.
    exists el, kids, ys0. split; [done|]. by apply negb_true_iff.
Qed.

Lemma markerFree_removeAll p : markerFree (documentBody (removeAll p)) = true.
Proof. rewrite documentBody_removeAll. apply markerFree_removeHighlights. Qed.

Lemma normalized_removeAll p :
  normalized (documentBody p) = true ->
  normalized (documentBody (removeAll p)) = true.
Proof.
  intros Hn. rewrite documentBody_removeAll.
  by apply replaceMarkers_invariant.
Qed.

Lemma activeFree_restoreNode n :
  activeFree n = true -> activeFree (restoreNode n) = true.
Proof.
  induction n as [s|el kids IH] using node_ind'; [done|].
  cbn [activeFree restoreNode]. intros [Hel Hks]%andb_true_iff.
  destruct (isMarkerElement el); [done|]. cbn [activeFree]. rewrite Hel.
  cbn [andb]. apply forallb_mergeText; [done|].
  induction IH as [|k rest Hk _ IHrest]; [done|].
  cbn [forallb] in Hks. apply andb_true_iff in Hks as [Hkf Hrest].
  cbn [map forallb]. by rewrite (Hk Hkf), (IHrest Hrest).
Qed.

Lemma activeFree_restore kids :
  forallb activeFree kids = true -> forallb activeFree (restore kids) = true.
Proof.
  intros Hks. apply forallb_mergeText; [done|].
  induction kids as [|k rest IH]; [done|].
  cbn [forallb] in Hks. apply andb_true_iff in Hks as [Hk Hrest].
  cbn [map forallb]. by rewrite activeFree_restoreNode, IH.
Qed.

Lemma separated_restore kids : separated (restore kids) = true.
Proof. apply separated_mergeText. Qed.

Lemma restore_apart xs ys :
  apart xs ys = true -> separated (restore xs ++ restore ys) = true.
Proof.
  intros [->|[->|[(xs0 & el & kids & -> & Hel)|(el & kids & ys0 & -> & Hel)]]]%apart_inv.
  - apply separated_restore.
  - rewrite app_nil_r. apply separated_restore.
  - rewrite restore_app_element by done. rewrite <- app_assoc. cbn [app].
    rewrite separated_app_element by done.
    rewrite separated_app_nontext by (done || apply separated_restore).
    apply separated_restore.
  - change (Element el kids :: ys0) with ([] ++ Element el kids :: ys0).
    rewrite (restore_app_element [] el kids ys0 Hel). cbn [app restore map mergeText].
    rewrite separated_app_element by done.
    rewrite separated_app_nontext by (done || apply separated_restore).
    apply separated_restore.
Qed.

(** On a normalized page [removeHighlights] keeps the badge where it is, and
    what is around it stays apart. *)
Lemma badgeApart_removeAll p :
  normalized (documentBody p) = true -> badgeApart p ->
  exists xs tail ys,
    badgeParts (removeAll p) xs tail ys /\ separated (xs ++ ys) = true.
Proof.
  intros Hnorm (xs & tail & ys & (Hbody & Hxs & Hys & Htail) & Hapart).
  pose proof (removeAll_restore p Hnorm) as Hr. rewrite Hbody in Hr.
  destruct Htail as [->|(fading & count & ->)].
  - exists (restore (xs ++ ys)), [], []. cbn [app] in *.
    rewrite !app_nil_r. split; [|apply separated_restore].
    split_and!; [by rewrite app_nil_r| |done|by left].
    apply activeFree_restore. by rewrite forallb_app, Hxs, Hys.
  - exists (restore xs), [badgeWith fading (bodyElement p) count], (restore ys).
    split; [|by apply restore_apart].
    cbn [app] in Hr. rewrite restore_around in Hr.
    split_and!; [done|by apply activeFree_restore..|].
    right. by exists fading, count.
Qed.

Lemma scan_removeAll vocabList p :
  scanPageForVocab vocabList (removeAll p) = scanPageForVocab vocabList p.
Proof.
  unfold scanPageForVocab.
  by rewrite (removeAll_fixed (removeAll p) (markerFree_removeAll p)).
Qed.

Lemma selectable_words vocabList :
  selectable vocabList ->
  Forall (fun w => WORD_REGEX_test w = true) (map word vocabList) /\
  Forall (fun w => w <> []) (map word vocabList).
Proof.
  unfold selectable. rewrite !Forall_forall. intros Hsel.
  split; intros w (e & <- & He%list_elem_of_In)%list_elem_of_In%in_map_iff.
  - by apply Hsel.
  - specialize (Hsel e He). by destruct (word e).
Qed.

Lemma matchCountOf_around r xs ts ys c :
  matchCountOf r ts = Some 0 ->
  matchCountOf r (xs ++ ys) = Some c ->
  matchCountOf r (xs ++ ts ++ ys) = Some c.
Proof.
  rewrite !matchCountOf_app. intros ->.
  destruct (matchCountOf r xs) as [a|]; [|done].
  destruct (matchCountOf r ys) as [b|]; [|done].
  by intros [= <-].
Qed.

Lemma scan_twice_plain vocabList q xs tail ys :
  normalized (documentBody q) = true -> markerFree (documentBody q) = true ->
  badgeParts q xs tail ys -> separated (xs ++ ys) = true ->
  selectable vocabList ->
  exists q1 n,
    scanPageForVocab vocabList q = Returns q1 n /\
    scanPageForVocab vocabList q1 = Returns q1 n /\
    markersFlat (documentBody q1) = true.
Proof.
  intros Hnorm Hfree Hparts Hsep Hsel.
  destruct vocabList as [|e0 vocabList].
  { exists q, 0. unfold scanPageForVocab. rewrite (removeAll_fixed q Hfree).
    split_and!; [done..|]. by apply markerFree_flat. }
  set (vocab := e0 :: vocabList) in *.
  assert (map word vocab <> []) as Hne by done.
  destruct (selectable_words vocab Hsel) as [Hwords Hnonempty].
  set (r := literalPattern (map word vocab)).
  set (vm := vocabMap vocab).
  assert (forall p, scanPageForVocab vocab p =
            match matchCountOf r (pageTextNodes (removeAll p)) with
            | None => Endless
            | Some c =>
                Returns (if decide (0 < c)
                         then showBadge c (highlightPage r vm (removeAll p))
                         else highlightPage r vm (removeAll p)) c
            end) as Hscan.
  { intros p. unfold scanPageForVocab, vocab. fold vocab.
    by rewrite compile_literal. }
  pose proof (pageContent_badgeParts _ _ _ _ Hparts) as Hcontent.
  destruct Hparts as (Hbody & Hxs & Hys & Htail).
  set (be := bodyElement q) in *. set (inRoot := closestRoot false be).
  assert (forallb plain (xs ++ ys) = true) as Hplain.
  { destruct (plain_body _ _ Hfree Hnorm) as [_ Hp]. rewrite Hbody in Hp.
    rewrite !forallb_app in *.
    by apply andb_true_iff in Hp as [-> [_ ->]%andb_true_iff]. }
  assert (matchCountOf r (flat_map (textNodes be inRoot) tail) = Some 0)
    as Htail_c.
  { destruct Htail as [->|(fading & count & ->)]; [done|].
    cbn [flat_map]. rewrite app_nil_r. by apply matchCountOf_badge. }
  destruct (matchCountOf_total (map word vocab)
              (flat_map (textNodes be inRoot) (xs ++ ys)) Hne Hnonempty)
    as [c Hc].
  fold r in Hc.
  assert (matchCountOf r (pageTextNodes q) = Some c) as Hcq.
  { unfold pageTextNodes. fold be. fold inRoot.
    rewrite Hbody, !flat_map_app. apply matchCountOf_around; [done|].
    by rewrite <- flat_map_app. }
  destruct (decide (0 < c)) as [Hpos|Hzero].
  - set (q1 := mkPage be (flat_map (highlightNode r vm be inRoot) (xs ++ ys)
                            ++ [badge be c])).
    assert (showBadge c (highlightPage r vm q) = q1) as Hshow.
    { unfold showBadge. rewrite pageContent_highlightPage, Hcontent. done. }
    assert (removeAll q1 = mkPage be ((xs ++ ys) ++ [badge be c])) as Hr1.
    { by apply removeAll_after_highlight. }
    exists q1, c. split_and!.
    + rewrite Hscan, (removeAll_fixed q Hfree), Hcq.
      rewrite decide_True by done. by rewrite Hshow.
    + rewrite Hscan, Hr1.
      assert (matchCountOf r (pageTextNodes (mkPage be ((xs ++ ys) ++ [badge be c])))
              = Some c) as ->.
      { unfold pageTextNodes. cbn [bodyElement bodyNodes]. fold inRoot.
        rewrite flat_map_app. cbn [flat_map]. rewrite app_nil_r.
        rewrite matchCountOf_app, Hc.
        unfold badge. rewrite (matchCountOf_badge (map word vocab)) by done.
        f_equal. lia. }
      rewrite decide_True by done.
      unfold showBadge. rewrite pageContent_highlightPage.
      cbn [bodyElement]. unfold pageContent at 1. cbn [bodyNodes].
      rewrite withoutActiveBadge_snoc.
      rewrite withoutActiveBadge_free; [done|].
      rewrite <- Hcontent. apply activeFree_withoutActiveBadge.
    + unfold documentBody, q1. cbn [bodyElement bodyNodes].
      rewrite markersFlat_Element, forallb_app, flatHere_highlight by done.
      done.
  - assert (c = 0) as -> by lia.
    pose proof (highlightPage_zero r vm q Hcq) as Hsame.
    exists q, 0. split_and!.
    + rewrite Hscan, (removeAll_fixed q Hfree), Hcq.
      rewrite decide_False by lia. by rewrite Hsame.
    + rewrite Hscan, (removeAll_fixed q Hfree), Hcq.
      rewrite decide_False by lia. by rewrite Hsame.
    + by apply markerFree_flat.
Qed.

(** *** The claim about scanning twice *)

(** C6, as the code has it: on a page in normalized form (no empty text
    node, no two adjacent text nodes) whose badge, if [activeBadge] refers to
    one, is a child of the body as [showBadge] made it, with no child of the
    body before it or none after it or, next to it on one side, an element
    that is no marker, and with a vocabulary of words that passed the
    selection check, a scan returns, a second scan of the page it left
    returns the same match count and leaves the same page, node for node, and
    every marker holds a single text and no other marker. *)
Theorem scan_twice vocabList p :
  normalized (documentBody p) = true -> badgeApart p -> selectable vocabList ->
  exists p1 n,
    scanPageForVocab vocabList p = Returns p1 n /\
    scanPageForVocab vocabList p1 = Returns p1 n /\
    markersFlat (documentBody p1) = true.
Proof.
  intros Hnorm Hapart Hsel.
  destruct (badgeApart_removeAll p Hnorm Hapart) as (xs & tail & ys & Hparts & Hsep).
  destruct (scan_twice_plain vocabList (removeAll p) xs tail ys)
    as (p1 & n & H1 & H2 & H3).
  - by apply normalized_removeAll.
  - apply markerFree_removeAll.
  - done.
  - done.
  - done.
  - exists p1, n. by rewrite <- (scan_removeAll vocabList p).
Qed.

End WithCaseTables.

(** *** The scanner on concrete pages *)

Definition plainElement (tag : string) : element :=
  mkElement (js tag) (asciiToLowerCase (js tag)) [] [] false None None false.

Definition catEntry : VocabEntry :=
  mkEntry (js "cat") (js "mao") [] [] (js "2026-02-11").

Definition dogEntry : VocabEntry :=
  mkEntry (js "dog") (js "gou") [] [] (js "2026-02-12").

Definition scan : list VocabEntry -> page -> outcome :=
  scanPageForVocab asciiToLowerCase noUpper.

(** A paragraph and a script. *)
Definition categoryPage : page :=
  mkPage (plainElement "BODY")
    [ Element (plainElement "P") [Text (js "category the cat sat")];
      Element (plainElement "SCRIPT") [Text (js "cat")] ].

Definition catMarker : node :=
  Element
    (mkElement (js "MARK") (js "mark") [] [js "vh-highlight"] false
       (Some (js "mao")) (Some (js "cat")) false)
    [Text (js "cat")].

Definition categoryPageScanned : page :=
  mkPage (plainElement "BODY")
    [ Element (plainElement "P")
        [Text (js "category the "); catMarker; Text (js " sat")];
      Element (plainElement "SCRIPT") [Text (js "cat")];
      badge (plainElement "BODY") 1 ].

Example category_page_scan :
  scan [catEntry] categoryPage = Returns categoryPageScanned 1.
Proof. vm_compute. reflexivity. Qed.

Example category_page_removeAll :
  pageContent (removeAll categoryPageScanned) = pageContent categoryPage.
Proof. vm_compute. reflexivity. Qed.

Lemma scan_then_removeAll_witness :
  flat_map textContent (pageContent (removeAll categoryPageScanned)) =
    flat_map textContent (pageContent categoryPage) /\
  textContent (documentBody (removeAll categoryPageScanned)) =
    (if decide (0 < 1)
     then flat_map textContent (pageContent categoryPage) ++ badgeText 1
     else textContent (documentBody categoryPage)).
Proof.
  assert (badgeState categoryPage) as Hstate.
  { exists (bodyNodes categoryPage), [], [].
    split_and!; [reflexivity..|by left]. }
  destruct (proj2 (scan_then_removeAll asciiToLowerCase noUpper [catEntry]
                     categoryPage Hstate)
              categoryPageScanned 1 category_page_scan) as (H1 & H2 & _).
  split; [exact H1|exact H2].
Defined.

(** The claim C7 as stated fails when the scan finds a match: the badge the
    scan appends to the body is part of the text content of the page, and
    [removeAll] leaves it there. *)
Lemma removeAll_keeps_badge_text :
  scan [catEntry] categoryPage = Returns categoryPageScanned 1 /\
  textContent (documentBody (removeAll categoryPageScanned)) =
    textContent (documentBody categoryPage) ++ badgeText 1 /\
  textContent (documentBody (removeAll categoryPageScanned)) <>
    textContent (documentBody categoryPage).
Proof.
  split_and!.
  - vm_compute. reflexivity.
  - vm_compute. reflexivity.
  - intros H. apply (f_equal length) in H. vm_compute in H. discriminate H.
Qed.

(** The scanned page after a script of the page has appended a widget to
    the body: the badge is no longer the last child. *)
Definition widgetPage : page :=
  mkPage (plainElement "BODY")
    (bodyNodes categoryPageScanned
       ++ [Element (plainElement "DIV") [Text (js "chat about the cat")]]).

(** The next scan removes the badge, from where it is, and appends a new
    one; both words [cat] are found, and found again by the scan after. *)
Example widget_page_scan :
  exists p1,
    scan [catEntry] widgetPage = Returns p1 2 /\
    scan [catEntry] p1 = Returns p1 2 /\
    bodyNodes p1 =
      [ Element (plainElement "P")
          [Text (js "category the "); catMarker; Text (js " sat")];
        Element (plainElement "SCRIPT") [Text (js "cat")];
        Element (plainElement "DIV") [Text (js "chat about the "); catMarker];
        badge (plainElement "BODY") 2 ].
Proof. eexists. split_and!; vm_compute; reflexivity. Qed.

Lemma scan_twice_witness :
  exists p1 n,
    scan [catEntry] widgetPage = Returns p1 n /\
    scan [catEntry] p1 = Returns p1 n /\
    markersFlat (documentBody p1) = true.
Proof.
  apply (scan_twice asciiToLowerCase noUpper [catEntry] widgetPage).
  - vm_compute. reflexivity.
  - exists (pageContent categoryPageScanned), [badge (plainElement "BODY") 1],
      [Element (plainElement "DIV") [Text (js "chat about the cat")]].
    split; [|reflexivity]. split_and!; [reflexivity..|].
    right. by exists false, 1.
  - repeat constructor.
Defined.

(** A vocabulary word made of digits, which no selection can put in the
    vocabulary, is found in the badge of the scan before: 3 matches, then 4. *)
Example digit_word_matches_badge :
  exists p1 p2,
    scan [mkEntry (js "3") (js "san") [] [] []]
      (mkPage (plainElement "BODY")
         [Element (plainElement "P") [Text (js "3 3 3")]])
      = Returns p1 3 /\
    scan [mkEntry (js "3") (js "san") [] [] []] p1 = Returns p2 4.
Proof. eexists _, _. split; vm_compute; reflexivity. Qed.

(** With an empty word in the vocabulary the loop over a text with a word
    boundary never ends. *)
Example empty_word_never_returns :
  scan [mkEntry [] (js "nothing") [] [] []]
    (mkPage (plainElement "BODY") [Text (js "cat")]) = Endless.
Proof. vm_compute. reflexivity. Qed.

(** A paragraph whose text sits in two adjacent text nodes, as a script that
    appends text piece by piece leaves it. *)
Definition splitTextPage : page :=
  mkPage (plainElement "BODY")
    [ Element (plainElement "P") [Text (js "ca"); Text (js "t dog")] ].

(** The claim C6 as stated fails: the first scan finds [dog] only, since no
    text node holds [cat]; the second scan first merges the two texts, when it
    removes the marker, and then finds both words. *)
Lemma scan_twice_counts_differ :
  exists p1 p2,
    scan [catEntry; dogEntry] splitTextPage = Returns p1 1 /\
    scan [catEntry; dogEntry] p1 = Returns p2 2 /\
    flat_map textContent (pageContent p1) = js "cat dog" /\
    countMarkers (documentBody p1) = 1 /\
    countMarkers (documentBody p2) = 2.
Proof.
  eexists _, _. split_and!.
  - vm_compute. reflexivity.
  - vm_compute. reflexivity.
  - reflexivity.
  - reflexivity.
  - reflexivity.
Qed.

(** The badge between two texts of the body, as a script that appends a
    text to the body after a scan leaves it: the page is in normalized form,
    yet the next scan, which takes the badge away, leaves the two texts next
    to each other, and the scan after it merges them. *)
Example badge_between_texts_counts_differ :
  exists p1 p2,
    scan [catEntry; dogEntry]
      (mkPage (plainElement "BODY")
         [Text (js "ca"); badge (plainElement "BODY") 1; Text (js "t dog")])
      = Returns p1 1 /\
    scan [catEntry; dogEntry] p1 = Returns p2 2.
Proof. eexists _, _. split; vm_compute; reflexivity. Qed.

End Scanner.

(** ** Laws of the store operations (service worker) *)

Module StoreLaws.
Import Store.

Section WithCaseTable.

Variable toLowerCase : jsstring -> jsstring.

(** The entries another word's operations leave alone: those whose
    lower-cased word is not [lowerWord]. *)
Definition others (lowerWord : jsstring) (vocabList : list VocabEntry)
    : list VocabEntry :=
  filter (fun e => toLowerCase (word e) <> lowerWord) vocabList.

(** *** Helper lemmas *)

Lemma filter_insert_rejected (P : VocabEntry -> Prop) `{!forall e, Decision (P e)}
    (l : list VocabEntry) i x y :
  l !! i = Some y -> ~ P x -> ~ P y -> filter P (<[i := x]> l) = filter P l.
Proof.
  revert i. induction l as [|a l IH]; intros [|i]; simpl; try done.
  - intros [= ->] Hx Hy. by rewrite !filter_cons_False.
  - intros Hi Hx Hy. rewrite !filter_cons. by rewrite (IH i Hi Hx Hy).
Qed.

Lemma others_save now entry vocabList :
  others (toLowerCase (reqWord entry))
    (saveVocabEntry toLowerCase now entry vocabList).1
  = others (toLowerCase (reqWord entry)) vocabList.
Proof.
  unfold others, saveVocabEntry.
  destruct (list_find _ vocabList) as [[i old]|] eqn:Hf; simpl.
  - apply list_find_Some in Hf as (Hi & Hold & _).
    apply (filter_insert_rejected _ _ _ _ _ Hi); simpl; tauto.
  - rewrite filter_app, filter_cons_False by (simpl; tauto).
    by rewrite filter_nil, app_nil_r.
Qed.

Lemma others_all lowerWord vocabList :
  (forall e, e ∈ vocabList -> toLowerCase (word e) <> lowerWord) ->
  others lowerWord vocabList = vocabList.
Proof.
  intros Hall. unfold others. induction vocabList as [|a l IH]; [done|].
  rewrite filter_cons_True by (apply Hall; left).
  f_equal. apply IH. intros e He. apply Hall. by right.
Qed.

Lemma find_others_None lowerWord vocabList :
  list_find (fun e => toLowerCase (word e) = lowerWord)
    (others lowerWord vocabList) = None.
Proof.
  apply list_find_None, Forall_forall.
  intros e [He _]%list_elem_of_filter. done.
Qed.

Lemma find_after_insert (vocabList : list VocabEntry) lowerWord i old e :
  list_find (fun x => toLowerCase (word x) = lowerWord) vocabList = Some (i, old) ->
  toLowerCase (word e) = lowerWord ->
  list_find (fun x => toLowerCase (word x) = lowerWord) (<[i := e]> vocabList)
    = Some (i, e).
Proof.
  intros (Hi & Hold & Hleast)%list_find_Some He.
  apply list_find_Some. split_and!; [|done|].
  - apply list_lookup_insert_eq. by eapply lookup_lt_Some.
  - intros j y Hj Hlt. rewrite list_lookup_insert_ne in Hj by lia.
    by eapply Hleast.
Qed.

Lemma find_after_append (vocabList : list VocabEntry) lowerWord e :
  list_find (fun x => toLowerCase (word x) = lowerWord) vocabList = None ->
  toLowerCase (word e) = lowerWord ->
  list_find (fun x => toLowerCase (word x) = lowerWord) (vocabList ++ [e])
    = Some (length vocabList, e).
Proof.
  intros Hnone He. apply list_find_Some. split_and!; [|done|].
  - by apply list_lookup_middle.
  - intros j y Hj Hlt. rewrite lookup_app_l in Hj by done.
    rewrite list_find_None, Forall_forall in Hnone.
    apply Hnone. by eapply list_elem_of_lookup_2.
Qed.

(** *** Adding and deleting *)

(** Deleting a word right after saving it undoes the save as far as the
    list goes: what is left is the list a deletion alone leaves, every other
    entry in its place; when no entry matched the word before the save, it is
    the list as it was before the save. *)
Theorem delete_after_save now entry vocabList :
  let saved := (saveVocabEntry toLowerCase now entry vocabList).1 in
  deleteVocabEntry toLowerCase (reqWord entry) saved
    = deleteVocabEntry toLowerCase (reqWord entry) vocabList /\
  ((forall e, e ∈ vocabList ->
      toLowerCase (word e) <> toLowerCase (reqWord entry)) ->
   deleteVocabEntry toLowerCase (reqWord entry) saved = (vocabList, true)).
Proof.
  intros saved. unfold deleteVocabEntry.
  pose proof (others_save now entry vocabList) as Hs. unfold others in Hs.
  split.
  - unfold saved. by rewrite Hs.
  - intros Hnew. unfold saved. rewrite Hs. f_equal. by apply others_all.
Qed.

(** Saving a word after deleting it never finds an entry to update, in
    whatever casing the two calls spell the word: the save appends an entry
    stamped with the current time and reports [updated = false], so the
    [addedAt] of the deleted entry is not brought back. *)
Theorem save_after_delete now entry w vocabList :
  toLowerCase w = toLowerCase (reqWord entry) ->
  let deleted := (deleteVocabEntry toLowerCase w vocabList).1 in
  saveVocabEntry toLowerCase now entry deleted =
    (deleted ++ [ {| word := reqWord entry;
                     translation := reqTranslation entry;
                     context := orEmpty (reqContext entry);
                     sourceUrl := orEmpty (reqSourceUrl entry);
                     addedAt := now |} ], false).
Proof.
  intros Hw deleted. unfold saveVocabEntry.
  assert (list_find (fun e => toLowerCase (word e) = toLowerCase (reqWord entry))
            deleted = None) as ->; [|done].
  unfold deleted, deleteVocabEntry. simpl. rewrite Hw.
  apply find_others_None.
Qed.

(** Saving the same request a second time, at whatever later instant, leaves
    the list exactly as the first save left it and reports [updated = true]:
    the entry keeps the [addedAt] it had after the first save. *)
Theorem save_twice now now' entry vocabList :
  let saved := (saveVocabEntry toLowerCase now entry vocabList).1 in
  saveVocabEntry toLowerCase now' entry saved = (saved, true).
Proof.
  intros saved.
  destruct (list_find (fun e => toLowerCase (word e) = toLowerCase (reqWord entry))
              vocabList) as [[i old]|] eqn:Hf.
  - assert (saved = <[i := withAddedAt (addedAt old) (freshEntry now entry)]>
                      vocabList) as ->.
    { unfold saved, saveVocabEntry. by rewrite Hf. }
    unfold saveVocabEntry.
    rewrite (find_after_insert _ _ _ _ _ Hf) by done.
    rewrite list_insert_insert_eq. reflexivity.
  - assert (saved = vocabList ++ [freshEntry now entry]) as ->.
    { unfold saved, saveVocabEntry. by rewrite Hf. }
    unfold saveVocabEntry.
    rewrite (find_after_append _ _ _ Hf) by done.
    f_equal. rewrite insert_app_r_alt by lia. by rewrite Nat.sub_diag.
Qed.

(** [updateVocabEntry] reports success exactly when some entry matches the
    word case-insensitively; it never adds or removes an entry, never changes
    a word, a context, a source URL or an [addedAt], and changes one
    translation at most: that of the first matching entry, which becomes the
    new translation.  With no match the list is written back as it was. *)
Theorem updateVocabEntry_spec w t vocabList :
  let matches e := toLowerCase (word e) = toLowerCase w in
  let first i e := list_find matches vocabList = Some (i, e) in
  let result := updateVocabEntry toLowerCase w t vocabList in
  (result.2 = true <-> exists e, e ∈ vocabList /\ matches e) /\
  (result.2 = false -> result.1 = vocabList) /\
  withTranslation [] <$> result.1 = withTranslation [] <$> vocabList /\
  (forall i e, vocabList !! i = Some e ->
     (first i e -> result.1 !! i = Some (withTranslation t e)) /\
     (~ first i e -> result.1 !! i = Some e)).
Proof.
  intros matches first result. unfold result, first, updateVocabEntry.
  fold matches.
  destruct (list_find matches vocabList) as [[i old]|] eqn:Hf; simpl.
  - pose proof Hf as (Hi & Hold & _)%list_find_Some.
    split_and!.
    + split; [|done]. intros _. exists old. split; [|done].
      by eapply list_elem_of_lookup_2.
    + done.
    + rewrite list_fmap_insert. apply list_insert_id.
      by rewrite list_lookup_fmap, Hi.
    + intros j e Hj. split.
      * intros [= -> ->]. apply list_lookup_insert_eq. by eapply lookup_lt_Some.
      * intros Hne. rewrite list_lookup_insert_ne; [done|].
        intros ->. apply Hne. congruence.
  - split_and!; [|done|done|].
    + split; [done|]. intros (e & He & Hm).
      rewrite list_find_None, Forall_forall in Hf. by destruct (Hf e He).
    + intros j e Hj. split; [done|done].
Qed.

End WithCaseTable.

(** *** The laws on concrete inputs *)

Lemma save_after_delete_witness :
  saveVocabEntry asciiToLowerCase (js "2026-03-01") catRequest
    (deleteVocabEntry asciiToLowerCase (js "CAT") oneCat).1 =
  ([mkEntry (js "cat") (js "mao") (js "A cat sat.") (js "u1") (js "2026-03-01")],
   false).
Proof.
  exact (save_after_delete asciiToLowerCase (js "2026-03-01") catRequest
           (js "CAT") oneCat eq_refl).
Defined.

End StoreLaws.

(** ** The order in which queued writes run *)

Module QueueOrder.
Import Store WriteQueue.

Section WithCaseTable.

Variable toLowerCase : jsstring -> jsstring.

(** A task is under way from the call of its body to the settling of its
    promise. *)
Definition underWay (p : phase) : bool := negb (queued p) && negb (settled p).

Lemma consistent_order cur ts final i j mi pi mj pj :
  consistent toLowerCase cur ts final -> i < j ->
  ts !! i = Some (mi, pi) -> ts !! j = Some (mj, pj) ->
  queued pj = false -> settled pi = true.
Proof.
  revert cur i j. induction ts as [|[m p] rest IH]; intros cur i j; [done|].
  intros Hc Hij Hi Hj Hq.
  destruct j as [|j]; [lia|]. simpl in Hj.
  assert (Forall (fun t => queued t.2 = true) rest -> settled pi = true) as Hrest.
  { intros Hall. rewrite Forall_forall in Hall.
    specialize (Hall (mj, pj) (list_elem_of_lookup_2 _ _ _ Hj)).
    simpl in Hall. congruence. }
  destruct i as [|i]; simpl in Hi.
  - injection Hi as -> ->. simpl in Hc.
    destruct pi; try done; apply Hrest; tauto.
  - simpl in Hc.
    destruct p; try (apply Hrest; tauto).
    + destruct Hc as [_ Hc]. eapply (IH _ i j); [done|lia|done..].
    + eapply (IH _ i j); [done|lia|done..].
Qed.

(** In every state the service worker can reach, a task that has left the
    queue has all the tasks submitted before it settled: the bodies run in
    submission order, and at most one of them is under way (between the call
    of its body and the settling of its promise) at any moment. *)
Theorem tasks_run_in_order s0 st :
  reachable toLowerCase s0 st ->
  (forall i j mi pi mj pj, i < j ->
     tasks st !! i = Some (mi, pi) -> tasks st !! j = Some (mj, pj) ->
     queued pj = false -> settled pi = true) /\
  (forall i j mi pi mj pj,
     tasks st !! i = Some (mi, pi) -> tasks st !! j = Some (mj, pj) ->
     underWay pi = true -> underWay pj = true -> i = j).
Proof.
  intros Hc%reachable_consistent.
  assert (forall i j mi pi mj pj, i < j ->
     tasks st !! i = Some (mi, pi) -> tasks st !! j = Some (mj, pj) ->
     queued pj = false -> settled pi = true) as Horder.
  { intros i j mi pi mj pj. by eapply consistent_order. }
  split; [done|].
  intros i j mi pi mj pj Hi Hj [Hqi Hsi]%andb_true_iff [Hqj Hsj]%andb_true_iff.
  apply negb_true_iff in Hqi, Hsi, Hqj, Hsj.
  destruct (Nat.lt_trichotomy i j) as [Hlt|[->|Hlt]]; [|done|].
  - pose proof (Horder _ _ _ _ _ _ Hlt Hi Hj Hqj). congruence.
  - pose proof (Horder _ _ _ _ _ _ Hlt Hj Hi Hqi). congruence.
Qed.

Lemma sequential_unique s0 calls :
  unique toLowerCase (getVocabList s0) ->
  unique toLowerCase (getVocabList (sequential toLowerCase s0 calls)).
Proof.
  revert s0. induction calls as [|c calls IH]; intros s0 Hu; [done|].
  unfold sequential. cbn [foldl]. apply IH. cbn [getVocabList default].
  by apply applyMutation_unique.
Qed.

(** However submissions, storage reads and writes and continuations
    interleave, and whichever of them fail, the stored list never holds two
    entries for the same word up to case, if it did not to begin with: a
    burst of [TRANSLATE_WORD] messages for one word leaves one entry. *)
Theorem queue_keeps_words_unique s0 st :
  reachable toLowerCase s0 st ->
  unique toLowerCase (getVocabList s0) ->
  unique toLowerCase (getVocabList (storage st)).
Proof.
  intros Hc%reachable_consistent Hu.
  rewrite (consistent_sequential toLowerCase _ _ _ Hc).
  by apply sequential_unique.
Qed.

End WithCaseTable.

Lemma queue_keeps_words_unique_witness :
  unique asciiToLowerCase (getVocabList (storage afterOverlapping)).
Proof.
  apply (queue_keeps_words_unique asciiToLowerCase None afterOverlapping).
  - apply (execAll_reachable asciiToLowerCase None overlapping). reflexivity.
  - apply NoDup_nil_2.
Defined.

(** The second task has started: the first one has settled. *)
Definition secondStarted : state :=
  mkState (Some [mkEntry (js "cat") (js "mao") (js "A cat sat.") (js "u1") (js "t1")])
    [ (addCat, Fulfilled (js "t1") false); (addDog, GetPending) ].

Example secondStarted_runs :
  execAll asciiToLowerCase true
    [ Submit addCat; Submit addDog; Start 0; GetOk 0; Body 0 (js "t1"); SetOk 0;
      Return 0; Start 1 ] (mkState None []) = Some secondStarted.
Proof. reflexivity. Qed.

Lemma tasks_run_in_order_witness :
  settled (Fulfilled (js "t1") false) = true.
Proof.
  assert (reachable asciiToLowerCase None secondStarted) as Hr.
  { apply (execAll_reachable asciiToLowerCase None
             [ Submit addCat; Submit addDog; Start 0; GetOk 0; Body 0 (js "t1");
               SetOk 0; Return 0; Start 1 ]). reflexivity. }
  apply (proj1 (tasks_run_in_order asciiToLowerCase None secondStarted Hr)
           0 1 addCat (Fulfilled (js "t1") false) addDog GetPending).
  - lia.
  - reflexivity.
  - reflexivity.
  - reflexivity.
Defined.

End QueueOrder.

(** ** What [trim] leaves, and the context of a selection on every path *)

Module Context.
Import Selection.

(** The first and the last unit of [s] are no white space; [s] is not
    empty. *)
Definition edgesNotBlank (s : jsstring) : bool :=
  match head s, last s with
  | Some a, Some b => negb (isWhiteSpace a) && negb (isWhiteSpace b)
  | _, _ => false
  end.

(** *** [trim] *)

Lemma trimStart_app a m :
  match head m with Some c => isWhiteSpace c = false | None => False end ->
  trimStart (a ++ m) = trimStart a ++ m.
Proof.
  intros Hm. induction a as [|x a IH]; simpl.
  - destruct m as [|c m]; [done|]. simpl in *. by rewrite Hm.
  - by destruct (isWhiteSpace x).
Qed.

Lemma edgesNotBlank_inv s :
  edgesNotBlank s = true ->
  match head s with Some c => isWhiteSpace c = false | None => False end /\
  match head (reverse s) with Some c => isWhiteSpace c = false | None => False end.
Proof.
  unfold edgesNotBlank. rewrite head_reverse.
  destruct (head s) as [a|]; [|done]. destruct (last s) as [b|]; [|done].
  intros [Ha Hb]%andb_true_iff. by apply negb_true_iff in Ha, Hb.
Qed.

(** White space is only taken off around a piece whose own ends are not
    blank. *)
Lemma trim_app pre m post :
  edgesNotBlank m = true ->
  trim (pre ++ m ++ post) = trimStart pre ++ m ++ trimEnd post.
Proof.
  intros [Hh Hl]%edgesNotBlank_inv. unfold trim, trimEnd.
  rewrite (trimStart_app pre (m ++ post)) by (by destruct m).
  rewrite !reverse_app, <- app_assoc.
  rewrite (trimStart_app (reverse post)); [|by destruct (reverse m)].
  rewrite !reverse_app, !reverse_involutive. by rewrite <- app_assoc.
Qed.

Lemma trimStart_head s :
  trimStart s = [] \/
  match head (trimStart s) with Some c => isWhiteSpace c = false | None => False end.
Proof.
  induction s as [|c s IH]; simpl; [by left|].
  destruct (isWhiteSpace c) eqn:Hc; [done|]. right. done.
Qed.

(** A trimmed string is empty or has no white space at either end. *)
Lemma trim_edges s : trim s = [] \/ edgesNotBlank (trim s) = true.
Proof.
  unfold trim, trimEnd.
  destruct (trimStart_head s) as [->|Hs]; [by left|].
  destruct (trimStart s) as [|c u] eqn:Hu; [done|]. simpl in Hs.
  rewrite reverse_cons, (trimStart_app (reverse u) [c]) by done.
  rewrite reverse_app. right. unfold edgesNotBlank. simpl.
  rewrite last_cons.
  destruct (trimStart_head (reverse u)) as [He|Hne].
  - rewrite He. simpl. by rewrite Hs.
  - rewrite <- head_reverse, reverse_involutive.
    destruct (head (trimStart (reverse u))) as [d|]; [|done].
    by rewrite Hs, Hne.
Qed.

Lemma trim_fixed s : edgesNotBlank s = true -> trim s = s.
Proof.
  intros Hs. pose proof (trim_app [] s [] Hs) as H.
  change (trimEnd []) with (@nil N) in H. simpl in H.
  by rewrite !app_nil_r in H.
Qed.

Lemma trim_trim s : trim (trim s) = trim s.
Proof.
  destruct (trim_edges s) as [->|Hs]; [done|]. by apply trim_fixed.
Qed.

(** *** [slice] *)

Lemma take_drop_infix {A} (l : list A) m n :
  exists pre post, l = pre ++ take n (drop m l) ++ post.
Proof.
  exists (take m l), (drop n (drop m l)). by rewrite !take_drop.
Qed.

Lemma slice_infix a b s : exists pre post, s = pre ++ slice a b s ++ post.
Proof. apply take_drop_infix. Qed.

Lemma length_slice a b s :
  (0 <= a)%Z -> (0 <= b)%Z ->
  (Z.of_nat (length (slice a b s)) <= Z.max (b - a) 0)%Z.
Proof.
  intros Ha Hb. unfold slice. rewrite length_take, length_drop.
  destruct (Z.ltb_spec a 0); [lia|]. destruct (Z.ltb_spec b 0); lia.
Qed.

Lemma slice_all s : slice 0 (Z.of_nat (length s)) s = s.
Proof.
  unfold slice. destruct (Z.ltb_spec 0 0); [lia|].
  destruct (Z.ltb_spec (Z.of_nat (length s)) 0); [lia|].
  rewrite Z.min_id, (Z.min_l 0) by lia. simpl.
  apply take_ge. lia.
Qed.

Section WithCaseTable.

Variable toLowerCase : jsstring -> jsstring.

(** The window the function cuts before it trims: the bounds handed to
    [slice] on each of the three paths. *)
Lemma context_is_trimmed_slice chain bodyText word :
  let text := enclosingText chain bodyText in
  exists a b,
    (0 <= a)%Z /\ (0 <= b)%Z /\ (b - a <= MAX_PARAGRAPH_LENGTH)%Z /\
    getEnclosingParagraphText toLowerCase chain bodyText word
      = trim (slice a b text).
Proof.
  intros text. unfold getEnclosingParagraphText. fold text.
  set (len := Z.of_nat (length text)).
  set (wordIndex := indexOf (toLowerCase word) (toLowerCase text)).
  unfold MAX_PARAGRAPH_LENGTH.
  destruct (Z.leb_spec len 500) as [Hle|Hgt].
  - exists 0%Z, len. split_and!; [lia..|].
    unfold len. by rewrite slice_all.
  - destruct (Z.eqb_spec wordIndex (-1)) as [Hnone|Hfound].
    + exists 0%Z, 500%Z. split_and!; [lia..|done].
    + destruct (indexOfFrom_range (toLowerCase word) (toLowerCase text) 0)
        as [Hm|Hpos]; [done|].
      fold (indexOf (toLowerCase word) (toLowerCase text)) in Hpos.
      fold wordIndex in Hpos.
      rewrite (clampWindow_spec len wordIndex Hgt Hpos). simpl.
      eexists _, _. split_and!; [| |
        |reflexivity]; lia.
Qed.

Lemma context_valid chain bodyText word :
  length (getEnclosingParagraphText toLowerCase chain bodyText word) <= 500 /\
  trim (getEnclosingParagraphText toLowerCase chain bodyText word)
    = getEnclosingParagraphText toLowerCase chain bodyText word.
Proof.
  destruct (context_is_trimmed_slice chain bodyText word)
    as (a & b & Ha & Hb & Hab & ->).
  split; [|apply trim_trim].
  etrans; [apply length_trim|].
  pose proof (length_slice a b (enclosingText chain bodyText) Ha Hb).
  unfold MAX_PARAGRAPH_LENGTH in *. lia.
Qed.

(** On every path ([text] short, word not found, window cut around the
    word) the context handed to the translator has at most
    [MAX_PARAGRAPH_LENGTH] units, is a contiguous piece of the text of the
    enclosing block, and has no white space at either end (it may be empty);
    a text of at most [MAX_PARAGRAPH_LENGTH] units comes back whole but for
    the white space around it. *)
Theorem context_capped_and_trimmed chain bodyText word :
  let text := enclosingText chain bodyText in
  let result := getEnclosingParagraphText toLowerCase chain bodyText word in
  length result <= 500 /\
  (exists pre post, text = pre ++ result ++ post) /\
  (result = [] \/ edgesNotBlank result = true) /\
  trim result = result /\
  (length text <= 500 -> result = trim text).
Proof.
  intros text result.
  destruct (context_is_trimmed_slice chain bodyText word)
    as (a & b & Ha & Hb & Hab & Hres).
  fold text in Hres. fold result in Hres. split_and!.
  - rewrite Hres. etrans; [apply length_trim|].
    pose proof (length_slice a b text Ha Hb). unfold MAX_PARAGRAPH_LENGTH in *.
    lia.
  - rewrite Hres. destruct (slice_infix a b text) as (p1 & q1 & H1).
    destruct (trim_infix (slice a b text)) as (p2 & q2 & H2).
    exists (p1 ++ p2), (q2 ++ q1).
    rewrite <- !app_assoc, (app_assoc (trim _)), (app_assoc p2), <- H2.
    by rewrite <- H1.
  - rewrite Hres. apply trim_edges.
  - rewrite Hres. apply trim_trim.
  - intros Hshort. unfold result, getEnclosingParagraphText. fold text.
    destruct (Z.leb_spec (Z.of_nat (length text)) MAX_PARAGRAPH_LENGTH);
      [done|]. unfold MAX_PARAGRAPH_LENGTH in *. lia.
Qed.

(** The units of [text] an occurrence found at [wordIndex] spans. *)
Definition occurrenceAt (wordIndex : Z) (n : nat) (text : jsstring) : jsstring :=
  take n (drop (Z.to_nat wordIndex) text).

Lemma window_holds_occurrence (text : jsstring) (start i n : nat) :
  start <= i -> i + n <= start + 500 -> i + n <= length text ->
  exists pre post,
    take 500 (drop start text) = pre ++ take n (drop i text) ++ post.
Proof.
  intros Hsi Hin Hlen.
  exists (take (i - start) (drop start text)),
         (take (500 - (i - start) - n) (drop n (drop i text))).
  rewrite <- (take_drop (i - start) (drop start text)) at 1.
  rewrite drop_drop. replace (start + (i - start)) with i by lia.
  rewrite <- (take_drop n (drop i text)) at 1.
  rewrite take_app_ge by (rewrite length_take, length_drop; lia).
  f_equal. rewrite length_take, length_drop.
  replace (500 - (i - start) `min` (length text - start)) with (500 - (i - start))
    by lia.
  rewrite take_app_ge by (rewrite length_take, length_drop; lia).
  f_equal. f_equal. rewrite length_take, length_drop. lia.
Qed.

(** When the word is found in the text of the block, at most 250 units
    long, and the units of the text where it was found do not begin or end
    with white space, the context that comes back holds those units: the
    window is never cut through the occurrence it was centred on, and [trim]
    does not reach it. *)
Theorem context_holds_occurrence chain bodyText word :
  let text := enclosingText chain bodyText in
  let wordIndex := indexOf (toLowerCase word) (toLowerCase text) in
  let n := length (toLowerCase word) in
  (0 <= wordIndex)%Z -> n <= 250 ->
  Z.to_nat wordIndex + n <= length text ->
  edgesNotBlank (occurrenceAt wordIndex n text) = true ->
  exists pre post,
    getEnclosingParagraphText toLowerCase chain bodyText word
      = pre ++ occurrenceAt wordIndex n text ++ post.
Proof.
  intros text wordIndex n Hfound Hn Hin Hedges.
  unfold getEnclosingParagraphText. fold text. fold wordIndex.
  set (len := Z.of_nat (length text)).
  set (i := Z.to_nat wordIndex) in *.
  unfold MAX_PARAGRAPH_LENGTH.
  destruct (Z.leb_spec len 500) as [Hle|Hgt].
  - destruct (take_drop_infix text i n) as (pre & post & Htext).
    pose proof (trim_app pre _ post Hedges) as Ht.
    unfold occurrenceAt in Ht at 1. fold i in Ht. rewrite <- Htext in Ht.
    rewrite Ht. by eexists _, _.
  - destruct (Z.eqb_spec wordIndex (-1)); [lia|].
    rewrite (clampWindow_spec len wordIndex Hgt Hfound). simpl.
    set (startZ := Z.max 0 (Z.min (wordIndex - 250) (len - 500))).
    assert (Z.of_nat (Z.to_nat startZ) = startZ) as Hst by lia.
    rewrite <- Hst, slice_window by (unfold startZ, len in *; lia).
    destruct (window_holds_occurrence text (Z.to_nat startZ) i n)
      as (pre & post & Hwin); [unfold startZ, len, i in *; lia..|].
    rewrite Hwin, trim_app by done. by eexists _, _.
Qed.

End WithCaseTable.

(** The 800-unit paragraph with [zebra] at offset 600: the context holds
    the five units. *)
Lemma context_holds_occurrence_witness :
  exists pre post,
    getEnclosingParagraphText asciiToLowerCase anchorChain
      (js "menu" ++ paragraph800) (js "zebra") = pre ++ js "zebra" ++ post.
Proof.
  apply (context_holds_occurrence asciiToLowerCase anchorChain
           (js "menu" ++ paragraph800) (js "zebra")).
  - vm_compute. discriminate.
  - vm_compute. lia.
  - vm_compute. lia.
  - vm_compute. reflexivity.
Defined.

End Context.

(** ** The matches of the scan loop: none missed, none overlapping *)

Module Coverage.
Import Pattern.

Section WithCaseTable.

Variable upperNonAscii : N -> jsstring.

Lemma ordered_lookup lastIndex ms len j m :
  ordered lastIndex ms len -> ms !! j = Some m ->
  lastIndex <= m.1 /\ m.1 <= m.2 /\ m.2 <= len.
Proof.
  revert lastIndex j. induction ms as [|[a b] ms IH]; intros lastIndex j; [done|].
  simpl. intros (Hl & Hab & Hrest).
  assert (b <= len) as Hb.
  { clear -Hrest. revert b Hrest. induction ms as [|[c d] ms IHm]; intros b; simpl;
      [done|]. intros (? & ? & Hr). apply IHm in Hr. lia. }
  destruct j as [|j]; simpl.
  - intros [= <-]. simpl. lia.
  - intros Hj. destruct (IH b j Hrest Hj) as (? & ? & ?). lia.
Qed.

Lemma ordered_apart lastIndex ms len i j m1 m2 :
  ordered lastIndex ms len -> i < j ->
  ms !! i = Some m1 -> ms !! j = Some m2 -> m1.2 <= m2.1.
Proof.
  revert lastIndex i j. induction ms as [|[a b] ms IH]; intros lastIndex i j;
    [done|].
  simpl. intros (Hl & Hab & Hrest) Hij Hi Hj.
  destruct j as [|j]; [lia|]. simpl in Hj.
  destruct i as [|i]; simpl in Hi.
  - injection Hi as <-. simpl.
    by destruct (ordered_lookup b ms len j m2 Hrest Hj) as (? & _).
  - eapply (IH b i j); [done|lia|done..].
Qed.







(** *** Between the matches *)

Lemma search_None_inv r input n i :
  search upperNonAscii r input n i = None ->
  forall j, i <= j <= i + n -> matcher upperNonAscii r input j Some = None.
Proof.
  revert i. induction n as [|n IH]; intros i; simpl;
    destruct (matcher upperNonAscii r input i Some) eqn:Hm; try done.
  - intros _ j Hj. by replace j with i by lia.
  - intros Hs j Hj. destruct (decide (j = i)) as [->|Hne]; [done|].
    apply (IH (S i)); [done|lia].
Qed.

Lemma search_first r input n i s e :
  search upperNonAscii r input n i = Some (s, e) ->
  forall j, i <= j < s -> matcher upperNonAscii r input j Some = None.
Proof.
  revert i. induction n as [|n IH]; intros i; simpl;
    destruct (matcher upperNonAscii r input i Some) eqn:Hm; try done.
  - intros [= <- <-] j Hj. lia.
  - intros [= <- <-] j Hj. lia.
  - intros Hs j Hj. destruct (decide (j = i)) as [->|Hne]; [done|].
    apply (IH (S i)); [done|lia].
Qed.

Lemma isWordCharAt_piece text off len j :
  j < len ->
  isWordCharAt (take len (drop off text)) j = isWordCharAt text (off + j).
Proof.
  intros Hj. unfold isWordCharAt. by rewrite lookup_take_lt, lookup_drop.
Qed.

Lemma isWordCharAt_ge (s : jsstring) j : length s <= j -> isWordCharAt s j = false.
Proof. intros Hj. unfold isWordCharAt. by rewrite lookup_ge_None_2. Qed.

(** A word boundary of a piece of a text that lies between two boundaries
    of the text, or reaches an end of it, is a word boundary of the text. *)
Lemma isWordBoundary_piece text off len a :
  off + len <= length text ->
  off = 0 \/ isWordBoundary text off = true ->
  off + len = length text \/ isWordBoundary text (off + len) = true ->
  a <= len ->
  isWordBoundary (take len (drop off text)) a = true ->
  isWordBoundary text (off + a) = true.
Proof.
  intros Hlen Hleft Hright Ha Hb. destruct a as [|a].
  - rewrite Nat.add_0_r. destruct Hleft as [->|Hleft]; [|done].
    unfold isWordBoundary in *. cbn [xorb] in *.
    destruct len as [|len]; [done|].
    by rewrite isWordCharAt_piece in Hb by lia.
  - unfold isWordBoundary in Hb.
    rewrite isWordCharAt_piece in Hb by lia.
    destruct (decide (S a < len)) as [Hin|Hend].
    + rewrite isWordCharAt_piece in Hb by lia.
      unfold isWordBoundary. by replace (off + S a) with (S (off + a)) in * by lia.
    + assert (S a = len) as Heq by lia.
      rewrite (isWordCharAt_ge _ (S a)) in Hb
        by (rewrite length_take, length_drop; lia).
      destruct Hright as [Hright|Hright].
      * unfold isWordBoundary. replace (off + S a) with (S (off + a)) by lia.
        rewrite (isWordCharAt_ge text (S (off + a))) by lia. done.
      * by rewrite Heq.
Qed.

Lemma wholeWordAt_piece words text off len m :
  off + len <= length text ->
  off = 0 \/ isWordBoundary text off = true ->
  off + len = length text \/ isWordBoundary text (off + len) = true ->
  wholeWordAt upperNonAscii words (take len (drop off text)) m ->
  wholeWordAt upperNonAscii words text (off + m.1, off + m.2).
Proof.
  intros Hlen Hleft Hright (Hb1 & Hb2 & Hm2 & w & Hin & Hend & Hw).
  rewrite length_take, length_drop in Hm2.
  unfold wholeWordAt. cbn [fst snd]. split_and!.
  - apply (isWordBoundary_piece text off len); [done..|lia|done].
  - apply (isWordBoundary_piece text off len); [done..|lia|done].
  - lia.
  - exists w. split_and!; [done|lia|].
    replace len with (m.1 + (len - m.1)) in Hw at 1 by lia.
    rewrite <- take_drop_commute, take_take, drop_drop in Hw.
    by replace (length w `min` (len - m.1)) with (length w) in Hw by lia.
Qed.

(** The piece of a text between two word boundaries, with no match of the
    pattern starting in it, holds no match when it is searched on its own. *)
Lemma piece_no_match words text off len :
  words <> [] -> Forall (fun w => w <> []) words ->
  off + len <= length text ->
  off = 0 \/ isWordBoundary text off = true ->
  off + len = length text \/ isWordBoundary text (off + len) = true ->
  (forall j, off <= j < off + len ->
     matcher upperNonAscii (literalPattern words) text j Some = None) ->
  matchesOf upperNonAscii (literalPattern words) (take len (drop off text))
    = Some [].
Proof.
  intros Hne Hall Hlen Hleft Hright Hnone.
  unfold matchesOf. cbn [execLoop]. unfold exec.
  case_decide; [lia|]. rewrite Nat.sub_0_r.
  destruct (search upperNonAscii (literalPattern words)
              (take len (drop off text)) (length (take len (drop off text))) 0)
    as [[s e]|] eqn:Hs; [|done].
  exfalso. apply search_Some in Hs as [Hm Hrange].
  assert (s <= length (take len (drop off text))) as Hs by lia.
  pose proof (literalPattern_nonempty_match upperNonAscii words _ s e Hne Hall
                Hs Hm) as Hse.
  rewrite length_take, length_drop in Hse.
  apply (matcher_wholeWord upperNonAscii) in Hm; [|done|lia].
  apply (wholeWordAt_piece words text off len) in Hm; [|done..].
  destruct (wholeWord_matcher upperNonAscii words text _ Hne Hm) as [e' He'].
  cbn [fst] in He'. rewrite Hnone in He' by lia. done.
Qed.

(** When no vocabulary word is empty, the scan loop over a text ends, and
    wherever a vocabulary word stands as a whole word in the text (a word
    boundary before it and after it, its units those of the word up to
    case), the loop has a match over the place where it starts: no
    whole-word occurrence of a vocabulary word is left without a
    highlight. *)
Theorem no_occurrence_missed (words : list jsstring) (text : jsstring) m :
  Forall (fun w => w <> []) words ->
  wholeWordAt upperNonAscii words text m ->
  exists r ms,
    compile words = Some r /\ matchesOf upperNonAscii r text = Some ms /\
    exists found, found ∈ ms /\ found.1 <= m.1 < found.2.
Proof.
  intros Hall Hm.
  assert (words <> []) as Hne.
  { destruct Hm as (_ & _ & _ & w & Hin & _). intros ->.
    by apply elem_of_nil in Hin. }
  destruct (matchesOf_terminates upperNonAscii words text Hne Hall) as [ms Hms].
  exists (literalPattern words), ms. split_and!; [apply compile_literal|done|].
  destruct (wholeWord_matcher upperNonAscii words text m Hne Hm) as [e He].
  destruct Hm as (_ & _ & Hlen & w & _ & Hend & _).
  apply (execLoop_complete upperNonAscii _ _ _ _ _ _ _ Hms He). lia.
Qed.

(** The matches of the scan loop come in text order, each one at least one
    unit long and inside the text, and no two of them overlap: a later match
    starts at or after the end of every earlier one. *)
Theorem matches_do_not_overlap (words : list jsstring) (text : jsstring) r ms :
  words <> [] -> Forall (fun w => w <> []) words ->
  compile words = Some r -> matchesOf upperNonAscii r text = Some ms ->
  (forall m, m ∈ ms -> m.1 < m.2 <= length text) /\
  (forall i j m1 m2, i < j -> ms !! i = Some m1 -> ms !! j = Some m2 ->
     m1.2 <= m2.1).
Proof.
  intros Hne Hall. rewrite compile_literal. intros [= <-] Hms.
  pose proof (execLoop_ordered upperNonAscii _ _ _ 0 ms (Nat.le_0_l _) Hms)
    as Hord.
  split.
  - assert (Forall (fun m => m.1 < m.2 <= length text) ms) as HF.
    { eapply (execLoop_Forall upperNonAscii); [|exact Hms].
      intros s e. simpl. by apply literalPattern_nonempty_match. }
    rewrite Forall_forall in HF. exact HF.
  - intros i j m1 m2 Hij Hi Hj. by eapply ordered_apart.
Qed.


End WithCaseTable.


Lemma no_occurrence_missed_witness :
  exists r ms,
    compile [js "cat"] = Some r /\
    matchesOf noUpper r (js "category the cat sat") = Some ms /\
    exists found, found ∈ ms /\ found.1 <= (13, 16).1 < found.2.
Proof.
  apply (no_occurrence_missed noUpper [js "cat"] (js "category the cat sat")
           (13, 16)).
  - repeat constructor. discriminate.
  - split_and!; [reflexivity|reflexivity|simpl; lia|].
    exists (js "cat"). split_and!; [left|reflexivity|].
    repeat constructor.
Defined.

Lemma matches_do_not_overlap_witness : (13, 16).2 <= (24, 27).1.
Proof.
  apply (proj2 (matches_do_not_overlap noUpper [js "c++"; js "a|b"; js "cat"]
                  (js "category the Cat sat on c++x and a|b")
                  (literalPattern [js "c++"; js "a|b"; js "cat"])
                  [(13, 16); (24, 27); (33, 36)]
                  ltac:(discriminate)
                  ltac:(repeat constructor; discriminate)
                  eq_refl eq_refl) 0 1).
  - lia.
  - reflexivity.
  - reflexivity.
Defined.

End Coverage.

(** ** What a scan leaves on the page: the badge count, the tooltips, the
    places it never touches *)

Module Highlights.
Import Store Pattern Dom Scanner.

(** A highlight as the listeners see it: the element and its text content. *)
Definition highlightHere (k : node) : list (element * jsstring) :=
  match k with
  | Element el _ => if isMarkerElement el then [(el, textContent k)] else []
  | Text _ => []
  end.

(** The highlights below a node, in document order. *)
Fixpoint highlightsOf (n : node) : list (element * jsstring) :=
  match n with
  | Text _ => []
  | Element _ kids => flat_map (fun k => highlightHere k ++ highlightsOf k) kids
  end.

Definition highlightsIn (kids : list node) : list (element * jsstring) :=
  flat_map (fun k => highlightHere k ++ highlightsOf k) kids.

(** The [mouseenter] listener: what the tooltip shows over an element with
    classes and data attributes [el] and text content [text], if it shows
    anything.  [dataset.vhWord || textContent] is the word, and nothing is
    shown without a translation. *)
Definition tooltipOf (el : element) (text : jsstring)
    : option (jsstring * jsstring) :=
  if hasClass (js "vh-highlight") el then
    match vhTranslation el with
    | Some (c :: t) =>
        Some (match vhWord el with Some (d :: w) => d :: w | _ => text end,
              c :: t)
    | _ => None
    end
  else None.

(** The parent of every highlight below a node whose parent is [parent],
    with [parent.closest("#vocab-highlighter-root")] for it, in document
    order. *)
Fixpoint highlightParents (parent : element) (inRoot : bool) (n : node)
    : list (element * bool) :=
  match n with
  | Text _ => []
  | Element el kids =>
      (if isMarkerElement el then [(parent, inRoot)] else [])
      ++ flat_map (highlightParents el (closestRoot inRoot el)) kids
  end.

(** The parents of the highlights of a page, from [document.body] down. *)
Definition pageHighlightParents (p : page) : list (element * bool) :=
  flat_map (highlightParents (bodyElement p) (closestRoot false (bodyElement p)))
    (bodyNodes p).

(** *** Helper lemmas: counting markers *)

Lemma markerFree_count n : markerFree n = true -> countMarkers n = 0.
Proof.
  induction n as [s|el kids IH] using node_ind'; [done|].
  rewrite countMarkers_Element. simpl. intros Hfree.
  induction IH as [|k rest Hk _ IHrest]; [done|].
  simpl in Hfree. apply andb_true_iff in Hfree as [[Hm Hf]%andb_true_iff Hrest].
  simpl. unfold weight at 1. apply negb_true_iff in Hm.
  rewrite Hm, (Hk Hf), (IHrest Hrest). done.
Qed.

Lemma weight_badge fading be count : weight (badgeWith fading be count) = 0.
Proof. reflexivity. Qed.

Lemma highlightsIn_app xs ys :
  highlightsIn (xs ++ ys) = highlightsIn xs ++ highlightsIn ys.
Proof. apply flat_map_app. Qed.

Lemma highlightHere_not_marker k : isMarker k = false -> highlightHere k = [].
Proof. destruct k as [s|el kids]; [done|]. simpl. by intros ->. Qed.

Lemma markerFree_highlightsOf n : markerFree n = true -> highlightsOf n = [].
Proof.
  induction n as [s|el kids IH] using node_ind'; [done|].
  cbn [markerFree highlightsOf]. intros Hf.
  induction IH as [|k rest Hk _ IHrest]; [done|].
  cbn [forallb] in Hf.
  apply andb_true_iff in Hf as [[Hm Hfk]%andb_true_iff Hrest].
  apply negb_true_iff in Hm. cbn [flat_map].
  by rewrite (highlightHere_not_marker k Hm), (Hk Hfk), (IHrest Hrest).
Qed.

Lemma markerFree_highlightsIn kids :
  forallb (fun k => negb (isMarker k) && markerFree k) kids = true ->
  highlightsIn kids = [].
Proof.
  apply (markerFree_highlightsOf
           (Element (mkElement [] [] [] [] false None None false) kids)).
Qed.

Section WithCaseTables.

Variable toLowerCase : jsstring -> jsstring.
Variable upperNonAscii : N -> jsstring.

Lemma weight_mark vm matched : weight (mark toLowerCase vm matched) = 1.
Proof. by destruct matched. Qed.

Lemma weight_fragment vm text lastIndex ms :
  list_sum (map weight (fragment toLowerCase vm text lastIndex ms)) = length ms.
Proof.
  revert lastIndex. induction ms as [|[i e] ms IH]; intros lastIndex;
    cbn [fragment].
  - by case_decide.
  - rewrite map_app, list_sum_app. cbn [map list_sum fold_right length].
    rewrite weight_mark, IH. by case_decide.
Qed.

Lemma weight_replacement r vm text ms :
  matchesIn upperNonAscii r text = Some ms ->
  list_sum (map weight (replacement toLowerCase upperNonAscii r vm text))
    = length ms.
Proof.
  unfold replacement. intros ->. destruct ms as [|m ms]; [done|].
  apply weight_fragment.
Qed.

(** The markers a pass makes below a node without markers are as many as
    the matches it counts there. *)
Lemma weight_highlightNode r vm parent inRoot n c :
  negb (isMarker n) && markerFree n = true ->
  matchCountOf upperNonAscii r (textNodes parent inRoot n) = Some c ->
  list_sum (map weight
    (highlightNode toLowerCase upperNonAscii r vm parent inRoot n)) = c.
Proof.
  revert parent inRoot c. induction n as [s|el kids IH] using node_ind';
    intros parent inRoot c; cbn [textNodes highlightNode].
  - intros _. destruct (acceptNode parent inRoot).
    + cbn [matchCountOf].
      destruct (matchesIn upperNonAscii r s) as [ms|] eqn:Hms; [|done].
      intros [= <-]. rewrite (weight_replacement _ _ _ _ Hms). lia.
    + by intros [= <-].
  - intros [Hm Hfree]%andb_true_iff. apply negb_true_iff in Hm.
    cbn [map list_sum fold_right]. unfold weight at 1.
    change (isMarker (Element el ?k)) with (isMarkerElement el).
    simpl in Hm. rewrite Hm, countMarkers_Element. simpl in Hfree.
    generalize (closestRoot inRoot el). intros inRoot'. revert c.
    induction IH as [|k rest Hk _ IHrest]; intros c.
    + intros [= <-]. done.
    + cbn [flat_map]. rewrite matchCountOf_app.
      destruct (matchCountOf upperNonAscii r (textNodes el inRoot' k))
        as [a|] eqn:Ha; [|done].
      destruct (matchCountOf upperNonAscii r
                  (flat_map (textNodes el inRoot') rest)) as [b|] eqn:Hb;
        [|done].
      intros [= <-]. simpl in Hfree.
      apply andb_true_iff in Hfree as [Hkf Hrest].
      rewrite map_app, list_sum_app.
      rewrite (Hk _ _ _ Hkf Ha).
      specialize (IHrest Hrest b eq_refl). lia.
Qed.

Lemma weight_highlight r vm parent inRoot kids c :
  forallb (fun k => negb (isMarker k) && markerFree k) kids = true ->
  matchCountOf upperNonAscii r (flat_map (textNodes parent inRoot) kids) = Some c ->
  list_sum (map weight
    (flat_map (highlightNode toLowerCase upperNonAscii r vm parent inRoot) kids))
  = c.
Proof.
  revert c. induction kids as [|k rest IH]; intros c; cbn [flat_map forallb].
  - by intros _ [= <-].
  - intros [Hk Hrest]%andb_true_iff. rewrite matchCountOf_app.
    destruct (matchCountOf upperNonAscii r (textNodes parent inRoot k))
      as [a|] eqn:Ha; [|done].
    destruct (matchCountOf upperNonAscii r
                (flat_map (textNodes parent inRoot) rest)) as [b|] eqn:Hb;
      [|done].
    intros [= <-]. rewrite map_app, list_sum_app.
    by rewrite (weight_highlightNode _ _ _ _ _ _ Hk Ha), (IH b Hrest eq_refl).
Qed.


(** *** What a highlighting pass leaves alone *)

Lemma highlightNode_inRoot r vm parent n :
  highlightNode toLowerCase upperNonAscii r vm parent true n = [n].
Proof.
  revert parent. induction n as [s|el kids IH] using node_ind'; intros parent;
    cbn [highlightNode].
  - unfold acceptNode. by rewrite andb_false_r.
  - do 2 f_equal. cbn [closestRoot orb].
    induction IH as [|k rest Hk _ IHrest]; [done|].
    cbn [flat_map]. by rewrite Hk, IHrest.
Qed.

(** The filter of the walker looks at the parent of a text only: an element
    whose tag is in [SKIP_ELEMENTS], that is a highlight already, or that is
    editable. *)
Definition rejectsItsTexts (el : element) : bool :=
  bool_decide (tagName el ∈ SKIP_ELEMENTS) ||
  hasClass (js "vh-highlight") el || isContentEditable el.

(** The highlighting pass leaves the subtree of the extension's own root
    element exactly as it is, whatever it holds; and it leaves an element
    that is a skipped tag, a highlight or editable as it is when the
    element's children are all texts. *)
Theorem highlighting_leaves_alone r vm parent inRoot el kids :
  closestRoot inRoot el = true \/
  (rejectsItsTexts el = true /\ forallb isText kids = true) ->
  highlightNode toLowerCase upperNonAscii r vm parent inRoot (Element el kids)
    = [Element el kids].
Proof.
  intros Hcase. cbn [highlightNode]. do 2 f_equal.
  destruct Hcase as [->|[Hrej Htexts]].
  - induction kids as [|k rest IH]; [done|].
    cbn [flat_map]. by rewrite highlightNode_inRoot, IH.
  - assert (acceptNode el (closestRoot inRoot el) = false) as Hacc.
    { unfold acceptNode, rejectsItsTexts in *.
      destruct (bool_decide (tagName el ∈ SKIP_ELEMENTS)); [done|].
      destruct (closestRoot inRoot el); [done|].
      destruct (hasClass (js "vh-highlight") el); [done|].
      simpl in Hrej. by rewrite Hrej. }
    induction kids as [|[s|el' kids'] rest IH]; [done| |done].
    cbn [forallb isText] in Htexts. cbn [flat_map highlightNode].
    by rewrite Hacc, (IH Htexts).
Qed.

(** *** The badge shows the number of highlights *)

(** On a page whose badge, if [activeBadge] refers to one, is a child of
    the body as [showBadge] made it, and for a vocabulary of words that
    passed the selection check, a scan returns, the match count it returns
    (the number the badge shows) is the number of [mark.vh-highlight]
    elements in the document it leaves, and the page is again in such a
    state; when the count is positive, [activeBadge] refers to a new badge
    with that number, which is the last child of the body. *)
Theorem badge_counts_highlights vocabList p :
  badgeState p -> selectable vocabList ->
  exists p' n,
    scanPageForVocab toLowerCase upperNonAscii vocabList p = Returns p' n /\
    countMarkers (documentBody p') = n /\
    badgeState p' /\
    (0 < n ->
     activeBadge p' = Some (badgeElement false (bodyElement p')) /\
     exists xs,
       bodyNodes p' = xs ++ [badge (bodyElement p') n] /\
       forallb activeFree xs = true).
Proof.
  intros Hstate0 Hsel.
  pose proof (badgeState_removeAll p Hstate0) as Hstate.
  pose proof (markerFree_removeAll p) as Hfree.
  unfold scanPageForVocab. set (q := removeAll p) in *.
  destruct vocabList as [|e0 vocabList].
  { exists q, 0. split_and!; [done|by apply markerFree_count|done|lia]. }
  set (vocab := e0 :: vocabList) in *.
  assert (map word vocab <> []) as Hne by done.
  destruct (selectable_words vocab Hsel) as [Hwords Hnonempty].
  rewrite compile_literal.
  set (r := literalPattern (map word vocab)).
  set (vm := vocabMap toLowerCase vocab).
  destruct Hstate as (xs & tail & ys & Hparts).
  pose proof (pageContent_badgeParts _ _ _ _ Hparts) as Hcontent.
  pose proof Hparts as (Hbody & Hxs & Hys & Htail).
  set (be := bodyElement q) in *. set (inRoot := closestRoot false be).
  assert (matchCountOf upperNonAscii r (flat_map (textNodes be inRoot) tail)
            = Some 0) as Htail_c.
  { destruct Htail as [->|(fading & count & ->)]; [done|].
    cbn [flat_map]. rewrite app_nil_r. by apply matchCountOf_badge. }
  destruct (matchCountOf_total upperNonAscii (map word vocab)
              (flat_map (textNodes be inRoot) (xs ++ ys)) Hne Hnonempty)
    as [c Hc].
  fold r in Hc.
  assert (matchCountOf upperNonAscii r (pageTextNodes q) = Some c) as Hcq.
  { unfold pageTextNodes. fold be. fold inRoot.
    rewrite Hbody, !flat_map_app. apply matchCountOf_around; [done|].
    by rewrite <- flat_map_app. }
  rewrite Hcq.
  destruct (decide (0 < c)) as [Hpos|Hzero].
  - eexists _, c. split; [reflexivity|].
    assert (forallb (fun k => negb (isMarker k) && markerFree k) (xs ++ ys)
            = true) as Hclear.
    { rewrite <- Hcontent. by apply markerFree_withoutActiveBadge. }
    pose proof (weight_highlight r vm be inRoot (xs ++ ys) c Hclear Hc) as Hw.
    pose proof (activeFree_withoutActiveBadge
                  (bodyNodes (highlightPage toLowerCase upperNonAscii r vm q)))
      as Hactive.
    fold (pageContent (highlightPage toLowerCase upperNonAscii r vm q)) in Hactive.
    unfold showBadge.
    rewrite pageContent_highlightPage, Hcontent in Hactive |- *.
    fold be inRoot in Hactive |- *. cbn [bodyElement].
    set (zs := flat_map (highlightNode toLowerCase upperNonAscii r vm be inRoot)
                 (xs ++ ys)) in *.
    split_and!.
    + unfold documentBody. cbn [bodyNodes bodyElement].
      rewrite countMarkers_Element, map_app, list_sum_app, Hw. simpl. lia.
    + exists zs, [badge be c], []. split_and!; [done..|].
      right. by exists false, c.
    + intros _. split; [|by exists zs].
      unfold activeBadge. cbn [bodyNodes]. rewrite flat_map_app.
      by rewrite activeBadgeIn_free.
  - assert (c = 0) as -> by lia.
    rewrite (highlightPage_zero toLowerCase upperNonAscii r vm q Hcq).
    exists q, 0. split_and!; [done|by apply markerFree_count| |lia].
    by exists xs, tail, ys.
Qed.

(** *** Where a scan puts highlights *)

Lemma markerFree_highlightParents parent inRoot n :
  negb (isMarker n) && markerFree n = true ->
  highlightParents parent inRoot n = [].
Proof.
  revert parent inRoot. induction n as [s|el kids IH] using node_ind';
    intros parent inRoot; [done|].
  intros [Hm Hfree]%andb_true_iff. apply negb_true_iff in Hm.
  cbn [isMarker] in Hm. cbn [highlightParents]. rewrite Hm. cbn [app].
  cbn [markerFree] in Hfree. generalize (closestRoot inRoot el). intros inRoot'.
  induction IH as [|k rest Hk _ IHrest]; [done|].
  cbn [forallb] in Hfree. apply andb_true_iff in Hfree as [Hkf Hrest].
  cbn [flat_map]. by rewrite (Hk _ _ Hkf), (IHrest Hrest).
Qed.

Lemma highlightParents_fragment vm text lastIndex ms parent inRoot :
  acceptNode parent inRoot = true ->
  Forall (fun pr => acceptNode pr.1 pr.2 = true)
    (flat_map (highlightParents parent inRoot)
       (fragment toLowerCase vm text lastIndex ms)).
Proof.
  intros Hacc. revert lastIndex.
  induction ms as [|[i e] ms IH]; intros lastIndex; cbn [fragment].
  - by case_decide.
  - rewrite flat_map_app. apply Forall_app. split; [by case_decide|].
    cbn [flat_map]. apply Forall_app. split; [|apply IH].
    unfold mark. cbn [highlightParents].
    change (isMarkerElement _) with true.
    apply Forall_app. split; [by constructor|].
    by destruct (substring i e text).
Qed.

(** The highlights a pass makes below a node without highlights are children
    of parents the walker accepts. *)
Lemma highlightParents_highlightNode r vm parent inRoot n :
  negb (isMarker n) && markerFree n = true ->
  Forall (fun pr => acceptNode pr.1 pr.2 = true)
    (flat_map (highlightParents parent inRoot)
       (highlightNode toLowerCase upperNonAscii r vm parent inRoot n)).
Proof.
  revert parent inRoot. induction n as [s|el kids IH] using node_ind';
    intros parent inRoot; cbn [highlightNode].
  - intros _. destruct (acceptNode parent inRoot) eqn:Hacc; [|done].
    unfold replacement.
    destruct (matchesIn upperNonAscii r s) as [[|m ms]|]; [done| |done].
    by apply highlightParents_fragment.
  - intros [Hm Hfree]%andb_true_iff. apply negb_true_iff in Hm.
    cbn [isMarker] in Hm. cbn [flat_map highlightParents].
    rewrite Hm, app_nil_r. cbn [app]. cbn [markerFree] in Hfree.
    generalize (closestRoot inRoot el). intros inRoot'.
    induction IH as [|k rest Hk _ IHrest]; [done|].
    cbn [forallb] in Hfree. apply andb_true_iff in Hfree as [Hkf Hrest].
    cbn [flat_map]. rewrite flat_map_app. apply Forall_app. split.
    + by apply Hk.
    + by apply IHrest.
Qed.

Lemma highlightParents_highlight r vm parent inRoot kids :
  forallb (fun k => negb (isMarker k) && markerFree k) kids = true ->
  Forall (fun pr => acceptNode pr.1 pr.2 = true)
    (flat_map (highlightParents parent inRoot)
       (flat_map (highlightNode toLowerCase upperNonAscii r vm parent inRoot)
          kids)).
Proof.
  induction kids as [|k rest IH]; [done|].
  cbn [forallb flat_map]. intros [Hk Hrest]%andb_true_iff.
  rewrite flat_map_app. apply Forall_app. split.
  - by apply highlightParents_highlightNode.
  - by apply IH.
Qed.

Lemma flatHere_highlightNode_free r vm parent inRoot n :
  negb (isMarker n) && markerFree n = true ->
  forallb flatHere
    (highlightNode toLowerCase upperNonAscii r vm parent inRoot n) = true.
Proof.
  revert parent inRoot. induction n as [s|el kids IH] using node_ind';
    intros parent inRoot; cbn [highlightNode].
  - intros _. destruct (acceptNode parent inRoot); [|done]. unfold replacement.
    destruct (matchesIn upperNonAscii r s) as [[|m ms]|]; [done| |done].
    apply flatHere_fragment.
  - intros [Hm Hfree]%andb_true_iff. apply negb_true_iff in Hm.
    cbn [isMarker] in Hm.
    cbn [forallb]. rewrite andb_true_r. unfold flatHere. cbn [isMarker].
    rewrite Hm. cbn [andb]. rewrite markersFlat_Element.
    cbn [markerFree] in Hfree.
    generalize (closestRoot inRoot el). intros inRoot'.
    induction IH as [|k rest Hk _ IHrest]; [done|].
    cbn [forallb] in Hfree. apply andb_true_iff in Hfree as [Hkf Hrest].
    cbn [flat_map]. by rewrite forallb_app, (Hk _ _ Hkf), (IHrest Hrest).
Qed.

Lemma flatHere_highlight_free r vm parent inRoot kids :
  forallb (fun k => negb (isMarker k) && markerFree k) kids = true ->
  forallb flatHere
    (flat_map (highlightNode toLowerCase upperNonAscii r vm parent inRoot) kids)
  = true.
Proof.
  induction kids as [|k rest IH]; [done|].
  cbn [forallb flat_map]. intros [Hk Hrest]%andb_true_iff.
  by rewrite forallb_app, flatHere_highlightNode_free, IH.
Qed.

(** After any scan that returns, on any page and with any vocabulary, every
    highlight in the document is the child of an element the walker accepts:
    not one of the skipped tags, not inside the extension's own root, not a
    highlight itself and not editable; and every highlight holds at most one
    text and no element. *)
Theorem highlights_only_where_accepted vocabList p p' n :
  scanPageForVocab toLowerCase upperNonAscii vocabList p = Returns p' n ->
  Forall (fun pr => acceptNode pr.1 pr.2 = true) (pageHighlightParents p') /\
  markersFlat (documentBody p') = true.
Proof.
  intros Hscan.
  pose proof (markerFree_removeAll p) as Hfree.
  apply scanPageForVocab_Returns in Hscan
    as [(_ & -> & _)|(r & Hne & Hr & _ & ->)].
  - split; [|by apply markerFree_flat].
    unfold documentBody in Hfree. cbn [markerFree] in Hfree.
    unfold pageHighlightParents.
    generalize (bodyElement (removeAll p)),
      (closestRoot false (bodyElement (removeAll p))). intros be inRoot.
    induction (bodyNodes (removeAll p)) as [|k rest IH]; [done|].
    cbn [forallb] in Hfree. apply andb_true_iff in Hfree as [Hk Hrest].
    cbn [flat_map]. rewrite (markerFree_highlightParents _ _ _ Hk).
    by apply IH.
  - unfold documentBody in Hfree. cbn [markerFree] in Hfree.
    set (q := removeAll p) in *. set (vm := vocabMap toLowerCase vocabList).
    pose proof (highlightParents_highlight r vm (bodyElement q)
                  (closestRoot false (bodyElement q)) (bodyNodes q) Hfree)
      as Hparents.
    pose proof (flatHere_highlight_free r vm (bodyElement q)
                  (closestRoot false (bodyElement q)) (bodyNodes q) Hfree)
      as Hflat.
    case_decide; [|done].
    pose proof (markerFree_withoutActiveBadge (bodyNodes q) Hfree) as Hclear.
    fold (pageContent q) in Hclear.
    unfold showBadge, pageHighlightParents, documentBody.
    rewrite pageContent_highlightPage. cbn [bodyElement bodyNodes highlightPage].
    rewrite markersFlat_Element, flat_map_app, forallb_app.
    cbn [flat_map forallb]. unfold badge. rewrite flatHere_badge.
    change (highlightParents _ _ (badgeWith _ _ _)) with (@nil (element * bool)).
    rewrite !app_nil_r, andb_true_r.
    split; [by apply highlightParents_highlight|by apply flatHere_highlight_free].
Qed.

(** The highlights of the document a scan leaves are those its pass made
    below the body it had cleared, the badge apart. *)
Lemma highlightsOf_scan (P : element * jsstring -> Prop) vocabList p p' n :
  scanPageForVocab toLowerCase upperNonAscii vocabList p = Returns p' n ->
  (vocabList <> [] ->
   Forall P
     (highlightsIn
        (flat_map (highlightNode toLowerCase upperNonAscii
                     (literalPattern (map word vocabList))
                     (vocabMap toLowerCase vocabList)
                     (bodyElement (removeAll p))
                     (closestRoot false (bodyElement (removeAll p))))
           (pageContent (removeAll p))))) ->
  Forall P (highlightsOf (documentBody p')).
Proof.
  intros Hscan Hall.
  pose proof (markerFree_removeAll p) as Hfree.
  unfold documentBody in Hfree. cbn [markerFree] in Hfree.
  apply scanPageForVocab_cases in Hscan
    as [(_ & ->)|(_ & r & Hne & Hr & ->)].
  - unfold documentBody. cbn [highlightsOf].
    fold (highlightsIn (bodyNodes (removeAll p))).
    by rewrite markerFree_highlightsIn.
  - rewrite compile_literal in Hr. injection Hr as <-.
    specialize (Hall Hne).
    unfold showBadge, documentBody. rewrite pageContent_highlightPage.
    cbn [bodyElement bodyNodes highlightsOf].
    match goal with |- Forall _ (flat_map _ ?l) => fold (highlightsIn l) end.
    rewrite highlightsIn_app. apply Forall_app. by split.
Qed.

End WithCaseTables.

(** *** Every highlight carries the entry of its word *)

Ltac case_N_tests :=
  repeat match goal with
  | H : context [(?a <=? ?b)%N] |- _ => destruct (N.leb_spec a b)
  | H : context [(?a <? ?b)%N] |- _ => destruct (N.ltb_spec a b)
  | H : context [(?a =? ?b)%N] |- _ => destruct (N.eqb_spec a b)
  | |- context [(?a <=? ?b)%N] => destruct (N.leb_spec a b)
  | |- context [(?a <? ?b)%N] => destruct (N.ltb_spec a b)
  | |- context [(?a =? ?b)%N] => destruct (N.eqb_spec a b)
  end.

Section WithAsciiCase.

Variable toLowerCase : jsstring -> jsstring.
Variable upperNonAscii : N -> jsstring.

(** On strings of ASCII units [toLowerCase] maps [A-Z] to [a-z] and leaves
    every other unit alone. *)
Hypothesis toLowerCase_ascii :
  forall s, Forall (fun c => (c < 128)%N) s -> toLowerCase s = asciiToLowerCase s.

(** What the scan had of the vocabulary when it made a highlight. *)
Definition carriesEntry (vocabList : list VocabEntry)
    (h : element * jsstring) : Prop :=
  exists e,
    e ∈ vocabList /\
    toLowerCase h.2 = toLowerCase (word e) /\
    vhTranslation h.1 = Some (translation e) /\
    vhWord h.1 = Some (word e) /\
    tooltipOf h.1 h.2 = match translation e with
                        | [] => None
                        | _ :: _ => Some (word e, translation e)
                        end.

Lemma regexChar_canonical d c :
  isWordRegexChar c = true ->
  canonicalize upperNonAscii d = canonicalize upperNonAscii c ->
  (d < 128)%N /\ (c < 128)%N /\ asciiToLowerCase [d] = asciiToLowerCase [c].
Proof.
  intros Hc Heq.
  assert (c < 128)%N as Hc128.
  { unfold isWordRegexChar in Hc. case_N_tests; simpl in *; try done; lia. }
  rewrite (canonicalize_ascii upperNonAscii c Hc128) in Heq.
  destruct (N.leb_spec 128 d) as [Hbig|Hsmall].
  - pose proof (canonicalize_nonAscii upperNonAscii d Hbig) as Hd.
    rewrite Heq in Hd. unfold asciiToUpperCase in Hd.
    case_N_tests; simpl in *; lia.
  - rewrite (canonicalize_ascii upperNonAscii d Hsmall) in Heq.
    split_and!; [done..|].
    unfold asciiToLowerCase, isWordRegexChar, asciiToUpperCase in *. simpl.
    f_equal. case_N_tests; simpl in *; try done; lia.
Qed.

Lemma matched_lower m w :
  forallb isWordRegexChar w = true ->
  Forall2 (fun d c => canonicalize upperNonAscii d = canonicalize upperNonAscii c)
    m w ->
  toLowerCase m = toLowerCase w.
Proof.
  intros Hw Hmw.
  assert (Forall (fun c => (c < 128)%N) m /\ Forall (fun c => (c < 128)%N) w /\
          asciiToLowerCase m = asciiToLowerCase w) as (Hm128 & Hw128 & Heq).
  { induction Hmw as [|d c m w Hdc _ IH]; [done|].
    cbn [forallb] in Hw. apply andb_true_iff in Hw as [Hc Hw].
    destruct (IH Hw) as (? & ? & Hrest).
    destruct (regexChar_canonical d c Hc Hdc) as (? & ? & Hhead).
    split_and!; [by constructor..|].
    unfold asciiToLowerCase in *. cbn [map] in *. congruence. }
  by rewrite (toLowerCase_ascii m Hm128), (toLowerCase_ascii w Hw128).
Qed.

Lemma vocabMap_lookup_from (m0 : gmap jsstring VocabEntry) vocabList k :
  (exists e, e ∈ vocabList /\ toLowerCase (word e) = k) ->
  exists e,
    foldl (fun m e => <[toLowerCase (word e) := e]> m) m0 vocabList !! k = Some e /\
    e ∈ vocabList /\ toLowerCase (word e) = k.
Proof.
  revert m0. induction vocabList as [|x l IH] using rev_ind; intros m0.
  - intros (e & He & _). by apply elem_of_nil in He.
  - intros (e & He & Hk). rewrite foldl_app. cbn [foldl].
    destruct (decide (toLowerCase (word x) = k)) as [Hx|Hx].
    + exists x. rewrite <- Hx, lookup_insert_eq.
      split_and!; [done| |done]. apply elem_of_app. right. left.
    + rewrite lookup_insert_ne by done.
      destruct (IH m0) as (e' & Hl & He' & Hk').
      * exists e. split; [|done].
        apply elem_of_app in He as [He|He%list_elem_of_singleton]; [done|].
        congruence.
      * exists e'. split_and!; [done| |done]. apply elem_of_app. by left.
Qed.

Lemma highlightHere_mark vm matched :
  highlightHere (mark toLowerCase vm matched) =
  [({| tagName := js "MARK"; localName := js "mark"; id := [];
       classList := [js "vh-highlight"]; isContentEditable := false;
       vhTranslation := translation <$> vm !! toLowerCase matched;
       vhWord := word <$> vm !! toLowerCase matched;
       isActiveBadge := false |}, matched)].
Proof.
  unfold highlightHere. rewrite textContent_mark. unfold mark.
  change (isMarkerElement _) with true. done.
Qed.

Lemma mark_carriesEntry vocabList text m :
  selectable vocabList ->
  wholeWordAt upperNonAscii (map word vocabList) text m ->
  Forall (carriesEntry vocabList)
    (highlightHere
       (mark toLowerCase (vocabMap toLowerCase vocabList) (substring m.1 m.2 text))).
Proof.
  intros Hsel (_ & _ & _ & w & Hin & Hend & Hw).
  apply list_elem_of_In, in_map_iff in Hin as (e0 & <- & He0%list_elem_of_In).
  unfold selectable in Hsel. rewrite Forall_forall in Hsel.
  pose proof (Hsel e0 He0) as Hre.
  unfold WORD_REGEX_test in Hre. apply andb_true_iff in Hre as [_ Hre].
  unfold substring. replace (m.2 - m.1) with (length (word e0)) by lia.
  set (matched := take (length (word e0)) (drop m.1 text)) in *.
  pose proof (matched_lower matched (word e0) Hre Hw) as Hlow.
  destruct (vocabMap_lookup_from ∅ vocabList (toLowerCase matched))
    as (e & Hvm & He & Hk); [by exists e0|].
  fold (vocabMap toLowerCase vocabList) in Hvm.
  rewrite highlightHere_mark, Hvm. constructor; [|done].
  exists e. cbn [fst snd vhTranslation vhWord fmap option_fmap option_map].
  split_and!; [done|by rewrite Hk|done|done|].
  pose proof (Hsel e He) as Hne. unfold WORD_REGEX_test in Hne.
  apply andb_true_iff in Hne as [Hne _].
  unfold tooltipOf. cbn [vhTranslation vhWord].
  change (hasClass (js "vh-highlight") _) with true.
  destruct (word e) as [|d wd]; [done|]. by destruct (translation e).
Qed.

Lemma highlightsOf_mark vm matched :
  highlightsOf (mark toLowerCase vm matched) = [].
Proof. by destruct matched. Qed.

Lemma fragment_carriesEntry vocabList text lastIndex ms :
  selectable vocabList ->
  Forall (wholeWordAt upperNonAscii (map word vocabList) text) ms ->
  Forall (carriesEntry vocabList)
    (highlightsIn (fragment toLowerCase (vocabMap toLowerCase vocabList) text
                     lastIndex ms)).
Proof.
  intros Hsel Hms. revert lastIndex.
  induction Hms as [|[i e] ms Hm _ IH]; intros lastIndex; cbn [fragment].
  - by case_decide.
  - rewrite highlightsIn_app. apply Forall_app. split; [by case_decide|].
    unfold highlightsIn. cbn [flat_map].
    fold (highlightsIn (fragment toLowerCase (vocabMap toLowerCase vocabList)
                          text e ms)).
    rewrite highlightsOf_mark, app_nil_r.
    apply Forall_app. split; [|apply IH].
    by apply (mark_carriesEntry vocabList text (i, e)).
Qed.

Lemma matchesIn_wholeWords words text ms :
  words <> [] ->
  matchesIn upperNonAscii (literalPattern words) text = Some ms ->
  Forall (wholeWordAt upperNonAscii words text) ms.
Proof.
  intros Hne. unfold matchesIn. destruct text as [|c text].
  - by intros [= <-].
  - apply (execLoop_Forall upperNonAscii). intros s e.
    by apply matcher_wholeWord.
Qed.

Lemma highlightNode_carriesEntry vocabList parent inRoot n :
  selectable vocabList -> vocabList <> [] ->
  negb (isMarker n) && markerFree n = true ->
  Forall (carriesEntry vocabList)
    (highlightsIn (highlightNode toLowerCase upperNonAscii
                  (literalPattern (map word vocabList))
                  (vocabMap toLowerCase vocabList) parent inRoot n)).
Proof.
  intros Hsel Hne. revert parent inRoot.
  induction n as [s|el kids IH] using node_ind'; intros parent inRoot;
    cbn [highlightNode].
  - intros _. destruct (acceptNode parent inRoot); [|done].
    unfold replacement.
    destruct (matchesIn upperNonAscii _ s) as [[|m ms]|] eqn:Hms; [done| |done].
    apply fragment_carriesEntry; [done|].
    apply matchesIn_wholeWords in Hms; [done|]. by destruct vocabList.
  - intros [Hm Hfree]%andb_true_iff. apply negb_true_iff in Hm.
    unfold highlightsIn. cbn [flat_map]. rewrite app_nil_r.
    rewrite highlightHere_not_marker by done. cbn [app highlightsOf].
    cbn [markerFree] in Hfree.
    generalize (closestRoot inRoot el). intros inRoot'.
    induction IH as [|k rest Hk _ IHrest]; [done|].
    cbn [forallb] in Hfree. apply andb_true_iff in Hfree as [Hkf Hrest].
    cbn [flat_map]. rewrite flat_map_app. apply Forall_app. split.
    + by apply Hk.
    + by apply IHrest.
Qed.

Lemma highlight_carriesEntry vocabList parent inRoot kids :
  selectable vocabList -> vocabList <> [] ->
  forallb (fun k => negb (isMarker k) && markerFree k) kids = true ->
  Forall (carriesEntry vocabList)
    (highlightsIn (flat_map (highlightNode toLowerCase upperNonAscii
                            (literalPattern (map word vocabList))
                            (vocabMap toLowerCase vocabList) parent inRoot) kids)).
Proof.
  intros Hsel Hne. induction kids as [|k rest IH]; [done|].
  cbn [forallb flat_map]. intros [Hk Hrest]%andb_true_iff.
  rewrite highlightsIn_app. apply Forall_app. split.
  - by apply highlightNode_carriesEntry.
  - by apply IH.
Qed.

(** After a scan with a vocabulary of words that passed the selection
    check, every [mark.vh-highlight] in the document was made for an entry of
    the vocabulary: its text is the entry's word up to case, its data
    attributes are the entry's translation and the entry's word as stored,
    and the tooltip shown over it is the stored word with its translation
    (nothing when the stored translation is empty). *)
Theorem every_highlight_has_its_entry vocabList p p' n :
  selectable vocabList ->
  scanPageForVocab toLowerCase upperNonAscii vocabList p = Returns p' n ->
  Forall (carriesEntry vocabList) (highlightsOf (documentBody p')).
Proof.
  intros Hsel Hscan.
  apply (highlightsOf_scan toLowerCase upperNonAscii _ _ _ _ _ Hscan).
  intros Hne. apply highlight_carriesEntry; [done|done|].
  apply markerFree_withoutActiveBadge, (markerFree_removeAll p).
Qed.

End WithAsciiCase.

Lemma every_highlight_has_its_entry_witness :
  Forall (carriesEntry asciiToLowerCase [catEntry])
    (highlightsOf (documentBody categoryPageScanned)).
Proof.
  apply (every_highlight_has_its_entry asciiToLowerCase noUpper
           (fun s _ => eq_refl) [catEntry] categoryPage categoryPageScanned 1).
  - repeat constructor.
  - vm_compute. reflexivity.
Defined.

Lemma highlighting_leaves_alone_witness :
  highlightNode asciiToLowerCase noUpper (literalPattern [js "cat"])
    (vocabMap asciiToLowerCase [catEntry]) (plainElement "BODY") false
    (Element (plainElement "SCRIPT") [Text (js "cat")])
  = [Element (plainElement "SCRIPT") [Text (js "cat")]].
Proof.
  apply (highlighting_leaves_alone asciiToLowerCase noUpper).
  right. split; reflexivity.
Defined.

Lemma badge_counts_highlights_witness :
  exists p' n,
    scan [catEntry] widgetPage = Returns p' n /\
    countMarkers (documentBody p') = n /\
    badgeState p' /\
    (0 < n ->
     activeBadge p' = Some (badgeElement false (bodyElement p')) /\
     exists xs,
       bodyNodes p' = xs ++ [badge (bodyElement p') n] /\
       forallb activeFree xs = true).
Proof.
  apply (badge_counts_highlights asciiToLowerCase noUpper [catEntry] widgetPage).
  - exists (pageContent categoryPageScanned), [badge (plainElement "BODY") 1],
      [Element (plainElement "DIV") [Text (js "chat about the cat")]].
    split_and!; [reflexivity..|]. right. by exists false, 1.
  - repeat constructor.
Defined.

Lemma highlights_only_where_accepted_witness :
  Forall (fun pr => acceptNode pr.1 pr.2 = true)
    (pageHighlightParents categoryPageScanned) /\
  markersFlat (documentBody categoryPageScanned) = true.
Proof.
  apply (highlights_only_where_accepted asciiToLowerCase noUpper [catEntry]
           categoryPage categoryPageScanned 1).
  vm_compute. reflexivity.
Defined.

End Highlights.

(** ** Text put into markup: [escapeHtml] *)

Module Markup.

(** What the serialization of a text node puts for one unit of its data:
    [&], [<], [>] and the no-break space become character references. *)
Definition escapeUnit (c : N) : jsstring :=
  if (c =? 38)%N then js "&amp;"
  else if (c =? 60)%N then js "&lt;"
  else if (c =? 62)%N then js "&gt;"
  else if (c =? 160)%N then js "&nbsp;"
  else [c].

(** [escapeHtml(str)]: the [innerHTML] of a [div] whose [textContent] was
    set to [str], which is the serialization of its one text node (of no
    node when [str] is empty). *)
Definition escapeHtml (str : jsstring) : jsstring := flat_map escapeUnit str.

(** The markup the [mouseenter] listener assigns to [tooltip.innerHTML]. *)
Definition tooltipHtml (word translation : jsstring) : jsstring :=
  js "<strong>" ++ escapeHtml word ++ js "</strong>: " ++ escapeHtml translation.

Definition isAngleBracket (c : N) : bool := ((c =? 60) || (c =? 62))%N.

(** The units [escapeHtml] leaves as they are. *)
Definition isPlainUnit (c : N) : bool :=
  negb ((c =? 38) || (c =? 60) || (c =? 62) || (c =? 160))%N.

Ltac case_units :=
  repeat match goal with
  | H : context [(?a =? ?b)%N] |- _ => destruct (N.eqb_spec a b)
  | |- context [(?a =? ?b)%N] => destruct (N.eqb_spec a b)
  end.

Lemma escapeHtml_cons c s : escapeHtml (c :: s) = escapeUnit c ++ escapeHtml s.
Proof. reflexivity. Qed.

Lemma escapeHtml_app s t : escapeHtml (s ++ t) = escapeHtml s ++ escapeHtml t.
Proof. apply flat_map_app. Qed.

Lemma filter_escapeHtml s :
  List.filter isAngleBracket (escapeHtml s) = [].
Proof.
  induction s as [|c s IH]; [done|].
  rewrite escapeHtml_cons, List.filter_app, IH, app_nil_r.
  unfold escapeUnit. case_units; subst; try reflexivity.
  cbn [List.filter]. unfold isAngleBracket. by case_units.
Qed.

Lemma length_escapeHtml s : length s <= length (escapeHtml s).
Proof.
  induction s as [|c s IH]; [done|].
  rewrite escapeHtml_cons, length_app. unfold escapeUnit.
  case_units; simpl; lia.
Qed.

Lemma escapeHtml_plain s : forallb isPlainUnit s = true -> escapeHtml s = s.
Proof.
  induction s as [|c s IH]; [done|]. cbn [forallb].
  intros [Hc Hs]%andb_true_iff. rewrite escapeHtml_cons, (IH Hs).
  unfold isPlainUnit in Hc. unfold escapeUnit. by case_units.
Qed.

Lemma escapeHtml_fixed s : escapeHtml s = s -> forallb isPlainUnit s = true.
Proof.
  induction s as [|c s IH]; [done|]. rewrite escapeHtml_cons. cbn [forallb].
  pose proof (length_escapeHtml s) as Hlen.
  unfold escapeUnit, isPlainUnit. case_units; subst; cbn [negb orb andb app];
    intros Heq; try (apply (f_equal length) in Heq; simpl in Heq; lia).
  injection Heq as Heq. by apply IH.
Qed.

Lemma escapeHtml_injective s t : escapeHtml s = escapeHtml t -> s = t.
Proof.
  revert t. induction s as [|c s IH]; intros [|d t].
  - done.
  - rewrite escapeHtml_cons. unfold escapeUnit. by case_units.
  - rewrite escapeHtml_cons. unfold escapeUnit. by case_units.
  - rewrite !escapeHtml_cons. unfold escapeUnit.
    case_units; subst; intros Heq; vm_compute (js _) in Heq; cbn [app] in Heq;
      simplify_eq; try done; f_equal; by apply IH.
Qed.

(** Whatever the word and the translation are (the translation is what the
    translation service answered), the only [<] and [>] in the markup of the
    tooltip are those of its own [strong] element; [escapeHtml] leaves a
    string as it is exactly when it has none of [&], [<], [>] and the
    no-break space; and it never maps two strings to the same text. *)
Theorem escapeHtml_keeps_markup_out (word translation : jsstring) :
  List.filter isAngleBracket (tooltipHtml word translation) = js "<><>" /\
  (escapeHtml word = word <-> forallb isPlainUnit word = true) /\
  (forall other, escapeHtml word = escapeHtml other -> word = other).
Proof.
  split_and!.
  - unfold tooltipHtml. rewrite !List.filter_app, !filter_escapeHtml.
    vm_compute. reflexivity.
  - split; [apply escapeHtml_fixed|apply escapeHtml_plain].
  - intros other. apply escapeHtml_injective.
Qed.

Example tooltipHtml_script :
  tooltipHtml (js "cat") (js "<b>mao</b> & co")
  = js "<strong>cat</strong>: &lt;b&gt;mao&lt;/b&gt; &amp; co".
Proof. reflexivity. Qed.

End Markup.

(** ** Removing the highlights of one word: [removeHighlightForWord] *)

Module WordHighlights.
Import Store Pattern Dom Scanner Highlights.

Section WithCaseTable.

Variable toLowerCase : jsstring -> jsstring.

(** The test of the loop body on a [mark.vh-highlight]:
    [mark.textContent.toLowerCase() === lowerWord]. *)
Definition isMarkerFor (lowerWord : jsstring) (k : node) : bool :=
  isMarker k && bool_decide (toLowerCase (textContent k) = lowerWord).

(** One pass of the loop body that changes the document: the first marker
    in document order that passes the test is replaced by a text and its
    parent is normalized.  A marker that fails the test stays, and the walk
    goes on below it. *)
Fixpoint replaceFirstInFor (lowerWord : jsstring) (below : node -> option node)
    (kids : list node) : option (bool * list node) :=
  match kids with
  | [] => None
  | k :: rest =>
      if isMarkerFor lowerWord k then Some (true, Text (textContent k) :: rest)
      else match below k with
           | Some k' => Some (false, k' :: rest)
           | None =>
               match replaceFirstInFor lowerWord below rest with
               | Some (direct, rest') => Some (direct, k :: rest')
               | None => None
               end
           end
  end.

Fixpoint replaceFirstMarkerFor (lowerWord : jsstring) (n : node) : option node :=
  match n with
  | Text _ => None
  | Element el kids =>
      match replaceFirstInFor lowerWord (replaceFirstMarkerFor lowerWord) kids with
      | Some (true, kids') => Some (Element el (normalize kids'))
      | Some (false, kids') => Some (Element el kids')
      | None => None
      end
  end.

(** At most [count] passes, [count] being the length of the static node
    list the loop runs over. *)
Fixpoint replaceMarkersFor (lowerWord : jsstring) (count : nat) (doc : node)
    : node :=
  match count with
  | 0 => doc
  | S count' =>
      match replaceFirstMarkerFor lowerWord doc with
      | Some doc' => replaceMarkersFor lowerWord count' doc'
      | None => doc
      end
  end.

(** [removeHighlightForWord(word)] on the document below [body]. *)
Definition removeHighlightForWord (word : jsstring) (body : node) : node :=
  replaceMarkersFor (toLowerCase word) (countMarkers body) body.

(** The highlights whose text is not [lowerWord] up to case. *)
Definition otherHighlights (lowerWord : jsstring)
    (hs : list (element * jsstring)) : list (element * jsstring) :=
  filter (fun h => toLowerCase h.2 <> lowerWord) hs.

(** *** Helper lemmas *)

Lemma replaceFirstInFor_inv lw below kids direct kids' :
  replaceFirstInFor lw below kids = Some (direct, kids') ->
  exists pre k post,
    kids = pre ++ k :: post /\
    Forall (fun x => isMarkerFor lw x = false /\ below x = None) pre /\
    ((direct = true /\ isMarkerFor lw k = true /\
      kids' = pre ++ Text (textContent k) :: post) \/
     (direct = false /\ isMarkerFor lw k = false /\
      exists k', below k = Some k' /\ kids' = pre ++ k' :: post)).
Proof.
  revert direct kids'. induction kids as [|k rest IH]; intros direct kids';
    simpl; [done|].
  destruct (isMarkerFor lw k) eqn:Hm.
  - intros [= <- <-]. exists [], k, rest. split_and!; [done|done|]. by left.
  - destruct (below k) as [k'|] eqn:Hb.
    + intros [= <- <-]. exists [], k, rest. split_and!; [done|done|]. right.
      split_and!; [done..|]. by exists k'.
    + destruct (replaceFirstInFor lw below rest) as [[d rest']|] eqn:Hr; [|done].
      intros [= <- <-].
      destruct (IH _ _ eq_refl) as (pre & k0 & post & -> & Hpre & Hcase).
      exists (k :: pre), k0, post. split_and!; [done|by constructor|].
      destruct Hcase as [(-> & ? & ->)|(-> & ? & k' & ? & ->)].
      * by left.
      * right. split_and!; [done..|]. by exists k'.
Qed.

Lemma replaceFirstInFor_None lw below kids :
  replaceFirstInFor lw below kids = None ->
  Forall (fun x => isMarkerFor lw x = false /\ below x = None) kids.
Proof.
  induction kids as [|k rest IH]; simpl; [done|].
  destruct (isMarkerFor lw k) eqn:Hm; [done|].
  destruct (below k) as [k'|] eqn:Hb; [done|].
  destruct (replaceFirstInFor lw below rest) as [[d rest']|] eqn:Hr; [done|].
  intros _. constructor; [done|by apply IH].
Qed.

(** The text is kept by a pass. *)
Lemma textContent_replaceFirstMarkerFor lw n n' :
  replaceFirstMarkerFor lw n = Some n' -> textContent n' = textContent n.
Proof.
  revert n'. induction n as [s|el kids IH] using node_ind'; intros n'; [done|].
  simpl.
  destruct (replaceFirstInFor lw (replaceFirstMarkerFor lw) kids)
    as [[direct kids']|] eqn:Hr; [|done].
  apply replaceFirstInFor_inv in Hr as (pre & k & post & -> & _ & Hcase).
  apply Forall_app in IH as [_ [Hk _]%Forall_cons].
  destruct Hcase as [(-> & _ & ->)|(-> & _ & k' & Hk' & ->)]; intros [= <-];
    simpl.
  - rewrite textContent_normalize, !flat_map_app. done.
  - rewrite !flat_map_app. simpl. by rewrite (Hk _ Hk').
Qed.


(** [normalize] keeps the highlights: it only merges and drops texts. *)
Lemma highlightsIn_mergeHead t rest :
  highlightsIn (mergeHead t rest) = highlightsIn rest.
Proof. destruct rest as [|[s'|el kids] rest]; [by destruct t|done|by destruct t]. Qed.

Lemma highlightsIn_mergeText ns : highlightsIn (mergeText ns) = highlightsIn ns.
Proof.
  induction ns as [|[t|el kids] ns IH]; [done| |].
  - cbn [mergeText]. by rewrite highlightsIn_mergeHead, IH.
  - cbn [mergeText]. unfold highlightsIn in *. cbn [flat_map]. by rewrite IH.
Qed.

Lemma highlightHere_normalizeNode k :
  highlightHere (normalizeNode k) = highlightHere k.
Proof.
  destruct k as [t|el kids]; [done|].
  unfold highlightHere. rewrite textContent_normalizeNode. done.
Qed.

Lemma highlightsOf_normalizeNode n : highlightsOf (normalizeNode n) = highlightsOf n.
Proof.
  induction n as [t|el kids IH] using node_ind'; [done|].
  cbn [normalizeNode highlightsOf].
  fold (highlightsIn (mergeText (map normalizeNode kids))).
  rewrite highlightsIn_mergeText. unfold highlightsIn.
  induction IH as [|k rest Hk _ IHrest]; [done|].
  cbn [map flat_map]. by rewrite highlightHere_normalizeNode, Hk, IHrest.
Qed.

Lemma highlightsIn_normalize kids : highlightsIn (normalize kids) = highlightsIn kids.
Proof.
  apply (highlightsOf_normalizeNode
           (Element (mkElement [] [] [] [] false None None false) kids)).
Qed.

(** [normalize] keeps markers flat. *)
Lemma isText_normalize kids :
  forallb isText kids = true -> forallb isText (normalize kids) = true.
Proof.
  intros Hk. unfold normalize. apply forallb_mergeText; [done|].
  induction kids as [|[t|el ks] rest IH]; [done| |done].
  cbn [forallb map] in *. by apply IH.
Qed.

Lemma markersFlat_normalizeNode n :
  markersFlat n = true -> markersFlat (normalizeNode n) = true.
Proof.
  induction n as [t|el kids IH] using node_ind'; [done|].
  cbn [normalizeNode]. rewrite !markersFlat_Element. intros Hflat.
  apply forallb_mergeText; [done|].
  induction IH as [|k rest Hk _ IHrest]; [done|].
  cbn [forallb map] in *. apply andb_true_iff in Hflat as [Hkf Hrest].
  rewrite (IHrest Hrest), andb_true_r. clear IHrest Hrest.
  unfold flatHere in *. apply andb_true_iff in Hkf as [Hm Hf].
  rewrite (Hk Hf), andb_true_r.
  destruct k as [t|elk ks]; [done|].
  cbn [normalizeNode isMarker children] in *.
  destruct (isMarkerElement elk); [|done]. by apply isText_normalize.
Qed.

Lemma flatHere_normalize kids :
  forallb flatHere kids = true -> forallb flatHere (normalize kids) = true.
Proof.
  intros Hk.
  apply (markersFlat_normalizeNode
           (Element (mkElement [] [] [] [] false None None false) kids)).
  by rewrite markersFlat_Element.
Qed.

Lemma replaceFirstMarkerFor_Element lw el kids n' :
  replaceFirstMarkerFor lw (Element el kids) = Some n' ->
  exists kids', n' = Element el kids'.
Proof.
  simpl.
  destruct (replaceFirstInFor lw (replaceFirstMarkerFor lw) kids)
    as [[[] kids']|]; intros [= <-]; eauto.
Qed.

Lemma replaceFirstMarkerFor_texts lw el kids :
  forallb isText kids = true -> replaceFirstMarkerFor lw (Element el kids) = None.
Proof.
  intros Hk. simpl.
  assert (replaceFirstInFor lw (replaceFirstMarkerFor lw) kids = None) as ->;
    [|done].
  induction kids as [|[t|elk ks] rest IH]; [done| |done].
  cbn [forallb isText andb] in Hk. simpl. by rewrite (IH Hk).
Qed.

Lemma texts_highlightsIn kids : forallb isText kids = true -> highlightsIn kids = [].
Proof.
  induction kids as [|[t|elk ks] rest IH]; [done| |done].
  intros Hk. unfold highlightsIn in *. cbn [flat_map]. by apply IH.
Qed.

Lemma isMarkerFor_here lw k :
  isMarkerFor lw k = true ->
  exists el kids, k = Element el kids /\ isMarkerElement el = true /\
    highlightHere k = [(el, textContent k)] /\
    toLowerCase (textContent k) = lw.
Proof.
  unfold isMarkerFor. intros [Hm Hw%bool_decide_eq_true]%andb_true_iff.
  destruct k as [t|el kids]; [done|]. simpl in Hm.
  exists el, kids. unfold highlightHere. rewrite Hm. done.
Qed.

(** A pass takes one highlight away, one whose text is the word up to
    case, and leaves every other highlight as it is. *)
Lemma highlightsOf_replaceFirstMarkerFor lw n n' :
  markersFlat n = true -> replaceFirstMarkerFor lw n = Some n' ->
  markersFlat n' = true /\
  exists hs1 h hs2,
    highlightsOf n = hs1 ++ h :: hs2 /\ toLowerCase h.2 = lw /\
    highlightsOf n' = hs1 ++ hs2.
Proof.
  revert n'. induction n as [t|el kids IH] using node_ind'; intros n'; [done|].
  rewrite markersFlat_Element. intros Hflat. simpl replaceFirstMarkerFor.
  destruct (replaceFirstInFor lw (replaceFirstMarkerFor lw) kids)
    as [[direct kids']|] eqn:Hr; [|done].
  apply replaceFirstInFor_inv in Hr as (pre & k & post & -> & _ & Hcase).
  apply Forall_app in IH as [_ [Hk _]%Forall_cons].
  rewrite forallb_app in Hflat. cbn [forallb] in Hflat.
  apply andb_true_iff in Hflat as [Hpre [Hkf Hpost]%andb_true_iff].
  cbn [highlightsOf]. fold (highlightsIn (pre ++ k :: post)).
  rewrite highlightsIn_app. unfold highlightsIn at 2. cbn [flat_map].
  fold (highlightsIn post).
  destruct Hcase as [(-> & Hm & ->)|(-> & Hm & k' & Hk' & ->)]; intros [= <-].
  - destruct (isMarkerFor_here lw k Hm) as (elk & ks & -> & Hel & Hhere & Hw).
    unfold flatHere in Hkf. cbn [isMarker children] in Hkf. rewrite Hel in Hkf.
    apply andb_true_iff in Hkf as [Htexts _].
    split.
    + rewrite markersFlat_Element. apply flatHere_normalize.
      rewrite forallb_app. cbn [forallb]. by rewrite Hpre, Hpost.
    + exists (highlightsIn pre), (elk, textContent (Element elk ks)),
             (highlightsIn post).
      split_and!; [|done|].
      * rewrite Hhere. cbn [highlightsOf].
        fold (highlightsIn ks). by rewrite (texts_highlightsIn ks Htexts).
      * cbn [highlightsOf]. fold (highlightsIn (normalize (pre ++ Text
          (textContent (Element elk ks)) :: post))).
        by rewrite highlightsIn_normalize, highlightsIn_app.
  - destruct k as [t|elk ks]; [done|].
    destruct (replaceFirstMarkerFor_Element lw elk ks k' Hk') as [ks' ->].
    unfold flatHere in Hkf. cbn [isMarker children] in Hkf.
    apply andb_true_iff in Hkf as [Htexts Hkflat].
    assert (isMarkerElement elk = false) as Hel.
    { destruct (isMarkerElement elk); [|done].
      rewrite (replaceFirstMarkerFor_texts lw elk ks Htexts) in Hk'. done. }
    destruct (Hk _ Hkflat Hk') as (Hflat' & hs1 & h & hs2 & Hhs & Hw & Hhs').
    split.
    + rewrite markersFlat_Element, forallb_app. cbn [forallb].
      rewrite Hpre, Hpost. unfold flatHere. cbn [isMarker].
      by rewrite Hel, Hflat'.
    + exists (highlightsIn pre ++ hs1), h, (hs2 ++ highlightsIn post).
      split_and!; [|done|].
      * unfold highlightHere. rewrite Hel, Hhs. cbn [app].
        by rewrite <- !app_assoc.
      * cbn [highlightsOf]. fold (highlightsIn (pre ++ Element elk ks' :: post)).
        rewrite highlightsIn_app. unfold highlightsIn at 2. cbn [flat_map].
        fold (highlightsIn post). unfold highlightHere. rewrite Hel, Hhs'.
        cbn [app]. by rewrite <- !app_assoc.
Qed.

(** No pass is left exactly when no highlight passes the test. *)
Lemma replaceFirstMarkerFor_None lw n :
  replaceFirstMarkerFor lw n = None <->
  Forall (fun h => toLowerCase h.2 <> lw) (highlightsOf n).
Proof.
  induction n as [t|el kids IH] using node_ind'; [done|].
  simpl replaceFirstMarkerFor. cbn [highlightsOf].
  assert (replaceFirstInFor lw (replaceFirstMarkerFor lw) kids = None <->
          Forall (fun h => toLowerCase h.2 <> lw)
            (flat_map (fun k => highlightHere k ++ highlightsOf k) kids)) as Hiff.
  { induction IH as [|k rest Hk _ IHrest]; [done|].
    cbn [replaceFirstInFor flat_map]. rewrite !Forall_app.
    unfold isMarkerFor, highlightHere.
    destruct k as [t|elk ks].
    - cbn [isMarker andb]. rewrite (proj2 Hk) by done.
      destruct (replaceFirstInFor lw (replaceFirstMarkerFor lw) rest)
        as [[d rest']|].
      + split; [done|]. intros [_ Hrest]. by apply IHrest in Hrest.
      + split; [|done]. intros _. split_and!; [done|done|by apply IHrest].
    - cbn [isMarker]. destruct (isMarkerElement elk) eqn:Hel.
      + cbn [andb]. case_bool_decide as Hw.
        * split; [done|]. intros [[[Hne _]%Forall_cons _] _]. done.
        * destruct (replaceFirstMarkerFor lw (Element elk ks)) as [k'|] eqn:Hb.
          { split; [done|]. intros [[_ Hks] _]. by apply Hk in Hks. }
          destruct (replaceFirstInFor lw (replaceFirstMarkerFor lw) rest)
            as [[d rest']|].
          { split; [done|]. intros [_ Hrest]. by apply IHrest in Hrest. }
          split; [|done]. intros _.
          split_and!; [by constructor|by apply Hk|by apply IHrest].
      + cbn [andb].
        destruct (replaceFirstMarkerFor lw (Element elk ks)) as [k'|] eqn:Hb.
        { split; [done|]. intros [[_ Hks] _]. by apply Hk in Hks. }
        destruct (replaceFirstInFor lw (replaceFirstMarkerFor lw) rest)
          as [[d rest']|].
        { split; [done|]. intros [_ Hrest]. by apply IHrest in Hrest. }
        split; [|done]. intros _.
        split_and!; [done|by apply Hk|by apply IHrest]. }
  destruct (replaceFirstInFor lw (replaceFirstMarkerFor lw) kids)
    as [[[] kids']|].
  - split; [done|]. intros H. by apply (proj2 Hiff) in H.
  - split; [done|]. intros H. by apply (proj2 Hiff) in H.
  - split; [|done]. intros _. by apply (proj1 Hiff).
Qed.

Lemma countMarkers_highlightsOf n : countMarkers n = length (highlightsOf n).
Proof.
  induction n as [t|el kids IH] using node_ind'; [done|].
  rewrite countMarkers_Element. cbn [highlightsOf].
  induction IH as [|k rest Hk _ IHrest]; [done|].
  cbn [map list_sum fold_right flat_map]. rewrite !length_app.
  change (fold_right Nat.add 0 (map weight rest)) with (list_sum (map weight rest)).
  rewrite IHrest. unfold weight. rewrite Hk. f_equal. f_equal.
  destruct k as [t|elk ks]; [done|]. simpl. by destruct (isMarkerElement elk).
Qed.

Lemma otherHighlights_all lw hs :
  Forall (fun h => toLowerCase h.2 <> lw) hs -> otherHighlights lw hs = hs.
Proof.
  unfold otherHighlights. induction 1 as [|h hs Hh _ IH]; [done|].
  by rewrite filter_cons_True, IH.
Qed.

Lemma highlightsOf_replaceMarkersFor lw count n :
  markersFlat n = true -> length (highlightsOf n) <= count ->
  highlightsOf (replaceMarkersFor lw count n) = otherHighlights lw (highlightsOf n).
Proof.
  revert n. induction count as [|count IH]; intros n Hflat Hlen;
    cbn [replaceMarkersFor].
  - destruct (highlightsOf n); [done|]. simpl in Hlen. lia.
  - destruct (replaceFirstMarkerFor lw n) as [n'|] eqn:Hn.
    + destruct (highlightsOf_replaceFirstMarkerFor lw n n' Hflat Hn)
        as (Hflat' & hs1 & h & hs2 & Hhs & Hw & Hhs').
      rewrite IH; [|done|].
      * rewrite Hhs, Hhs'. unfold otherHighlights.
        rewrite !filter_app, filter_cons_False; [done|]. by intros [].
      * rewrite Hhs' , Hhs in *. rewrite length_app in *. simpl in Hlen. lia.
    + symmetry. apply otherHighlights_all.
      by apply (proj1 (replaceFirstMarkerFor_None lw n)).
Qed.

Lemma textContent_replaceMarkersFor lw count n :
  textContent (replaceMarkersFor lw count n) = textContent n.
Proof.
  revert n. induction count as [|count IH]; intros n; cbn [replaceMarkersFor];
    [done|].
  destruct (replaceFirstMarkerFor lw n) as [n'|] eqn:Hn; [|done].
  rewrite IH. by apply (textContent_replaceFirstMarkerFor lw).
Qed.

Lemma highlightsOf_removeHighlightForWord word body :
  markersFlat body = true ->
  highlightsOf (removeHighlightForWord word body) =
    otherHighlights (toLowerCase word) (highlightsOf body).
Proof.
  intros Hflat. apply highlightsOf_replaceMarkersFor; [done|].
  by rewrite countMarkers_highlightsOf.
Qed.

(** *** What [removeHighlightForWord] does *)

(** [removeHighlightForWord(word)] keeps the text of the document; on a
    document whose highlights hold texts only, the highlights it leaves are,
    in document order and each with its element and its text as before,
    exactly those whose text is not the word up to case; and a document with
    no highlight of the word is left as it is, node for node. *)
Theorem removeHighlightForWord_spec word body :
  textContent (removeHighlightForWord word body) = textContent body /\
  (markersFlat body = true ->
   highlightsOf (removeHighlightForWord word body) =
     otherHighlights (toLowerCase word) (highlightsOf body)) /\
  (Forall (fun h => toLowerCase h.2 <> toLowerCase word) (highlightsOf body) ->
   removeHighlightForWord word body = body).
Proof.
  unfold removeHighlightForWord. split_and!.
  - apply textContent_replaceMarkersFor.
  - apply highlightsOf_removeHighlightForWord.
  - intros Hnone. apply (proj2 (replaceFirstMarkerFor_None _ _)) in Hnone.
    destruct (countMarkers body); cbn [replaceMarkersFor]; [done|].
    by rewrite Hnone.
Qed.

(** When every highlight of a document carries an entry of the vocabulary,
    then after [deleteVocabEntry] has taken a word out of the vocabulary and
    [removeHighlightForWord] has run for the same word, every highlight left
    carries an entry of the vocabulary that is left: the page does not go on
    showing a word that is no longer stored. *)
Theorem removal_agrees_with_store vocabList body w :
  markersFlat body = true ->
  Forall (carriesEntry toLowerCase vocabList) (highlightsOf body) ->
  Forall (carriesEntry toLowerCase (deleteVocabEntry toLowerCase w vocabList).1)
    (highlightsOf (removeHighlightForWord w body)).
Proof.
  intros Hflat Hall.
  rewrite (highlightsOf_removeHighlightForWord w body Hflat).
  unfold otherHighlights. apply Forall_forall.
  intros h [Hh Hin]%list_elem_of_filter.
  rewrite Forall_forall in Hall.
  destruct (Hall h Hin) as (e & He & Hlow & Hrest).
  exists e. split; [|done]. unfold deleteVocabEntry. cbn [fst].
  apply list_elem_of_filter. split; [|done]. by rewrite <- Hlow.
Qed.

End WithCaseTable.

(** *** On the scanned page *)

(** The word is deleted in another casing: the highlight goes, and the
    three texts of the paragraph are one text again. *)
Example removeHighlightForWord_category :
  removeHighlightForWord asciiToLowerCase (js "CAT")
    (documentBody categoryPageScanned) =
  Element (plainElement "BODY")
    [ Element (plainElement "P") [Text (js "category the cat sat")];
      Element (plainElement "SCRIPT") [Text (js "cat")];
      badge (plainElement "BODY") 1 ].
Proof. vm_compute. reflexivity. Qed.

(** A paragraph with two words of the vocabulary, and the page a scan makes
    of it. *)
Definition catDogPage : page :=
  mkPage (plainElement "BODY")
    [ Element (plainElement "P") [Text (js "the cat and the dog")] ].

Definition dogMarker : node :=
  Element
    (mkElement (js "MARK") (js "mark") [] [js "vh-highlight"] false
       (Some (js "gou")) (Some (js "dog")) false)
    [Text (js "dog")].

Definition catDogPageScanned : page :=
  mkPage (plainElement "BODY")
    [ Element (plainElement "P")
        [Text (js "the "); catMarker; Text (js " and the "); dogMarker];
      badge (plainElement "BODY") 2 ].

Example cat_dog_page_scan :
  scan [catEntry; dogEntry] catDogPage = Returns catDogPageScanned 2.
Proof. vm_compute. reflexivity. Qed.

(** [dog] is deleted: its highlight goes, the highlight of [cat] stays. *)
Example removeHighlightForWord_dog :
  removeHighlightForWord asciiToLowerCase (js "DOG")
    (documentBody catDogPageScanned) =
  Element (plainElement "BODY")
    [ Element (plainElement "P")
        [Text (js "the "); catMarker; Text (js " and the dog")];
      badge (plainElement "BODY") 2 ].
Proof. vm_compute. reflexivity. Qed.

Lemma removal_agrees_with_store_witness :
  Forall (carriesEntry asciiToLowerCase
            (deleteVocabEntry asciiToLowerCase (js "DOG") [catEntry; dogEntry]).1)
    (highlightsOf
       (removeHighlightForWord asciiToLowerCase (js "DOG")
          (documentBody catDogPageScanned))).
Proof.
  apply (removal_agrees_with_store asciiToLowerCase [catEntry; dogEntry]
           (documentBody catDogPageScanned) (js "DOG")).
  - vm_compute. reflexivity.
  - constructor.
    { exists catEntry. split_and!; [left|reflexivity..]. }
    constructor; [|constructor].
    exists dogEntry. split_and!; [right; left|reflexivity..].
Defined.

End WordHighlights.

(** ** Highlighting the word just added: [highlightSingleWord] *)

Module SingleWord.
Import Store Pattern Dom Scanner Coverage Highlights.

(** The [mark] element made for the matched text: its data attributes are
    the arguments of the call, whatever the vocabulary holds. *)
Definition markFor (word translation matched : jsstring) : node :=
  Element
    {| tagName := js "MARK"; localName := js "mark"; id := [];
       classList := [js "vh-highlight"]; isContentEditable := false;
       vhTranslation := Some translation; vhWord := Some word;
       isActiveBadge := false |}
    (match matched with [] => [] | _ => [Text matched] end).

Fixpoint fragmentFor (word translation text : jsstring)
    (lastIndex : nat) (ms : list (nat * nat)) : list node :=
  match ms with
  | [] =>
      if decide (lastIndex < length text)
      then [Text (substring lastIndex (length text) text)] else []
  | (i, e) :: ms' =>
      (if decide (lastIndex < i) then [Text (substring lastIndex i text)] else [])
      ++ markFor word translation (substring i e text)
         :: fragmentFor word translation text e ms'
  end.

(** How a call ends. *)
Inductive ending :=
| Done (p : page)
| SyntaxError        (* [new RegExp] rejected the source *)
| NeverEnds.         (* a [while] loop that never ends *)

Section WithCaseTable.

Variable upperNonAscii : N -> jsstring.

Definition replacementFor (r : regex) (word translation text : jsstring)
    : list node :=
  match matchesIn upperNonAscii r text with
  | Some (m :: ms) => fragmentFor word translation text 0 (m :: ms)
  | _ => [Text text]
  end.

Fixpoint highlightNodeFor (r : regex) (word translation : jsstring)
    (parent : element) (inRoot : bool) (n : node) : list node :=
  match n with
  | Text s =>
      if acceptNode parent inRoot then replacementFor r word translation s
      else [Text s]
  | Element el kids =>
      [Element el
         (flat_map (highlightNodeFor r word translation el (closestRoot inRoot el))
            kids)]
  end.

(** [highlightSingleWord(word, translation)]: the same walk and the same
    loop as the scan, for the pattern of the one word; the highlights there
    are stay, nothing is counted and no badge is shown. *)
Definition highlightSingleWord (word translation : jsstring) (p : page) : ending :=
  match compile [word] with
  | None => SyntaxError
  | Some r =>
      match matchCountOf upperNonAscii r (pageTextNodes p) with
      | None => NeverEnds
      | Some _ =>
          let el := bodyElement p in
          Done (mkPage el
                  (flat_map (highlightNodeFor r word translation el
                               (closestRoot false el)) (bodyNodes p)))
      end
  end.

(** A highlight made by the call: the data attributes are its arguments and
    the text spells the word up to case. *)
Definition madeFor (word translation : jsstring) (h : element * jsstring) : Prop :=
  vhWord h.1 = Some word /\ vhTranslation h.1 = Some translation /\
  Forall2 (fun d c => canonicalize upperNonAscii d = canonicalize upperNonAscii c)
    h.2 word.

(** The highlights [new] are the highlights [old], each as it was and in the
    same order, with highlights made by the call in between. *)
Definition addsHighlights (word translation : jsstring)
    (old new : list (element * jsstring)) : Prop :=
  old `sublist_of` new /\
  Forall (fun h => h ∈ old \/ madeFor word translation h) new.

(** *** Helper lemmas *)

Lemma addsHighlights_app word translation a a' b b' :
  addsHighlights word translation a a' -> addsHighlights word translation b b' ->
  addsHighlights word translation (a ++ b) (a' ++ b').
Proof.
  intros [Hs1 Hf1] [Hs2 Hf2]. split; [by apply sublist_app|].
  apply Forall_app. split.
  - eapply Forall_impl; [exact Hf1|]. intros h [?|?]; [left|by right].
    apply elem_of_app. by left.
  - eapply Forall_impl; [exact Hf2|]. intros h [?|?]; [left|by right].
    apply elem_of_app. by right.
Qed.

Lemma addsHighlights_refl word translation hs :
  addsHighlights word translation hs hs.
Proof. split; [done|]. apply Forall_forall. intros h ?. by left. Qed.

Lemma textContent_markFor word translation matched :
  textContent (markFor word translation matched) = matched.
Proof. destruct matched; simpl; [done|]. by rewrite app_nil_r. Qed.

Lemma textContent_fragmentFor word translation text lastIndex ms :
  ordered lastIndex ms (length text) ->
  flat_map textContent (fragmentFor word translation text lastIndex ms)
    = drop lastIndex text.
Proof.
  revert lastIndex. induction ms as [|[i e] ms IH]; intros lastIndex;
    cbn [fragmentFor ordered].
  - intros Hl. case_decide as Hlt; cbn [flat_map textContent].
    + unfold substring. rewrite app_nil_r, take_ge; [done|].
      rewrite length_drop. lia.
    + rewrite drop_ge; [done|lia].
  - intros (Hli & Hie & Hord).
    rewrite flat_map_app. cbn [flat_map].
    rewrite textContent_markFor, (IH _ Hord).
    unfold substring. rewrite (take_drop_middle text i e Hie).
    case_decide as Hlt; cbn [flat_map textContent].
    + rewrite app_nil_r. apply take_drop_middle. lia.
    + by replace i with lastIndex by lia.
Qed.

Lemma textContent_replacementFor r word translation text :
  flat_map textContent (replacementFor r word translation text) = text.
Proof.
  unfold replacementFor.
  destruct (matchesIn upperNonAscii r text) as [[|m ms]|] eqn:Hm;
    [cbn [flat_map textContent]; by rewrite app_nil_r| |
     cbn [flat_map textContent]; by rewrite app_nil_r].
  apply matchesIn_ordered in Hm.
  by rewrite (textContent_fragmentFor word translation text 0 (m :: ms) Hm).
Qed.

Lemma textContent_highlightNodeFor r word translation parent inRoot n :
  flat_map textContent (highlightNodeFor r word translation parent inRoot n)
    = textContent n.
Proof.
  revert parent inRoot. induction n as [s|el kids IH] using node_ind';
    intros parent inRoot; cbn [highlightNodeFor].
  - destruct (acceptNode parent inRoot).
    + apply textContent_replacementFor.
    + cbn [flat_map textContent]. by rewrite app_nil_r.
  - cbn [flat_map textContent]. rewrite app_nil_r.
    generalize (closestRoot inRoot el). intros inRoot'.
    induction IH as [|k rest Hk _ IHrest]; [done|].
    cbn [flat_map]. by rewrite flat_map_app, Hk, IHrest.
Qed.

Lemma textContent_highlightFor r word translation parent inRoot kids :
  flat_map textContent
    (flat_map (highlightNodeFor r word translation parent inRoot) kids)
  = flat_map textContent kids.
Proof.
  induction kids as [|k rest IH]; [done|].
  cbn [flat_map]. by rewrite flat_map_app, textContent_highlightNodeFor, IH.
Qed.

Lemma highlightsIn_fragmentFor word translation text lastIndex ms :
  Forall (wholeWordAt upperNonAscii [word] text) ms ->
  Forall (madeFor word translation)
    (highlightsIn (fragmentFor word translation text lastIndex ms)).
Proof.
  intros Hms. revert lastIndex.
  induction Hms as [|[i e] ms Hm _ IH]; intros lastIndex; cbn [fragmentFor].
  - by case_decide.
  - rewrite highlightsIn_app. apply Forall_app. split; [by case_decide|].
    unfold highlightsIn. cbn [flat_map].
    fold (highlightsIn (fragmentFor word translation text e ms)).
    apply Forall_app. split; [|apply IH].
    apply Forall_app. split; [|by destruct (substring i e text)].
    unfold highlightHere. rewrite textContent_markFor. unfold markFor.
    change (isMarkerElement _) with true. constructor; [|done].
    destruct Hm as (_ & _ & _ & w & ->%list_elem_of_singleton & Hend & Hspell).
    split_and!; [done|done|]. cbn [fst snd] in *.
    unfold substring. by replace (e - i) with (length word) by lia.
Qed.

Lemma highlightsIn_highlightNodeFor word translation parent inRoot n :
  addsHighlights word translation (highlightsIn [n])
    (highlightsIn (highlightNodeFor (literalPattern [word]) word translation
                     parent inRoot n)).
Proof.
  revert parent inRoot. induction n as [s|el kids IH] using node_ind';
    intros parent inRoot; cbn [highlightNodeFor].
  - destruct (acceptNode parent inRoot); [|apply addsHighlights_refl].
    unfold replacementFor.
    destruct (matchesIn upperNonAscii _ s) as [[|m ms]|] eqn:Hms;
      [apply addsHighlights_refl| |apply addsHighlights_refl].
    split; [apply sublist_nil_l|].
    eapply Forall_impl.
    + apply highlightsIn_fragmentFor.
      by apply (matchesIn_wholeWords upperNonAscii [word] s) in Hms.
    + intros h ?. by right.
  - unfold highlightsIn. cbn [flat_map]. rewrite !app_nil_r.
    apply addsHighlights_app.
    + unfold highlightHere. rewrite <- (textContent_highlightNodeFor
        (literalPattern [word]) word translation parent inRoot (Element el kids)).
      cbn [highlightNodeFor flat_map textContent]. rewrite app_nil_r.
      apply addsHighlights_refl.
    + cbn [highlightsOf].
      generalize (closestRoot inRoot el). intros inRoot'.
      induction IH as [|k rest Hk _ IHrest]; [apply addsHighlights_refl|].
      cbn [flat_map]. rewrite flat_map_app.
      apply addsHighlights_app; [|apply IHrest].
      specialize (Hk el inRoot'). unfold highlightsIn in Hk.
      cbn [flat_map] in Hk. by rewrite app_nil_r in Hk.
Qed.

Lemma highlightsIn_highlightFor word translation parent inRoot kids :
  addsHighlights word translation (highlightsIn kids)
    (highlightsIn (flat_map (highlightNodeFor (literalPattern [word]) word
                               translation parent inRoot) kids)).
Proof.
  induction kids as [|k rest IH]; [apply addsHighlights_refl|].
  cbn [flat_map]. rewrite highlightsIn_app.
  change (highlightsIn (k :: rest)) with (highlightsIn ([k] ++ rest)).
  rewrite highlightsIn_app.
  apply addsHighlights_app; [apply highlightsIn_highlightNodeFor|apply IH].
Qed.

(** [activeBadge] refers to the element it referred to: the call makes
    texts and marks, and moves nothing. *)
Lemma activeBadgeIn_fragmentFor word translation text lastIndex ms :
  flat_map activeBadgeIn (fragmentFor word translation text lastIndex ms) = [].
Proof.
  revert lastIndex. induction ms as [|[i e] ms IH]; intros lastIndex;
    cbn [fragmentFor].
  - by case_decide.
  - rewrite flat_map_app. cbn [flat_map]. rewrite IH.
    replace (activeBadgeIn (markFor word translation (substring i e text)))
      with (@nil element) by (by destruct (substring i e text)).
    by case_decide.
Qed.

Lemma activeBadgeIn_highlightNodeFor r word translation parent inRoot n :
  flat_map activeBadgeIn (highlightNodeFor r word translation parent inRoot n)
  = activeBadgeIn n.
Proof.
  revert parent inRoot. induction n as [s|el kids IH] using node_ind';
    intros parent inRoot; cbn [highlightNodeFor].
  - destruct (acceptNode parent inRoot); [|done]. unfold replacementFor.
    destruct (matchesIn upperNonAscii r s) as [[|m ms]|]; [done| |done].
    apply activeBadgeIn_fragmentFor.
  - cbn [flat_map activeBadgeIn]. rewrite app_nil_r. f_equal.
    generalize (closestRoot inRoot el). intros inRoot'.
    induction IH as [|k rest Hk _ IHrest]; [done|].
    cbn [flat_map]. by rewrite flat_map_app, Hk, IHrest.
Qed.

Lemma activeBadgeIn_highlightFor r word translation parent inRoot kids :
  flat_map activeBadgeIn
    (flat_map (highlightNodeFor r word translation parent inRoot) kids)
  = flat_map activeBadgeIn kids.
Proof.
  induction kids as [|k rest IH]; [done|].
  cbn [flat_map]. by rewrite flat_map_app, activeBadgeIn_highlightNodeFor, IH.
Qed.

(** *** What [highlightSingleWord] does *)

(** For a word that is not empty the call ends; it keeps the text of every
    node and the badge; every highlight that was in the document is still
    there as it was (its element with its data attributes, its text), in the
    same order, so a highlight of the same word made earlier keeps the
    translation it was made with; and every other highlight in the document
    was made by the call: it carries the word and the translation of the call,
    and its text spells the word up to case. *)
Theorem highlightSingleWord_adds word translation p :
  word <> [] ->
  exists p',
    highlightSingleWord word translation p = Done p' /\
    flat_map textContent (bodyNodes p') = flat_map textContent (bodyNodes p) /\
    bodyElement p' = bodyElement p /\ activeBadge p' = activeBadge p /\
    addsHighlights word translation
      (highlightsOf (documentBody p)) (highlightsOf (documentBody p')).
Proof.
  intros Hne. unfold highlightSingleWord. rewrite compile_literal.
  destruct (matchCountOf_total upperNonAscii [word] (pageTextNodes p))
    as [c ->]; [done|by constructor|].
  eexists. split; [reflexivity|]. unfold activeBadge.
  cbn [bodyNodes bodyElement].
  split_and!; [apply textContent_highlightFor|done| |].
  - by rewrite activeBadgeIn_highlightFor.
  - apply highlightsIn_highlightFor.
Qed.

(** *** A second call *)

(** A node the walk of a call for the pattern [r] leaves as it is: a text
    without a match, or a highlight that holds texts only. *)
Definition atRest (r : regex) (k : node) : Prop :=
  match k with
  | Text s => matchesIn upperNonAscii r s = Some []
  | Element el kids =>
      hasClass (js "vh-highlight") el = true /\ forallb isText kids = true
  end.

Lemma matchesIn_piece word text off len :
  word <> [] -> off + len <= length text ->
  off = 0 \/ isWordBoundary text off = true ->
  off + len = length text \/ isWordBoundary text (off + len) = true ->
  (forall j, off <= j < off + len ->
     matcher upperNonAscii (literalPattern [word]) text j Some = None) ->
  matchesIn upperNonAscii (literalPattern [word]) (substring off (off + len) text)
    = Some [].
Proof.
  intros Hne Hlen Hleft Hright Hnone. unfold matchesIn, substring.
  replace (off + len - off) with len by lia.
  destruct (take len (drop off text)) eqn:Hpiece; [done|]. rewrite <- Hpiece.
  apply piece_no_match; [done|by constructor|done..].
Qed.

Lemma atRest_markFor r word translation matched :
  atRest r (markFor word translation matched).
Proof. split; [done|by destruct matched]. Qed.

(** The texts a loop leaves between its highlights hold no match. *)
Lemma fragmentFor_atRest fuel word translation text lastIndex ms :
  word <> [] -> lastIndex <= length text ->
  lastIndex = 0 \/ isWordBoundary text lastIndex = true ->
  execLoop upperNonAscii fuel (literalPattern [word]) text lastIndex = Some ms ->
  Forall (atRest (literalPattern [word]))
    (fragmentFor word translation text lastIndex ms).
Proof.
  intros Hne. revert lastIndex ms.
  induction fuel as [|fuel IH]; intros lastIndex ms Hlast Hleft; cbn [execLoop];
    [done|].
  destruct (exec upperNonAscii (literalPattern [word]) text lastIndex)
    as [[i e]|] eqn:Hexec.
  - destruct (execLoop upperNonAscii fuel (literalPattern [word]) text e)
      as [ms'|] eqn:Hrest; [|done].
    intros [= <-]. cbn [fragmentFor].
    pose proof Hexec as Hfirst. unfold exec in Hfirst.
    case_decide; [done|].
    pose proof (search_first upperNonAscii _ _ _ _ _ _ Hfirst) as Hnone.
    apply exec_Some in Hexec as [Hm Hi].
    apply (matcher_wholeWord upperNonAscii) in Hm as (Hbi & Hbe & Hend & _);
      [|done|lia].
    cbn [fst snd] in *.
    apply Forall_app. split.
    + case_decide; [|done]. constructor; [|done]. cbn [atRest].
      replace i with (lastIndex + (i - lastIndex)) at 1 by lia.
      apply matchesIn_piece; [done|lia|done| |].
      * right. by replace (lastIndex + (i - lastIndex)) with i by lia.
      * intros j Hj. apply Hnone. lia.
    + constructor; [apply atRest_markFor|].
      apply IH; [done|by right|done].
  - intros [= <-]. cbn [fragmentFor]. case_decide; [|done].
    constructor; [|done]. cbn [atRest].
    unfold exec in Hexec. case_decide; [lia|].
    pose proof (search_None_inv upperNonAscii _ _ _ _ Hexec) as Hnone.
    replace (length text) with (lastIndex + (length text - lastIndex)) at 1
      by lia.
    apply matchesIn_piece; [done|lia|done|left; lia|].
    intros j Hj. apply Hnone. lia.
Qed.

Lemma highlightNodeFor_atRest r word translation parent inRoot k :
  atRest r k -> highlightNodeFor r word translation parent inRoot k = [k].
Proof.
  destruct k as [s|el kids]; cbn [atRest highlightNodeFor].
  - intros Hs. destruct (acceptNode parent inRoot); [|done].
    unfold replacementFor. by rewrite Hs.
  - intros [Hcls Htexts]. do 2 f_equal.
    assert (acceptNode el (closestRoot inRoot el) = false) as Hacc.
    { unfold acceptNode. rewrite Hcls. cbn [negb]. by rewrite andb_false_r. }
    induction kids as [|[s|el' kids'] rest IH]; [done| |done].
    cbn [forallb isText] in Htexts. cbn [flat_map highlightNodeFor].
    by rewrite Hacc, (IH Htexts).
Qed.

Lemma highlightFor_atRest r word translation parent inRoot ks :
  Forall (atRest r) ks ->
  flat_map (highlightNodeFor r word translation parent inRoot) ks = ks.
Proof.
  induction 1 as [|k ks Hk _ IH]; [done|].
  cbn [flat_map]. by rewrite highlightNodeFor_atRest, IH.
Qed.

(** What a call left below a node, a second call for the same word leaves
    as it is. *)
Lemma highlightNodeFor_twice word translation translation' parent inRoot n :
  word <> [] ->
  flat_map (highlightNodeFor (literalPattern [word]) word translation' parent
              inRoot)
    (highlightNodeFor (literalPattern [word]) word translation parent inRoot n)
  = highlightNodeFor (literalPattern [word]) word translation parent inRoot n.
Proof.
  intros Hne. revert parent inRoot.
  induction n as [s|el kids IH] using node_ind'; intros parent inRoot.
  - cbn [highlightNodeFor]. destruct (acceptNode parent inRoot) eqn:Hacc.
    + unfold replacementFor.
      destruct (matchesIn upperNonAscii (literalPattern [word]) s)
        as [[|m ms]|] eqn:Hms.
      * cbn [flat_map highlightNodeFor]. rewrite Hacc, app_nil_r.
        unfold replacementFor. by rewrite Hms.
      * apply highlightFor_atRest.
        unfold matchesIn in Hms. destruct s as [|c s]; [done|].
        apply (fragmentFor_atRest _ word translation _ _ _ Hne) in Hms;
          [done|lia|by left].
      * cbn [flat_map highlightNodeFor]. rewrite Hacc, app_nil_r.
        unfold replacementFor. by rewrite Hms.
    + cbn [flat_map highlightNodeFor]. by rewrite Hacc.
  - cbn [highlightNodeFor flat_map]. rewrite app_nil_r. do 2 f_equal.
    generalize (closestRoot inRoot el). intros inRoot'.
    induction IH as [|k rest Hk _ IHrest]; [done|].
    cbn [flat_map]. by rewrite flat_map_app, Hk, IHrest.
Qed.

Lemma highlightFor_twice word translation translation' parent inRoot kids :
  word <> [] ->
  flat_map (highlightNodeFor (literalPattern [word]) word translation' parent
              inRoot)
    (flat_map (highlightNodeFor (literalPattern [word]) word translation parent
                 inRoot) kids)
  = flat_map (highlightNodeFor (literalPattern [word]) word translation parent
                inRoot) kids.
Proof.
  intros Hne. induction kids as [|k rest IH]; [done|].
  cbn [flat_map]. by rewrite flat_map_app, highlightNodeFor_twice, IH.
Qed.

(** After a call for a word, a second call for the same word, with the same
    or with another translation, ends and leaves the page exactly as it is,
    node for node: no highlight is wrapped or split again, no text between
    highlights holds a match that the first call left out, and the
    highlights keep the translation of the first call. *)
Theorem highlightSingleWord_again word translation translation' p p' :
  word <> [] ->
  highlightSingleWord word translation p = Done p' ->
  highlightSingleWord word translation' p' = Done p'.
Proof.
  intros Hne. unfold highlightSingleWord. rewrite compile_literal. cbv zeta.
  destruct (matchCountOf upperNonAscii (literalPattern [word]) (pageTextNodes p));
    [|done].
  intros [= <-].
  match goal with
  | |- context [matchCountOf _ _ (pageTextNodes ?q)] =>
      destruct (matchCountOf_total upperNonAscii [word] (pageTextNodes q))
        as [c ->]; [done|by constructor|]
  end.
  cbn [bodyElement bodyNodes].
  by rewrite highlightFor_twice.
Qed.

End WithCaseTable.

(** The page scanned for [cat] before the entry [category] is added: the
    new highlight carries the arguments of the call, the old one stays. *)
Example highlightSingleWord_category :
  exists p',
    highlightSingleWord noUpper (js "category") (js "lei") categoryPageScanned
      = Done p' /\
    highlightsOf (documentBody p') =
      [ (mkElement (js "MARK") (js "mark") [] [js "vh-highlight"] false
           (Some (js "lei")) (Some (js "category")) false, js "category");
        (mkElement (js "MARK") (js "mark") [] [js "vh-highlight"] false
           (Some (js "mao")) (Some (js "cat")) false, js "cat") ].
Proof. eexists. split; vm_compute; reflexivity. Qed.

Lemma highlightSingleWord_adds_witness :
  exists p',
    highlightSingleWord noUpper (js "category") (js "lei") categoryPageScanned
      = Done p' /\
    flat_map textContent (bodyNodes p')
      = flat_map textContent (bodyNodes categoryPageScanned) /\
    bodyElement p' = bodyElement categoryPageScanned /\
    activeBadge p' = activeBadge categoryPageScanned /\
    addsHighlights noUpper (js "category") (js "lei")
      (highlightsOf (documentBody categoryPageScanned))
      (highlightsOf (documentBody p')).
Proof.
  apply (highlightSingleWord_adds noUpper (js "category") (js "lei")
           categoryPageScanned).
  discriminate.
Defined.

(** The page with a paragraph and a script after a call for [cat]. *)
Definition categoryPageMarked : page :=
  mkPage (plainElement "BODY")
    [ Element (plainElement "P")
        [Text (js "category the "); catMarker; Text (js " sat")];
      Element (plainElement "SCRIPT") [Text (js "cat")] ].

Lemma highlightSingleWord_again_witness :
  highlightSingleWord noUpper (js "cat") (js "miao") categoryPageMarked
    = Done categoryPageMarked.
Proof.
  apply (highlightSingleWord_again noUpper (js "cat") (js "mao") (js "miao")
           categoryPage categoryPageMarked).
  - discriminate.
  - vm_compute. reflexivity.
Defined.

End SingleWord.

(** ** The translation request (api.js) *)

Module Api.
Import Selection Context.

Definition DEFAULT_MODEL : jsstring := js "google/gemini-2.0-flash-001".

Definition API_URL : jsstring :=
  js "https://openrouter.ai/api/v1/chat/completions".

(** [x || y] for [x] a string or [undefined]. *)
Definition orElse (x : option jsstring) (y : jsstring) : jsstring :=
  match x with
  | Some (c :: s) => c :: s
  | _ => y
  end.

(** The template literal of the prompt: the instruction, a line feed, the
    label of the paragraph (U+6BB5 U+843D U+FF1A), the paragraph, a line
    feed, the label of the word (U+5355 U+8BCD U+FF1A), the word. *)
Definition prompt (word paragraphText : jsstring) : jsstring :=
  [ 35831; 32763; 35793; 20197; 19979; 33521; 25991; 21333; 35789; 22312;
    35813; 35821; 22659; 20013; 30340; 21547; 20041; 65292; 21482; 36820;
    22238; 20013; 25991; 32763; 35793; 65292; 31616; 27905; 20934; 30830;
    12290; 10; 27573; 33853; 65306 ]%N
  ++ paragraphText ++ [10; 21333; 35789; 65306]%N ++ word.

(** What [fetch] is called with: the URL, the [Authorization] header and
    the fields of the JSON body. *)
Record request := mkApiRequest {
  url : jsstring;
  authorization : jsstring;
  model : jsstring;
  messages : list (jsstring * jsstring);     (* role, content *)
  max_tokens : nat
}.

(** [data.choices[i]]: [message] and [message.content] may be missing. *)
Record chatMessage := mkChatMessage { content : option jsstring }.
Record choice := mkChoice { message : option chatMessage }.

(** What comes back of the call of [fetch]. *)
Inductive fetched :=
| NetworkError (reason : jsstring)
    (* [fetch] rejects *)
| NotOk (status : nat) (text : option jsstring)
    (* [response.ok] is false; [response.text()] resolves or rejects *)
| Unparsable (reason : jsstring)
    (* [response.ok], and [response.json()] rejects *)
| Answered (choices : option (list choice)).
    (* [response.ok], and [data.choices] of the parsed body *)

(** How the promise of [translateWord] settles. *)
Inductive outcome :=
| Translation (t : jsstring)
| Thrown (reason : jsstring).

Definition translationRequest (apiKey word paragraphText : jsstring)
    (modelOverride : option jsstring) : request :=
  {| url := API_URL;
     authorization := js "Bearer " ++ apiKey;
     model := orElse modelOverride DEFAULT_MODEL;
     messages := [(js "user", prompt word paragraphText)];
     max_tokens := 100 |}.

(** [translateWord(apiKey, word, paragraphText, model)], with the network
    as a function from the request to what comes back. *)
Definition translateWord (apiKey word paragraphText : jsstring)
    (modelOverride : option jsstring) (fetch : request -> fetched) : outcome :=
  match fetch (translationRequest apiKey word paragraphText modelOverride) with
  | NetworkError reason => Thrown reason
  | NotOk status text =>
      Thrown (js "API request failed (" ++ Scanner.digits (Nat.to_uint status)
              ++ js "): " ++ default (js "Unknown error") text)
  | Unparsable reason => Thrown reason
  | Answered None | Answered (Some []) => Thrown (js "API returned no choices")
  | Answered (Some (first :: _)) =>
      match message first with
      | Some {| content := Some raw |} =>
          match trim raw with
          | [] => Thrown (js "API returned empty translation")
          | c :: t => Translation (c :: t)
          end
      | _ => Thrown (js "API returned empty translation")
      end
  end.

Lemma translateWord_trimmed apiKey word paragraphText modelOverride fetch t :
  translateWord apiKey word paragraphText modelOverride fetch = Translation t ->
  t <> [] /\ trim t = t.
Proof.
  unfold translateWord.
  destruct (fetch _) as [reason|status text|reason|[[|[[[[raw|]]|]] rest]|]];
    cbn [message]; try done.
  destruct (trim raw) as [|c s] eqn:Ht; [done|].
  intros [= <-]. split; [done|]. rewrite <- Ht. apply trim_trim.
Qed.

(** [translateWord] resolves only with a translation that is not empty and
    has no white space at either end: the content of the first choice of an
    answer with status ok, trimmed.  Every other answer (a network failure, a
    status that is not ok, a body that does not parse, no choices, a first
    choice without content or with white space only) makes it throw. *)
Theorem translateWord_resolves apiKey word paragraphText modelOverride fetch t :
  (translateWord apiKey word paragraphText modelOverride fetch = Translation t <->
   t <> [] /\
   exists raw rest,
     fetch (translationRequest apiKey word paragraphText modelOverride)
       = Answered (Some (mkChoice (Some (mkChatMessage (Some raw))) :: rest)) /\
     t = trim raw) /\
  (translateWord apiKey word paragraphText modelOverride fetch = Translation t ->
   trim t = t).
Proof.
  split; [|by intros [_ ?]%translateWord_trimmed].
  unfold translateWord.
  destruct (fetch _) as [reason|status text|reason|[[|[[[[raw|]]|]] rest]|]];
    cbn [message];
    try (split; [done|by intros (_ & ? & ? & [=] & _)]).
  destruct (trim raw) as [|c s] eqn:Ht.
  - split; [done|]. intros (Hne & raw' & rest' & [= <- <-] & ->). done.
  - split.
    + intros [= <-]. split; [done|]. by exists raw, rest.
    + intros (_ & raw' & rest' & [= <- <-] & ->). by rewrite Ht.
Qed.

(** An answer whose first choice is padded with blanks. *)
Example translateWord_trims :
  translateWord (js "k") (js "cat") (js "A cat sat.") None
    (fun _ => Answered (Some [mkChoice (Some (mkChatMessage (Some (js " mao ")))) ]))
  = Translation (js "mao").
Proof. reflexivity. Qed.

Example translateWord_blank_content :
  translateWord (js "k") (js "cat") (js "A cat sat.") None
    (fun _ => Answered (Some [mkChoice (Some (mkChatMessage (Some (js "  ")))) ]))
  = Thrown (js "API returned empty translation").
Proof. reflexivity. Qed.

Example translateWord_status :
  translateWord (js "k") (js "cat") (js "A cat sat.") None
    (fun _ => NotOk 401 None)
  = Thrown (js "API request failed (401): Unknown error").
Proof. reflexivity. Qed.

End Api.

(** ** The settings (options.js) *)

Module Options.
Import Selection.

(** The values under the keys [apiKey] and [model] of
    [chrome.storage.local]; [None]: the key was never set. *)
Record settings := mkSettings {
  apiKey : option jsstring;
  model : option jsstring
}.

(** The click listener of the save button. *)
Definition saveSettings (apiKeyInput modelInput : jsstring) (s : settings)
    : settings :=
  {| apiKey := Some (trim apiKeyInput); model := Some (trim modelInput) |}.

(** The callback of the [get] at load time: the values of the two inputs,
    which start empty and are set from a stored value that is truthy. *)
Definition loadSettings (s : settings) : jsstring * jsstring :=
  (Api.orElse (apiKey s) [], Api.orElse (model s) []).

End Options.

(** ** The message handler of the service worker (background.js) *)

Module Worker.
Import Store Api Options.

Inductive message :=
| TRANSLATE_WORD (word paragraph sourceUrl : jsstring)
| SCAN_PAGE
| DELETE_WORD (word : jsstring)
| UPDATE_WORD (word translation : jsstring)
| OtherType (type : jsstring).

(** What [sendResponse] is called with. *)
Inductive response :=
| Translated (translation : jsstring) (updated : bool)
    (* [{ success: true, translation, updated }] *)
| Failure (error : jsstring)
    (* [{ success: false, error }] *)
| Listed (vocabList : list VocabEntry)
    (* the array of [getVocabList] *)
| Written (success : bool) (vocabList : list VocabEntry).
    (* [{ success, vocabList }] *)

(** [getApiConfig]: a key that was never set reads as the empty string. *)
Definition getApiConfig (s : settings) : jsstring * jsstring :=
  (default [] (apiKey s), default [] (model s)).

(** What handling a message comes to: the response, the vocabulary list in
    storage afterwards, and the requests sent to the translation service. *)
Record handled := mkHandled {
  reply : response;
  stored : list VocabEntry;
  requests : list request
}.

Definition missingKey : jsstring :=
  js "API key not configured. Please set it in extension settings.".

Section WithCaseTable.

Variable toLowerCase : jsstring -> jsstring.

(** The listener of [chrome.runtime.onMessage].  [vocabList] is the list in
    storage when the queued write of the message runs: the write queue makes
    each read-modify-write one step.  [fetch] is the network, [now] the
    instant the write runs. *)
Definition onMessage (s : settings) (fetch : request -> fetched)
    (now : jsstring) (m : message) (vocabList : list VocabEntry) : handled :=
  match m with
  | TRANSLATE_WORD word paragraph sourceUrl =>
      let '(apiKey, model) := getApiConfig s in
      match apiKey with
      | [] => mkHandled (Failure missingKey) vocabList []
      | _ :: _ =>
          let modelOverride :=
            match model with [] => None | _ :: _ => Some model end in
          let request := translationRequest apiKey word paragraph modelOverride in
          match translateWord apiKey word paragraph modelOverride fetch with
          | Thrown reason => mkHandled (Failure reason) vocabList [request]
          | Translation translation =>
              let saved :=
                saveVocabEntry toLowerCase now
                  (mkRequest word translation (Some paragraph) (Some sourceUrl))
                  vocabList in
              mkHandled (Translated translation saved.2) saved.1 [request]
          end
      end
  | SCAN_PAGE => mkHandled (Listed vocabList) vocabList []
  | DELETE_WORD word =>
      let deleted := deleteVocabEntry toLowerCase word vocabList in
      mkHandled (Written deleted.2 deleted.1) deleted.1 []
  | UPDATE_WORD word translation =>
      let updated := updateVocabEntry toLowerCase word translation vocabList in
      mkHandled (Written updated.2 updated.1) updated.1 []
  | OtherType type =>
      mkHandled (Failure (js "Unknown message type: " ++ type)) vocabList []
  end.

End WithCaseTable.
End Worker.

(** ** The selection popup of the content script *)

Module ContentUi.
Import Selection Context Dom Scanner Worker.

Definition MAX_WORD_LENGTH : nat := 45.

(** [haystack.includes(needle)]. *)
Definition includes (needle haystack : jsstring) : bool :=
  negb (indexOf needle haystack =? -1)%Z.

(** The check of the [mouseup] listener on [sel.toString()]: the trimmed
    selection, if it is one word. *)
Definition selectedWord (selection : jsstring) : option jsstring :=
  let word := trim selection in
  if nonEmpty word && WORD_REGEX_test word && (length word <=? MAX_WORD_LENGTH)
  then Some word else None.

(** The children of the popup below its header and its button, by class:
    [vh-popup-loading] (one per request), [-translation], [-status],
    [-error], [-retry], [-hint]. *)
Inductive note :=
| Loading (request : nat)
| TranslationText (t : jsstring)
| Status (updated : bool)
| ErrorText (msg : jsstring)
| RetryButton
| Hint.

#[global] Instance note_eq_dec : EqDecision note.
Proof. solve_decision. Defined.

(** The [.vh-popup-btn] of the popup; [madeBy] tells the buttons of
    successive calls of [showPopup] apart. *)
Record button := mkButton {
  madeBy : nat;
  disabled : bool;
  hidden : bool;         (* [style.display === "none"] *)
  busy : bool            (* the label of a request under way *)
}.

Record state := mkUi {
  currentWord : jsstring;
  currentParagraph : jsstring;
  isTranslating : bool;
  display : bool;                       (* [popup.style.display === "block"] *)
  translateButton : option button;      (* [popup.querySelector(".vh-popup-btn")] *)
  notes : list note;
  shown : nat;                          (* calls of [showPopup] so far *)
  sent : nat;                           (* calls of [sendMessage] so far *)
  waiting : list (nat * option nat)
    (* the requests not answered yet, each with the button its call of
       [requestTranslation] found *)
}.

Definition initial : state := mkUi [] [] false false None [] 0 0 [].

(** What a listener does to the world outside the popup. *)
Inductive effect :=
| Send (m : message)
| HighlightSingleWord (word translation : jsstring).

(** What comes back of [chrome.runtime.sendMessage] for a
    [TRANSLATE_WORD] message. *)
Inductive answer :=
| Succeeded (translation : jsstring) (updated : bool)
    (* [{ success: true, translation, updated }] *)
| Failed (error : jsstring)
    (* [{ success: false, error }] *)
| SendFailed (reason : option jsstring).
    (* the promise rejects; [reason] is [err.message] *)

(** The answers the service worker gives to [TRANSLATE_WORD]. *)
Definition answerOf (r : response) : option answer :=
  match r with
  | Translated translation updated => Some (Succeeded translation updated)
  | Failure error => Some (Failed error)
  | _ => None
  end.

Inductive event :=
| MouseUp (insideOwnUi : bool) (selection : option jsstring)
    (rectVisible : bool) (chain : list ancestor) (bodyText : jsstring)
    (* [selection] is [None] for no selection or a collapsed one *)
| KeyDown (escape : bool)
| ClickClose
| ClickTranslate (href : jsstring)
| ClickRetry (href : jsstring)
| Answer (request : nat) (a : answer).

(** [showPopup(word, rect)], with the paragraph text it computes. *)
Definition showPopup (word paragraph : jsstring) (st : state) : state :=
  mkUi word paragraph (isTranslating st) true
    (Some (mkButton (shown st) false false false)) []
    (S (shown st)) (sent st) (waiting st).

Definition hidePopup (st : state) : state :=
  mkUi (currentWord st) (currentParagraph st) false false None []
    (shown st) (sent st) (waiting st).

(** [showError(errorMsg)]. *)
Definition showError (errorMsg : jsstring) (st : state) : state :=
  if includes (js "API key") errorMsg then
    mkUi (currentWord st) (currentParagraph st) (isTranslating st) (display st)
      ((fun b => mkButton (madeBy b) true (hidden b) false) <$> translateButton st)
      (notes st ++ [Hint]) (shown st) (sent st) (waiting st)
  else
    mkUi (currentWord st) (currentParagraph st) (isTranslating st) (display st)
      ((fun b => mkButton (madeBy b) false (hidden b) false) <$> translateButton st)
      (notes st ++ [ErrorText errorMsg; RetryButton])
      (shown st) (sent st) (waiting st).

(** [requestTranslation()] up to its [await]. *)
Definition requestTranslation (href : jsstring) (st : state)
    : state * list effect :=
  if isTranslating st then (st, [])
  else
    (mkUi (currentWord st) (currentParagraph st) true (display st)
       ((fun b => mkButton (madeBy b) true (hidden b) true) <$> translateButton st)
       [Loading (sent st)] (shown st) (S (sent st))
       ((sent st, madeBy <$> translateButton st) :: waiting st),
     [Send (TRANSLATE_WORD (currentWord st) (currentParagraph st) href)]).

(** [btn.style.display = "none"] for the button the request found: it is in
    the popup only if no [showPopup] or [hidePopup] came in between. *)
Definition hideButton (found : option nat) (st : state) : option button :=
  match found, translateButton st with
  | Some g, Some b =>
      if decide (madeBy b = g)
      then Some (mkButton (madeBy b) (disabled b) true (busy b))
      else Some b
  | _, b => b
  end.

(** [requestTranslation()] from its [await] on, for the request [request]. *)
Definition resume (request : nat) (found : option nat) (a : answer) (st : state)
    : state * list effect :=
  let st1 :=
    mkUi (currentWord st) (currentParagraph st) (isTranslating st) (display st)
      (translateButton st) (filter (fun n => n <> Loading request) (notes st))
      (shown st) (sent st) (waiting st) in
  let '(st2, effects) :=
    match a with
    | Succeeded translation updated =>
        (mkUi (currentWord st1) (currentParagraph st1) (isTranslating st1)
           (display st1) (hideButton found st1)
           (notes st1 ++ [TranslationText translation; Status updated])
           (shown st1) (sent st1) (waiting st1),
         [HighlightSingleWord (currentWord st1) translation])
    | Failed error => (showError error st1, [])
    | SendFailed reason =>
        (showError (Api.orElse reason (js "Translation request failed")) st1, [])
    end in
  (mkUi (currentWord st2) (currentParagraph st2) false (display st2)
     (translateButton st2) (notes st2) (shown st2) (sent st2) (waiting st2),
   effects).

Section WithCaseTable.

Variable toLowerCase : jsstring -> jsstring.

(** One event.  An event that cannot happen in the state (a click on a
    button that is not there, is disabled or is not displayed; an answer to a
    request that is not waiting) leaves the state as it is. *)
Definition handle (ev : event) (st : state) : state * list effect :=
  match ev with
  | MouseUp insideOwnUi selection rectVisible chain bodyText =>
      if insideOwnUi then (st, [])
      else match selection with
           | None =>
               (if display st && negb (isTranslating st) then hidePopup st else st,
                [])
           | Some text =>
               match selectedWord text with
               | Some word =>
                   if rectVisible
                   then (showPopup word
                           (getEnclosingParagraphText toLowerCase chain bodyText word)
                           st, [])
                   else (st, [])
               | None => (st, [])
               end
           end
  | KeyDown escape => (if escape then hidePopup st else st, [])
  | ClickClose =>
      (if display st && bool_decide (is_Some (translateButton st))
       then hidePopup st else st, [])
  | ClickTranslate href =>
      match translateButton st with
      | Some b =>
          if display st && negb (disabled b) && negb (hidden b)
          then requestTranslation href st else (st, [])
      | None => (st, [])
      end
  | ClickRetry href =>
      if display st && bool_decide (RetryButton ∈ notes st)
      then requestTranslation href
             (mkUi (currentWord st) (currentParagraph st) false (display st)
                (translateButton st) (notes st) (shown st) (sent st) (waiting st))
      else (st, [])
  | Answer request a =>
      match list_find (fun w => w.1 = request) (waiting st) with
      | Some (i, (_, found)) =>
          resume request found a
            (mkUi (currentWord st) (currentParagraph st) (isTranslating st)
               (display st) (translateButton st) (notes st) (shown st) (sent st)
               (delete i (waiting st)))
      | None => (st, [])
      end
  end.

(** A run of events from a state: the state reached and everything done on
    the way, in order. *)
Fixpoint run (evs : list event) (st : state) : state * list effect :=
  match evs with
  | [] => (st, [])
  | ev :: evs' =>
      let '(st1, es1) := handle ev st in
      let '(st2, es2) := run evs' st1 in
      (st2, es1 ++ es2)
  end.

(** *** What the content script sends *)

(** A word that passed the check of the [mouseup] listener, and a context
    as [getEnclosingParagraphText] returns it. *)
Definition checkedWord (w : jsstring) : Prop :=
  WORD_REGEX_test w = true /\ 0 < length w <= MAX_WORD_LENGTH.

Definition cappedContext (c : jsstring) : Prop :=
  length c <= 500 /\ trim c = c.

Definition checkedEffect (e : effect) : Prop :=
  match e with
  | Send (TRANSLATE_WORD w p _) => checkedWord w /\ cappedContext p
  | Send _ => False
  | HighlightSingleWord w _ => checkedWord w
  end.

(** The popup has a word to translate, or it has nothing to click and
    waits for nothing. *)
Definition ready (st : state) : Prop :=
  (checkedWord (currentWord st) /\ cappedContext (currentParagraph st)) \/
  (translateButton st = None /\ (RetryButton ∉ notes st) /\ waiting st = []).

Lemma selectedWord_checked selection w :
  selectedWord selection = Some w -> checkedWord w.
Proof.
  unfold selectedWord.
  destruct (nonEmpty (trim selection)) eqn:Hne; [|done].
  destruct (WORD_REGEX_test (trim selection)) eqn:Hre; [|done].
  destruct (Nat.leb_spec (length (trim selection)) MAX_WORD_LENGTH) as [Hle|];
    [|done].
  intros [= <-]. split; [done|]. split; [|done].
  destruct (trim selection); [done|simpl; lia].
Qed.

Lemma ready_same st st' :
  currentWord st' = currentWord st ->
  currentParagraph st' = currentParagraph st ->
  (translateButton st = None -> translateButton st' = None) ->
  (RetryButton ∉ notes st -> RetryButton ∉ notes st') ->
  (waiting st = [] -> waiting st' = []) ->
  ready st -> ready st'.
Proof.
  intros Hw Hp Hb Hn Hq [Hvalid|(? & ? & ?)].
  - left. by rewrite Hw, Hp.
  - right. auto.
Qed.

Lemma ready_hidePopup st : ready st -> ready (hidePopup st).
Proof.
  apply ready_same; cbn [hidePopup currentWord currentParagraph translateButton
    notes waiting]; try done.
  intros _. apply not_elem_of_nil.
Qed.

Lemma ready_requestTranslation href st st' es :
  ready st ->
  translateButton st <> None \/ RetryButton ∈ notes st ->
  requestTranslation href st = (st', es) ->
  ready st' /\ Forall checkedEffect es.
Proof.
  intros Hready Hclick. unfold requestTranslation.
  destruct Hready as [Hvalid|(Hb & Hn & _)]; [|by destruct Hclick].
  destruct (isTranslating st); intros [= <- <-].
  - split; [by left|done].
  - split; [by left|]. constructor; [exact Hvalid|constructor].
Qed.

Lemma ready_showError msg st : ready st -> waiting st <> [] -> ready (showError msg st).
Proof.
  intros [Hvalid|(_ & _ & Hw)] Hwait; [|done].
  left. unfold showError. by destruct (includes _ _).
Qed.

Lemma ready_handle ev st st' es :
  ready st -> handle ev st = (st', es) ->
  ready st' /\ Forall checkedEffect es.
Proof.
  intros Hready. destruct ev as [inside selection visible chain bodyText|escape|
    |href|href|request a]; cbn [handle].
  - destruct inside; [by intros [= <- <-]|].
    destruct selection as [text|].
    + destruct (selectedWord text) as [word|] eqn:Hsel; [|by intros [= <- <-]].
      destruct visible; intros [= <- <-]; [|done].
      split; [|done]. left. cbn [showPopup currentWord currentParagraph].
      split; [by eapply selectedWord_checked|apply context_valid].
    + intros [= <- <-]. split; [|done].
      destruct (display st && negb (isTranslating st)); [|done].
      by apply ready_hidePopup.
  - intros [= <- <-]. split; [|done].
    destruct escape; [|done]. by apply ready_hidePopup.
  - intros [= <- <-]. split; [|done].
    destruct (display st && _); [|done]. by apply ready_hidePopup.
  - destruct (translateButton st) as [b|] eqn:Hb; [|by intros [= <- <-]].
    destruct (display st && negb (disabled b) && negb (hidden b));
      [|by intros [= <- <-]].
    apply ready_requestTranslation; [done|]. left. by rewrite Hb.
  - destruct (display st) eqn:Hd; cbn [andb]; [|by intros [= <- <-]].
    case_bool_decide as Hretry; [|by intros [= <- <-]].
    apply ready_requestTranslation; [|by right].
    revert Hready. by apply ready_same.
  - destruct (list_find _ (waiting st)) as [[i [request' found]]|] eqn:Hfind;
      [|by intros [= <- <-]].
    assert (checkedWord (currentWord st) /\ cappedContext (currentParagraph st))
      as Hvalid.
    { destruct Hready as [?|(_ & _ & Hw)]; [done|].
      rewrite Hw in Hfind. done. }
    unfold resume.
    destruct a as [translation updated|error|reason]; intros [= <- <-].
    + split; [by left|]. constructor; [apply Hvalid|constructor].
    + split; [|done]. left. unfold showError. by destruct (includes _ _).
    + split; [|done]. left. unfold showError. by destruct (includes _ _).
Qed.

Lemma ready_run evs st st' es :
  ready st -> run evs st = (st', es) ->
  ready st' /\ Forall checkedEffect es.
Proof.
  revert st es. induction evs as [|ev evs IH]; intros st es Hready;
    cbn [run].
  - by intros [= <- <-].
  - destruct (handle ev st) as [st1 es1] eqn:H1.
    destruct (run evs st1) as [st2 es2] eqn:H2.
    intros [= <- <-].
    destruct (ready_handle _ _ _ _ Hready H1) as [Hr1 He1].
    destruct (IH _ _ Hr1 H2) as [Hr2 He2].
    split; [done|]. by apply Forall_app.
Qed.

Lemma ready_initial : ready initial.
Proof. right. split_and!; [done| |done]. apply not_elem_of_nil. Qed.

Lemma run_initial_checked evs :
  Forall checkedEffect (run evs initial).2.
Proof.
  destruct (run evs initial) as [st es] eqn:Hrun.
  by destruct (ready_run evs initial st es ready_initial Hrun).
Qed.

(** Whatever happens on the page (selections, clicks, key presses, answers
    arriving late or for an earlier popup), every message the content script
    sends is a [TRANSLATE_WORD] whose word passed the selection check (letters,
    apostrophes and hyphens only, 1 to 45 units) and whose paragraph has at
    most 500 units and no white space at either end; and every word it asks
    to highlight passed the same check. *)
Theorem content_script_sends_checked_words evs st effects :
  run evs initial = (st, effects) ->
  (forall m, Send m ∈ effects ->
     exists word paragraph href,
       m = TRANSLATE_WORD word paragraph href /\
       WORD_REGEX_test word = true /\ 0 < length word <= 45 /\
       length paragraph <= 500 /\ trim paragraph = paragraph) /\
  (forall word translation, HighlightSingleWord word translation ∈ effects ->
     WORD_REGEX_test word = true /\ 0 < length word <= 45).
Proof.
  intros Hrun.
  destruct (ready_run evs initial st effects ready_initial Hrun) as [_ Hall].
  rewrite Forall_forall in Hall. split.
  - intros m Hm. specialize (Hall _ Hm). simpl in Hall.
    destruct m as [word paragraph href| | | |]; try done.
    destruct Hall as [[? ?] [? ?]]. by exists word, paragraph, href.
  - intros word translation Hm. specialize (Hall _ Hm). apply Hall.
Qed.

End WithCaseTable.

(** A selection, a click on the button, the answer. *)
Definition selectAndTranslate : list event :=
  [ MouseUp false (Some (js " zebra ")) true Selection.anchorChain
      (js "menu" ++ Selection.paragraph800);
    ClickTranslate (js "https://example.org/");
    Answer 0 (Succeeded (js "banma") false) ].

(** A selection of [cat] in a short paragraph and a click on the button. *)
Definition selectCat : list event :=
  [ MouseUp false (Some (js "cat")) true
      [Selection.mkAncestor (js "P") (js "A cat sat.")] (js "A cat sat.");
    ClickTranslate (js "u1") ].

Lemma content_script_sends_checked_words_witness :
  exists word paragraph href,
    TRANSLATE_WORD (js "cat") (js "A cat sat.") (js "u1")
      = TRANSLATE_WORD word paragraph href /\
    WORD_REGEX_test word = true /\ 0 < length word <= 45 /\
    length paragraph <= 500 /\ trim paragraph = paragraph.
Proof.
  apply (proj1 (content_script_sends_checked_words asciiToLowerCase
                  selectCat _ _ eq_refl)).
  vm_compute. left.
Defined.

Example selectAndTranslate_effects :
  exists paragraph,
    (run asciiToLowerCase selectAndTranslate initial).2 =
      [ Send (TRANSLATE_WORD (js "zebra") paragraph (js "https://example.org/"));
        HighlightSingleWord (js "zebra") (js "banma") ] /\
    length paragraph = 499.
Proof. eexists. split; vm_compute; reflexivity. Qed.

End ContentUi.

(** ** The vocabulary page of the toolbar popup (popup.js) *)

Module PopupPage.
Import Store Selection Context Dom Worker.

(** [truncate(str, max)]. *)
Definition truncate (str : jsstring) (max : Z) : jsstring :=
  if (Z.of_nat (length str) <=? max)%Z then str
  else slice 0 max str ++ js "...".

(** [saveEdit] of [handleEdit], for the item of [word] whose translation
    read [currentTranslation] when the edit began: the message it sends, if
    it does not revert. *)
Definition saveEdit (word currentTranslation inputValue : jsstring)
    : option message :=
  let newTranslation := trim inputValue in
  if negb (nonEmpty newTranslation)
     || bool_decide (newTranslation = currentTranslation)
  then None
  else Some (UPDATE_WORD word newTranslation).

(** The value sanitization of an [input] of type [text]: whatever is
    assigned to [input.value], typed or pasted is kept without its line feeds
    and carriage returns. *)
Definition stripNewlines (s : jsstring) : jsstring :=
  filter (fun c => c <> 10%N /\ c <> 13%N) s.

(** How the edit of an item ends: the field was given a text and then left
    (Enter blurs it), or it was left as [handleEdit] filled it (a blur, or
    Escape, which assigns [currentTranslation] again). *)
Inductive editing :=
| Typed (text : jsstring)
| Unchanged.

(** [input.value] when [saveEdit] runs. *)
Definition fieldValue (currentTranslation : jsstring) (e : editing) : jsstring :=
  match e with
  | Typed text => stripNewlines text
  | Unchanged => stripNewlines currentTranslation
  end.

(** [handleEdit] for the item of [word] that shows [currentTranslation]: the
    message sent when the field is left, if any. *)
Definition handleEdit (word currentTranslation : jsstring) (e : editing)
    : option message :=
  saveEdit word currentTranslation (fieldValue currentTranslation e).

(** What [renderList] puts in the list element. *)
Inductive listing :=
| Placeholder (searching : bool)
    (* the [vocab-empty] line: no match for the query, or an empty list *)
| Items (entries : list VocabEntry).

Section WithRuntime.

Variable toLowerCase : jsstring -> jsstring.

(** [new Date(s).getTime()]; [None] stands for [NaN], the time of an
    invalid date. *)
Variable timeOf : jsstring -> option Z.

(** The filter of [renderList]. *)
Definition matchesQuery (query : jsstring) (e : VocabEntry) : bool :=
  ContentUi.includes query (toLowerCase (word e))
  || ContentUi.includes query (toLowerCase (translation e)).

(** The comparison function [new Date(b.addedAt) - new Date(a.addedAt)];
    a [NaN] counts as [+0] in a sort. *)
Definition compareNewest (a b : VocabEntry) : Z :=
  match timeOf (addedAt b), timeOf (addedAt a) with
  | Some tb, Some ta => (tb - ta)%Z
  | _, _ => 0%Z
  end.

(** [Array.prototype.sort] is stable; for a consistent comparison function
    every stable sort gives the same array, the one insertion from the right
    builds. *)
Fixpoint insertSorted (x : VocabEntry) (l : list VocabEntry) : list VocabEntry :=
  match l with
  | [] => [x]
  | y :: l' =>
      if (compareNewest x y <=? 0)%Z then x :: y :: l'
      else y :: insertSorted x l'
  end.

Definition sortNewest (l : list VocabEntry) : list VocabEntry :=
  foldr insertSorted [] l.

(** [renderList(list)] with [searchInput.value]: the listing and the number
    in the footer. *)
Definition renderList (searchValue : jsstring) (vocabList : list VocabEntry)
    : listing * nat :=
  let query := toLowerCase (trim searchValue) in
  let filtered :=
    if nonEmpty query then List.filter (matchesQuery query) vocabList else vocabList in
  (match filtered with
   | [] => Placeholder (nonEmpty query)
   | _ :: _ => Items (sortNewest filtered)
   end,
   length vocabList).

(** An entry is newer than, or as old as, every entry after it. *)
Fixpoint newestFirst (l : list VocabEntry) : Prop :=
  match l with
  | [] => True
  | x :: l' =>
      Forall (fun y => exists tx ty, timeOf (addedAt x) = Some tx /\
                                     timeOf (addedAt y) = Some ty /\ (ty <= tx)%Z) l'
      /\ newestFirst l'
  end.

Definition dated (e : VocabEntry) : Prop := is_Some (timeOf (addedAt e)).

(** The entries [renderList] is to show for a search value. *)
Definition wanted (searchValue : jsstring) (vocabList : list VocabEntry)
    : list VocabEntry :=
  let query := toLowerCase (trim searchValue) in
  List.filter (fun e => negb (nonEmpty query) || matchesQuery query e) vocabList.

(** The entries of [l] added at the instant [t], in the order of [l]. *)
Definition addedWhen (t : Z) (l : list VocabEntry) : list VocabEntry :=
  filter (fun e => timeOf (addedAt e) = Some t) l.

(** *** Helper lemmas *)

Lemma insertSorted_Permutation x l : insertSorted x l ≡ₚ x :: l.
Proof.
  induction l as [|y l IH]; simpl; [done|].
  destruct (compareNewest x y <=? 0)%Z; [done|].
  rewrite IH. apply Permutation_swap.
Qed.

Lemma sortNewest_Permutation l : sortNewest l ≡ₚ l.
Proof.
  induction l as [|x l IH]; simpl; [done|].
  by rewrite insertSorted_Permutation, IH.
Qed.

Lemma compareNewest_dated x y :
  dated x -> dated y ->
  exists tx ty, timeOf (addedAt x) = Some tx /\ timeOf (addedAt y) = Some ty /\
    compareNewest x y = (ty - tx)%Z.
Proof.
  intros [tx Hx] [ty Hy]. exists tx, ty. unfold compareNewest.
  by rewrite Hx, Hy.
Qed.

Lemma insertSorted_newestFirst x l :
  dated x -> Forall dated l -> newestFirst l -> newestFirst (insertSorted x l).
Proof.
  intros Hx. induction l as [|y l IH]; simpl.
  - intros _ _. split; [constructor|done].
  - intros [Hy Hl]%Forall_cons [Hyl Hsorted].
    destruct (compareNewest_dated x y Hx Hy) as (tx & ty & Htx & Hty & Hcmp).
    rewrite Hcmp. destruct (Z.leb_spec (ty - tx) 0) as [Hle|Hgt].
    + simpl. split_and!; [|done|done].
      constructor.
      * exists tx, ty. split_and!; [done|done|lia].
      * eapply Forall_impl; [exact Hyl|]. simpl.
        intros z (ty' & tz & Hty' & Htz & Hle').
        exists tx, tz. split_and!; [done|done|].
        assert (ty' = ty) as -> by congruence. lia.
    + simpl. split; [|by apply IH].
      rewrite insertSorted_Permutation. constructor; [|done].
      exists ty, tx. split_and!; [done|done|lia].
Qed.

Lemma sortNewest_newestFirst l : Forall dated l -> newestFirst (sortNewest l).
Proof.
  induction l as [|x l IH]; simpl; [done|].
  intros [Hx Hl]%Forall_cons.
  apply insertSorted_newestFirst; [done| |by apply IH].
  by rewrite sortNewest_Permutation.
Qed.

Lemma addedWhen_insertSorted t x l :
  dated x -> Forall dated l ->
  addedWhen t (insertSorted x l) = addedWhen t (x :: l).
Proof.
  intros Hx. unfold addedWhen. induction l as [|y l IH]; simpl; [done|].
  intros [Hy Hl]%Forall_cons.
  destruct (compareNewest_dated x y Hx Hy) as (tx & ty & Htx & Hty & Hcmp).
  rewrite Hcmp. destruct (Z.leb_spec (ty - tx) 0) as [Hle|Hgt]; [done|].
  rewrite !filter_cons, (IH Hl), !filter_cons.
  rewrite Htx, Hty.
  destruct (decide (Some ty = Some t)) as [[= ->]|Hyt];
    destruct (decide (Some tx = Some t)) as [[= ->]|Hxt]; try done.
  lia.
Qed.

Lemma addedWhen_sortNewest t l :
  Forall dated l -> addedWhen t (sortNewest l) = addedWhen t l.
Proof.
  induction l as [|x l IH]; simpl; [done|].
  intros [Hx Hl]%Forall_cons.
  rewrite addedWhen_insertSorted; [|done|by rewrite sortNewest_Permutation].
  unfold addedWhen in *. by rewrite !filter_cons, (IH Hl).
Qed.

Lemma Forall_dated_filter (f : VocabEntry -> bool) l :
  Forall dated l -> Forall dated (List.filter f l).
Proof.
  induction 1 as [|x l Hx _ IH]; simpl; [done|].
  destruct (f x); [by constructor|done].
Qed.

(** *** The list the popup shows *)

(** When every stored [addedAt] parses as a date, [renderList] shows each
    entry whose lower-cased word or translation contains the trimmed,
    lower-cased search value (every entry, for an empty search value) exactly
    once, the newest first and entries of the same instant in the order of the
    stored list; it shows the placeholder exactly when there is no such entry
    (the placeholder only then, a list of items only when there is one); and
    the footer counts the whole list, not the entries shown. *)
Theorem renderList_shows searchValue vocabList :
  Forall dated vocabList ->
  (renderList searchValue vocabList).2 = length vocabList /\
  match (renderList searchValue vocabList).1 with
  | Placeholder searching =>
      wanted searchValue vocabList = [] /\
      searching = nonEmpty (toLowerCase (trim searchValue))
  | Items entries =>
      wanted searchValue vocabList <> [] /\
      entries ≡ₚ wanted searchValue vocabList /\
      newestFirst entries /\
      forall t, addedWhen t entries = addedWhen t (wanted searchValue vocabList)
  end.
Proof.
  intros Hdated. split; [done|].
  unfold renderList, wanted. cbn [fst].
  set (query := toLowerCase (trim searchValue)).
  assert ((if nonEmpty query then List.filter (matchesQuery query) vocabList
           else vocabList)
          = List.filter (fun e => negb (nonEmpty query) || matchesQuery query e)
              vocabList) as ->.
  { destruct (nonEmpty query); cbn [negb orb]; [done|].
    clear. induction vocabList as [|x l IH]; simpl; [done|]. by rewrite <- IH. }
  pose proof (Forall_dated_filter
                (fun e => negb (nonEmpty query) || matchesQuery query e)
                vocabList Hdated) as Hd.
  destruct (List.filter _ vocabList) as [|e rest] eqn:Hf; [by split|].
  split_and!.
  - done.
  - apply sortNewest_Permutation.
  - exact (sortNewest_newestFirst _ Hd).
  - intros t. exact (addedWhen_sortNewest t _ Hd).
Qed.

End WithRuntime.

(** *** [truncate] *)

(** For a limit that is not negative, [truncate] returns at most the limit
    plus three units; a string within the limit comes back as it is, a longer
    one as its first [max] units followed by three full stops; and truncating
    what was truncated changes nothing. *)
Theorem truncate_spec (str : jsstring) (max : Z) :
  (0 <= max)%Z ->
  (Z.of_nat (length (truncate str max)) <= max + 3)%Z /\
  ((Z.of_nat (length str) <= max)%Z -> truncate str max = str) /\
  ((max < Z.of_nat (length str))%Z ->
   truncate str max = take (Z.to_nat max) str ++ js "...") /\
  truncate (truncate str max) max = truncate str max.
Proof.
  intros Hmax.
  assert (forall s, (max < Z.of_nat (length s))%Z ->
            truncate s max = take (Z.to_nat max) s ++ js "...") as Hlong.
  { intros s Hs. unfold truncate.
    destruct (Z.leb_spec (Z.of_nat (length s)) max); [lia|].
    f_equal. unfold slice.
    destruct (Z.ltb_spec 0 0); [lia|]. destruct (Z.ltb_spec max 0); [lia|].
    rewrite (Z.min_l 0), (Z.min_l max), Z.sub_0_r, Z.max_l by lia. done. }
  assert (forall s, (Z.of_nat (length s) <= max)%Z -> truncate s max = s) as Hshort.
  { intros s Hs. unfold truncate.
    by destruct (Z.leb_spec (Z.of_nat (length s)) max); [|lia]. }
  split_and!; [|apply Hshort|apply Hlong|].
  - destruct (Z.leb_spec (Z.of_nat (length str)) max) as [Hle|Hgt].
    + rewrite Hshort by done. lia.
    + rewrite Hlong by done. rewrite length_app, length_take. simpl. lia.
  - destruct (Z.leb_spec (Z.of_nat (length str)) max) as [Hle|Hgt].
    + rewrite (Hshort str Hle). exact (Hshort str Hle).
    + rewrite (Hlong str Hgt). rewrite Hlong.
      * rewrite take_app_le by (rewrite length_take; lia).
        by rewrite take_take, Nat.min_id.
      * rewrite length_app, length_take. simpl. lia.
Qed.

(** *** The page on concrete inputs *)

(** The dates of the two entries of the examples, as days. *)
Definition dayOf (s : jsstring) : option Z :=
  if decide (s = js "2026-02-11") then Some 11%Z
  else if decide (s = js "2026-02-12") then Some 12%Z
  else None.

Example renderList_all :
  renderList asciiToLowerCase dayOf [] [Scanner.catEntry; Scanner.dogEntry]
  = (Items [Scanner.dogEntry; Scanner.catEntry], 2).
Proof. reflexivity. Qed.

Example renderList_search :
  renderList asciiToLowerCase dayOf (js " MA ") [Scanner.catEntry; Scanner.dogEntry]
  = (Items [Scanner.catEntry], 2).
Proof. reflexivity. Qed.

Lemma renderList_shows_witness :
  (renderList asciiToLowerCase dayOf (js " Mao ")
     [Scanner.catEntry; Scanner.dogEntry]).2 = 2 /\
  match (renderList asciiToLowerCase dayOf (js " Mao ")
           [Scanner.catEntry; Scanner.dogEntry]).1 with
  | Placeholder searching =>
      wanted asciiToLowerCase (js " Mao ") [Scanner.catEntry; Scanner.dogEntry]
        = [] /\
      searching = nonEmpty (asciiToLowerCase (trim (js " Mao ")))
  | Items entries =>
      wanted asciiToLowerCase (js " Mao ") [Scanner.catEntry; Scanner.dogEntry]
        <> [] /\
      entries ≡ₚ wanted asciiToLowerCase (js " Mao ")
                   [Scanner.catEntry; Scanner.dogEntry] /\
      newestFirst dayOf entries /\
      forall t, addedWhen dayOf t entries
                = addedWhen dayOf t
                    (wanted asciiToLowerCase (js " Mao ")
                       [Scanner.catEntry; Scanner.dogEntry])
  end.
Proof.
  apply (renderList_shows asciiToLowerCase dayOf (js " Mao ")
           [Scanner.catEntry; Scanner.dogEntry]).
  repeat constructor; by eexists.
Defined.

Lemma truncate_spec_witness :
  truncate (truncate (js "A cat sat on the mat.") 5) 5 = js "A cat...".
Proof.
  destruct (truncate_spec (js "A cat sat on the mat.") 5 ltac:(done))
    as (_ & _ & _ & ->).
  reflexivity.
Defined.

End PopupPage.

(** ** The pages and the service worker together *)

Module Extension.
Import Store Selection Context Dom Scanner Highlights Api Options Worker ContentUi
  PopupPage.

Section WithCaseTable.

Variable toLowerCase : jsstring -> jsstring.
Variable upperNonAscii : N -> jsstring.

(** An entry as the extension's own pages can make it: a word that passed
    the selection check, a translation that is not empty and has no white
    space around it, a context of at most 500 units with no white space
    around it. *)
Definition checkedEntry (e : VocabEntry) : Prop :=
  checkedWord (word e) /\
  translation e <> [] /\ trim (translation e) = translation e /\
  cappedContext (context e).

(** The messages the pages of the extension send to the service worker: the
    content script from its popup, in any run of events on a page; the
    vocabulary page when an edit is saved or an entry deleted; both when they
    ask for the list. *)
Inductive fromPages : message -> Prop :=
| from_selection evs m :
    Send m ∈ (run toLowerCase evs initial).2 -> fromPages m
| from_edit word currentTranslation inputValue m :
    saveEdit word currentTranslation inputValue = Some m -> fromPages m
| from_delete word : fromPages (DELETE_WORD word)
| from_list : fromPages SCAN_PAGE.

(** The vocabulary lists storage can hold, from an empty vocabulary: each
    message handled with whatever settings, network and clock. *)
Inductive storeAfter : list VocabEntry -> Prop :=
| store_empty : storeAfter []
| store_handled vocabList s fetch now m :
    storeAfter vocabList -> fromPages m ->
    storeAfter (stored (onMessage toLowerCase s fetch now m vocabList)).

(** *** Helper lemmas *)

Lemma saveEdit_Some word currentTranslation inputValue m :
  saveEdit word currentTranslation inputValue = Some m ->
  exists t, m = UPDATE_WORD word t /\ t <> [] /\ trim t = t.
Proof.
  unfold saveEdit. destruct (nonEmpty (trim inputValue)) eqn:Hne; [|done].
  case_bool_decide; [done|]. intros [= <-].
  exists (trim inputValue). split_and!; [done| |apply trim_trim].
  by destruct (trim inputValue).
Qed.

Lemma checked_save now entry vocabList :
  Forall checkedEntry vocabList ->
  checkedEntry (freshEntry now entry) ->
  Forall checkedEntry (saveVocabEntry toLowerCase now entry vocabList).1.
Proof.
  intros Hall Hnew. unfold saveVocabEntry.
  destruct (list_find _ vocabList) as [[i old]|]; simpl.
  - by apply Forall_insert.
  - apply Forall_app. split; [done|]. by constructor.
Qed.

Lemma checked_update w t vocabList :
  Forall checkedEntry vocabList -> t <> [] -> trim t = t ->
  Forall checkedEntry (updateVocabEntry toLowerCase w t vocabList).1.
Proof.
  intros Hall Hne Ht. unfold updateVocabEntry.
  destruct (list_find _ vocabList) as [[i old]|] eqn:Hf; simpl; [|done].
  apply Forall_insert; [done|].
  apply list_find_Some in Hf as (Hi & _ & _).
  rewrite Forall_forall in Hall.
  destruct (Hall old (list_elem_of_lookup_2 _ _ _ Hi)) as (? & _ & _ & ?).
  done.
Qed.

Lemma checked_delete w vocabList :
  Forall checkedEntry vocabList ->
  Forall checkedEntry (deleteVocabEntry toLowerCase w vocabList).1.
Proof.
  intros Hall. unfold deleteVocabEntry. simpl.
  apply Forall_forall. intros e [_ He]%list_elem_of_filter.
  rewrite Forall_forall in Hall. by apply Hall.
Qed.

Lemma fromPages_handled s fetch now m vocabList :
  fromPages m ->
  Forall checkedEntry vocabList /\ unique toLowerCase vocabList ->
  Forall checkedEntry (stored (onMessage toLowerCase s fetch now m vocabList)) /\
  unique toLowerCase (stored (onMessage toLowerCase s fetch now m vocabList)).
Proof.
  intros Hm [Hall Hu]. destruct Hm as [evs m Hsend|word current input m Hedit|word|].
  - pose proof (run_initial_checked toLowerCase evs) as Hchecked.
    rewrite Forall_forall in Hchecked. specialize (Hchecked _ Hsend).
    destruct m as [word paragraph sourceUrl| | | |]; try done.
    destruct Hchecked as [Hword Hcontext]. cbn [onMessage].
    destruct (getApiConfig s) as [[|k key] model]; [done|].
    destruct (translateWord _ _ _ _ fetch) as [t|reason] eqn:Ht; [|done].
    apply translateWord_trimmed in Ht as [Hne Htrim].
    cbn [stored]. split; [|by apply save_unique].
    apply checked_save; [done|]. done.
  - apply saveEdit_Some in Hedit as (t & -> & Hne & Htrim). cbn [onMessage stored].
    split; [by apply checked_update|by apply update_unique].
  - cbn [onMessage stored].
    split; [by apply checked_delete|by apply delete_unique].
  - done.
Qed.

Lemma storeAfter_checked vocabList :
  storeAfter vocabList ->
  Forall checkedEntry vocabList /\ unique toLowerCase vocabList.
Proof.
  induction 1 as [|vocabList s fetch now m _ IH Hm].
  - split; [done|apply NoDup_nil_2].
  - by apply fromPages_handled.
Qed.

Lemma checked_selectable vocabList :
  Forall checkedEntry vocabList -> selectable vocabList.
Proof. intros Hall. eapply Forall_impl; [exact Hall|]. by intros e [[? _] _]. Qed.

Lemma unique_same_key vocabList e e' :
  unique toLowerCase vocabList -> e ∈ vocabList -> e' ∈ vocabList ->
  toLowerCase (word e') = toLowerCase (word e) -> e' = e.
Proof.
  unfold unique. induction vocabList as [|x l IH]; [by intros _ ?%elem_of_nil|].
  rewrite fmap_cons. intros [Hx Hl]%NoDup_cons He He' Hk.
  apply elem_of_cons in He as [->|He]; apply elem_of_cons in He' as [->|He'].
  - done.
  - exfalso. apply Hx. unfold key at 1. rewrite <- Hk.
    by apply (list_elem_of_fmap_2 (key toLowerCase)).
  - exfalso. apply Hx. unfold key at 1. rewrite Hk.
    by apply (list_elem_of_fmap_2 (key toLowerCase)).
  - by apply IH.
Qed.

(** *** The stored vocabulary *)

(** Whatever the users do on pages and in the vocabulary page, whatever the
    translation service answers and whatever the settings are, every entry in
    storage has a word that passed the selection check, a translation that is
    not empty and not padded with white space, and a context of at most 500
    units; no two entries have the same word up to case; and the vocabulary is
    one the scanner's pattern is well defined for ([selectable]). *)
Theorem store_holds_checked_entries vocabList :
  storeAfter vocabList ->
  Forall checkedEntry vocabList /\
  unique toLowerCase vocabList /\
  selectable vocabList.
Proof.
  intros [Hall Hu]%storeAfter_checked.
  split_and!; [done|done|by apply checked_selectable].
Qed.

(** *** The stored vocabulary on a page *)

(** The highlight is for one entry of the vocabulary, the only one with its
    text as word up to case, and the tooltip over it shows that entry's word
    and translation. *)
Definition showsStoredEntry (vocabList : list VocabEntry)
    (h : element * jsstring) : Prop :=
  exists e,
    e ∈ vocabList /\
    toLowerCase h.2 = toLowerCase (word e) /\
    tooltipOf h.1 h.2 = Some (word e, translation e) /\
    forall e', e' ∈ vocabList ->
      toLowerCase (word e') = toLowerCase h.2 -> e' = e.

(** With any vocabulary the extension can have stored, a scan of any page
    returns, and every highlight it leaves has a tooltip: the word and the
    translation of the one stored entry whose word is the highlighted text up
    to case ([toLowerCase] acting on ASCII strings as ASCII lower-casing). *)
Theorem stored_words_show_their_translation vocabList p :
  (forall s, Forall (fun c => (c < 128)%N) s ->
     toLowerCase s = asciiToLowerCase s) ->
  storeAfter vocabList ->
  exists p' n,
    scanPageForVocab toLowerCase upperNonAscii vocabList p = Returns p' n /\
    Forall (showsStoredEntry vocabList) (highlightsOf (documentBody p')).
Proof.
  intros Hascii [Hall Hu]%storeAfter_checked.
  pose proof (checked_selectable vocabList Hall) as Hsel.
  destruct (scanPageForVocab_returns toLowerCase upperNonAscii vocabList p)
    as (p' & n & Hscan).
  { eapply Forall_impl; [exact Hall|]. intros e [[_ Hlen] _]. destruct (word e);
      [simpl in Hlen; lia|done]. }
  exists p', n. split; [done|].
  apply (highlightsOf_scan toLowerCase upperNonAscii _ _ _ _ _ Hscan).
  intros Hne.
  eapply Forall_impl.
  - apply (highlight_carriesEntry toLowerCase upperNonAscii Hascii);
      [done|done|].
    apply markerFree_withoutActiveBadge, (markerFree_removeAll p).
  - intros h (e & He & Hkey & _ & _ & Htip).
    exists e. split_and!; [done|done| |].
    + rewrite Forall_forall in Hall.
      destruct (Hall e He) as (_ & Hne' & _). rewrite Htip.
      by destruct (translation e).
    + intros e' He' Hk. apply (unique_same_key vocabList); [done..|].
      by rewrite Hk.
Qed.

(** *** The buttons of an item of the vocabulary page *)

Lemma unique_find vocabList i e :
  unique toLowerCase vocabList -> vocabList !! i = Some e ->
  list_find (fun e' => toLowerCase (word e') = toLowerCase (word e)) vocabList
    = Some (i, e).
Proof.
  intros Hu Hi. apply list_find_Some. split_and!; [done|done|].
  intros j y Hj Hlt Hk.
  assert (i = j) as Heq; [|lia].
  apply (NoDup_lookup _ _ _ (key toLowerCase e) Hu).
  - by rewrite list_lookup_fmap, Hi.
  - rewrite list_lookup_fmap, Hj. cbn. unfold key. by rewrite Hk.
Qed.

Lemma unique_filter_delete vocabList i e :
  unique toLowerCase vocabList -> vocabList !! i = Some e ->
  filter (fun e' => toLowerCase (word e') <> toLowerCase (word e)) vocabList
    = delete i vocabList.
Proof.
  unfold unique. revert i. induction vocabList as [|x l IH]; intros i; [done|].
  rewrite fmap_cons. intros [Hx Hl]%NoDup_cons Hi. destruct i as [|i].
  - injection Hi as ->. rewrite filter_cons_False by (by intros H; apply H).
    cbn [delete list_delete]. clear IH Hl.
    induction l as [|y l IH]; [done|].
    rewrite fmap_cons in Hx. apply not_elem_of_cons in Hx as [Hy Hx].
    rewrite filter_cons_True by (intros Hk; apply Hy; unfold key; by rewrite Hk).
    by rewrite (IH Hx).
  - cbn [lookup list_lookup] in Hi.
    rewrite filter_cons_True.
    + cbn [delete list_delete]. f_equal. by apply IH.
    + intros Hk. apply Hx. unfold key at 1. rewrite Hk.
      apply (list_elem_of_fmap_2 (key toLowerCase)).
      by eapply list_elem_of_lookup_2.
Qed.

Lemma stripNewlines_fixed s :
  stripNewlines s = s <-> Forall (fun c => c <> 10%N /\ c <> 13%N) s.
Proof.
  unfold stripNewlines. split.
  - intros Heq. rewrite <- Heq. apply Forall_forall.
    by intros c [Hc _]%list_elem_of_filter.
  - intros Hall. induction Hall as [|c s Hc _ IH]; [done|].
    by rewrite filter_cons_True, IH.
Qed.

Lemma edgesNotBlank_stripNewlines s :
  edgesNotBlank s = true -> edgesNotBlank (stripNewlines s) = true.
Proof.
  assert (forall c, isWhiteSpace c = false -> c <> 10%N /\ c <> 13%N) as Hnl.
  { intros c Hc. split; intros ->; done. }
  unfold edgesNotBlank, stripNewlines.
  destruct s as [|a s]; [done|]. cbn [head].
  destruct (last (a :: s)) as [b|] eqn:Hlast; [|done].
  intros [Ha%negb_true_iff Hb%negb_true_iff]%andb_true_iff.
  rewrite filter_cons_True by auto. cbn [head].
  assert (last (a :: filter (fun c => c <> 10%N /\ c <> 13%N) s) = Some b) as ->.
  { rewrite <- (filter_cons_True (fun c => c <> 10%N /\ c <> 13%N)) by auto.
    revert Hlast. generalize (a :: s). intros l.
    destruct l as [|x l _] using rev_ind; [done|].
    rewrite last_snoc. intros [= ->].
    rewrite filter_app, filter_cons_True, filter_nil by auto.
    apply last_snoc. }
  by rewrite Ha, Hb.
Qed.

(** For an entry of any vocabulary the extension can have stored, shown as
    an item of the vocabulary page: the delete button removes that entry and
    no other.  Whatever translation the item shows, an edit sends no message
    when the field holds, white space and line breaks apart, nothing or the
    translation shown, and otherwise sends an update that is answered with
    success and changes the translation of that entry, and nothing else, to
    the trimmed value of the field.  For an item that shows the stored
    translation, leaving the field as it was filled (a blur, or Escape) sends
    no message exactly when the translation holds no line feed and no
    carriage return: the field drops them, so a translation with a line
    break inside is rewritten without it. *)
Theorem item_buttons_act_on_their_entry vocabList i e shown ed s fetch now :
  storeAfter vocabList -> vocabList !! i = Some e ->
  stored (onMessage toLowerCase s fetch now (DELETE_WORD (word e)) vocabList)
    = delete i vocabList /\
  (handleEdit (word e) (translation e) Unchanged = None <->
   Forall (fun c => c <> 10%N /\ c <> 13%N) (translation e)) /\
  match handleEdit (word e) shown ed with
  | None =>
      trim (fieldValue shown ed) = [] \/ trim (fieldValue shown ed) = shown
  | Some m =>
      trim (fieldValue shown ed) <> [] /\ trim (fieldValue shown ed) <> shown /\
      let changed :=
        <[i := withTranslation (trim (fieldValue shown ed)) e]> vocabList in
      stored (onMessage toLowerCase s fetch now m vocabList) = changed /\
      reply (onMessage toLowerCase s fetch now m vocabList) = Written true changed
  end.
Proof.
  intros [Hall Hu]%storeAfter_checked Hi.
  rewrite Forall_forall in Hall.
  destruct (Hall e (list_elem_of_lookup_2 _ _ _ Hi)) as (_ & Hne & Htrim & _).
  split; [|split].
  - cbn [onMessage stored]. unfold deleteVocabEntry. cbn [fst].
    by apply unique_filter_delete.
  - unfold handleEdit, saveEdit, fieldValue.
    assert (edgesNotBlank (translation e) = true) as Hedges.
    { destruct (trim_edges (translation e)) as [Hnil|Hedges];
        rewrite Htrim in *; done. }
    rewrite (trim_fixed _ (edgesNotBlank_stripNewlines _ Hedges)).
    rewrite <- stripNewlines_fixed.
    assert (nonEmpty (stripNewlines (translation e)) = true) as ->.
    { pose proof (edgesNotBlank_stripNewlines _ Hedges) as H.
      by destruct (stripNewlines (translation e)). }
    cbn [negb orb]. case_bool_decide; split; done.
  - unfold handleEdit, saveEdit.
    destruct (trim (fieldValue shown ed)) as [|c t] eqn:Hin; [by left|].
    cbn [nonEmpty negb orb]. case_bool_decide as Hsame; [by right|].
    split; [done|]. split; [done|]. cbn zeta. cbn [onMessage stored reply].
    unfold updateVocabEntry. by rewrite (unique_find vocabList i e Hu Hi).
Qed.

(** *** The settings on their way to the request *)

Lemma missingKey_names_the_key : includes (js "API key") missingKey = true.
Proof. reflexivity. Qed.

(** The key and the model typed in the options page are stored trimmed and
    shown again as stored.  With a key that is blank after trimming, a
    [TRANSLATE_WORD] message sends no request and leaves the vocabulary alone,
    and the error it is answered with makes the popup show the hint about the
    settings, without a retry button and with the translate button disabled.
    With any other key it sends one request, to the fixed URL, that carries
    the trimmed key and the trimmed model, the default model when the model is
    blank. *)
Theorem settings_reach_the_request apiKeyInput modelInput s0 fetch now
    word paragraph sourceUrl vocabList st :
  let s := saveSettings apiKeyInput modelInput s0 in
  let h := onMessage toLowerCase s fetch now
             (TRANSLATE_WORD word paragraph sourceUrl) vocabList in
  loadSettings s = (trim apiKeyInput, trim modelInput) /\
  match trim apiKeyInput with
  | [] =>
      requests h = [] /\ stored h = vocabList /\
      exists error,
        reply h = Failure error /\
        notes (showError error st) = notes st ++ [Hint] /\
        (forall b, translateButton (showError error st) = Some b ->
           disabled b = true)
  | _ :: _ =>
      exists request,
        requests h = [request] /\
        url request = API_URL /\
        authorization request = js "Bearer " ++ trim apiKeyInput /\
        Api.model request =
          match trim modelInput with
          | [] => DEFAULT_MODEL
          | _ :: _ => trim modelInput
          end
  end.
Proof.
  intros s h. split.
  { unfold loadSettings, s, saveSettings. cbn [Options.apiKey Options.model].
    by destruct (trim apiKeyInput), (trim modelInput). }
  unfold h, onMessage, getApiConfig, s, saveSettings.
  cbn [Options.apiKey Options.model default].
  destruct (trim apiKeyInput) as [|k key] eqn:Hkey.
  - cbn [requests stored reply]. split_and!; [done|done|].
    exists missingKey. split; [done|].
    unfold showError. rewrite missingKey_names_the_key.
    cbn [notes translateButton]. split; [done|].
    intros b. destruct (translateButton st) as [b0|]; [|done].
    by intros [= <-].
  - destruct (translateWord _ _ _ _ fetch) as [t|reason];
      cbn [requests]; eexists; (split; [reflexivity|]);
      cbn [url authorization Api.model translationRequest];
      (split_and!; [done|done|]); by destruct (trim modelInput).
Qed.

End WithCaseTable.

(** *** The extension on concrete inputs *)

(** The vocabulary after the service worker handled the message, with a key
    in the settings and the service answering a padded translation. *)
Definition afterSelectCat : list VocabEntry :=
  stored
    (onMessage asciiToLowerCase (mkSettings (Some (js "k")) None)
       (fun _ => Answered (Some [mkChoice (Some (mkChatMessage (Some (js " mao "))))]))
       (js "2026-02-11")
       (TRANSLATE_WORD (js "cat") (js "A cat sat.") (js "u1")) []).

Example afterSelectCat_value :
  afterSelectCat =
    [mkEntry (js "cat") (js "mao") (js "A cat sat.") (js "u1") (js "2026-02-11")].
Proof. reflexivity. Qed.

Lemma store_holds_checked_entries_witness :
  Forall checkedEntry afterSelectCat /\
  unique asciiToLowerCase afterSelectCat /\
  selectable afterSelectCat.
Proof.
  apply (store_holds_checked_entries asciiToLowerCase).
  apply store_handled; [apply store_empty|].
  apply (from_selection asciiToLowerCase selectCat).
  vm_compute. left.
Defined.

Lemma stored_words_show_their_translation_witness :
  exists p' n,
    scan afterSelectCat categoryPage = Returns p' n /\
    Forall (showsStoredEntry asciiToLowerCase afterSelectCat)
      (highlightsOf (documentBody p')).
Proof.
  apply (stored_words_show_their_translation asciiToLowerCase Pattern.noUpper
           afterSelectCat categoryPage).
  - intros s _. reflexivity.
  - apply store_handled; [apply store_empty|].
    apply (from_selection asciiToLowerCase selectCat).
    vm_compute. left.
Defined.

Lemma item_buttons_act_on_their_entry_witness :
  stored (onMessage asciiToLowerCase (mkSettings None None)
            (fun _ => NetworkError (js "offline")) (js "2026-02-12")
            (DELETE_WORD (js "cat")) afterSelectCat) = [] /\
  (handleEdit (js "cat") (js "mao") Unchanged = None <->
   Forall (fun c => c <> 10%N /\ c <> 13%N) (js "mao")) /\
  match handleEdit (js "cat") (js "mao") (Typed (js " miao ")) with
  | None =>
      trim (fieldValue (js "mao") (Typed (js " miao "))) = [] \/
      trim (fieldValue (js "mao") (Typed (js " miao "))) = js "mao"
  | Some m =>
      trim (fieldValue (js "mao") (Typed (js " miao "))) <> [] /\
      trim (fieldValue (js "mao") (Typed (js " miao "))) <> js "mao" /\
      let changed :=
        <[0 := withTranslation (trim (fieldValue (js "mao") (Typed (js " miao "))))
                 (mkEntry (js "cat") (js "mao") (js "A cat sat.") (js "u1")
                    (js "2026-02-11"))]> afterSelectCat in
      stored (onMessage asciiToLowerCase (mkSettings None None)
                (fun _ => NetworkError (js "offline")) (js "2026-02-12") m
                afterSelectCat) = changed /\
      reply (onMessage asciiToLowerCase (mkSettings None None)
               (fun _ => NetworkError (js "offline")) (js "2026-02-12") m
               afterSelectCat) = Written true changed
  end.
Proof.
  apply (item_buttons_act_on_their_entry asciiToLowerCase afterSelectCat 0
           (mkEntry (js "cat") (js "mao") (js "A cat sat.") (js "u1")
              (js "2026-02-11"))
           (js "mao") (Typed (js " miao ")) (mkSettings None None)
           (fun _ => NetworkError (js "offline")) (js "2026-02-12")).
  - apply store_handled; [apply store_empty|].
    apply (from_selection asciiToLowerCase selectCat).
    vm_compute. left.
  - reflexivity.
Defined.

(** A translation with a line feed inside, as the translation service may
    answer it, is rewritten by an edit that changes nothing: the field holds
    it without the line feed. *)
Example unchanged_edit_drops_line_feed :
  handleEdit (js "cat") (js "mao" ++ [10%N] ++ js "miao") Unchanged
  = Some (UPDATE_WORD (js "cat") (js "maomiao")).
Proof. reflexivity. Qed.

End Extension.
